(** * Cycles tile manager and denoising feature transform: a shallow embedding

    The development follows [intern/cycles/render/tile.h],
    [intern/cycles/render/tile.cpp] and
    [intern/cycles/filter/filter_transform.h].

    Conventions.
    - A C++ [int] is a [Z].  Signed overflow is undefined behaviour in C++,
      so the arithmetic is the mathematical one; [/] is [Z.quot] (truncation
      towards zero), [>>], [<<], [&], [^] and [|] are [Z.shiftr], [Z.shiftl],
      [Z.land], [Z.lxor] and [Z.lor].
    - A [float] is a binary32 number, a [spec_float] used at precision 24 and
      maximal exponent 128.
    - [vector<T>] and [list<T>] are Rocq lists; positions are looked up with
      [!!] and overwritten with [<[i:=v]>].
    - A pointer into [state.tiles] is the index of the tile it points to. *)

From Stdlib Require Import ZArith Lia Bool SpecFloat Sorted.
From stdpp Require Import base tactics option list numbers.

Local Open Scope Z_scope.

#[local] Set Default Proof Using "Type".

(** ** Small vectors *)

Module I2.
Record int2 := make_int2 { x : Z; y : Z }.
End I2.
Abbreviation int2 := I2.int2.
Abbreviation make_int2 := I2.make_int2.

Definition int2_eqb (a b : int2) : bool :=
  (I2.x a =? I2.x b) && (I2.y a =? I2.y b).

(** ** The Hilbert curve ([tile.cpp], [hilbert_index_to_pos]) *)

(** One turn of the [for] loop: the loop variables are [s], [d] and [xy]. *)
Definition hilbert_step (st : Z * Z * int2) : Z * Z * int2 :=
  let '(s, d, xy) := st in
  let rx := Z.land (Z.shiftr d 1) 1 in
  let ry := Z.land (Z.lxor d rx) 1 in
  let xy :=
    if ry =? 0 then
      let xy := if rx =? 0 then xy
                else make_int2 (s - 1 - I2.x xy) (s - 1 - I2.y xy) in
      make_int2 (I2.y xy) (I2.x xy)
    else xy in
  let xy := make_int2 (I2.x xy + rx * s) (I2.y xy + ry * s) in
  (s * 2, Z.shiftr d 2, xy).

(** [for(int s = 1; s < n; s *= 2)]: [s] doubles, so the loop body runs fewer
    than [n] times and [fuel] never runs out when it starts at [n]. *)
Fixpoint hilbert_loop (fuel : nat) (n : Z) (st : Z * Z * int2) : int2 :=
  match fuel with
  | O => snd st
  | S fuel' =>
      if fst (fst st) <? n then hilbert_loop fuel' n (hilbert_step st)
      else snd st
  end.

Definition hilbert_index_to_pos (n d : Z) : int2 :=
  hilbert_loop (Z.to_nat n) n (1, d, make_int2 0 0).

(** ** The preview divider ([tile.cpp], [get_divider]) *)

Definition INT_MAX : Z := 2147483647.

(** The value of an [int] expression: a product or a shift that leaves the
    32 bits wraps around, in two's complement. *)
Definition int_wrap (z : Z) : Z := (z + 2 ^ 31) mod 2 ^ 32 - 2 ^ 31.

(** The [while] loop of [get_divider]; [None] when [fuel] turns were not
    enough to leave it.  [w*h], [start_resolution*start_resolution] and
    [divider <<= 1] are computed in [int]. *)
Fixpoint get_divider_loop (fuel : nat) (w h start_resolution divider : Z)
  : option Z :=
  if int_wrap (w * h) >? int_wrap (start_resolution * start_resolution) then
    match fuel with
    | O => None
    | S fuel' =>
        get_divider_loop fuel' (Z.max 1 (Z.quot w 2)) (Z.max 1 (Z.quot h 2))
          start_resolution (int_wrap (Z.shiftl divider 1))
    end
  else Some divider.

(** Every turn halves [w] and [h] (never below 1), so after
    [log2 (max w h) + 1] turns both are 1 and the test cannot change any
    more: the loop that has not stopped by then never stops. *)
Definition divider_fuel (w h : Z) : nat := S (Z.to_nat (Z.log2 (Z.max w h))).

Definition get_divider (w h start_resolution : Z) : option Z :=
  if start_resolution =? INT_MAX then Some 1
  else get_divider_loop (divider_fuel w h) w h start_resolution 1.

(** ** Tiles ([tile.h]) *)

Module Tile.
Inductive TileState := RENDER | RENDERED | DENOISE | DENOISED | DONE.

(** The value of the enumerator, used by [<] on tile states. *)
Definition rank (s : TileState) : Z :=
  match s with
  | RENDER => 0 | RENDERED => 1 | DENOISE => 2 | DENOISED => 3 | DONE => 4
  end.

Definition eqb (a b : TileState) : bool := rank a =? rank b.
Definition ltb (a b : TileState) : bool := rank a <? rank b.

(** [buffers] is a [RenderBuffers*]: [None] is [NULL], [Some a] an address. *)
Record t := mk {
  index : Z;
  x : Z; y : Z; w : Z; h : Z;
  device : Z;
  state : TileState;
  buffers : option Z
}.

Definition set_state (s : TileState) (tl : t) : t :=
  mk (index tl) (x tl) (y tl) (w tl) (h tl) (device tl) s (buffers tl).
Definition set_buffers (b : option Z) (tl : t) : t :=
  mk (index tl) (x tl) (y tl) (w tl) (h tl) (device tl) (state tl) b.
End Tile.

Inductive TileOrder :=
| TILE_CENTER
| TILE_RIGHT_TO_LEFT
| TILE_LEFT_TO_RIGHT
| TILE_TOP_TO_BOTTOM
| TILE_BOTTOM_TO_TOP
| TILE_HILBERT_SPIRAL.

Definition TileOrder_eqb (a b : TileOrder) : bool :=
  match a, b with
  | TILE_CENTER, TILE_CENTER | TILE_RIGHT_TO_LEFT, TILE_RIGHT_TO_LEFT
  | TILE_LEFT_TO_RIGHT, TILE_LEFT_TO_RIGHT
  | TILE_TOP_TO_BOTTOM, TILE_TOP_TO_BOTTOM
  | TILE_BOTTOM_TO_TOP, TILE_BOTTOM_TO_TOP
  | TILE_HILBERT_SPIRAL, TILE_HILBERT_SPIRAL => true
  | _, _ => false
  end.

Inductive SpiralDirection :=
| DIRECTION_UP | DIRECTION_LEFT | DIRECTION_DOWN | DIRECTION_RIGHT.

Definition SpiralDirection_eqb (a b : SpiralDirection) : bool :=
  match a, b with
  | DIRECTION_UP, DIRECTION_UP | DIRECTION_LEFT, DIRECTION_LEFT
  | DIRECTION_DOWN, DIRECTION_DOWN | DIRECTION_RIGHT, DIRECTION_RIGHT => true
  | _, _ => false
  end.

(** Modelled from the spec: [BufferParams] is declared in [buffers.h], which
    is not part of the sources at hand.  The fields are those the tile
    manager reads and writes (effective size, full size, offset into the full
    image); a default-constructed value has them all zero. *)
Module BufferParams.
Record t := mk {
  width : Z; height : Z;
  full_x : Z; full_y : Z;
  full_width : Z; full_height : Z
}.
Definition default : t := mk 0 0 0 0 0 0.
End BufferParams.

(** ** The manager and its working state ([tile.h]) *)

Module State.
Record t := mk {
  tiles : list Tile.t;
  tile_stride : Z;
  buffer : BufferParams.t;
  global_buffers : option Z;
  sample : Z;
  num_samples : Z;
  resolution_divider : Z;
  num_tiles : Z;
  num_rendered_tiles : Z;
  total_pixel_samples : Z;
  render_tiles : list (list Z);
  denoise_tiles : list (list Z)
}.

Definition set_tiles v s :=
  mk v (tile_stride s) (buffer s) (global_buffers s) (sample s)
     (num_samples s) (resolution_divider s) (num_tiles s)
     (num_rendered_tiles s) (total_pixel_samples s) (render_tiles s)
     (denoise_tiles s).
Definition set_tile_stride v s :=
  mk (tiles s) v (buffer s) (global_buffers s) (sample s)
     (num_samples s) (resolution_divider s) (num_tiles s)
     (num_rendered_tiles s) (total_pixel_samples s) (render_tiles s)
     (denoise_tiles s).
Definition set_buffer v s :=
  mk (tiles s) (tile_stride s) v (global_buffers s) (sample s)
     (num_samples s) (resolution_divider s) (num_tiles s)
     (num_rendered_tiles s) (total_pixel_samples s) (render_tiles s)
     (denoise_tiles s).
Definition set_global_buffers v s :=
  mk (tiles s) (tile_stride s) (buffer s) v (sample s)
     (num_samples s) (resolution_divider s) (num_tiles s)
     (num_rendered_tiles s) (total_pixel_samples s) (render_tiles s)
     (denoise_tiles s).
Definition set_sample v s :=
  mk (tiles s) (tile_stride s) (buffer s) (global_buffers s) v
     (num_samples s) (resolution_divider s) (num_tiles s)
     (num_rendered_tiles s) (total_pixel_samples s) (render_tiles s)
     (denoise_tiles s).
Definition set_num_samples v s :=
  mk (tiles s) (tile_stride s) (buffer s) (global_buffers s) (sample s)
     v (resolution_divider s) (num_tiles s)
     (num_rendered_tiles s) (total_pixel_samples s) (render_tiles s)
     (denoise_tiles s).
Definition set_resolution_divider v s :=
  mk (tiles s) (tile_stride s) (buffer s) (global_buffers s) (sample s)
     (num_samples s) v (num_tiles s)
     (num_rendered_tiles s) (total_pixel_samples s) (render_tiles s)
     (denoise_tiles s).
Definition set_num_tiles v s :=
  mk (tiles s) (tile_stride s) (buffer s) (global_buffers s) (sample s)
     (num_samples s) (resolution_divider s) v
     (num_rendered_tiles s) (total_pixel_samples s) (render_tiles s)
     (denoise_tiles s).
Definition set_num_rendered_tiles v s :=
  mk (tiles s) (tile_stride s) (buffer s) (global_buffers s) (sample s)
     (num_samples s) (resolution_divider s) (num_tiles s)
     v (total_pixel_samples s) (render_tiles s)
     (denoise_tiles s).
Definition set_total_pixel_samples v s :=
  mk (tiles s) (tile_stride s) (buffer s) (global_buffers s) (sample s)
     (num_samples s) (resolution_divider s) (num_tiles s)
     (num_rendered_tiles s) v (render_tiles s)
     (denoise_tiles s).
Definition set_render_tiles v s :=
  mk (tiles s) (tile_stride s) (buffer s) (global_buffers s) (sample s)
     (num_samples s) (resolution_divider s) (num_tiles s)
     (num_rendered_tiles s) (total_pixel_samples s) v
     (denoise_tiles s).
Definition set_denoise_tiles v s :=
  mk (tiles s) (tile_stride s) (buffer s) (global_buffers s) (sample s)
     (num_samples s) (resolution_divider s) (num_tiles s)
     (num_rendered_tiles s) (total_pixel_samples s) (render_tiles s)
     v.
End State.

Module TileManager.
Record t := mk {
  params : BufferParams.t;
  state : State.t;
  num_samples : Z;
  range_start_sample : Z;
  range_num_samples : Z;
  schedule_denoising : bool;
  progressive : bool;
  tile_size : int2;
  tile_order : TileOrder;
  start_resolution : Z;
  num_devices : Z;
  only_denoise : bool;
  preserve_tile_device : bool;
  background : bool
}.

Definition set_params v m :=
  mk v (state m) (num_samples m) (range_start_sample m)
     (range_num_samples m) (schedule_denoising m) (progressive m)
     (tile_size m) (tile_order m) (start_resolution m) (num_devices m)
     (only_denoise m) (preserve_tile_device m) (background m).
Definition set_state v m :=
  mk (params m) v (num_samples m) (range_start_sample m)
     (range_num_samples m) (schedule_denoising m) (progressive m)
     (tile_size m) (tile_order m) (start_resolution m) (num_devices m)
     (only_denoise m) (preserve_tile_device m) (background m).
Definition set_num_samples v m :=
  mk (params m) (state m) v (range_start_sample m)
     (range_num_samples m) (schedule_denoising m) (progressive m)
     (tile_size m) (tile_order m) (start_resolution m) (num_devices m)
     (only_denoise m) (preserve_tile_device m) (background m).
Definition set_schedule_denoising v m :=
  mk (params m) (state m) (num_samples m) (range_start_sample m)
     (range_num_samples m) v (progressive m)
     (tile_size m) (tile_order m) (start_resolution m) (num_devices m)
     (only_denoise m) (preserve_tile_device m) (background m).
Definition set_tile_order v m :=
  mk (params m) (state m) (num_samples m) (range_start_sample m)
     (range_num_samples m) (schedule_denoising m) (progressive m)
     (tile_size m) v (start_resolution m) (num_devices m)
     (only_denoise m) (preserve_tile_device m) (background m).

(** [state] updated in place. *)
Definition upd_state (f : State.t -> State.t) (m : t) : t :=
  set_state (f (state m)) m.
End TileManager.

(** ** Vectors indexed by an [int] *)

Definition vec_get {A} (l : list A) (i : Z) : option A :=
  if i <? 0 then None else l !! Z.to_nat i.

(** A write outside the vector is undefined behaviour in C++; the model
    leaves the vector as it is. *)
Definition vec_set {A} (l : list A) (i : Z) (v : A) : list A :=
  if i <? 0 then l else <[Z.to_nat i := v]> l.

Definition vec_alter {A} (f : A -> A) (l : list A) (i : Z) : list A :=
  if i <? 0 then l else alter f (Z.to_nat i) l.

(** The list of a device, empty when there is none. *)
Definition queue_at (qs : list (list Z)) (i : Z) : list Z :=
  default [] (vec_get qs i).

(** An [int] converted to [size_t] (64 bits). *)
Definition size_t (z : Z) : Z := z mod 2 ^ 64.

(** An [int] converted to [uint64_t]. *)
Definition uint64_t (z : Z) : Z := z mod 2 ^ 64.

(** ** [std::list::sort]

    The standard asks for a stable sort under the comparison it is given; a
    stable insertion sort is the model. *)
Fixpoint sort_insert (lt : Z -> Z -> bool) (a : Z) (l : list Z) : list Z :=
  match l with
  | [] => [a]
  | b :: l' => if lt a b then a :: b :: l' else b :: sort_insert lt a l'
  end.

Definition list_sort (lt : Z -> Z -> bool) (l : list Z) : list Z :=
  fold_left (fun acc a => sort_insert lt a acc) l [].

(** ** Single precision numbers *)

Definition float : Type := spec_float.
Definition float_of_int (z : Z) : float := binary_normalize 24 128 z 0 false.
Definition fadd : float -> float -> float := SFadd 24 128.
Definition fsub : float -> float -> float := SFsub 24 128.
Definition fmul : float -> float -> float := SFmul 24 128.
Definition fsqrt : float -> float := SFsqrt 24 128.
Definition flt : float -> float -> bool := SFltb.
Definition fle : float -> float -> bool := SFleb.
Definition float_zero : float := S754_zero false.
Definition float_one : float := float_of_int 1.

(** [dot(a, a)] on a [float2]. *)
Definition dot2 (a b : float * float) : float :=
  fadd (fmul (fst a) (fst b)) (fmul (snd a) (snd b)).

(** ** The feature transform ([filter_transform.h])

    [kernel_filter_construct_transform] is given here with the helpers it
    calls; their sources ([filter_features.h], [util_math_matrix.h], the
    pixel window macros) are not at hand. *)

Definition fdiv : float -> float -> float := SFdiv 24 128.
Definition fopp : float -> float := SFopp.

Definition fget (v : list float) (i : Z) : float :=
  default float_zero (vec_get v i).

(** Modelled from the spec: [math_vector_zero], [math_vector_add],
    [math_vector_scale], [math_vector_max] and [math_vector_mul] are not in
    the sources; they act component by component on the first [n] entries
    ("accumulates their sum; divide by N", "a component-wise maximum",
    "multiply component-wise by the per-feature scale vector"), here on the
    [n] entries of [v] that start at [off]. *)
Definition math_vector_zero (n : Z) : list float :=
  replicate (Z.to_nat n) float_zero.

Definition math_vector_zip (op : float -> float -> float) (v : list float)
    (off : Z) (b : list float) (n : Z) : list float :=
  fold_left (fun v j => vec_set v (off + j) (op (fget v (off + j)) (fget b j)))
    (seqZ 0 n) v.

Definition math_vector_add (a b : list float) (n : Z) : list float :=
  math_vector_zip fadd a 0 b n.

Definition math_vector_max (a b : list float) (n : Z) : list float :=
  math_vector_zip (fun u v => if flt u v then v else u) a 0 b n.

Definition math_vector_scale (a : list float) (f : float) (n : Z)
  : list float :=
  fold_left (fun v j => vec_set v j (fmul (fget v j) f)) (seqZ 0 n) a.

Definition math_vector_mul (v : list float) (off : Z) (b : list float) (n : Z)
  : list float :=
  math_vector_zip fmul v off b n.

(** Modelled from the spec: [align_up] is not in the sources; "a row stride
    aligned up to 4 pixels". *)
Definition align_up (offset alignment : Z) : Z :=
  Z.land (offset + alignment - 1) (Z.lnot (alignment - 1)).

(** Modelled from the spec: [FOR_PIXEL_WINDOW] is not in the sources; it
    visits the pixels of the window row by row, and the pixel at [(px, py)] of
    the buffer "starts at offset [py * buffer_w * pass_stride + px *
    pass_stride]". *)
Definition pixel_window (low high : int2) (rect_x rect_y buffer_w pass_stride : Z)
  : list (int2 * Z) :=
  py ← seqZ (I2.y low) (I2.y high - I2.y low);
  px ← seqZ (I2.x low) (I2.x high - I2.x low);
  [(make_int2 px py,
    (py - rect_y) * buffer_w * pass_stride + (px - rect_x) * pass_stride)].

Section Transform.

(** The number of features, a constant of the denoiser. *)
Variable DENOISE_FEATURES : Z.

(** The feature extraction interface and the matrix routines: what a call
    leaves in the array it writes. *)
Variable filter_get_features :
  int2 -> Z -> list float -> option (list float) -> Z -> list float.
Variable filter_get_feature_scales :
  int2 -> Z -> list float -> list float -> Z -> list float.
Variable filter_calculate_scale : list float -> list float.
Variable math_trimatrix_add_gramian :
  list float -> Z -> list float -> float -> list float.
Variable math_trimatrix_jacobi_eigendecomposition :
  list float -> list float -> Z -> Z -> list float * list float.

(** The loop that selects the rank when [pca_threshold > 0]; the loop
    variables are [i], [*rank], [reduced_energy] and the rows of
    [transform]. *)
Fixpoint rank_by_energy (todo : list Z) (feature_matrix feature_scale : list float)
    (threshold_energy : float) (rank : Z) (reduced_energy : float)
    (transform : list float) : list float * Z :=
  match todo with
  | [] => (transform, rank)
  | i :: todo' =>
      let s := fget feature_matrix (i * DENOISE_FEATURES + i) in
      if (i >=? 2) && fle threshold_energy reduced_energy
      then (transform, rank)
      else
        rank_by_energy todo' feature_matrix feature_scale threshold_energy
          (rank + 1) (fadd reduced_energy s)
          (math_vector_mul transform (rank * DENOISE_FEATURES) feature_scale
             DENOISE_FEATURES)
  end.

(** The loop that selects the rank when [pca_threshold <= 0]. *)
Fixpoint rank_by_deviation (todo : list Z) (feature_matrix feature_scale : list float)
    (pca_threshold : float) (rank : Z) (transform : list float)
  : list float * Z :=
  match todo with
  | [] => (transform, rank)
  | i :: todo' =>
      let s := fget feature_matrix (i * DENOISE_FEATURES + i) in
      if (i >=? 2) && flt (fsqrt s) (fopp pca_threshold)
      then (transform, rank)
      else
        rank_by_deviation todo' feature_matrix feature_scale pca_threshold
          (rank + 1)
          (math_vector_mul transform (rank * DENOISE_FEATURES) feature_scale
             DENOISE_FEATURES)
  end.

(** The function gives what it leaves in [transform] and in [*rank]. *)
Definition kernel_filter_construct_transform (sample : Z) (buffer : list float)
    (x y : Z) (rect : Z * Z * Z * Z) (pass_stride : Z)
    (transform : list float) (radius : Z) (pca_threshold : float)
  : list float * Z :=
  let '(rect_x, rect_y, rect_z, rect_w) := rect in
  let buffer_w := align_up (rect_z - rect_x) 4 in
  let low := make_int2 (Z.max rect_x (x - radius)) (Z.max rect_y (y - radius)) in
  let high :=
    make_int2 (Z.min rect_z (x + radius + 1)) (Z.min rect_w (y + radius + 1)) in
  let window := pixel_window low high rect_x rect_y buffer_w pass_stride in
  (* Shift feature passes to have mean 0. *)
  let feature_means :=
    fold_left
      (fun means '(pixel, pixel_buffer) =>
         math_vector_add means
           (filter_get_features pixel pixel_buffer buffer None pass_stride)
           DENOISE_FEATURES)
      window (math_vector_zero DENOISE_FEATURES) in
  let pixel_scale :=
    fdiv float_one
      (float_of_int ((I2.y high - I2.y low) * (I2.x high - I2.x low))) in
  let feature_means :=
    math_vector_scale feature_means pixel_scale DENOISE_FEATURES in
  (* Scale the shifted feature passes to a range of [-1; 1]. *)
  let feature_scale :=
    fold_left
      (fun scale '(pixel, pixel_buffer) =>
         math_vector_max scale
           (filter_get_feature_scales pixel pixel_buffer buffer feature_means
              pass_stride)
           DENOISE_FEATURES)
      window (math_vector_zero DENOISE_FEATURES) in
  let feature_scale := filter_calculate_scale feature_scale in
  (* Generate the feature transformation. *)
  let feature_matrix :=
    fold_left
      (fun matrix '(pixel, pixel_buffer) =>
         let features :=
           filter_get_features pixel pixel_buffer buffer (Some feature_means)
             pass_stride in
         let features :=
           math_vector_mul features 0 feature_scale DENOISE_FEATURES in
         math_trimatrix_add_gramian matrix DENOISE_FEATURES features float_one)
      window (math_vector_zero (DENOISE_FEATURES * DENOISE_FEATURES)) in
  let '(feature_matrix, transform) :=
    math_trimatrix_jacobi_eigendecomposition feature_matrix transform
      DENOISE_FEATURES 1 in
  if flt float_zero pca_threshold then
    let threshold_energy :=
      fold_left
        (fun e i => fadd e (fget feature_matrix (i * DENOISE_FEATURES + i)))
        (seqZ 0 DENOISE_FEATURES) float_zero in
    let threshold_energy :=
      fmul threshold_energy (fsub float_one pca_threshold) in
    rank_by_energy (seqZ 0 DENOISE_FEATURES) feature_matrix feature_scale
      threshold_energy 0 float_zero transform
  else
    rank_by_deviation (seqZ 0 DENOISE_FEATURES) feature_matrix feature_scale
      pca_threshold 0 transform.

End Transform.

Section Manager.

(** [Tile()] initialises no field, and reading outside a vector is undefined:
    [indeterminate i] stands for what is found at position [i] in either
    case.  Everything below holds whatever it is. *)
Variable indeterminate : Z -> Tile.t.

Definition tile_at (tiles : list Tile.t) (i : Z) : Tile.t :=
  default (indeterminate i) (vec_get tiles i).

(** [vector<Tile>::resize(n)] on an empty vector. *)
Definition tiles_resize (n : Z) : list Tile.t := indeterminate <$> seqZ 0 n.

(** ** [TileComparator::operator()] *)

Definition TileComparator (order : TileOrder) (center : int2)
    (tiles : list Tile.t) (a b : Z) : bool :=
  let ta := tile_at tiles a in
  let tb := tile_at tiles b in
  match order with
  | TILE_CENTER =>
      let dist_a :=
        (float_of_int (I2.x center - (Tile.x ta + Z.quot (Tile.w ta) 2)),
         float_of_int (I2.y center - (Tile.y ta + Z.quot (Tile.h ta) 2))) in
      let dist_b :=
        (float_of_int (I2.x center - (Tile.x tb + Z.quot (Tile.w tb) 2)),
         float_of_int (I2.y center - (Tile.y tb + Z.quot (Tile.h tb) 2))) in
      flt (dot2 dist_a dist_a) (dot2 dist_b dist_b)
  | TILE_LEFT_TO_RIGHT =>
      if Tile.x ta =? Tile.x tb then Tile.y ta <? Tile.y tb
      else Tile.x ta <? Tile.x tb
  | TILE_RIGHT_TO_LEFT =>
      if Tile.x ta =? Tile.x tb then Tile.y ta <? Tile.y tb
      else Tile.x ta >? Tile.x tb
  | TILE_TOP_TO_BOTTOM =>
      if Tile.y ta =? Tile.y tb then Tile.x ta <? Tile.x tb
      else Tile.y ta >? Tile.y tb
  | TILE_BOTTOM_TO_TOP | TILE_HILBERT_SPIRAL =>
      if Tile.y ta =? Tile.y tb then Tile.x ta <? Tile.x tb
      else Tile.y ta <? Tile.y tb
  end.

(** ** [TileManager::gen_tiles] *)

(** What the loops of [gen_tiles] change: the tiles, the vector of lists that
    [tile_list] walks ([state.denoise_tiles] when [only_denoise], else
    [state.render_tiles]), the position of [tile_list] in it, [cur_device]
    and [cur_tiles]. *)
Record Gen := mkGen {
  g_tiles : list Tile.t;
  g_queues : list (list Z);
  g_tile_list : nat;
  g_cur_device : Z;
  g_cur_tiles : Z
}.

Definition initial_state (m : TileManager.t) : Tile.TileState :=
  if TileManager.only_denoise m then Tile.DENOISE else Tile.RENDER.

(** The body of the two nested loops over [tile_y] and [tile_x]. *)
Definition gen_tile (m : TileManager.t) (sliced : bool)
    (image_w tile_w : Z) (center : int2)
    (slice slice_y slice_h tile_slice_h tiles_per_device : Z)
    (tile_y : Z) (g : Gen) (tile_x : Z) : Gen :=
  let tile_size := TileManager.tile_size m in
  let x := tile_x * I2.x tile_size in
  let y := tile_y * I2.y tile_size in
  let w := if tile_x =? tile_w - 1 then image_w - x else I2.x tile_size in
  let h := if tile_y =? tile_slice_h - 1 then slice_h - y
           else I2.y tile_size in
  let idx := tile_y * tile_w + tile_x in
  let tiles :=
    vec_set (g_tiles g) idx
      (Tile.mk idx x (y + slice_y) w h
         (if sliced then slice else g_cur_device g)
         (initial_state m)
         (State.global_buffers (TileManager.state m))) in
  let queues := alter (fun q => q ++ [idx]) (g_tile_list g) (g_queues g) in
  if sliced then mkGen tiles queues (g_tile_list g) (g_cur_device g) (g_cur_tiles g)
  else
    let cur_tiles := g_cur_tiles g + 1 in
    if cur_tiles =? tiles_per_device then
      let queues :=
        if TileOrder_eqb (TileManager.tile_order m) TILE_BOTTOM_TO_TOP
        then queues
        else alter (list_sort (TileComparator (TileManager.tile_order m)
                                 center tiles))
               (g_tile_list g) queues in
      mkGen tiles queues (S (g_tile_list g)) (g_cur_device g + 1) 0
    else mkGen tiles queues (g_tile_list g) (g_cur_device g) cur_tiles.

(** One turn of the loop over [slice]. *)
Definition gen_slice (m : TileManager.t) (sliced : bool)
    (image_w image_h tile_w : Z) (center : int2) (num slice_num : Z)
    (g : Gen) (slice : Z) : Gen :=
  let tile_size := TileManager.tile_size m in
  let slice_y := Z.quot image_h slice_num * slice in
  let slice_h :=
    if slice =? slice_num - 1
    then image_h - slice * Z.quot image_h slice_num
    else Z.quot image_h slice_num in
  let tile_slice_h :=
    if I2.y tile_size >=? slice_h then 1
    else Z.quot (slice_h + I2.y tile_size - 1) (I2.y tile_size) in
  let tiles_per_device := Z.quot (tile_w * tile_slice_h + num - 1) num in
  let g := mkGen (g_tiles g) (g_queues g) (g_tile_list g) 0 0 in
  let g :=
    fold_left
      (fun g tile_y =>
         fold_left
           (gen_tile m sliced image_w tile_w center slice slice_y slice_h
              tile_slice_h tiles_per_device tile_y)
           (seqZ 0 tile_w) g)
      (seqZ 0 tile_slice_h) g in
  if sliced
  then mkGen (g_tiles g) (g_queues g) (S (g_tile_list g))
         (g_cur_device g) (g_cur_tiles g)
  else g.

(** The spiral over blocks: the current block, the previous and the current
    direction, and the ring counter [i] of the outer [for]. *)
Record Spiral := mkSpiral {
  block : int2;
  prev_dir : SpiralDirection;
  dir : SpiralDirection;
  ring : Z
}.

(** "Advance to next block." *)
Definition spiral_advance (n : Z) (s : Spiral) : Spiral :=
  let bx := I2.x (block s) in
  let bY := I2.y (block s) in
  let i := ring s in
  match dir s with
  | DIRECTION_UP =>
      mkSpiral (make_int2 bx (bY + 1)) (dir s)
        (if bY + 1 =? n - i - 1 then DIRECTION_LEFT else DIRECTION_UP) i
  | DIRECTION_LEFT =>
      mkSpiral (make_int2 (bx + 1) bY) (dir s)
        (if bx + 1 =? n - i - 1 then DIRECTION_DOWN else DIRECTION_LEFT) i
  | DIRECTION_DOWN =>
      mkSpiral (make_int2 bx (bY - 1)) (dir s)
        (if bY - 1 =? i then DIRECTION_RIGHT else DIRECTION_DOWN) i
  | DIRECTION_RIGHT =>
      if bx - 1 =? i + 1
      then mkSpiral (make_int2 (bx - 1) bY) (dir s) DIRECTION_UP (i + 1)
      else mkSpiral (make_int2 (bx - 1) bY) (dir s) DIRECTION_RIGHT i
  end.

(** "Rotate block according to spiral direction." *)
Definition hilbert_rotate (hilbert_size : Z) (s : Spiral) (hilbert_pos : int2)
  : int2 :=
  if SpiralDirection_eqb (prev_dir s) DIRECTION_UP
     && SpiralDirection_eqb (dir s) DIRECTION_UP
  then make_int2 (I2.y hilbert_pos) (I2.x hilbert_pos)
  else if SpiralDirection_eqb (dir s) DIRECTION_LEFT
          || SpiralDirection_eqb (prev_dir s) DIRECTION_LEFT
  then hilbert_pos
  else if SpiralDirection_eqb (dir s) DIRECTION_DOWN
  then make_int2 (hilbert_size - 1 - I2.y hilbert_pos)
         (hilbert_size - 1 - I2.x hilbert_pos)
  else make_int2 (hilbert_size - 1 - I2.x hilbert_pos)
         (hilbert_size - 1 - I2.y hilbert_pos).

(** The body of the loop over [hilbert_index]. *)
Definition gen_hilbert_tile (m : TileManager.t)
    (image_w image_h tile_w hilbert_size : Z) (block_size offset : int2)
    (tiles_per_device : Z) (s : Spiral) (g : Gen) (hilbert_index : Z) : Gen :=
  let tile_size := TileManager.tile_size m in
  let hilbert_pos := hilbert_index_to_pos hilbert_size hilbert_index in
  let tile := hilbert_rotate hilbert_size s hilbert_pos in
  let pos :=
    make_int2
      (I2.x (block s) * I2.x block_size + I2.x tile * I2.x tile_size
       + I2.x offset)
      (I2.y (block s) * I2.y block_size + I2.y tile * I2.y tile_size
       + I2.y offset) in
  if (I2.x pos >=? 0) && (I2.y pos >=? 0)
     && (I2.x pos <? image_w) && (I2.y pos <? image_h)
  then
    let w := Z.min (I2.x tile_size) (image_w - I2.x pos) in
    let h := Z.min (I2.y tile_size) (image_h - I2.y pos) in
    let ipos := make_int2 (Z.quot (I2.x pos) (I2.x tile_size))
                  (Z.quot (I2.y pos) (I2.y tile_size)) in
    let idx := I2.y ipos * tile_w + I2.x ipos in
    let tiles :=
      vec_set (g_tiles g) idx
        (Tile.mk idx (I2.x pos) (I2.y pos) w h (g_cur_device g)
           (initial_state m)
           (State.global_buffers (TileManager.state m))) in
    let queues := alter (fun q => idx :: q) (g_tile_list g) (g_queues g) in
    let cur_tiles := g_cur_tiles g + 1 in
    if cur_tiles =? tiles_per_device
    then mkGen tiles queues (S (g_tile_list g)) (g_cur_device g + 1) 0
    else mkGen tiles queues (g_tile_list g) (g_cur_device g) cur_tiles
  else g.

(** The loop [for(int i = 0;;)]: generate the tiles of the current block,
    stop at the centre block, else advance.  [None] when [fuel] blocks were
    not enough to reach the centre. *)
Fixpoint gen_spiral (fuel : nat) (m : TileManager.t)
    (image_w image_h tile_w hilbert_size : Z) (block_size offset : int2)
    (tiles_per_device n : Z) (s : Spiral) (g : Gen) : option Gen :=
  match fuel with
  | O => None
  | S fuel' =>
      let g :=
        fold_left
          (gen_hilbert_tile m image_w image_h tile_w hilbert_size block_size
             offset tiles_per_device s)
          (seqZ 0 (hilbert_size * hilbert_size)) g in
      if (I2.x (block s) =? Z.quot (n - 1) 2)
         && (I2.y (block s) =? Z.quot (n - 1) 2)
      then Some g
      else gen_spiral fuel' m image_w image_h tile_w hilbert_size block_size
             offset tiles_per_device n (spiral_advance n s) g
  end.

(** The lists filled by the loops go back to the vector [tile_list] was taken
    from; the other vector keeps its [num] empty lists. *)
Definition gen_store (m : TileManager.t) (tile_w num : Z) (g : Gen)
  : TileManager.t :=
  let empty := replicate (Z.to_nat num) [] in
  TileManager.upd_state
    (fun st =>
       State.set_tile_stride tile_w
         (State.set_denoise_tiles
            (if TileManager.only_denoise m then g_queues g else empty)
            (State.set_render_tiles
               (if TileManager.only_denoise m then empty else g_queues g)
               (State.set_tiles (g_tiles g) st))))
    m.

(** [gen_tiles] gives the manager with the new tiles and lists, and the
    number of tiles; [None] when an [assert] fails or the spiral does not
    reach its centre.  The spiral has [n*n] blocks.

    The sums, products and quotients of sizes are taken in the integers:
    they are the [int] results of the code as long as those stay in the [int]
    range and no divisor is 0, which is so for a divider of at least 1 and
    images and tiles of at most 32768 pixels a side. *)
Definition gen_tiles (sliced : bool) (m : TileManager.t)
  : option (TileManager.t * Z) :=
  let tile_size := TileManager.tile_size m in
  let resolution := State.resolution_divider (TileManager.state m) in
  let image_w :=
    Z.max 1 (Z.quot (BufferParams.width (TileManager.params m)) resolution) in
  let image_h :=
    Z.max 1 (Z.quot (BufferParams.height (TileManager.params m)) resolution) in
  let center := make_int2 (Z.quot image_w 2) (Z.quot image_h 2) in
  let num_logical_devices :=
    if TileManager.preserve_tile_device m then TileManager.num_devices m
    else 1 in
  let num := Z.min image_h num_logical_devices in
  let slice_num := if sliced then num else 1 in
  let tile_w :=
    if I2.x tile_size >=? image_w then 1
    else Z.quot (image_w + I2.x tile_size - 1) (I2.x tile_size) in
  let tile_h :=
    if I2.y tile_size >=? image_h then 1
    else Z.quot (image_h + I2.y tile_size - 1) (I2.y tile_size) in
  let g0 :=
    mkGen (tiles_resize (tile_w * tile_h)) (replicate (Z.to_nat num) [])
      0%nat 0 0 in
  if TileOrder_eqb (TileManager.tile_order m) TILE_HILBERT_SPIRAL then
    if sliced then None
    else
      let hilbert_size :=
        if Z.max (I2.x tile_size) (I2.y tile_size) <=? 12 then 8 else 4 in
      let tiles_per_device := Z.quot (tile_w * tile_h + num - 1) num in
      let block_size :=
        make_int2 (I2.x tile_size * hilbert_size)
          (I2.y tile_size * hilbert_size) in
      let blocks_x :=
        if I2.x block_size >=? image_w then 1
        else Z.quot (image_w + I2.x block_size - 1) (I2.x block_size) in
      let blocks_y :=
        if I2.y block_size >=? image_h then 1
        else Z.quot (image_h + I2.y block_size - 1) (I2.y block_size) in
      let n := Z.lor (Z.max blocks_x blocks_y) 1 in
      let offset :=
        make_int2 (Z.quot (image_w - n * I2.x block_size) 2)
          (Z.quot (image_h - n * I2.y block_size) 2) in
      let offset :=
        make_int2
          (Z.quot (I2.x offset) (I2.x tile_size) * I2.x tile_size)
          (Z.quot (I2.y offset) (I2.y tile_size) * I2.y tile_size) in
      match
        gen_spiral (Z.to_nat (n * n)) m image_w image_h tile_w hilbert_size
          block_size offset tiles_per_device n
          (mkSpiral (make_int2 0 0) DIRECTION_UP DIRECTION_UP 0) g0
      with
      | Some g => Some (gen_store m tile_w num g, tile_w * tile_h)
      | None => None
      end
  else
    let g :=
      fold_left
        (gen_slice m sliced image_w image_h tile_w center num slice_num)
        (seqZ 0 slice_num) g0 in
    Some (gen_store m tile_w num g, tile_w * tile_h).

(** ** [TileManager::set_tiles] *)

Definition set_tiles (m : TileManager.t) : option TileManager.t :=
  let resolution := State.resolution_divider (TileManager.state m) in
  let params := TileManager.params m in
  let image_w := Z.max 1 (Z.quot (BufferParams.width params) resolution) in
  let image_h := Z.max 1 (Z.quot (BufferParams.height params) resolution) in
  match gen_tiles (negb (TileManager.background m)) m with
  | None => None
  | Some (m, n) =>
      Some
        (TileManager.upd_state
           (fun st =>
              State.set_buffer
                (BufferParams.mk image_w image_h
                   (Z.quot (BufferParams.full_x params) resolution)
                   (Z.quot (BufferParams.full_y params) resolution)
                   (Z.max 1 (Z.quot (BufferParams.full_width params)
                               resolution))
                   (Z.max 1 (Z.quot (BufferParams.full_height params)
                               resolution)))
                (State.set_num_tiles n st))
           m)
  end.

(** ** [TileManager::return_tile] *)

Definition dx (n : Z) : Z := nth (Z.to_nat n) [-1; 0; 1; -1; 1; -1; 0; 1; 0] 0.
Definition dy (n : Z) : Z := nth (Z.to_nat n) [-1; -1; -1; 0; 0; 1; 1; 1; 0] 0.

(** The inner loop over [nn]: no neighbour of tile [nindex] inside the grid
    is in a state below [bound]. *)
Definition neighbors_reached (tile_size : int2) (tile_w tile_h : Z)
    (st : State.t) (nindex : Z) (bound : Tile.TileState) : bool :=
  forallb
    (fun nn =>
       let nnx :=
         Z.quot (Tile.x (tile_at (State.tiles st) nindex)) (I2.x tile_size)
         + dx nn in
       let nny :=
         Z.quot (Tile.y (tile_at (State.tiles st) nindex)) (I2.y tile_size)
         + dy nn in
       if (nnx <? 0) || (nny <? 0) || (nnx >=? tile_w) || (nny >=? tile_h)
       then true
       else
         let nnindex := nny * State.tile_stride st + nnx in
         negb (Tile.ltb (Tile.state (tile_at (State.tiles st) nnindex)) bound))
    (seqZ 0 8).

Definition set_tile_state (tiles : list Tile.t) (i : Z) (s : Tile.TileState)
  : list Tile.t :=
  vec_set tiles i (Tile.set_state s (tile_at tiles i)).

(** One turn of the loop over [n] in the [Tile::RENDER] case. *)
Definition render_scan (tile_size : int2) (tile_w tile_h index : Z)
    (st : State.t) (n : Z) : State.t :=
  let nx :=
    Z.quot (Tile.x (tile_at (State.tiles st) index)) (I2.x tile_size) + dx n in
  let ny :=
    Z.quot (Tile.y (tile_at (State.tiles st) index)) (I2.y tile_size) + dy n in
  if (nx <? 0) || (ny <? 0) || (nx >=? tile_w) || (ny >=? tile_h) then st
  else
    let nindex := ny * State.tile_stride st + nx in
    if negb (Tile.eqb (Tile.state (tile_at (State.tiles st) nindex))
               Tile.RENDERED)
    then st
    else if neighbors_reached tile_size tile_w tile_h st nindex Tile.RENDERED
    then
      let tiles := set_tile_state (State.tiles st) nindex Tile.DENOISE in
      State.set_denoise_tiles
        (vec_alter (fun q => q ++ [nindex]) (State.denoise_tiles st)
           (Tile.device (tile_at tiles nindex)))
        (State.set_tiles tiles st)
    else st.

(** One turn of the loop over [n] in the [Tile::DENOISE] case; the boolean is
    [delete_tile]. *)
Definition denoise_scan (tile_size : int2) (tile_w tile_h index : Z)
    (acc : State.t * bool) (n : Z) : State.t * bool :=
  let st := fst acc in
  let nx :=
    Z.quot (Tile.x (tile_at (State.tiles st) index)) (I2.x tile_size) + dx n in
  let ny :=
    Z.quot (Tile.y (tile_at (State.tiles st) index)) (I2.y tile_size) + dy n in
  if (nx <? 0) || (ny <? 0) || (nx >=? tile_w) || (ny >=? tile_h) then acc
  else
    let nindex := ny * State.tile_stride st + nx in
    if negb (Tile.eqb (Tile.state (tile_at (State.tiles st) nindex))
               Tile.DENOISED)
    then acc
    else if neighbors_reached tile_size tile_w tile_h st nindex Tile.DENOISED
    then
      let tiles := set_tile_state (State.tiles st) nindex Tile.DONE in
      if n =? 8 then (State.set_tiles tiles st, true)
      else
        (State.set_tiles
           (vec_set tiles nindex (Tile.set_buffers None (tile_at tiles nindex)))
           st,
         snd acc)
    else acc.

(** [return_tile] gives the returned boolean, [delete_tile] and the manager
    afterwards; [None] when an [assert] fails. *)
Definition return_tile (m : TileManager.t) (index : Z)
  : option (bool * bool * TileManager.t) :=
  let st := TileManager.state m in
  let tile_size := TileManager.tile_size m in
  let resolution := State.resolution_divider st in
  let image_w :=
    Z.max 1 (Z.quot (BufferParams.width (TileManager.params m)) resolution) in
  let image_h :=
    Z.max 1 (Z.quot (BufferParams.height (TileManager.params m)) resolution) in
  let tile_w :=
    if I2.x tile_size >=? image_w then 1
    else Z.quot (image_w + I2.x tile_size - 1) (I2.x tile_size) in
  let tile_h :=
    if I2.y tile_size >=? image_h then 1
    else Z.quot (image_h + I2.y tile_size - 1) (I2.y tile_size) in
  match Tile.state (tile_at (State.tiles st) index) with
  | Tile.RENDER =>
      if TileManager.only_denoise m then None
      else if negb (TileManager.schedule_denoising m) then
        Some (true, true,
              TileManager.set_state
                (State.set_tiles
                   (set_tile_state (State.tiles st) index Tile.DONE) st) m)
      else
        let st :=
          State.set_tiles
            (set_tile_state (State.tiles st) index Tile.RENDERED) st in
        let st :=
          fold_left (render_scan tile_size tile_w tile_h index) (seqZ 0 9) st in
        Some (false, false, TileManager.set_state st m)
  | Tile.DENOISE =>
      if TileManager.only_denoise m then
        Some (true, false,
              TileManager.set_state
                (State.set_tiles
                   (set_tile_state (State.tiles st) index Tile.DONE) st) m)
      else
        let st :=
          State.set_tiles
            (set_tile_state (State.tiles st) index Tile.DENOISED) st in
        let '(st, delete_tile) :=
          fold_left (denoise_scan tile_size tile_w tile_h index) (seqZ 0 9)
            (st, false) in
        Some (true, delete_tile, TileManager.set_state st m)
  | _ => None
  end.

(** ** [TileManager::next_tile]

    The result is the index of the tile [tile] is made to point to, or [None]
    when [next_tile] returns [false]. *)
Definition next_tile (m : TileManager.t) (device : Z)
  : option Z * TileManager.t :=
  let st := TileManager.state m in
  let logical_device :=
    if TileManager.preserve_tile_device m then device else 0 in
  if size_t logical_device >=? Z.of_nat (length (State.render_tiles st))
  then (None, m)
  else
    match queue_at (State.denoise_tiles st) (size_t logical_device) with
    | idx :: rest =>
        let st :=
          State.set_denoise_tiles
            (vec_set (State.denoise_tiles st) (size_t logical_device) rest)
            st in
        let st :=
          if TileManager.only_denoise m
          then State.set_num_rendered_tiles (State.num_rendered_tiles st + 1) st
          else st in
        (Some idx, TileManager.set_state st m)
    | [] =>
        match queue_at (State.render_tiles st) (size_t logical_device) with
        | [] => (None, m)
        | idx :: rest =>
            let st :=
              State.set_render_tiles
                (vec_set (State.render_tiles st) (size_t logical_device) rest)
                st in
            let st :=
              State.set_num_rendered_tiles (State.num_rendered_tiles st + 1)
                st in
            (Some idx, TileManager.set_state st m)
        end
    end.

(** ** [done], [next], [get_num_effective_samples] *)

Definition done (m : TileManager.t) : bool :=
  let end_sample :=
    if TileManager.range_num_samples m =? -1
    then TileManager.num_samples m
    else TileManager.range_start_sample m + TileManager.range_num_samples m in
  (State.resolution_divider (TileManager.state m) =? 1)
  && (State.sample (TileManager.state m)
      + State.num_samples (TileManager.state m) >=? end_sample).

(** [next] gives the returned boolean and the manager afterwards; [None] when
    [set_tiles] does not return. *)
Definition next (m : TileManager.t) : option (bool * TileManager.t) :=
  if done m then Some (false, m)
  else if TileManager.progressive m
          && (State.resolution_divider (TileManager.state m) >? 1)
  then
    let m :=
      TileManager.upd_state
        (fun st =>
           State.set_num_samples 1
             (State.set_resolution_divider
                (Z.quot (State.resolution_divider st) 2)
                (State.set_sample 0 st)))
        m in
    option_map (fun m => (true, m)) (set_tiles m)
  else
    let m :=
      TileManager.upd_state
        (fun st =>
           State.set_resolution_divider 1
             (State.set_num_samples
                (if TileManager.progressive m then 1
                 else if TileManager.range_num_samples m =? -1
                 then TileManager.num_samples m
                 else TileManager.range_num_samples m)
                (State.set_sample (State.sample st + 1) st)))
        m in
    option_map (fun m => (true, m)) (set_tiles m).

Definition get_num_effective_samples (m : TileManager.t) : Z :=
  if TileManager.only_denoise m then 1
  else if TileManager.range_num_samples m =? -1
  then TileManager.num_samples m
  else TileManager.range_num_samples m.

(** ** [set_samples], [reset], [free_device] and the constructor *)

(** The [while(divider > 1)] loop of [set_samples], adding the pixels of every
    preview level to [pixel_samples].  [divider] is halved every turn, so
    [fuel] does not run out when it starts at [divider]. *)
Fixpoint preview_pixel_samples (fuel : nat) (params : BufferParams.t)
    (divider pixel_samples : Z) : Z :=
  match fuel with
  | O => pixel_samples
  | S fuel' =>
      if divider >? 1 then
        let image_w := Z.max 1 (Z.quot (BufferParams.width params) divider) in
        let image_h := Z.max 1 (Z.quot (BufferParams.height params) divider) in
        preview_pixel_samples fuel' params (Z.shiftr divider 1)
          (uint64_t (pixel_samples + uint64_t (image_w * image_h)))
      else pixel_samples
  end.

(** [None] when [get_divider] does not return. *)
Definition set_samples (m : TileManager.t) (num_samples_ : Z)
  : option TileManager.t :=
  let m := TileManager.set_num_samples num_samples_ m in
  let params := TileManager.params m in
  let area := BufferParams.width params * BufferParams.height params in
  if TileManager.num_samples m =? INT_MAX then
    Some (TileManager.upd_state (State.set_total_pixel_samples 0) m)
  else if TileManager.only_denoise m then
    Some (TileManager.upd_state
            (State.set_total_pixel_samples (uint64_t area)) m)
  else
    match get_divider (BufferParams.width params) (BufferParams.height params)
            (TileManager.start_resolution m) with
    | None => None
    | Some d =>
        let divider := Z.quot d 2 in
        let pixel_samples :=
          preview_pixel_samples (Z.to_nat divider) params divider 0 in
        let total :=
          uint64_t (pixel_samples
                    + uint64_t (get_num_effective_samples m
                                * BufferParams.width params
                                * BufferParams.height params)) in
        let total :=
          if TileManager.schedule_denoising m
          then uint64_t (total + uint64_t area) else total in
        Some (TileManager.upd_state (State.set_total_pixel_samples total) m)
    end.

(** [None] when [get_divider] does not return. *)
Definition reset (m : TileManager.t) (params_ : BufferParams.t)
    (num_samples_ : Z) : option TileManager.t :=
  let m := TileManager.set_params params_ m in
  match set_samples m num_samples_ with
  | None => None
  | Some m =>
      match get_divider (BufferParams.width (TileManager.params m))
              (BufferParams.height (TileManager.params m))
              (TileManager.start_resolution m) with
      | None => None
      | Some divider =>
          Some
            (TileManager.upd_state
               (fun st =>
                  State.mk [] (State.tile_stride st) BufferParams.default None
                    (TileManager.range_start_sample m - 1) 0 divider 0 0
                    (State.total_pixel_samples st) [] [])
               m)
      end
  end.

Definition free_device (m : TileManager.t) : TileManager.t :=
  if TileManager.schedule_denoising m then
    TileManager.upd_state
      (fun st =>
         State.set_tiles (Tile.set_buffers None <$> State.tiles st) st)
      m
  else m.

(** The constructor leaves [state.tile_stride] as it finds it:
    [indeterminate_stride] is what it holds. *)
Variable indeterminate_stride : Z.

Definition TileManager_new (progressive_ : bool) (num_samples_ : Z)
    (tile_size_ : int2) (start_resolution_ : Z)
    (preserve_tile_device_ background_ : bool) (tile_order_ : TileOrder)
    (num_devices_ : Z) (only_denoise_ : bool) : option TileManager.t :=
  reset
    (TileManager.mk BufferParams.default
       (State.mk [] indeterminate_stride BufferParams.default None 0 0 0 0 0 0
          [] [])
       num_samples_ 0 (-1) false progressive_ tile_size_ tile_order_
       start_resolution_ num_devices_ only_denoise_ preserve_tile_device_
       background_)
    BufferParams.default 0.


End Manager.

(** * Notions used to state the properties *)

(** What one turn of the loop does to [xy], by the two low bits [q] of [d]:
    the quadrant is chosen by [q] and the curve of the level below is placed
    in it, turned as needed. *)
Definition hilbert_place (s : Z) (p : int2) (q : Z) : int2 :=
  if q =? 0 then make_int2 (I2.y p) (I2.x p)
  else if q =? 1 then make_int2 (I2.x p) (I2.y p + s)
  else if q =? 2 then make_int2 (I2.x p + s) (I2.y p + s)
  else make_int2 (2 * s - 1 - I2.y p) (s - 1 - I2.x p).

Definition in_square (s : Z) (p : int2) : Prop :=
  0 <= I2.x p < s /\ 0 <= I2.y p < s.

(** [k] turns of the loop, started as [hilbert_index_to_pos] starts it. *)
Definition hilbert_run (k : nat) (d : Z) : Z * Z * int2 :=
  Nat.iter k hilbert_step (1, d, make_int2 0 0).

(** The size after [k] halvings, as the loop of [get_divider] computes it:
    every halving is clamped to one pixel. *)
Definition halved (v : Z) (k : nat) : Z :=
  match k with
  | O => v
  | S _ => Z.max 1 (Z.shiftr v (Z.of_nat k))
  end.

(** The divider as the specification words it: the smallest power of two
    [2^k] with [(w >> k) * (h >> k) <= s * s], no clamping. *)
Definition smallest_unclamped_divider (w h s d : Z) : Prop :=
  exists k : nat,
    d = 2 ^ Z.of_nat k
    /\ Z.shiftr w (Z.of_nat k) * Z.shiftr h (Z.of_nat k) <= s * s
    /\ forall j, (j < k)%nat ->
         Z.shiftr w (Z.of_nat j) * Z.shiftr h (Z.of_nat j) > s * s.

(** The manager as the constructor leaves it when [state.tile_stride] held 0,
    with [schedule_denoising], a public member, assigned afterwards. *)
Definition fresh_manager (progressive_ : bool) (tile_size_ : int2)
    (start_resolution_ : Z) (preserve_tile_device_ background_ : bool)
    (tile_order_ : TileOrder) (num_devices_ : Z)
    (only_denoise_ schedule_denoising_ : bool) : TileManager.t :=
  TileManager.mk BufferParams.default
    (State.mk [] 0 BufferParams.default None (-1) 0 1 0 0 0 [] [])
    0 0 (-1) schedule_denoising_ progressive_ tile_size_ tile_order_
    start_resolution_ num_devices_ only_denoise_ preserve_tile_device_
    background_.

(** A list is sorted by the comparison [lt] when no element stands before one
    that [lt] puts in front of it. *)
Definition sorted_by (lt : Z -> Z -> bool) (l : list Z) : Prop :=
  forall (i j : nat) a b,
    l !! i = Some a -> l !! j = Some b -> (i < j)%nat -> lt b a = false.

(** The configurations [gen_tiles] is written for: tiles of at least one
    pixel, at least one device, and no Hilbert spiral over slices (the
    [assert] of [gen_tiles]). *)
Definition valid_config (m : TileManager.t) : Prop :=
  1 <= I2.x (TileManager.tile_size m)
  /\ 1 <= I2.y (TileManager.tile_size m)
  /\ 1 <= TileManager.num_devices m
  /\ (TileManager.tile_order m = TILE_HILBERT_SPIRAL ->
      TileManager.background m = true).

(** The spiral on a square of side [n = 2c+1]: where the walk can be.  Either
    on the centre block; or on the last block of ring [i-1], about to enter
    ring [i]; or on one of the four legs of ring [i]. *)
Definition spiral_inv (n : Z) (s : Spiral) : Prop :=
  let c := Z.quot (n - 1) 2 in
  let bx := I2.x (block s) in
  let bY := I2.y (block s) in
  let i := ring s in
  (bx = c /\ bY = c)
  \/ (dir s = DIRECTION_UP /\ bx = i /\ bY = i - 1 /\ 1 <= i <= c)
  \/ (0 <= i < c
      /\ match dir s with
         | DIRECTION_UP => bx = i /\ i <= bY <= n - i - 2
         | DIRECTION_LEFT => bY = n - i - 1 /\ i <= bx <= n - i - 2
         | DIRECTION_DOWN => bx = n - i - 1 /\ i + 1 <= bY <= n - i - 1
         | DIRECTION_RIGHT => bY = i /\ i + 2 <= bx <= n - i - 1
         end).

(** The number of blocks still to visit after the current one. *)
Definition spiral_left (n : Z) (s : Spiral) : Z :=
  let c := Z.quot (n - 1) 2 in
  let bx := I2.x (block s) in
  let bY := I2.y (block s) in
  let i := ring s in
  let m := n - 2 * i in
  if (bx =? c) && (bY =? c) then 0
  else
    match dir s with
    | DIRECTION_UP => if bY =? i - 1 then m * m else m * m - 1 - (bY - i)
    | DIRECTION_LEFT => m * m - 1 - (m - 1) - (bx - i)
    | DIRECTION_DOWN => m * m - 1 - 2 * (m - 1) - (n - i - 1 - bY)
    | DIRECTION_RIGHT => m * m - 1 - 3 * (m - 1) - (n - i - 1 - bx)
    end.

(** The size of the image at the current divider and of the grid of tiles,
    as [gen_tiles], [set_tiles] and [return_tile] compute them. *)
Definition image_w (m : TileManager.t) : Z :=
  Z.max 1 (Z.quot (BufferParams.width (TileManager.params m))
             (State.resolution_divider (TileManager.state m))).
Definition image_h (m : TileManager.t) : Z :=
  Z.max 1 (Z.quot (BufferParams.height (TileManager.params m))
             (State.resolution_divider (TileManager.state m))).
Definition grid_w (m : TileManager.t) : Z :=
  if I2.x (TileManager.tile_size m) >=? image_w m then 1
  else Z.quot (image_w m + I2.x (TileManager.tile_size m) - 1)
         (I2.x (TileManager.tile_size m)).
Definition grid_h (m : TileManager.t) : Z :=
  if I2.y (TileManager.tile_size m) >=? image_h m then 1
  else Z.quot (image_h m + I2.y (TileManager.tile_size m) - 1)
         (I2.y (TileManager.tile_size m)).

(** [m'] is [m] with new tiles, lists, stride, tile count and buffer size:
    what [set_tiles] may change. *)
Definition retiled (m m' : TileManager.t) : Prop :=
  m' = TileManager.set_state (TileManager.state m') m
  /\ State.sample (TileManager.state m') = State.sample (TileManager.state m)
  /\ State.num_samples (TileManager.state m')
     = State.num_samples (TileManager.state m)
  /\ State.resolution_divider (TileManager.state m')
     = State.resolution_divider (TileManager.state m)
  /\ State.num_tiles (TileManager.state m') = grid_w m * grid_h m.

(** A rendering phase: the divider, the first sample and the number of
    samples that [next] has set. *)
Definition phase (m : TileManager.t) : Z * Z * Z :=
  (State.resolution_divider (TileManager.state m),
   State.sample (TileManager.state m),
   State.num_samples (TileManager.state m)).

(** [next] called until it returns [false]: the phases it sets, in order.
    [None] when [fuel] calls did not reach the [false], or when a call did not
    return. *)
Fixpoint next_phases (indeterminate : Z -> Tile.t) (fuel : nat)
    (m : TileManager.t) : option (list (Z * Z * Z)) :=
  match fuel with
  | O => None
  | S fuel' =>
      match next indeterminate m with
      | None => None
      | Some (false, _) => Some []
      | Some (true, m') =>
          cons (phase m') <$> next_phases indeterminate fuel' m'
      end
  end.

(** The pixel samples of the phase a manager is in: the pixels of its
    buffer, once for each sample of the phase. *)
Definition phase_pixel_samples (m : TileManager.t) : Z :=
  BufferParams.width (State.buffer (TileManager.state m))
  * BufferParams.height (State.buffer (TileManager.state m))
  * State.num_samples (TileManager.state m).

(** [next] called until it returns [false]: the pixel samples of the phases
    it sets, added up. *)
Fixpoint next_pixel_samples (indeterminate : Z -> Tile.t) (fuel : nat)
    (m : TileManager.t) : option Z :=
  match fuel with
  | O => None
  | S fuel' =>
      match next indeterminate m with
      | None => None
      | Some (false, _) => Some 0
      | Some (true, m') =>
          Z.add (phase_pixel_samples m')
            <$> next_pixel_samples indeterminate fuel' m'
      end
  end.

(** A manager set up for [n] samples of an image of [w] by [h] pixels, the
    whole range of samples to render. *)
Definition configured (w h n : Z) (m : TileManager.t) : Prop :=
  valid_config m /\ TileManager.range_num_samples m = -1
  /\ TileManager.num_samples m = n
  /\ BufferParams.width (TileManager.params m) = w
  /\ BufferParams.height (TileManager.params m) = h.

(** One possible content of indeterminate memory, for the instances. *)
Definition blank_tile : Z -> Tile.t :=
  fun _ => Tile.mk 0 0 0 0 0 0 Tile.RENDER None.

(** ** Dispatching tiles between two tile generations *)

(** The calls a device makes. *)
Inductive Call :=
| NextTile (device : Z)
| ReturnTile (index : Z).

(** [next_tile] prefers the denoise list of the device: whether that list
    has a tile to give. *)
Definition denoise_pending (m : TileManager.t) (device : Z) : bool :=
  let logical_device :=
    if TileManager.preserve_tile_device m then device else 0 in
  match queue_at (State.denoise_tiles (TileManager.state m))
          (size_t logical_device) with
  | [] => false
  | _ :: _ => true
  end.

(** A sequence of calls, from left to right: the tiles that [next_tile] has
    given, each with [true] when it came from a denoise list and [false] when
    it came from a render list, and the manager at the end.  [None] when a
    [return_tile] fails an [assert]. *)
Fixpoint run_calls (indeterminate : Z -> Tile.t) (calls : list Call)
    (m : TileManager.t) : option (list (bool * Z) * TileManager.t) :=
  match calls with
  | [] => Some ([], m)
  | NextTile device :: calls' =>
      match next_tile m device with
      | (Some idx, m') =>
          match run_calls indeterminate calls' m' with
          | Some (given, m'') =>
              Some ((denoise_pending m device, idx) :: given, m'')
          | None => None
          end
      | (None, m') => run_calls indeterminate calls' m'
      end
  | ReturnTile index :: calls' =>
      match return_tile indeterminate m index with
      | Some (_, _, m') => run_calls indeterminate calls' m'
      | None => None
      end
  end.

(** The tiles given from the render lists, and from the denoise lists. *)
Definition given_from (denoise : bool) (given : list (bool * Z)) : list Z :=
  snd <$> filter (fun e => fst e = denoise) given.

(** The vector of tiles has one tile for every cell of the grid, and the
    tiles are at least one pixel wide and high. *)
Definition well_sized (m : TileManager.t) : Prop :=
  State.tile_stride (TileManager.state m) = grid_w m
  /\ Z.of_nat (length (State.tiles (TileManager.state m)))
     = grid_w m * grid_h m
  /\ 1 <= I2.x (TileManager.tile_size m)
  /\ 1 <= I2.y (TileManager.tile_size m).

(** What holds between two tile generations, [R] and [D] being the tiles
    given so far from the render lists and from the denoise lists: no tile is
    twice among the tiles given from the render lists and those still in
    them, the same for the denoise lists, and a tile that is or was in a
    denoise list is in state [DENOISE] or beyond. *)
Definition dispatch_inv (indeterminate : Z -> Tile.t) (m : TileManager.t)
    (R D : list Z) : Prop :=
  let st := TileManager.state m in
  well_sized m
  /\ NoDup (R ++ concat (State.render_tiles st))
  /\ NoDup (D ++ concat (State.denoise_tiles st))
  /\ (forall i, i ∈ D ++ concat (State.denoise_tiles st) ->
        2 <= Tile.rank (Tile.state (tile_at indeterminate (State.tiles st) i)))
  /\ (TileManager.only_denoise m = true ->
      R ++ concat (State.render_tiles st) = [])
  /\ (TileManager.schedule_denoising m = false ->
      TileManager.only_denoise m = false ->
      D ++ concat (State.denoise_tiles st) = []).

(** The part of [dispatch_inv] that the loops of [return_tile] work on: the
    grid is [tw] by [th], the render lists are [rq], the divider is [rd]. *)
Definition scan_inv (indeterminate : Z -> Tile.t) (tw th : Z)
    (rq : list (list Z)) (rd : Z) (D : list Z) (st : State.t) : Prop :=
  State.tile_stride st = tw
  /\ Z.of_nat (length (State.tiles st)) = tw * th
  /\ State.render_tiles st = rq
  /\ State.resolution_divider st = rd
  /\ NoDup (D ++ concat (State.denoise_tiles st))
  /\ (forall i, i ∈ D ++ concat (State.denoise_tiles st) ->
        2 <= Tile.rank (Tile.state (tile_at indeterminate (State.tiles st) i))).

(** What the loops of [gen_tiles] keep, [k] being the number of tiles made so
    far and [T] the size of the vector of tiles: no index is twice in the
    lists, the lists only hold indices below [k], and the tiles below [k] are
    in the state tiles start in. *)
Definition gen_inv (indeterminate : Z -> Tile.t) (m : TileManager.t)
    (T k : Z) (g : Gen) : Prop :=
  NoDup (concat (g_queues g))
  /\ (forall idx, idx ∈ concat (g_queues g) -> 0 <= idx < k)
  /\ Z.of_nat (length (g_tiles g)) = T
  /\ (forall idx, 0 <= idx < k ->
        Tile.state (tile_at indeterminate (g_tiles g) idx) = initial_state m).

(** The image is not cut in several slices: background mode, or a single
    logical device (or an image one pixel high). *)
Definition single_slice (m : TileManager.t) : Prop :=
  TileManager.background m = true
  \/ Z.min (image_h m)
       (if TileManager.preserve_tile_device m then TileManager.num_devices m
        else 1) = 1.

(** ** Returning the tiles of a grid in any order *)

#[global] Instance int2_eq_dec : EqDecision int2.
Proof. solve_decision. Defined.
#[global] Instance TileState_eq_dec : EqDecision Tile.TileState.
Proof. solve_decision. Defined.
#[global] Instance Tile_eq_dec : EqDecision Tile.t.
Proof. solve_decision. Defined.

(** [return_tile] called on the tiles of [p], from left to right, each call
    returning [false] and leaving [delete_tile] at [false]: the manager at
    the end.  [None] when a call fails or returns otherwise. *)
Fixpoint returned (indeterminate : Z -> Tile.t) (m : TileManager.t)
    (p : list Z) : option TileManager.t :=
  match p with
  | [] => Some m
  | t :: p' =>
      match return_tile indeterminate m t with
      | Some (false, false, m') => returned indeterminate m' p'
      | _ => None
      end
  end.

(** ** Phases *)

(** The preview phases below the divider [2^k]: the dividers [2^(k-1)], ...,
    2, 1, each with sample 0 and one sample. *)
Fixpoint preview_phases (k : nat) : list (Z * Z * Z) :=
  match k with
  | O => []
  | S k' => (2 ^ Z.of_nat k', 0, 1) :: preview_phases k'
  end.


(** ** The grid of tiles *)

(** The number of lists of tiles ([num] in [gen_tiles]) and the number of
    tiles a list takes before [gen_tiles] goes to the next one
    ([tiles_per_device]). *)
Definition num_lists (m : TileManager.t) : Z :=
  Z.min (image_h m)
    (if TileManager.preserve_tile_device m then TileManager.num_devices m
     else 1).

Definition chunk_size (m : TileManager.t) : Z :=
  Z.quot (grid_w m * grid_h m + num_lists m - 1) (num_lists m).

(** The device of the tile [idx]: in background mode the lists are filled
    one after the other, [chunk_size] tiles each; a single slice belongs to
    device 0. *)
Definition tile_device (m : TileManager.t) (idx : Z) : Z :=
  if TileManager.background m then Z.quot idx (chunk_size m) else 0.

(** The tile of the cell [idx] of the grid, the cells being counted row by
    row from the origin of the image: the tiles are [tile_size] apart, and
    the last tile of a row and the tiles of the last row take what is left
    of the image. *)
Definition grid_tile (m : TileManager.t) (idx : Z) : Tile.t :=
  let ts := TileManager.tile_size m in
  let tx := idx mod grid_w m in
  let ty := idx / grid_w m in
  Tile.mk idx (tx * I2.x ts) (ty * I2.y ts)
    (if tx =? grid_w m - 1 then image_w m - tx * I2.x ts else I2.x ts)
    (if ty =? grid_h m - 1 then image_h m - ty * I2.y ts else I2.y ts)
    (tile_device m idx) (initial_state m)
    (State.global_buffers (TileManager.state m)).

(** The pixel [(px, py)] of the image is in the rectangle of the tile. *)
Definition covers (t : Tile.t) (px py : Z) : Prop :=
  Tile.x t <= px < Tile.x t + Tile.w t
  /\ Tile.y t <= py < Tile.y t + Tile.h t.

(** What the loops of [gen_tiles] have made when [k] tiles are done: the
    tiles below [k] are those of the grid, and the list [j] holds the tiles
    below [k] of device [j]. *)
Definition gen_grid (indeterminate : Z -> Tile.t) (m : TileManager.t)
    (k : Z) (tiles : list Tile.t) (queues : list (list Z)) : Prop :=
  Z.of_nat (length tiles) = grid_w m * grid_h m
  /\ Z.of_nat (length queues) = num_lists m
  /\ (forall idx, 0 <= idx < k ->
        tile_at indeterminate tiles idx = grid_tile m idx)
  /\ (forall j idx,
        idx ∈ queue_at queues j <-> 0 <= idx < k /\ tile_device m idx = j).

(** The same with the counters of the loops: in background mode the list
    being filled is the one of [cur_device], which has [cur_tiles] tiles. *)
Definition gen_geom (indeterminate : Z -> Tile.t) (m : TileManager.t)
    (k : Z) (g : Gen) : Prop :=
  gen_grid indeterminate m k (g_tiles g) (g_queues g)
  /\ (if TileManager.background m
      then Z.of_nat (g_tile_list g) = g_cur_device g
           /\ 0 <= g_cur_tiles g < chunk_size m
           /\ g_cur_device g * chunk_size m + g_cur_tiles g = k
      else g_tile_list g = 0%nat).

(** Two cells of a grid of [tw] columns that touch, by a side or a corner. *)
Definition adjacent (tw a b : Z) : Prop :=
  a <> b
  /\ -1 <= a mod tw - b mod tw <= 1
  /\ -1 <= a / tw - b / tw <= 1.

(** ** Managers for the instances *)

(** A manager in background mode for two devices, with 64x64 tiles and no
    preview, given an image of 200x100 pixels: a grid of 4x2 tiles. *)
Definition example_manager (order : TileOrder)
    (only_denoise_ schedule_denoising_ : bool) : TileManager.t :=
  TileManager.set_params (BufferParams.mk 200 100 0 0 200 100)
    (fresh_manager false (make_int2 64 64) INT_MAX true true order 2
       only_denoise_ schedule_denoising_).

(** A progressive manager with [num_samples] samples to render, as [reset]
    leaves it when the divider is [divider]. *)
Definition example_preview (divider num_samples_ : Z) : TileManager.t :=
  TileManager.upd_state (State.set_resolution_divider divider)
    (TileManager.set_num_samples num_samples_
       (TileManager.set_params (BufferParams.mk 512 512 0 0 512 512)
          (fresh_manager true (make_int2 64 64) 64 false false TILE_CENTER 1
             false false))).

(** ** Tiles and their neighbours while tiles are dispatched *)

(** The state of the tile [idx], as the number of its enumerator. *)
Definition rank_at (indeterminate : Z -> Tile.t) (st : State.t) (idx : Z) : Z :=
  Tile.rank (Tile.state (tile_at indeterminate (State.tiles st) idx)).

(** The tiles are those of a grid of [tw] by [th] cells: the tile of a cell
    starts at the corner of the cell, and its device has a denoise list. *)
Definition grid_state (indeterminate : Z -> Tile.t) (ts : int2) (tw th : Z)
    (st : State.t) : Prop :=
  State.tile_stride st = tw
  /\ Z.of_nat (length (State.tiles st)) = tw * th
  /\ 1 <= I2.x ts /\ 1 <= I2.y ts /\ 1 <= tw
  /\ forall idx, 0 <= idx < tw * th ->
       let t := tile_at indeterminate (State.tiles st) idx in
       Tile.x t = idx mod tw * I2.x ts
       /\ Tile.y t = idx / tw * I2.y ts
       /\ 0 <= Tile.device t < Z.of_nat (length (State.denoise_tiles st)).

(** A tile that is ready to be denoised, or beyond, has all its neighbours
    rendered; a tile that is [DONE] has all its neighbours denoised. *)
Definition neighbours_safe (indeterminate : Z -> Tile.t) (tw th : Z)
    (st : State.t) : Prop :=
  forall idx nb,
    0 <= idx < tw * th -> 0 <= nb < tw * th -> adjacent tw idx nb ->
    (2 <= rank_at indeterminate st idx -> 1 <= rank_at indeterminate st nb)
    /\ (rank_at indeterminate st idx = 4 -> 3 <= rank_at indeterminate st nb).

(** A tile that is [RENDERED] waits for a neighbour that is still to be
    rendered, unless it is one of the tiles [pending] that the loop of
    [return_tile] has still to look at. *)
Definition rendered_waiting (indeterminate : Z -> Tile.t) (tw th : Z)
    (st : State.t) (pending : Z -> Prop) : Prop :=
  forall idx,
    0 <= idx < tw * th -> rank_at indeterminate st idx = 1 ->
    pending idx
    \/ exists nb,
         0 <= nb < tw * th /\ adjacent tw idx nb
         /\ rank_at indeterminate st nb = 0.

(** A tile that is [DENOISED] waits for a neighbour that is still to be
    denoised, unless it is one of the tiles [pending] that the loop of
    [return_tile] has still to look at. *)
Definition denoised_waiting (indeterminate : Z -> Tile.t) (tw th : Z)
    (st : State.t) (pending : Z -> Prop) : Prop :=
  forall idx,
    0 <= idx < tw * th -> rank_at indeterminate st idx = 3 ->
    pending idx
    \/ exists nb,
         0 <= nb < tw * th /\ adjacent tw idx nb
         /\ rank_at indeterminate st nb < 3.

(** A tile that is ready to be denoised, or beyond, is or was in a denoise
    list, [D] being the tiles given so far from the denoise lists. *)
Definition denoise_listed (indeterminate : Z -> Tile.t) (tw th : Z)
    (st : State.t) (D : list Z) : Prop :=
  forall idx,
    0 <= idx < tw * th -> 2 <= rank_at indeterminate st idx ->
    idx ∈ D ++ concat (State.denoise_tiles st).

(** The tile [a] made ready to be denoised: its state, and its index at the
    end of the denoise list of its device. *)
Definition promote (indeterminate : Z -> Tile.t) (st : State.t) (a : Z)
  : State.t :=
  let tiles := set_tile_state indeterminate (State.tiles st) a Tile.DENOISE in
  State.set_denoise_tiles
    (vec_alter (fun q => q ++ [a]) (State.denoise_tiles st)
       (Tile.device (tile_at indeterminate tiles a)))
    (State.set_tiles tiles st).

(** The tile [a] made [DONE], its buffers released here unless it is the
    tile that is returned. *)
Definition finish (indeterminate : Z -> Tile.t) (st : State.t) (a : Z)
    (release : bool) : State.t :=
  let tiles := set_tile_state indeterminate (State.tiles st) a Tile.DONE in
  State.set_tiles
    (if release
     then vec_set tiles a (Tile.set_buffers None (tile_at indeterminate tiles a))
     else tiles)
    st.

(** The neighbour of the cell [(cx, cy)] that the loops of [return_tile]
    look at in turn [n]. *)
Definition scan_cell (tw : Z) (cx cy n : Z) : Z := (cy + dy n) * tw + (cx + dx n).

Definition scan_in_grid (tw th : Z) (cx cy n : Z) : Prop :=
  0 <= cx + dx n < tw /\ 0 <= cy + dy n < th.

(** The tiles that are or were in a denoise list are tiles of the grid. *)
Definition listed_in_grid (tw th : Z) (st : State.t) (D : list Z) : Prop :=
  forall idx, idx ∈ D ++ concat (State.denoise_tiles st) -> 0 <= idx < tw * th.

(** The properties that the loops of [return_tile] keep whatever tile is
    returned. *)
Definition scan_safe (indeterminate : Z -> Tile.t) (ts : int2) (tw th : Z)
    (D : list Z) (st : State.t) : Prop :=
  grid_state indeterminate ts tw th st
  /\ neighbours_safe indeterminate tw th st
  /\ denoise_listed indeterminate tw th st D
  /\ listed_in_grid tw th st D.

(** What holds between two tile generations when tiles are rendered and
    then denoised. *)
Definition denoise_inv (indeterminate : Z -> Tile.t) (m : TileManager.t)
    (D : list Z) : Prop :=
  scan_safe indeterminate (TileManager.tile_size m) (grid_w m) (grid_h m) D
    (TileManager.state m)
  /\ rendered_waiting indeterminate (grid_w m) (grid_h m)
       (TileManager.state m) (fun _ => False).

(** The tile [index] set to the state [s], as [return_tile] does first. *)
Definition mark (indeterminate : Z -> Tile.t) (st : State.t) (index : Z)
    (s : Tile.TileState) : State.t :=
  State.set_tiles (set_tile_state indeterminate (State.tiles st) index s) st.

(** The tiles that the loop of [return_tile] around the cell [(cx, cy)] has
    still to look at from turn [n] on. *)
Definition pending_from (tw th cx cy n : Z) (t : Z) : Prop :=
  exists n', n <= n' < 9 /\ scan_in_grid tw th cx cy n'
             /\ t = scan_cell tw cx cy n'.

(** ** What [return_tile] may change *)

(** A tile after a call: it is the same rectangle on the same device, its
    state has not gone back, and its buffers are those it had unless it is
    [DONE] and they were released. *)
Definition tile_advanced (t t' : Tile.t) : Prop :=
  Tile.index t' = Tile.index t
  /\ Tile.x t' = Tile.x t /\ Tile.y t' = Tile.y t
  /\ Tile.w t' = Tile.w t /\ Tile.h t' = Tile.h t
  /\ Tile.device t' = Tile.device t
  /\ Tile.rank (Tile.state t) <= Tile.rank (Tile.state t')
  /\ (Tile.buffers t' = Tile.buffers t
      \/ (Tile.buffers t' = None /\ Tile.state t' = Tile.DONE)).

(** The working state after a call: the tiles have advanced, and nothing
    else has changed but the denoise lists. *)
Definition state_advanced (indeterminate : Z -> Tile.t) (st st' : State.t)
  : Prop :=
  length (State.tiles st') = length (State.tiles st)
  /\ (forall j, tile_advanced (tile_at indeterminate (State.tiles st) j)
                  (tile_at indeterminate (State.tiles st') j))
  /\ length (State.denoise_tiles st') = length (State.denoise_tiles st)
  /\ st' = State.set_denoise_tiles (State.denoise_tiles st')
             (State.set_tiles (State.tiles st') st).

(** Every tile in a list is in the list of its own device. *)
Definition device_inv (indeterminate : Z -> Tile.t) (st : State.t) : Prop :=
  forall j idx,
    idx ∈ queue_at (State.render_tiles st) j
    \/ idx ∈ queue_at (State.denoise_tiles st) j ->
    Tile.device (tile_at indeterminate (State.tiles st) idx) = j.

(** ** The walk of the spiral *)

(** The block the spiral starts from, and the spiral after [k] advances. *)
Definition spiral_start : Spiral :=
  mkSpiral (make_int2 0 0) DIRECTION_UP DIRECTION_UP 0.

Definition spiral_at (n : Z) (k : nat) : Spiral :=
  Nat.iter k (spiral_advance n) spiral_start.

(** ** Sorted lists *)

(** The lists of the devices below [d] are sorted by the comparison of
    tiles. *)
Definition sorted_chunks (indeterminate : Z -> Tile.t) (order : TileOrder)
    (center : int2) (tiles : list Tile.t) (queues : list (list Z)) (d : Z)
  : Prop :=
  forall j, 0 <= j < d ->
    StronglySorted
      (fun x y => TileComparator indeterminate order center tiles y x = false)
      (queue_at queues j).

(** The centre of the image, as [gen_tiles] computes it. *)
Definition image_center (m : TileManager.t) : int2 :=
  make_int2 (Z.quot (image_w m) 2) (Z.quot (image_h m) 2).

(** * The Hilbert curve is a bijection *)


Lemma land_1_mod a : Z.land a 1 = a mod 2.
Proof. change 1 with (Z.ones 1). rewrite Z.land_ones by lia. reflexivity. Qed.

Lemma lxor_bit0_mod a b : 0 <= b <= 1 -> Z.lxor a b mod 2 = (a + b) mod 2.
Proof.
  intros Hb. rewrite <- !Z.bit0_mod, Z.lxor_spec, Z.add_bit0. reflexivity.
Qed.

Lemma hilbert_step_place s d p :
  0 <= d ->
  hilbert_step (s, d, p) = (s * 2, d / 4, hilbert_place s p (d mod 4)).
Proof.
  intros Hd. unfold hilbert_step, hilbert_place.
  rewrite !land_1_mod, !Z.shiftr_div_pow2 by lia.
  change (2 ^ 1) with 2. change (2 ^ 2) with 4.
  assert (Hrx : 0 <= d / 2 mod 2 <= 1) by (pose proof (Z.mod_pos_bound (d / 2) 2); lia).
  rewrite lxor_bit0_mod by exact Hrx.
  assert (Hq : 0 <= d mod 4 < 4) by (apply Z.mod_pos_bound; lia).
  assert (Hcases :
    (d mod 4 = 0 /\ d / 2 mod 2 = 0 /\ (d + d / 2 mod 2) mod 2 = 0) \/
    (d mod 4 = 1 /\ d / 2 mod 2 = 0 /\ (d + d / 2 mod 2) mod 2 = 1) \/
    (d mod 4 = 2 /\ d / 2 mod 2 = 1 /\ (d + d / 2 mod 2) mod 2 = 1) \/
    (d mod 4 = 3 /\ d / 2 mod 2 = 1 /\ (d + d / 2 mod 2) mod 2 = 0)).
  { Z.to_euclidean_division_equations. lia. }
  destruct p as [px py]; simpl.
  destruct Hcases as [(-> & -> & ->) | [(-> & -> & ->) | [(-> & -> & ->) | (-> & -> & ->)]]];
    simpl; do 2 f_equal; lia.
Qed.

Lemma hilbert_place_in_square s p q :
  0 < s -> 0 <= q < 4 -> in_square s p -> in_square (s * 2) (hilbert_place s p q).
Proof.
  unfold in_square, hilbert_place. intros Hs Hq [Hx Hy].
  repeat case_match; simpl; lia.
Qed.

Lemma hilbert_place_inj s p p' q q' :
  0 < s -> 0 <= q < 4 -> 0 <= q' < 4 -> in_square s p -> in_square s p' ->
  hilbert_place s p q = hilbert_place s p' q' -> q = q' /\ p = p'.
Proof.
  unfold in_square, hilbert_place. intros Hs Hq Hq' [Hx Hy] [Hx' Hy'].
  destruct p as [px py], p' as [px' py']; simpl in *.
  repeat case_match; intros [= E1 E2]; split; try f_equal; lia.
Qed.

Lemma hilbert_place_surj s t :
  0 < s -> in_square (s * 2) t ->
  exists p q, 0 <= q < 4 /\ in_square s p /\ hilbert_place s p q = t.
Proof.
  unfold in_square. intros Hs [Hx Hy]. destruct t as [tx ty]; simpl in *.
  destruct (Z_lt_dec tx s), (Z_lt_dec ty s).
  - exists (make_int2 ty tx), 0. simpl. repeat split; try lia.
  - exists (make_int2 tx (ty - s)), 1. simpl. repeat split; try lia.
    unfold hilbert_place; simpl. f_equal; lia.
  - exists (make_int2 (s - 1 - ty) (2 * s - 1 - tx)), 3. simpl.
    repeat split; try lia. unfold hilbert_place; simpl. f_equal; lia.
  - exists (make_int2 (tx - s) (ty - s)), 2. simpl. repeat split; try lia.
    unfold hilbert_place; simpl. f_equal; lia.
Qed.


Lemma hilbert_run_S k d : hilbert_run (S k) d = hilbert_step (hilbert_run k d).
Proof. reflexivity. Qed.

Lemma hilbert_run_fst k d :
  0 <= d -> fst (hilbert_run k d) = (2 ^ Z.of_nat k, d / 4 ^ Z.of_nat k).
Proof.
  intros Hd. induction k as [|k IH].
  - simpl. rewrite Z.div_1_r. reflexivity.
  - rewrite hilbert_run_S. destruct (hilbert_run k d) as [[s dk] p].
    simpl in IH. injection IH as -> ->.
    rewrite hilbert_step_place by (apply Z.div_pos; lia). simpl.
    rewrite Nat2Z.inj_succ, !Z.pow_succ_r by lia.
    rewrite Z.div_div by lia. f_equal; [lia|f_equal; lia].
Qed.

Lemma hilbert_run_snd_S k d :
  0 <= d ->
  snd (hilbert_run (S k) d) =
  hilbert_place (2 ^ Z.of_nat k) (snd (hilbert_run k d))
    ((d / 4 ^ Z.of_nat k) mod 4).
Proof.
  intros Hd. rewrite hilbert_run_S.
  pose proof (hilbert_run_fst k d Hd) as Hf.
  destruct (hilbert_run k d) as [[s dk] p]. simpl in Hf. injection Hf as -> ->.
  rewrite hilbert_step_place by (apply Z.div_pos; lia). reflexivity.
Qed.

Lemma hilbert_run_in_square k d :
  0 <= d -> in_square (2 ^ Z.of_nat k) (snd (hilbert_run k d)).
Proof.
  intros Hd. induction k as [|k IH].
  - simpl. unfold in_square. simpl. lia.
  - rewrite hilbert_run_snd_S by lia.
    rewrite Nat2Z.inj_succ, Z.pow_succ_r, Z.mul_comm by lia.
    apply hilbert_place_in_square; [lia| |exact IH].
    apply Z.mod_pos_bound; lia.
Qed.

Lemma hilbert_run_inj k d d' :
  0 <= d -> 0 <= d' ->
  snd (hilbert_run k d) = snd (hilbert_run k d') ->
  d mod 4 ^ Z.of_nat k = d' mod 4 ^ Z.of_nat k.
Proof.
  intros Hd Hd'. induction k as [|k IH].
  - intros _. simpl. rewrite !Z.mod_1_r. reflexivity.
  - rewrite !hilbert_run_snd_S by lia. intros E.
    apply hilbert_place_inj in E as [Eq Ep];
      [|lia|apply Z.mod_pos_bound; lia|apply Z.mod_pos_bound; lia
       |apply hilbert_run_in_square; lia|apply hilbert_run_in_square; lia].
    specialize (IH Ep).
    rewrite Nat2Z.inj_succ, Z.pow_succ_r, Z.mul_comm by lia.
    rewrite !Z.rem_mul_r by lia. congruence.
Qed.

Lemma hilbert_run_surj k t hi :
  0 <= hi -> in_square (2 ^ Z.of_nat k) t ->
  exists d, 0 <= d < 4 ^ Z.of_nat k /\
            snd (hilbert_run k (d + 4 ^ Z.of_nat k * hi)) = t.
Proof.
  revert t hi. induction k as [|k IH]; intros t hi Hhi Ht.
  - exists 0. split; [simpl; lia|]. simpl.
    destruct t as [tx ty]. unfold in_square in Ht. simpl in *. f_equal; lia.
  - rewrite Nat2Z.inj_succ, Z.pow_succ_r, Z.mul_comm in Ht by lia.
    apply hilbert_place_surj in Ht as (p & q & Hq & Hp & <-); [|lia].
    destruct (IH p (q + 4 * hi)) as (d0 & Hd0 & E); [lia|exact Hp|].
    assert (H4 : 0 < 4 ^ Z.of_nat k) by lia.
    exists (d0 + 4 ^ Z.of_nat k * q).
    rewrite Nat2Z.inj_succ, Z.pow_succ_r by lia. split; [nia|].
    replace (d0 + 4 ^ Z.of_nat k * q + 4 * 4 ^ Z.of_nat k * hi)
      with (d0 + 4 ^ Z.of_nat k * (q + 4 * hi)) by lia.
    rewrite hilbert_run_snd_S by nia. rewrite E. f_equal.
    rewrite (Z.mul_comm (4 ^ Z.of_nat k)), Z.div_add by lia.
    rewrite Z.div_small by lia. simpl.
    Z.to_euclidean_division_equations. lia.
Qed.

(** The loop of the source, with its test [s < n], runs exactly [k] times on a
    side [n = 2^k]; the fuel is never what stops it. *)
Lemma hilbert_loop_run k (j : nat) fuel st :
  fst (fst st) = 2 ^ Z.of_nat j -> (j <= k)%nat -> (k - j <= fuel)%nat ->
  hilbert_loop fuel (2 ^ Z.of_nat k) st = snd (Nat.iter (k - j) hilbert_step st).
Proof.
  remember (k - j)%nat as todo eqn:Htodo.
  revert j fuel st Htodo. induction todo as [|todo IH]; intros j fuel st Htodo Hs Hj Hfuel.
  - assert (j = k) as -> by lia. simpl.
    destruct fuel; simpl; [reflexivity|]. rewrite Hs, Z.ltb_irrefl. reflexivity.
  - destruct fuel as [|fuel]; [lia|]. simpl hilbert_loop.
    rewrite Hs.
    assert (2 ^ Z.of_nat j < 2 ^ Z.of_nat k) as Hlt by (apply Z.pow_lt_mono_r; lia).
    apply Z.ltb_lt in Hlt. rewrite Hlt.
    rewrite (IH (S j)); [|lia| |lia|lia].
    + rewrite <- Nat.iter_succ_r. reflexivity.
    + destruct st as [[s d] p]. simpl in *. subst s.
      rewrite Nat2Z.inj_succ, Z.pow_succ_r by lia. lia.
Qed.

Lemma pow2_ge_nat (k : nat) : (k <= Z.to_nat (2 ^ Z.of_nat k))%nat.
Proof.
  induction k as [|k IH]; [lia|].
  rewrite Nat2Z.inj_succ, Z.pow_succ_r by lia.
  assert (0 < 2 ^ Z.of_nat k) by lia. lia.
Qed.

Lemma hilbert_index_to_pos_run k d :
  hilbert_index_to_pos (2 ^ Z.of_nat k) d = snd (hilbert_run k d).
Proof.
  unfold hilbert_index_to_pos, hilbert_run.
  rewrite (hilbert_loop_run k 0); [|reflexivity|lia|].
  - rewrite Nat.sub_0_r. reflexivity.
  - pose proof (pow2_ge_nat k). lia.
Qed.

(** C9.  For a side length [H = 2^k], the map from an index [d] in
    [0 .. H*H-1] to [hilbert_index_to_pos H d] is a bijection onto the grid
    [0 .. H-1] x [0 .. H-1]: every index lands in the grid, two indices that
    land on the same cell are equal, and every cell of the grid is reached. *)
Theorem hilbert_index_to_pos_bijection (k : nat) :
  let H := 2 ^ Z.of_nat k in
  (forall d, 0 <= d < H * H -> in_square H (hilbert_index_to_pos H d)) /\
  (forall d d', 0 <= d < H * H -> 0 <= d' < H * H ->
     hilbert_index_to_pos H d = hilbert_index_to_pos H d' -> d = d') /\
  (forall p, in_square H p ->
     exists d, 0 <= d < H * H /\ hilbert_index_to_pos H d = p).
Proof.
  intros H.
  assert (HH : H * H = 4 ^ Z.of_nat k).
  { unfold H. rewrite <- Z.pow_mul_l. reflexivity. }
  split; [|split].
  - intros d Hd. unfold H. rewrite hilbert_index_to_pos_run.
    apply hilbert_run_in_square. lia.
  - intros d d' Hd Hd'. unfold H. rewrite !hilbert_index_to_pos_run. intros E.
    apply hilbert_run_inj in E; [|lia|lia].
    rewrite !Z.mod_small in E by lia. exact E.
  - intros p Hp. destruct (hilbert_run_surj k p 0) as (d & Hd & E); [lia|exact Hp|].
    exists d. split; [lia|]. unfold H. rewrite hilbert_index_to_pos_run.
    rewrite Z.mul_0_r, Z.add_0_r in E. exact E.
Qed.

(** * The preview divider *)


Lemma halved_S v k :
  0 <= v -> Z.max 1 (Z.quot (halved v k) 2) = halved v (S k).
Proof.
  intros Hv. unfold halved at 2.
  replace (Z.of_nat (S k)) with (Z.of_nat k + 1) by lia.
  rewrite <- Z.shiftr_shiftr, (Z.shiftr_div_pow2 _ 1) by lia.
  change (2 ^ 1) with 2.
  assert (Hk : 0 <= Z.shiftr v (Z.of_nat k)) by (apply Z.shiftr_nonneg; lia).
  destruct k as [|k].
  - simpl halved. rewrite Z.shiftr_0_r. rewrite Z.quot_div_nonneg by lia. reflexivity.
  - unfold halved. remember (Z.shiftr v (Z.of_nat (S k))) as u.
    rewrite Z.quot_div_nonneg by lia.
    Z.to_euclidean_division_equations. lia.
Qed.

Lemma halved_late v (k : nat) :
  0 <= v -> Z.log2 v < Z.of_nat k -> halved v k = 1.
Proof.
  intros Hv Hk. destruct k as [|k]; [pose proof (Z.log2_nonneg v); lia|].
  unfold halved. rewrite Z.shiftr_div_pow2 by lia.
  assert (v < 2 ^ Z.of_nat (S k)).
  { destruct (Z.eq_dec v 0) as [->|Hne]; [lia|].
    destruct (Z.log2_spec v) as [_ Hlt]; [lia|].
    eapply Z.lt_le_trans; [exact Hlt|]. apply Z.pow_le_mono_r; lia. }
  rewrite Z.div_small by lia. reflexivity.
Qed.

Lemma int_wrap_small z : - 2 ^ 31 <= z <= INT_MAX -> int_wrap z = z.
Proof.
  intros Hz. unfold int_wrap, INT_MAX in *. rewrite Z.mod_small by lia. lia.
Qed.

Lemma halved_large v (i : nat) : 0 <= v -> 2 <= halved v i -> 2 * 2 ^ Z.of_nat i <= v.
Proof.
  intros Hv. destruct i as [|i]; [simpl; lia|].
  unfold halved. rewrite Z.shiftr_div_pow2 by lia. intros H2.
  assert (Hpos : 0 < 2 ^ Z.of_nat (S i)) by (apply Z.pow_pos_nonneg; lia).
  assert (H : 2 <= v / 2 ^ Z.of_nat (S i)) by lia.
  pose proof (Z.mul_div_le v (2 ^ Z.of_nat (S i)) Hpos). nia.
Qed.

Lemma halved_bounds v (k : nat) :
  0 <= v -> 0 <= halved v k <= Z.max 1 v /\ (v <= 1 -> halved v k <= 1).
Proof.
  intros Hv. destruct k as [|k]; [simpl; lia|].
  unfold halved. rewrite Z.shiftr_div_pow2 by lia.
  assert (Hpos : 0 < 2 ^ Z.of_nat (S k)) by (apply Z.pow_pos_nonneg; lia).
  pose proof (Z.div_pos v (2 ^ Z.of_nat (S k)) Hv Hpos).
  assert (v / 2 ^ Z.of_nat (S k) <= v)
    by (apply Z.div_le_upper_bound; [lia|nia]).
  lia.
Qed.

(** The halved sizes of an image whose pixels are counted by an [int] are
    counted by an [int]. *)
Lemma halved_product_range w h (k : nat) :
  0 <= w <= INT_MAX -> 0 <= h <= INT_MAX -> w * h <= INT_MAX ->
  0 <= halved w k * halved h k <= INT_MAX.
Proof.
  intros Hw Hh Hwh.
  destruct (halved_bounds w k) as [Hbw Hw1]; [lia|].
  destruct (halved_bounds h k) as [Hbh Hh1]; [lia|].
  unfold INT_MAX in *.
  destruct (Z_le_gt_dec w 1) as [Hw'|Hw'], (Z_le_gt_dec h 1) as [Hh'|Hh'].
  - specialize (Hw1 Hw'). specialize (Hh1 Hh'). nia.
  - specialize (Hw1 Hw'). nia.
  - specialize (Hh1 Hh'). nia.
  - rewrite Z.max_r in Hbw by lia. rewrite Z.max_r in Hbh by lia. nia.
Qed.

(** With a threshold that is not positive the loop is never left on an image
    with pixels. *)
Lemma get_divider_loop_never s fuel :
  int_wrap (s * s) <= 0 ->
  forall w h d,
    1 <= w -> 1 <= h -> w * h <= INT_MAX ->
    get_divider_loop fuel w h s d = None.
Proof.
  intros HS. induction fuel as [|fuel IH]; intros w h d Hw Hh Hwh;
    cbn [get_divider_loop];
    rewrite (int_wrap_small (w * h)) by (unfold INT_MAX in *; nia);
    replace (w * h >? int_wrap (s * s)) with true
      by (symmetry; rewrite Z.gtb_ltb; apply Z.ltb_lt; nia).
  - reflexivity.
  - assert (Hqw : 0 <= Z.quot w 2 <= w)
      by (rewrite Z.quot_div_nonneg by lia; split;
          [apply Z.div_pos; lia|apply Z.div_le_upper_bound; lia]).
    assert (Hqh : 0 <= Z.quot h 2 <= h)
      by (rewrite Z.quot_div_nonneg by lia; split;
          [apply Z.div_pos; lia|apply Z.div_le_upper_bound; lia]).
    apply IH; [lia|lia|nia].
Qed.

Lemma get_divider_loop_spec s w h :
  0 <= w <= INT_MAX -> 0 <= h <= INT_MAX -> w * h <= INT_MAX ->
  1 <= int_wrap (s * s) ->
  forall fuel (j : nat),
    (Z.to_nat (Z.log2 (Z.max w h)) < j + fuel)%nat ->
    (forall i, (i < j)%nat -> halved w i * halved h i > int_wrap (s * s)) ->
    exists k : nat,
      get_divider_loop fuel (halved w j) (halved h j) s (2 ^ Z.of_nat j)
      = Some (2 ^ Z.of_nat k)
      /\ halved w k * halved h k <= int_wrap (s * s)
      /\ forall i, (i < k)%nat -> halved w i * halved h i > int_wrap (s * s).
Proof.
  intros Hw Hh Hwh Hs. induction fuel as [|fuel IH]; intros j Hfuel Hbefore.
  - assert (Hj : Z.log2 (Z.max w h) < Z.of_nat j).
    { pose proof (Z.log2_nonneg (Z.max w h)). lia. }
    assert (halved w j = 1) as Ew.
    { apply halved_late; [lia|]. pose proof (Z.log2_le_mono w (Z.max w h)). lia. }
    assert (halved h j = 1) as Eh.
    { apply halved_late; [lia|]. pose proof (Z.log2_le_mono h (Z.max w h)). lia. }
    exists j. cbn [get_divider_loop]. rewrite Ew, Eh.
    change (int_wrap (1 * 1)) with 1.
    assert ((1 >? int_wrap (s * s)) = false) as ->
      by (rewrite Z.gtb_ltb; apply Z.ltb_ge; lia).
    repeat split; [lia|exact Hbefore].
  - cbn [get_divider_loop].
    rewrite (int_wrap_small (halved w j * halved h j))
      by (pose proof (halved_product_range w h j Hw Hh Hwh); lia).
    destruct (halved w j * halved h j >? int_wrap (s * s)) eqn:E.
    + rewrite Z.gtb_ltb in E. apply Z.ltb_lt in E.
      rewrite !halved_S by lia.
      assert (Hlarge : 2 * 2 ^ Z.of_nat j <= INT_MAX).
      { destruct (halved_bounds w j) as [Hbw _]; [lia|].
        destruct (halved_bounds h j) as [Hbh _]; [lia|].
        assert (Hor : 2 <= halved w j \/ 2 <= halved h j) by nia.
        destruct Hor as [H|H]; apply halved_large in H; lia. }
      replace (int_wrap (Z.shiftl (2 ^ Z.of_nat j) 1)) with (2 ^ Z.of_nat (S j)).
      2:{ rewrite Z.shiftl_mul_pow2, Nat2Z.inj_succ, Z.pow_succ_r by lia.
          change (2 ^ 1) with 2.
          assert (0 < 2 ^ Z.of_nat j) by (apply Z.pow_pos_nonneg; lia).
          rewrite int_wrap_small; lia. }
      apply IH; [lia|]. intros i Hi.
      destruct (Nat.eq_dec i j) as [->|Hne]; [|apply Hbefore; lia].
      lia.
    + exists j. repeat split; [|exact Hbefore].
      rewrite Z.gtb_ltb in E. apply Z.ltb_ge in E. exact E.
Qed.

Lemma get_divider_spec w h s :
  0 <= w <= INT_MAX -> 0 <= h <= INT_MAX -> w * h <= INT_MAX ->
  1 <= int_wrap (s * s) -> s <> INT_MAX ->
  exists k : nat,
    get_divider w h s = Some (2 ^ Z.of_nat k)
    /\ halved w k * halved h k <= int_wrap (s * s)
    /\ forall i, (i < k)%nat -> halved w i * halved h i > int_wrap (s * s).
Proof.
  intros Hw Hh Hwh Hs Hmax. unfold get_divider.
  apply Z.eqb_neq in Hmax. rewrite Hmax.
  apply (get_divider_loop_spec s w h Hw Hh Hwh Hs (divider_fuel w h) 0).
  - unfold divider_fuel. lia.
  - intros i Hi. lia.
Qed.

Lemma get_divider_sentinel w h : get_divider w h INT_MAX = Some 1.
Proof. reflexivity. Qed.

Lemma reset_some m params ns d :
  get_divider (BufferParams.width params) (BufferParams.height params)
    (TileManager.start_resolution m) = Some d ->
  exists m',
    reset m params ns = Some m'
    /\ State.resolution_divider (TileManager.state m') = d
    /\ m' = TileManager.set_state (TileManager.state m')
              (TileManager.set_num_samples ns (TileManager.set_params params m)).
Proof.
  intros Hd. unfold reset, set_samples. simpl.
  destruct (ns =? INT_MAX); simpl; [rewrite Hd; eauto|].
  destruct (TileManager.only_denoise m); simpl; rewrite Hd; simpl; [eauto|].
  rewrite Hd. eauto.
Qed.

(** C6 (amended).  [reset] sets [resolution_divider] to 1 when
    [start_resolution] is [INT_MAX]; otherwise, for a width [w >= 0] and a
    height [h >= 0] with [w * h] in [int] range, and [start_resolution = s <> 0]
    with [s * s] in [int] range, it sets it to the smallest power of two [2^k]
    such that [halved w k * halved h k <= s * s], where the sizes halved
    [k >= 1] times are clamped to one pixel: [halved v k = max 1 (v >> k)]. *)
Theorem reset_resolution_divider m params ns :
  let w := BufferParams.width params in
  let h := BufferParams.height params in
  let s := TileManager.start_resolution m in
  (s = INT_MAX ->
   exists m', reset m params ns = Some m'
              /\ State.resolution_divider (TileManager.state m') = 1)
  /\ (s <> INT_MAX -> 0 <= w <= INT_MAX -> 0 <= h <= INT_MAX ->
      w * h <= INT_MAX -> s <> 0 -> s * s <= INT_MAX ->
      exists m' (k : nat),
        reset m params ns = Some m'
        /\ State.resolution_divider (TileManager.state m') = 2 ^ Z.of_nat k
        /\ halved w k * halved h k <= s * s
        /\ forall i, (i < k)%nat -> halved w i * halved h i > s * s).
Proof.
  intros w h s. split.
  - intros Hs. destruct (reset_some m params ns 1) as (m' & E & Hd & _).
    { fold s. rewrite Hs. apply get_divider_sentinel. }
    eauto.
  - intros Hmax Hw Hh Hwh Hs Hss.
    assert (Hwrap : int_wrap (s * s) = s * s)
      by (apply int_wrap_small; unfold INT_MAX in *; nia).
    destruct (get_divider_spec w h s Hw Hh Hwh) as (k & E & Hle & Hmin);
      [rewrite Hwrap; nia|exact Hmax|].
    rewrite Hwrap in Hle, Hmin.
    destruct (reset_some m params ns _ E) as (m' & E' & Hd & _).
    exists m', k. auto.
Qed.

(** * The rank of the feature transform *)

Section RankBounds.

Variable F : Z.
Variables (feature_matrix feature_scale : list float).

Lemma rank_by_energy_bounds (len : nat) :
  forall i threshold reduced transform,
    let r := snd (rank_by_energy F (seqZ i (Z.of_nat len)) feature_matrix
                    feature_scale threshold i reduced transform) in
    i <= r <= i + Z.of_nat len /\ (r < i + Z.of_nat len -> 2 <= r).
Proof.
  induction len as [|len IH]; intros i threshold reduced transform.
  - simpl. lia.
  - rewrite seqZ_cons by lia. cbn [rank_by_energy].
    replace (Z.pred (Z.of_nat (S len))) with (Z.of_nat len) by lia.
    destruct ((i >=? 2) && fle threshold reduced) eqn:E.
    + cbn zeta. simpl. apply andb_prop in E as [E _].
      rewrite Z.geb_leb in E. apply Z.leb_le in E. lia.
    + rewrite <- Z.add_1_r.
      specialize (IH (i + 1) threshold (fadd reduced (fget feature_matrix (i * F + i)))
                    (math_vector_mul transform (i * F) feature_scale F)).
      cbn zeta in *. lia.
Qed.

Lemma rank_by_deviation_bounds (len : nat) :
  forall i pca_threshold transform,
    let r := snd (rank_by_deviation F (seqZ i (Z.of_nat len)) feature_matrix
                    feature_scale pca_threshold i transform) in
    i <= r <= i + Z.of_nat len /\ (r < i + Z.of_nat len -> 2 <= r).
Proof.
  induction len as [|len IH]; intros i pca_threshold transform.
  - simpl. lia.
  - rewrite seqZ_cons by lia. cbn [rank_by_deviation].
    replace (Z.pred (Z.of_nat (S len))) with (Z.of_nat len) by lia.
    destruct ((i >=? 2) && flt (fsqrt (fget feature_matrix (i * F + i)))
                             (fopp pca_threshold)) eqn:E.
    + cbn zeta. simpl. apply andb_prop in E as [E _].
      rewrite Z.geb_leb in E. apply Z.leb_le in E. lia.
    + rewrite <- Z.add_1_r.
      specialize (IH (i + 1) pca_threshold
                    (math_vector_mul transform (i * F) feature_scale F)).
      cbn zeta in *. lia.
Qed.

Lemma rank_by_energy_range n threshold reduced transform :
  2 <= n ->
  2 <= snd (rank_by_energy F (seqZ 0 n) feature_matrix feature_scale threshold
              0 reduced transform) <= n.
Proof.
  intros Hn.
  pose proof (rank_by_energy_bounds (Z.to_nat n) 0 threshold reduced transform)
    as Hb.
  cbn zeta in Hb. rewrite Z2Nat.id in Hb by lia. lia.
Qed.

Lemma rank_by_deviation_range n pca_threshold transform :
  2 <= n ->
  2 <= snd (rank_by_deviation F (seqZ 0 n) feature_matrix feature_scale
              pca_threshold 0 transform) <= n.
Proof.
  intros Hn.
  pose proof (rank_by_deviation_bounds (Z.to_nat n) 0 pca_threshold transform)
    as Hb.
  cbn zeta in Hb. rewrite Z2Nat.id in Hb by lia. lia.
Qed.

End RankBounds.

(** C8.  Whatever the buffer, the window, the radius and [pca_threshold]
    (positive or not, a number or not), and whatever the feature extraction
    and the eigendecomposition leave in their arrays, the rank that
    [kernel_filter_construct_transform] returns lies between 2 and
    [DENOISE_FEATURES], as soon as [DENOISE_FEATURES >= 2]. *)
Theorem construct_transform_rank_bounds
    (DENOISE_FEATURES : Z)
    (filter_get_features :
       int2 -> Z -> list float -> option (list float) -> Z -> list float)
    (filter_get_feature_scales :
       int2 -> Z -> list float -> list float -> Z -> list float)
    (filter_calculate_scale : list float -> list float)
    (math_trimatrix_add_gramian :
       list float -> Z -> list float -> float -> list float)
    (math_trimatrix_jacobi_eigendecomposition :
       list float -> list float -> Z -> Z -> list float * list float)
    (sample : Z) (buffer : list float) (x y : Z) (rect : Z * Z * Z * Z)
    (pass_stride : Z) (transform : list float) (radius : Z)
    (pca_threshold : float) :
  2 <= DENOISE_FEATURES ->
  let rank :=
    snd (kernel_filter_construct_transform DENOISE_FEATURES
           filter_get_features filter_get_feature_scales
           filter_calculate_scale math_trimatrix_add_gramian
           math_trimatrix_jacobi_eigendecomposition
           sample buffer x y rect pass_stride transform radius pca_threshold) in
  2 <= rank <= DENOISE_FEATURES.
Proof.
  intros HF. unfold kernel_filter_construct_transform.
  destruct rect as [[[rect_x rect_y] rect_z] rect_w].
  destruct (math_trimatrix_jacobi_eigendecomposition _ _ _ _) as [fm tr].
  cbn zeta.
  destruct (flt float_zero pca_threshold).
  - apply rank_by_energy_range, HF.
  - apply rank_by_deviation_range, HF.
Qed.

(** * [next_tile] on a device without a list *)

(** C10.  When the logical device ([device] if [preserve_tile_device], else
    0) is not below the number of lists in [state.render_tiles], [next_tile]
    returns [false] and the manager is as it was.  [device] is an [int]. *)
Theorem next_tile_no_queue (m : TileManager.t) (device : Z) :
  let logical_device :=
    if TileManager.preserve_tile_device m then device else 0 in
  - 2 ^ 31 <= device < 2 ^ 31 ->
  Z.of_nat (length (State.render_tiles (TileManager.state m)))
  <= logical_device ->
  next_tile m device = (None, m).
Proof.
  intros ld Hint Hge. unfold next_tile. fold ld.
  assert (Hld : 0 <= ld < 2 ^ 64) by (unfold ld in *; destruct (TileManager.preserve_tile_device m); lia).
  unfold size_t. rewrite Z.mod_small by exact Hld.
  assert ((ld >=? Z.of_nat (length (State.render_tiles (TileManager.state m)))) = true) as ->
    by (rewrite Z.geb_leb; apply Z.leb_le; exact Hge).
  reflexivity.
Qed.

(** * A threshold of zero drops no feature *)

Lemma SFsqrt_not_below_zero (s : float) (b : bool) :
  flt (fsqrt s) (S754_zero b) = false.
Proof.
  unfold flt, fsqrt, SFltb, SFsqrt.
  destruct s as [sb|[|]| |[|] mx ex]; try reflexivity.
  destruct (SFsqrt_core_binary _ _ _ _) as [[mz ez] lz].
  unfold binary_round_aux.
  destruct (shr_fexp _ _ mz ez lz) as [mrs e'].
  destruct (shr_fexp _ _ _ e' loc_Exact) as [mrs' e''].
  destruct (shr_m mrs') as [|p|p]; [reflexivity| |reflexivity].
  destruct (_ <=? _); reflexivity.
Qed.

Lemma flt_nan_r (s : float) : flt s S754_nan = false.
Proof. destruct s as [|[|]| |[|]]; reflexivity. Qed.

Section RankFull.

Variable F : Z.
Variables (feature_matrix feature_scale : list float).
Variable pca_threshold : float.
Hypothesis never_below :
  forall s, flt (fsqrt s) (fopp pca_threshold) = false.

Lemma rank_by_deviation_full (len : nat) :
  forall i transform,
    snd (rank_by_deviation F (seqZ i (Z.of_nat len)) feature_matrix
           feature_scale pca_threshold i transform)
    = i + Z.of_nat len.
Proof using never_below.
  induction len as [|len IH]; intros i transform.
  - simpl. lia.
  - rewrite seqZ_cons by lia. cbn [rank_by_deviation].
    rewrite never_below, andb_false_r.
    replace (Z.pred (Z.of_nat (S len))) with (Z.of_nat len) by lia.
    rewrite <- Z.add_1_r, IH. lia.
Qed.

Lemma rank_by_deviation_all n transform :
  0 <= n ->
  snd (rank_by_deviation F (seqZ 0 n) feature_matrix feature_scale
         pca_threshold 0 transform) = n.
Proof using never_below.
  intros Hn0.
  pose proof (rank_by_deviation_full (Z.to_nat n) 0 transform) as Hfull.
  rewrite Z2Nat.id in Hfull by exact Hn0. exact Hfull.
Qed.

End RankFull.

(** With [pca_threshold] zero, of either sign, or not a number, no feature
    is dropped: the test [pca_threshold > 0] fails, and in the other loop
    [sqrtf(s) < -pca_threshold] is false for every [s], also for a negative
    one or one that is not a number, so the loop never breaks and the rank is
    [DENOISE_FEATURES]. *)
Theorem construct_transform_zero_threshold_full_rank
    (DENOISE_FEATURES : Z)
    (filter_get_features :
       int2 -> Z -> list float -> option (list float) -> Z -> list float)
    (filter_get_feature_scales :
       int2 -> Z -> list float -> list float -> Z -> list float)
    (filter_calculate_scale : list float -> list float)
    (math_trimatrix_add_gramian :
       list float -> Z -> list float -> float -> list float)
    (math_trimatrix_jacobi_eigendecomposition :
       list float -> list float -> Z -> Z -> list float * list float)
    (sample : Z) (buffer : list float) (x y : Z) (rect : Z * Z * Z * Z)
    (pass_stride : Z) (transform : list float) (radius : Z)
    (pca_threshold : float) :
  0 <= DENOISE_FEATURES ->
  (exists b, pca_threshold = S754_zero b) \/ pca_threshold = S754_nan ->
  snd (kernel_filter_construct_transform DENOISE_FEATURES
         filter_get_features filter_get_feature_scales
         filter_calculate_scale math_trimatrix_add_gramian
         math_trimatrix_jacobi_eigendecomposition
         sample buffer x y rect pass_stride transform radius pca_threshold)
  = DENOISE_FEATURES.
Proof.
  intros HF Hthr. unfold kernel_filter_construct_transform.
  destruct rect as [[[rect_x rect_y] rect_z] rect_w].
  destruct (math_trimatrix_jacobi_eigendecomposition _ _ _ _) as [fm tr].
  cbn zeta.
  assert (Hpos : flt float_zero pca_threshold = false).
  { destruct Hthr as [[b ->]| ->]; reflexivity. }
  assert (Hnever : forall s, flt (fsqrt s) (fopp pca_threshold) = false).
  { intros s. destruct Hthr as [[b ->]| ->].
    - apply SFsqrt_not_below_zero.
    - apply flt_nan_r. }
  rewrite Hpos.
  apply rank_by_deviation_all; [exact Hnever|exact HF].
Qed.

(** * The spiral reaches its centre *)

Ltac break_eqb :=
  repeat match goal with
         | |- context [?a =? ?b] => destruct (Z.eqb_spec a b)
         end.

Ltac spiral_case :=
  simpl; break_eqb; simpl; try lia;
  (split;
   [ first [ left; lia
           | right; left; repeat split; first [reflexivity | lia]
           | right; right; repeat split; lia ]
   | nia ]).

Lemma spiral_advance_inv c s :
  0 <= c -> let n := 2 * c + 1 in
  spiral_inv n s ->
  ~ (I2.x (block s) = c /\ I2.y (block s) = c) ->
  spiral_inv n (spiral_advance n s)
  /\ 0 <= spiral_left n (spiral_advance n s) < spiral_left n s.
Proof.
  intros Hc n. unfold spiral_inv, spiral_left.
  assert (Z.quot (n - 1) 2 = c) as ->.
  { unfold n. replace (2 * c + 1 - 1) with (c * 2) by lia. apply Z.quot_mul. lia. }
  destruct s as [[bx bY] pd d i]. unfold spiral_advance. simpl. subst n.
  intros Hinv Hnc.
  destruct Hinv as [Hcen | [(-> & -> & -> & Hi) | (Hi & Hd)]]; [tauto| |].
  - spiral_case.
  - destruct d; destruct Hd as [-> Hd]; spiral_case.
Qed.

Lemma lor_1_odd a : 0 <= a -> exists c, 0 <= c /\ Z.lor a 1 = 2 * c + 1.
Proof.
  intros Ha.
  assert (Hodd : Z.odd (Z.lor a 1) = true).
  { rewrite <- Z.bit0_odd, Z.lor_spec. apply orb_true_r. }
  apply Z.odd_spec in Hodd as [c Hc]. exists c. split; [|exact Hc].
  assert (0 <= Z.lor a 1) by (apply Z.lor_nonneg; lia). lia.
Qed.

Lemma spiral_left_nonneg c s :
  0 <= c -> spiral_inv (2 * c + 1) s -> 0 <= spiral_left (2 * c + 1) s.
Proof.
  intros Hc Hinv.
  destruct (decide (I2.x (block s) = c /\ I2.y (block s) = c)) as [[Hx Hy]|Hn].
  - unfold spiral_left.
    replace (Z.quot (2 * c + 1 - 1) 2) with c
      by (replace (2 * c + 1 - 1) with (c * 2) by lia; symmetry; apply Z.quot_mul; lia).
    rewrite Hx, Hy, !Z.eqb_refl. simpl. lia.
  - pose proof (spiral_advance_inv c s Hc Hinv Hn) as [_ H]. lia.
Qed.

Lemma gen_spiral_some m iw ih tw hs bs off tpd c :
  0 <= c ->
  forall fuel s g,
    spiral_inv (2 * c + 1) s ->
    spiral_left (2 * c + 1) s < Z.of_nat fuel ->
    exists g', gen_spiral fuel m iw ih tw hs bs off tpd (2 * c + 1) s g = Some g'.
Proof.
  intros Hc. induction fuel as [|fuel IH]; intros s g Hinv Hleft.
  - pose proof (spiral_left_nonneg c s Hc Hinv). lia.
  - cbn [gen_spiral].
    replace (Z.quot (2 * c + 1 - 1) 2) with c
      by (replace (2 * c + 1 - 1) with (c * 2) by lia; symmetry; apply Z.quot_mul; lia).
    destruct (Z.eqb_spec (I2.x (block s)) c) as [Hx|Hx];
      destruct (Z.eqb_spec (I2.y (block s)) c) as [Hy|Hy]; simpl; eauto;
      (destruct (spiral_advance_inv c s Hc Hinv) as [Hinv' Hlt]; [tauto|];
       apply IH; [exact Hinv'|lia]).
Qed.

Lemma spiral_start_inv c :
  0 <= c ->
  spiral_inv (2 * c + 1) (mkSpiral (make_int2 0 0) DIRECTION_UP DIRECTION_UP 0)
  /\ spiral_left (2 * c + 1)
       (mkSpiral (make_int2 0 0) DIRECTION_UP DIRECTION_UP 0)
     < (2 * c + 1) * (2 * c + 1).
Proof.
  intros Hc. unfold spiral_inv, spiral_left.
  replace (Z.quot (2 * c + 1 - 1) 2) with c
    by (replace (2 * c + 1 - 1) with (c * 2) by lia; symmetry; apply Z.quot_mul; lia).
  cbn [block dir ring I2.x I2.y].
  destruct (Z.eqb_spec 0 c); cbn [andb].
  - split; [left; lia|nia].
  - split; [right; right; lia|].
    destruct (Z.eqb_spec 0 (0 - 1)); [lia|nia].
Qed.

(** The number of pieces of size [b] that cover [v] pixels. *)
Lemma pieces_pos b v :
  1 <= b -> 1 <= v ->
  1 <= (if b >=? v then 1 else Z.quot (v + b - 1) b).
Proof.
  intros Hb Hv. destruct (b >=? v) eqn:E; [lia|].
  rewrite Z.geb_leb in E. apply Z.leb_gt in E.
  rewrite Z.quot_div_nonneg by lia.
  apply Z.div_le_lower_bound; lia.
Qed.

Lemma image_w_pos m : 1 <= image_w m.
Proof. unfold image_w. lia. Qed.

Lemma image_h_pos m : 1 <= image_h m.
Proof. unfold image_h. lia. Qed.

Lemma grid_w_pos m : 1 <= I2.x (TileManager.tile_size m) -> 1 <= grid_w m.
Proof. intros H. apply pieces_pos; [exact H|apply image_w_pos]. Qed.

Lemma grid_h_pos m : 1 <= I2.y (TileManager.tile_size m) -> 1 <= grid_h m.
Proof. intros H. apply pieces_pos; [exact H|apply image_h_pos]. Qed.

(** * The spiral walks through the whole square *)

Ltac spiral_step_case :=
  simpl; break_eqb; simpl in *; try lia;
  (split;
   [ first [ left; lia
           | right; left; repeat split; first [reflexivity | lia]
           | right; right; repeat split; lia ]
   | nia ]).

Lemma spiral_advance_exact c s :
  0 <= c -> let n := 2 * c + 1 in
  spiral_inv n s ->
  ~ (I2.x (block s) = c /\ I2.y (block s) = c) ->
  spiral_inv n (spiral_advance n s)
  /\ spiral_left n (spiral_advance n s) = spiral_left n s - 1.
Proof.
  intros Hc n. unfold spiral_inv, spiral_left.
  assert (Z.quot (n - 1) 2 = c) as ->.
  { unfold n. replace (2 * c + 1 - 1) with (c * 2) by lia. apply Z.quot_mul. lia. }
  destruct s as [[bx bY] pd d i]. unfold spiral_advance. simpl. subst n.
  intros Hinv Hnc.
  destruct Hinv as [Hcen | [(-> & -> & -> & Hi) | (Hi & Hd)]]; [tauto| |].
  - spiral_step_case.
  - destruct d; destruct Hd as [-> Hd]; spiral_step_case.
Qed.

Lemma spiral_inv_in_square c s :
  0 <= c -> spiral_inv (2 * c + 1) s -> in_square (2 * c + 1) (block s).
Proof.
  intros Hc. unfold spiral_inv, in_square.
  replace (Z.quot (2 * c + 1 - 1) 2) with c
    by (replace (2 * c + 1 - 1) with (c * 2) by lia; symmetry; apply Z.quot_mul; lia).
  cbv zeta. intros [[-> ->]|[(_ & -> & -> & Hi)|(Hi & Hd)]]; [lia|lia|].
  destruct (dir s); lia.
Qed.

(** The block tells how far the walk is. *)
Lemma spiral_left_block c s s' :
  0 <= c -> spiral_inv (2 * c + 1) s -> spiral_inv (2 * c + 1) s' ->
  block s = block s' ->
  spiral_left (2 * c + 1) s = spiral_left (2 * c + 1) s'.
Proof.
  intros Hc. unfold spiral_inv, spiral_left.
  replace (Z.quot (2 * c + 1 - 1) 2) with c
    by (replace (2 * c + 1 - 1) with (c * 2) by lia; symmetry; apply Z.quot_mul; lia).
  destruct s as [[bx bY] pd d i], s' as [[bx' bY'] pd' d' i'].
  cbn [block dir ring I2.x I2.y]. intros H H' [= <- <-].
  destruct (Z.eqb_spec bx c), (Z.eqb_spec bY c); cbn [andb]; [reflexivity| | |].
  all: destruct H as [[? ?]|[(-> & ? & ? & ?)|(? & Hd)]]; [lia| |];
    (destruct H' as [[? ?]|[(-> & ? & ? & ?)|(? & Hd')]]; [lia| |]).
  all: try (destruct d; destruct Hd as [? ?]);
    try (destruct d'; destruct Hd' as [? ?]);
    break_eqb; try lia;
    try (assert (i = i') by lia; subst; lia).
Qed.

Lemma spiral_at_inv c (k : nat) :
  0 <= c -> Z.of_nat k <= (2 * c + 1) * (2 * c + 1) - 1 ->
  spiral_inv (2 * c + 1) (spiral_at (2 * c + 1) k)
  /\ spiral_left (2 * c + 1) (spiral_at (2 * c + 1) k)
     = (2 * c + 1) * (2 * c + 1) - 1 - Z.of_nat k.
Proof.
  intros Hc. induction k as [|k IH]; intros Hk.
  - destruct (spiral_start_inv c Hc) as [Hinv _]. split; [exact Hinv|].
    change (spiral_at (2 * c + 1) 0) with spiral_start.
    unfold spiral_start, spiral_left. cbn [block dir ring I2.x I2.y].
    replace (Z.quot (2 * c + 1 - 1) 2) with c
      by (replace (2 * c + 1 - 1) with (c * 2) by lia; symmetry; apply Z.quot_mul; lia).
    destruct (Z.eqb_spec 0 c); cbn [andb]; [subst c; reflexivity|].
    destruct (Z.eqb_spec 0 (0 - 1)); [lia|]. change (Z.of_nat 0) with 0. ring.
  - destruct IH as [Hinv Hleft]; [lia|].
    change (spiral_at (2 * c + 1) (S k))
      with (spiral_advance (2 * c + 1) (spiral_at (2 * c + 1) k)).
    destruct (spiral_advance_exact c _ Hc Hinv) as [Hinv' Hleft'].
    + intros [Hx Hy]. unfold spiral_left in Hleft.
      replace (Z.quot (2 * c + 1 - 1) 2) with c in Hleft
        by (replace (2 * c + 1 - 1) with (c * 2) by lia; symmetry; apply Z.quot_mul; lia).
      rewrite Hx, Hy, !Z.eqb_refl in Hleft. cbn [andb] in Hleft. lia.
    + split; [exact Hinv'|]. rewrite Hleft', Hleft. lia.
Qed.

(** The spiral over the blocks visits the whole square and ends in its
    middle.  For a square of [n = 2c+1] blocks a side, the walk from the
    block [(0, 0)] reaches the centre block for the first time after [n*n - 1]
    advances; the [n*n] blocks it has been on are blocks of the square, and no
    block is visited twice. *)
Theorem spiral_walk (c : Z) (j k : nat) :
  let n := 2 * c + 1 in
  let last := Z.to_nat (n * n - 1) in
  0 <= c -> (j <= last)%nat -> (k <= last)%nat ->
  block (spiral_at n last) = make_int2 c c
  /\ in_square n (block (spiral_at n k))
  /\ ((k < last)%nat -> block (spiral_at n k) <> make_int2 c c)
  /\ (block (spiral_at n j) = block (spiral_at n k) -> j = k).
Proof.
  intros n last Hc Hj Hk.
  assert (Hn : 0 <= n * n - 1) by (unfold n; nia).
  assert (Hq : Z.quot (n - 1) 2 = c).
  { unfold n. replace (2 * c + 1 - 1) with (c * 2) by lia. apply Z.quot_mul. lia. }
  assert (Hcentre : forall i : nat, (i <= last)%nat ->
            (block (spiral_at n i) = make_int2 c c <-> i = last)).
  { intros i Hi. destruct (spiral_at_inv c i Hc) as [Hinv Hleft]; [unfold last in Hi; lia|].
    fold n in Hinv, Hleft. split.
    - intros E. unfold spiral_left in Hleft. rewrite Hq, E in Hleft.
      cbn [I2.x I2.y] in Hleft. rewrite !Z.eqb_refl in Hleft. cbn [andb] in Hleft.
      unfold last. lia.
    - intros ->.
      destruct (decide (I2.x (block (spiral_at n last)) = c
                        /\ I2.y (block (spiral_at n last)) = c)) as [[Hx Hy]|Hnc].
      + destruct (block (spiral_at n last)) as [bx bY]. cbn in Hx, Hy. congruence.
      + destruct (spiral_advance_exact c _ Hc Hinv Hnc) as [Hinv' Hleft'].
        fold n in Hinv', Hleft'.
        pose proof (spiral_left_nonneg c _ Hc Hinv') as Hnn. fold n in Hnn.
        unfold last in *. lia. }
  split; [apply Hcentre; lia|].
  destruct (spiral_at_inv c k Hc) as [Hinvk Hleftk]; [unfold last in Hk; lia|].
  destruct (spiral_at_inv c j Hc) as [Hinvj Hleftj]; [unfold last in Hj; lia|].
  split; [apply (spiral_inv_in_square c); assumption|].
  split.
  - intros Hlt E. apply Hcentre in E; lia.
  - intros E. pose proof (spiral_left_block c _ _ Hc Hinvj Hinvk E) as El.
    fold n in Hleftj, Hleftk, El. lia.
Qed.

(** * Lists of lists, sorting *)

Lemma sort_insert_perm lt a l : sort_insert lt a l ≡ₚ a :: l.
Proof.
  induction l as [|b l IH]; simpl; [reflexivity|].
  destruct (lt a b); [reflexivity|].
  rewrite IH. apply Permutation_swap.
Qed.

Lemma list_sort_perm lt l : list_sort lt l ≡ₚ l.
Proof.
  unfold list_sort.
  assert (H : forall acc, fold_left (fun acc a => sort_insert lt a acc) l acc
                          ≡ₚ acc ++ l).
  { induction l as [|a l IH]; intros acc; simpl.
    - rewrite app_nil_r. reflexivity.
    - rewrite IH, sort_insert_perm. simpl. apply Permutation_middle. }
  rewrite H. reflexivity.
Qed.

Lemma list_sort_snoc lt l a :
  list_sort lt (l ++ [a]) = sort_insert lt a (list_sort lt l).
Proof. unfold list_sort. rewrite fold_left_app. reflexivity. Qed.

(** Changing one list of a vector of lists by [f], when [f] adds the elements
    [e] to a list up to the order. *)
Lemma concat_alter_perm (f : list Z -> list Z) (e : list Z) i (l : list (list Z)) :
  (forall q, f q ≡ₚ e ++ q) ->
  concat (alter f i l) ≡ₚ (if decide (i < length l)%nat then e else []) ++ concat l.
Proof.
  intros Hf. revert i. induction l as [|q l IH]; intros i; [destruct i; reflexivity|].
  destruct i as [|i].
  - change (alter f 0%nat (q :: l)) with (f q :: l). cbn [concat length].
    rewrite Hf. destruct (decide _); [|lia]. rewrite app_assoc. reflexivity.
  - change (alter f (S i) (q :: l)) with (q :: alter f i l). cbn [concat length].
    rewrite IH. destruct (decide (i < length l)%nat), (decide (S i < S (length l))%nat);
      try lia; simpl; [|reflexivity].
    rewrite !app_assoc. apply Permutation_app_tail, Permutation_app_comm.
Qed.

Lemma concat_alter_same (f : list Z -> list Z) i (l : list (list Z)) :
  (forall q, f q ≡ₚ q) -> concat (alter f i l) ≡ₚ concat l.
Proof.
  intros Hf. rewrite (concat_alter_perm f [] i l) by exact Hf.
  destruct (decide _); reflexivity.
Qed.

(** Taking the head off one list of a vector of lists. *)
Lemma concat_pop (l : list (list Z)) (i : nat) a q :
  l !! i = Some (a :: q) -> concat l ≡ₚ a :: concat (<[i := q]> l).
Proof.
  revert i. induction l as [|q0 l IH]; intros i Hi; [destruct i; discriminate|].
  destruct i as [|i].
  - injection Hi as ->. reflexivity.
  - change (<[S i := q]> (q0 :: l)) with (q0 :: <[i := q]> l). cbn [concat].
    rewrite (IH i Hi). symmetry. apply Permutation_middle.
Qed.

(** A loop [for(i = 0; i < n; i++)] keeps what every turn keeps. *)
Lemma fold_left_seqZ_ind {A} (P : Z -> A -> Prop) (f : A -> Z -> A) n a :
  0 <= n -> P 0 a ->
  (forall i a, 0 <= i < n -> P i a -> P (i + 1) (f a i)) ->
  P n (fold_left f (seqZ 0 n) a).
Proof.
  intros Hn H0 Hstep.
  rewrite <- (Z2Nat.id n) by lia.
  assert (Hk : (Z.to_nat n <= Z.to_nat n)%nat) by lia.
  revert Hk. generalize (Z.to_nat n) at 1 3 4 as k.
  induction k as [|k IH]; intros Hk; [exact H0|].
  rewrite seqZ_S, fold_left_app. simpl.
  replace (Z.of_nat (S k)) with (Z.of_nat k + 1) by lia.
  apply Hstep; [lia|]. apply IH. lia.
Qed.

(** ** The sort sorts *)

Lemma sort_insert_sorted (lt : Z -> Z -> bool) a l :
  (forall x y, lt x y = true -> lt y x = false) ->
  (forall x y z, lt x y = false -> lt y z = false -> lt x z = false) ->
  StronglySorted (fun x y => lt y x = false) l ->
  StronglySorted (fun x y => lt y x = false) (sort_insert lt a l).
Proof.
  intros Hasym Hneg. induction l as [|b l IH]; intros Hs; cbn [sort_insert].
  - constructor; [constructor|constructor].
  - apply StronglySorted_inv in Hs as [Hs Hb].
    destruct (lt a b) eqn:E.
    + constructor; [constructor; assumption|].
      constructor; [apply Hasym; exact E|].
      rewrite List.Forall_forall in Hb |- *. intros y Hy.
      apply (Hneg y b a); [apply Hb; exact Hy|apply Hasym; exact E].
    + constructor; [apply IH; exact Hs|].
      rewrite List.Forall_forall in Hb |- *. intros y Hy.
      apply list_elem_of_In in Hy. rewrite sort_insert_perm in Hy.
      apply elem_of_cons in Hy as [->|Hy];
        [exact E|apply Hb, list_elem_of_In; exact Hy].
Qed.

Lemma list_sort_sorted (lt : Z -> Z -> bool) l :
  (forall x y, lt x y = true -> lt y x = false) ->
  (forall x y z, lt x y = false -> lt y z = false -> lt x z = false) ->
  StronglySorted (fun x y => lt y x = false) (list_sort lt l).
Proof.
  intros Hasym Hneg. induction l as [|a l IH] using rev_ind.
  - constructor.
  - rewrite list_sort_snoc. apply sort_insert_sorted; assumption.
Qed.

Lemma strongly_sorted_by (lt : Z -> Z -> bool) l :
  StronglySorted (fun x y => lt y x = false) l -> sorted_by lt l.
Proof.
  induction l as [|a l IH]; intros Hs i j x y Hi Hj Hij.
  - discriminate.
  - apply StronglySorted_inv in Hs as [Hs Ha].
    destruct j as [|j]; [lia|]. cbn in Hj. destruct i as [|i]; cbn in Hi.
    + injection Hi as ->. rewrite List.Forall_forall in Ha. apply Ha.
      apply list_elem_of_In, list_elem_of_lookup. eauto.
    + apply (IH Hs i j x y Hi Hj). lia.
Qed.

Lemma strongly_sorted_ext (R R' : Z -> Z -> Prop) l :
  (forall x y, x ∈ l -> y ∈ l -> R x y -> R' x y) ->
  StronglySorted R l -> StronglySorted R' l.
Proof.
  induction l as [|a l IH]; intros Hext Hs; [constructor|].
  apply StronglySorted_inv in Hs as [Hs Ha]. constructor.
  - apply IH; [|exact Hs]. intros x y Hx Hy.
    apply Hext; apply elem_of_cons; right; assumption.
  - rewrite List.Forall_forall in Ha |- *. intros y Hy. apply Hext;
      [apply elem_of_cons; left; reflexivity
      |apply elem_of_cons; right; apply list_elem_of_In; exact Hy|].
    apply Ha. exact Hy.
Qed.

(** * The divider loop without a start resolution, the rotation of a block,
      the constructor *)

(** [get_divider] with [start_resolution = 0] on an image with pixels, their
    number [w*h] in [int] range: the test [w*h > 0] holds before every turn
    of the loop, however many turns are taken, so the loop is never left;
    [get_divider], and [reset] with it, do not return. *)
Theorem get_divider_zero_resolution_diverges (m : TileManager.t)
    (params : BufferParams.t) (num_samples_ : Z) :
  let w := BufferParams.width params in
  let h := BufferParams.height params in
  0 < w * h <= INT_MAX ->
  TileManager.start_resolution m = 0 ->
  (forall fuel d, get_divider_loop fuel w h 0 d = None)
  /\ get_divider w h 0 = None
  /\ reset m params num_samples_ = None.
Proof.
  intros w h Hwh Hs.
  assert (Hloop : forall fuel d, get_divider_loop fuel w h 0 d = None).
  { intros [|fuel] d; cbn [get_divider_loop];
      rewrite (int_wrap_small (w * h)) by (unfold INT_MAX in *; lia);
      change (int_wrap (0 * 0)) with 0;
      replace (w * h >? 0) with true
        by (symmetry; rewrite Z.gtb_ltb; apply Z.ltb_lt; lia);
      [reflexivity|].
    assert (Hsign : (1 <= w /\ 1 <= h) \/ (w <= -1 /\ h <= -1)).
    { clear Hs. clearbody w h. unfold INT_MAX in Hwh.
      destruct (Z.lt_trichotomy w 0) as [Hw|[Hw|Hw]],
               (Z.lt_trichotomy h 0) as [Hh|[Hh|Hh]]; try nia. }
    apply get_divider_loop_never; [vm_compute; discriminate|lia|lia|].
    destruct Hsign as [[Hw Hh]|[Hw Hh]].
    - assert (Hqw : 0 <= Z.quot w 2 <= w)
        by (rewrite Z.quot_div_nonneg by lia; split;
            [apply Z.div_pos; lia|apply Z.div_le_upper_bound; lia]).
      assert (Hqh : 0 <= Z.quot h 2 <= h)
        by (rewrite Z.quot_div_nonneg by lia; split;
            [apply Z.div_pos; lia|apply Z.div_le_upper_bound; lia]).
      nia.
    - assert (Hqw : Z.quot w 2 <= 0)
        by (apply Z.quot_le_upper_bound; lia).
      assert (Hqh : Z.quot h 2 <= 0)
        by (apply Z.quot_le_upper_bound; lia).
      rewrite !Z.max_l by lia. unfold INT_MAX. lia. }
  assert (Hdiv : get_divider w h 0 = None).
  { unfold get_divider. change (0 =? INT_MAX) with false. cbv iota.
    apply Hloop. }
  split; [exact Hloop|]. split; [exact Hdiv|].
  unfold reset, set_samples. cbn [TileManager.params TileManager.set_params
    TileManager.set_num_samples TileManager.num_samples
    TileManager.only_denoise TileManager.start_resolution
    TileManager.upd_state TileManager.set_state].
  rewrite Hs. fold w h. rewrite Hdiv.
  destruct (num_samples_ =? INT_MAX);
    [cbn; rewrite Hs; fold w h; rewrite Hdiv; reflexivity|].
  destruct (TileManager.only_denoise m);
    [cbn; rewrite Hs; fold w h; rewrite Hdiv; reflexivity|reflexivity].
Qed.

Lemma hilbert_rotate_in_square hs s p :
  in_square hs p -> in_square hs (hilbert_rotate hs s p).
Proof.
  unfold in_square, hilbert_rotate. intros [Hx Hy].
  destruct (prev_dir s), (dir s); cbn; lia.
Qed.

Lemma hilbert_rotate_inj hs s p p' :
  hilbert_rotate hs s p = hilbert_rotate hs s p' -> p = p'.
Proof.
  unfold hilbert_rotate. destruct p as [px py], p' as [px' py'].
  destruct (prev_dir s), (dir s); cbn; intros [= ? ?]; f_equal; lia.
Qed.

(** The tiles of one block of the Hilbert spiral: for a block of side
    [2^k] tiles, whatever the direction the spiral comes from and goes to,
    the [4^k] Hilbert indices are sent, after the rotation of the block, to
    cells inside the block, and two indices never to the same cell. *)
Theorem hilbert_block_tiles_distinct (k : nat) (s : Spiral) (d d' : Z) :
  let H := 2 ^ Z.of_nat k in
  0 <= d < H * H -> 0 <= d' < H * H ->
  in_square H (hilbert_rotate H s (hilbert_index_to_pos H d))
  /\ (hilbert_rotate H s (hilbert_index_to_pos H d)
      = hilbert_rotate H s (hilbert_index_to_pos H d') -> d = d').
Proof.
  intros H Hd Hd'.
  assert (HH : H * H = 4 ^ Z.of_nat k).
  { unfold H. rewrite <- Z.pow_mul_l. reflexivity. }
  split.
  - apply hilbert_rotate_in_square. unfold H.
    rewrite hilbert_index_to_pos_run. apply hilbert_run_in_square. lia.
  - intros E. apply hilbert_rotate_inj in E. unfold H in E.
    rewrite !hilbert_index_to_pos_run in E.
    apply hilbert_run_inj in E; [|lia|lia].
    rewrite !Z.mod_small in E by lia. exact E.
Qed.

Lemma get_divider_empty s :
  s = INT_MAX \/ s * s <= INT_MAX -> get_divider 0 0 s = Some 1.
Proof.
  intros Hs. unfold get_divider.
  destruct (Z.eqb_spec s INT_MAX) as [_|Hne]; [reflexivity|].
  destruct Hs as [Hs|Hs]; [contradiction|].
  unfold divider_fuel. cbn [get_divider_loop].
  change (int_wrap (0 * 0)) with 0.
  rewrite (int_wrap_small (s * s)) by (unfold INT_MAX in *; nia).
  assert (E : (0 >? s * s) = false)
    by (rewrite Z.gtb_ltb; apply Z.ltb_ge; nia).
  rewrite E. reflexivity.
Qed.

(** The constructor: for a [start_resolution] that is [INT_MAX] or has its
    square in [int] range, and whatever [state.tile_stride] held, it returns;
    the [num_samples] it is given is overwritten by the
    [reset(buffer_params, 0)] that ends it, and the state is the one of a
    manager that has nothing to render yet. *)
Theorem constructor_state (stride : Z) (progressive_ : bool) (num_samples_ : Z)
    (tile_size_ : int2) (start_resolution_ : Z)
    (preserve_tile_device_ background_ : bool) (tile_order_ : TileOrder)
    (num_devices_ : Z) (only_denoise_ : bool) :
  start_resolution_ = INT_MAX
  \/ start_resolution_ * start_resolution_ <= INT_MAX ->
  exists m,
    TileManager_new stride progressive_ num_samples_ tile_size_
      start_resolution_ preserve_tile_device_ background_ tile_order_
      num_devices_ only_denoise_ = Some m
    /\ TileManager.num_samples m = 0
    /\ TileManager.range_start_sample m = 0
    /\ TileManager.range_num_samples m = -1
    /\ TileManager.schedule_denoising m = false
    /\ State.sample (TileManager.state m) = -1
    /\ State.num_samples (TileManager.state m) = 0
    /\ State.resolution_divider (TileManager.state m) = 1
    /\ State.total_pixel_samples (TileManager.state m) = 0
    /\ State.tiles (TileManager.state m) = []
    /\ State.render_tiles (TileManager.state m) = []
    /\ State.denoise_tiles (TileManager.state m) = []
    /\ done m = false.
Proof.
  intros Hs. pose proof (get_divider_empty start_resolution_ Hs) as Hd.
  unfold TileManager_new, reset, set_samples. simpl.
  destruct only_denoise_; simpl; rewrite ?Hd; simpl; rewrite ?Hd;
    eexists; (split; [reflexivity|]); repeat split; reflexivity.
Qed.

(** * The divider is not above the image *)

(** When [get_divider] returns, for an image with pixels, their number in
    [int] range, it returns a power of two, and unless it returns 1, one that
    is at most the larger side of the image. *)
Lemma get_divider_bound w h s d :
  1 <= w -> 1 <= h -> w * h <= INT_MAX -> get_divider w h s = Some d ->
  exists k : nat, d = 2 ^ Z.of_nat k /\ (k = 0%nat \/ 2 ^ Z.of_nat k <= Z.max w h).
Proof.
  intros Hw Hh Hwh Hd.
  destruct (Z.eq_dec s INT_MAX) as [->|Hmax].
  { rewrite get_divider_sentinel in Hd. injection Hd as <-. exists 0%nat. auto. }
  destruct (Z_le_gt_dec (int_wrap (s * s)) 0) as [Hs|Hs].
  { unfold get_divider in Hd. apply Z.eqb_neq in Hmax. rewrite Hmax in Hd.
    rewrite get_divider_loop_never in Hd by assumption. discriminate. }
  assert (Hwm : w <= INT_MAX) by nia.
  assert (Hhm : h <= INT_MAX) by nia.
  destruct (get_divider_spec w h s) as (k & E & _ & Hmin); try lia.
  rewrite Hd in E. injection E as ->. exists k. split; [reflexivity|].
  destruct k as [|k]; [left; reflexivity|right].
  specialize (Hmin k (Nat.lt_succ_diag_r k)).
  assert (Hpw : 1 <= halved w k).
  { destruct k; [exact Hw|unfold halved; lia]. }
  assert (Hph : 1 <= halved h k).
  { destruct k; [exact Hh|unfold halved; lia]. }
  assert (Hor : 2 <= halved w k \/ 2 <= halved h k) by nia.
  rewrite Nat2Z.inj_succ, Z.pow_succ_r by lia.
  destruct Hor as [H|H]; apply halved_large in H; lia.
Qed.

(** * Properties of the tile manager *)

Section Properties.

(** What indeterminate memory holds, see [tile_at]. *)
Variable indeterminate : Z -> Tile.t.

(** ** Reading and writing tiles *)

Lemma vec_get_lt {A} (l : list A) i :
  0 <= i < Z.of_nat (length l) -> is_Some (vec_get l i).
Proof.
  intros Hi. unfold vec_get.
  destruct (Z.ltb_spec i 0); [lia|]. apply lookup_lt_is_Some. lia.
Qed.

Lemma tile_at_set_ne tiles i j v :
  i <> j -> tile_at indeterminate (vec_set tiles i v) j = tile_at indeterminate tiles j.
Proof.
  intros Hne. unfold tile_at, vec_set, vec_get.
  destruct (Z.ltb_spec i 0); [reflexivity|].
  destruct (Z.ltb_spec j 0); [reflexivity|].
  rewrite list_lookup_insert_ne by lia. reflexivity.
Qed.

Lemma tile_at_set_eq tiles i v :
  0 <= i < Z.of_nat (length tiles) ->
  tile_at indeterminate (vec_set tiles i v) i = v.
Proof.
  intros Hi. unfold tile_at, vec_set, vec_get.
  destruct (Z.ltb_spec i 0); [lia|].
  rewrite list_lookup_insert_eq by lia. reflexivity.
Qed.

Lemma tile_at_set_out tiles i v j :
  ~ (0 <= i < Z.of_nat (length tiles)) ->
  tile_at indeterminate (vec_set tiles i v) j = tile_at indeterminate tiles j.
Proof.
  intros Hi. unfold tile_at, vec_set, vec_get.
  destruct (Z.ltb_spec i 0); [reflexivity|].
  rewrite list_insert_ge by lia. reflexivity.
Qed.

Lemma vec_set_length {A} (l : list A) i v : length (vec_set l i v) = length l.
Proof. unfold vec_set. destruct (i <? 0); [reflexivity|apply length_insert]. Qed.

(** Setting the state of a tile to a state that is not below its own lowers
    the state of no tile. *)
Lemma set_tile_state_rank tiles i s j :
  Tile.rank (Tile.state (tile_at indeterminate tiles i)) <= Tile.rank s ->
  Tile.rank (Tile.state (tile_at indeterminate tiles j))
  <= Tile.rank
       (Tile.state (tile_at indeterminate (set_tile_state indeterminate tiles i s) j)).
Proof.
  intros Hle. unfold set_tile_state.
  destruct (decide (0 <= i < Z.of_nat (length tiles))) as [Hin|Hout].
  - destruct (decide (i = j)) as [<-|Hne].
    + rewrite tile_at_set_eq by exact Hin. exact Hle.
    + rewrite tile_at_set_ne by exact Hne. lia.
  - rewrite tile_at_set_out by exact Hout. lia.
Qed.

Lemma set_tile_state_at tiles i s :
  0 <= i < Z.of_nat (length tiles) ->
  Tile.state (tile_at indeterminate (set_tile_state indeterminate tiles i s) i) = s.
Proof.
  intros Hin. unfold set_tile_state. rewrite tile_at_set_eq by exact Hin.
  reflexivity.
Qed.

Lemma set_tile_state_length tiles i s :
  length (set_tile_state indeterminate tiles i s) = length tiles.
Proof. apply vec_set_length. Qed.

(** ** [gen_tiles] and [set_tiles] return *)

Lemma gen_tiles_some sliced m :
  valid_config m -> sliced = negb (TileManager.background m) ->
  exists g,
    gen_tiles indeterminate sliced m
    = Some (gen_store m (grid_w m)
              (Z.min (image_h m)
                 (if TileManager.preserve_tile_device m
                  then TileManager.num_devices m else 1)) g,
            grid_w m * grid_h m).
Proof.
  intros (Hx & Hy & Hd & Hh) ->. unfold gen_tiles.
  fold (image_w m) (image_h m). fold (grid_w m) (grid_h m).
  destruct (TileOrder_eqb (TileManager.tile_order m) TILE_HILBERT_SPIRAL) eqn:Eo.
  - assert (TileManager.tile_order m = TILE_HILBERT_SPIRAL) as Ho
      by (destruct (TileManager.tile_order m); try discriminate; reflexivity).
    rewrite (Hh Ho). simpl.
    set (hs := if Z.max (I2.x (TileManager.tile_size m))
                    (I2.y (TileManager.tile_size m)) <=? 12 then 8 else 4).
    assert (Hhs : 4 <= hs) by (unfold hs; case_match; lia).
    match goal with
    | |- context [Z.lor ?a 1] =>
        destruct (lor_1_odd a) as (c & Hc & ->)
    end.
    { pose proof (pieces_pos (I2.x (TileManager.tile_size m) * hs) (image_w m)
                    ltac:(nia) (image_w_pos m)).
      lia. }
    destruct (spiral_start_inv c Hc) as [Hinv Hleft].
    match goal with
    | |- context [gen_spiral ?fuel ?a ?b ?c0 ?d ?e ?f ?g0 ?h ?n ?s ?g1] =>
        destruct (gen_spiral_some a b c0 d e f g0 h c Hc fuel s g1)
          as [g' Hg']; [exact Hinv|lia|]
    end.
    rewrite Hg'. eauto.
  - eauto.
Qed.

Lemma set_tiles_retiled m :
  valid_config m ->
  exists m', set_tiles indeterminate m = Some m' /\ retiled m m'.
Proof.
  intros Hv. unfold set_tiles.
  destruct (gen_tiles_some _ m Hv eq_refl) as [g ->].
  eexists. split; [reflexivity|].
  unfold retiled, gen_store, TileManager.upd_state. simpl.
  destruct m; simpl. repeat split.
Qed.

Lemma retiled_valid m m' : retiled m m' -> valid_config m -> valid_config m'.
Proof. intros (-> & _) Hv. exact Hv. Qed.

(** ** The phases set by [next] *)

Lemma next_halve m :
  valid_config m -> TileManager.progressive m = true ->
  1 < State.resolution_divider (TileManager.state m) ->
  exists m',
    next indeterminate m = Some (true, m')
    /\ m' = TileManager.set_state (TileManager.state m') m
    /\ phase m'
       = (Z.quot (State.resolution_divider (TileManager.state m)) 2, 0, 1).
Proof.
  intros Hv Hp Hd. unfold next, done.
  destruct (Z.eqb_spec (State.resolution_divider (TileManager.state m)) 1) as [E|E];
    [lia|].
  rewrite Hp. simpl.
  assert ((State.resolution_divider (TileManager.state m) >? 1) = true) as ->
    by (rewrite Z.gtb_ltb; apply Z.ltb_lt; lia).
  match goal with
  | |- context [set_tiles _ ?m1] =>
      destruct (set_tiles_retiled m1) as (m' & -> & Hr & Hs & Hn & Hrd & _);
        [exact Hv|]
  end.
  exists m'. split; [reflexivity|]. split.
  - rewrite Hr at 1. destruct m; reflexivity.
  - unfold phase. rewrite Hs, Hn, Hrd. reflexivity.
Qed.

Lemma next_sample m :
  valid_config m -> TileManager.progressive m = true ->
  TileManager.range_num_samples m = -1 ->
  State.resolution_divider (TileManager.state m) = 1 ->
  State.sample (TileManager.state m) + State.num_samples (TileManager.state m)
  < TileManager.num_samples m ->
  exists m',
    next indeterminate m = Some (true, m')
    /\ m' = TileManager.set_state (TileManager.state m') m
    /\ phase m' = (1, State.sample (TileManager.state m) + 1, 1).
Proof.
  intros Hv Hp Hr Hd Hlt. unfold next, done.
  rewrite Hr, Hd, Hp. simpl.
  assert ((State.sample (TileManager.state m)
           + State.num_samples (TileManager.state m)
           >=? TileManager.num_samples m) = false) as ->
    by (rewrite Z.geb_leb; apply Z.leb_gt; lia).
  match goal with
  | |- context [set_tiles _ ?m1] =>
      destruct (set_tiles_retiled m1) as (m' & -> & Hrt & Hs & Hn & Hrd & _);
        [exact Hv|]
  end.
  exists m'. split; [reflexivity|]. split.
  - rewrite Hrt at 1. destruct m; reflexivity.
  - unfold phase. rewrite Hs, Hn, Hrd. reflexivity.
Qed.

Lemma next_done m :
  TileManager.range_num_samples m = -1 ->
  State.resolution_divider (TileManager.state m) = 1 ->
  TileManager.num_samples m
  <= State.sample (TileManager.state m)
     + State.num_samples (TileManager.state m) ->
  next indeterminate m = Some (false, m).
Proof.
  intros Hr Hd Hle. unfold next, done. rewrite Hr, Hd. simpl.
  assert ((State.sample (TileManager.state m)
           + State.num_samples (TileManager.state m)
           >=? TileManager.num_samples m) = true) as ->
    by (rewrite Z.geb_leb; apply Z.leb_le; lia).
  reflexivity.
Qed.

(** At the final resolution a progressive manager renders one sample per
    phase, up to the last sample. *)
Lemma final_phases (k : nat) :
  forall m j fuel,
    valid_config m -> TileManager.progressive m = true ->
    TileManager.range_num_samples m = -1 ->
    phase m = (1, j, 1) ->
    Z.of_nat k = Z.max 0 (TileManager.num_samples m - (j + 1)) ->
    (k < fuel)%nat ->
    next_phases indeterminate fuel m
    = Some ((fun j' => (1, j', 1)) <$> seqZ (j + 1) (Z.of_nat k)).
Proof.
  induction k as [|k IH]; intros m j fuel Hv Hp Hr Hph Hk Hfuel;
    (destruct fuel as [|fuel]; [lia|]); injection Hph as Hd Hs Hn;
    cbn [next_phases].
  - rewrite next_done; [reflexivity|exact Hr|exact Hd|lia].
  - destruct (next_sample m Hv Hp Hr Hd) as (m' & -> & Hm' & Hph'); [lia|].
    rewrite Hs in Hph'.
    rewrite (IH m' (j + 1) fuel); [| | | |exact Hph'| |lia].
    + rewrite (seqZ_cons (j + 1) (Z.of_nat (S k))) by lia. rewrite Hph'. simpl.
      replace (Z.pred (Z.of_nat (S k))) with (Z.of_nat k) by lia.
      rewrite <- Z.add_1_r. reflexivity.
    + rewrite Hm'. exact Hv.
    + rewrite Hm'. exact Hp.
    + rewrite Hm'. exact Hr.
    + rewrite Hm'. change (TileManager.num_samples (TileManager.set_state _ m))
        with (TileManager.num_samples m). lia.
Qed.

(** C7 (amended).  With [progressive], [start_resolution = 64] and a 512x512
    image, [reset] sets the divider to 8; the calls of [next] that follow set
    the phases at dividers 4, 2 and 1 with sample 0 and one sample each (no
    phase is rendered at divider 8), then one phase of one sample at divider
    1 for each of the samples 1 to [num_samples - 1]; the next call returns
    [false]. *)
Theorem progressive_phases m (num_samples_ full_x full_y full_w full_h : Z) :
  valid_config m ->
  TileManager.progressive m = true ->
  TileManager.start_resolution m = 64 ->
  TileManager.range_num_samples m = -1 ->
  exists m0,
    reset m (BufferParams.mk 512 512 full_x full_y full_w full_h) num_samples_
    = Some m0
    /\ State.resolution_divider (TileManager.state m0) = 8
    /\ forall fuel,
         (Z.to_nat (Z.max 1 num_samples_) + 3 <= fuel)%nat ->
         next_phases indeterminate fuel m0
         = Some ([(4, 0, 1); (2, 0, 1); (1, 0, 1)]
                 ++ ((fun j => (1, j, 1)) <$> seqZ 1 (num_samples_ - 1))).
Proof.
  intros Hv Hp Hsr Hr.
  destruct (reset_some m (BufferParams.mk 512 512 full_x full_y full_w full_h)
              num_samples_ 8) as (m0 & Hreset & Hd0 & Hm0).
  { rewrite Hsr. reflexivity. }
  exists m0. split; [exact Hreset|]. split; [exact Hd0|].
  assert (Hc0 : valid_config m0 /\ TileManager.progressive m0 = true
                /\ TileManager.range_num_samples m0 = -1
                /\ TileManager.num_samples m0 = num_samples_)
    by (rewrite Hm0; auto).
  destruct Hc0 as (Hv0 & Hp0 & Hr0 & Hn0).
  intros fuel Hfuel.
  destruct fuel as [|[|[|fuel]]]; try lia.
  cbn [next_phases].
  destruct (next_halve m0 Hv0 Hp0) as (m1 & -> & Hm1 & Hph1); [lia|].
  rewrite Hd0 in Hph1. change (Z.quot 8 2) with 4 in Hph1.
  assert (Hc1 : valid_config m1 /\ TileManager.progressive m1 = true
                /\ TileManager.range_num_samples m1 = -1
                /\ TileManager.num_samples m1 = num_samples_)
    by (rewrite Hm1; auto).
  destruct Hc1 as (Hv1 & Hp1 & Hr1 & Hn1).
  destruct (next_halve m1 Hv1 Hp1) as (m2 & -> & Hm2 & Hph2);
    [injection Hph1 as -> _ _; lia|].
  replace (State.resolution_divider (TileManager.state m1)) with 4 in Hph2
    by (injection Hph1 as -> _ _; reflexivity).
  change (Z.quot 4 2) with 2 in Hph2.
  assert (Hc2 : valid_config m2 /\ TileManager.progressive m2 = true
                /\ TileManager.range_num_samples m2 = -1
                /\ TileManager.num_samples m2 = num_samples_)
    by (rewrite Hm2; auto).
  destruct Hc2 as (Hv2 & Hp2 & Hr2 & Hn2).
  destruct (next_halve m2 Hv2 Hp2) as (m3 & -> & Hm3 & Hph3);
    [injection Hph2 as -> _ _; lia|].
  replace (State.resolution_divider (TileManager.state m2)) with 2 in Hph3
    by (injection Hph2 as -> _ _; reflexivity).
  change (Z.quot 2 2) with 1 in Hph3.
  assert (Hc3 : valid_config m3 /\ TileManager.progressive m3 = true
                /\ TileManager.range_num_samples m3 = -1
                /\ TileManager.num_samples m3 = num_samples_)
    by (rewrite Hm3; auto).
  destruct Hc3 as (Hv3 & Hp3 & Hr3 & Hn3).
  rewrite (final_phases (Z.to_nat (Z.max 0 (num_samples_ - 1))) m3 0 fuel
             Hv3 Hp3 Hr3 Hph3); [|lia|lia].
  rewrite Hph1, Hph2, Hph3. simpl. do 4 f_equal.
  destruct (Z_le_gt_dec num_samples_ 1).
  - rewrite !seqZ_nil by lia. reflexivity.
  - rewrite Z2Nat.id by lia.
    replace (Z.max 0 (num_samples_ - 1)) with (num_samples_ - 1) by lia.
    reflexivity.
Qed.

(** ** The lists made by [gen_tiles] name every tile at most once *)

Lemma tile_at_vec_set_state tiles i v j :
  tile_at indeterminate (vec_set tiles i v) j
  = if decide (i = j /\ 0 <= i < Z.of_nat (length tiles)) then v
    else tile_at indeterminate tiles j.
Proof.
  unfold tile_at, vec_set, vec_get. destruct (decide _) as [[-> Hin]|Hn].
  - destruct (Z.ltb_spec j 0); [lia|].
    rewrite list_lookup_insert_eq by lia. reflexivity.
  - destruct (Z.ltb_spec i 0); [reflexivity|].
    destruct (Z.ltb_spec j 0); [reflexivity|].
    destruct (decide (i = j)) as [->|Hne].
    + rewrite list_insert_ge by lia. reflexivity.
    + rewrite list_lookup_insert_ne by lia. reflexivity.
Qed.

Lemma gen_tile_inv m sliced iw tw center slice slice_y slice_h tsh tpd T tile_y tile_x g :
  gen_inv indeterminate m T (tile_y * tw + tile_x) g ->
  0 <= tile_y * tw + tile_x < T ->
  gen_inv indeterminate m T (tile_y * tw + (tile_x + 1))
    (gen_tile indeterminate m sliced iw tw center slice slice_y slice_h tsh tpd
       tile_y g tile_x).
Proof.
  intros (Hnd & Hmem & Hlen & Hstate) Hk.
  set (k := tile_y * tw + tile_x) in *.
  replace (tile_y * tw + (tile_x + 1)) with (k + 1) by lia.
  unfold gen_tile. fold k.
  set (tiles' := vec_set (g_tiles g) k _).
  set (queues' := alter (fun q => q ++ [k]) (g_tile_list g) (g_queues g)).
  assert (Hq : concat queues'
               ≡ₚ (if decide (g_tile_list g < length (g_queues g))%nat
                   then [k] else []) ++ concat (g_queues g)).
  { apply concat_alter_perm. intros q. apply Permutation_app_comm. }
  assert (Hnd' : NoDup (concat queues')).
  { rewrite Hq. destruct (decide _); simpl; [|exact Hnd].
    apply NoDup_cons_2; [|exact Hnd]. intros Hin. apply Hmem in Hin. lia. }
  assert (Hmem' : forall idx, idx ∈ concat queues' -> 0 <= idx < k + 1).
  { intros idx Hin. rewrite Hq in Hin. destruct (decide _); simpl in Hin.
    - apply elem_of_cons in Hin as [->|Hin]; [lia|]. apply Hmem in Hin. lia.
    - apply Hmem in Hin. lia. }
  assert (Hlen' : Z.of_nat (length tiles') = T)
    by (unfold tiles'; rewrite vec_set_length; exact Hlen).
  assert (Hstate' : forall idx, 0 <= idx < k + 1 ->
            Tile.state (tile_at indeterminate tiles' idx) = initial_state m).
  { intros idx Hidx. unfold tiles'. rewrite tile_at_vec_set_state.
    destruct (decide (k = idx /\ 0 <= k < Z.of_nat (length (g_tiles g))))
      as [_|Hn]; [reflexivity|].
    apply Hstate. destruct (decide (idx = k)); [|lia]. subst idx.
    exfalso. apply Hn. split; [reflexivity|lia]. }
  destruct sliced; [refine (conj _ (conj _ (conj _ _))); assumption|].
  destruct (_ =? tpd); [|refine (conj _ (conj _ (conj _ _))); assumption].
  destruct (TileOrder_eqb _ _);
    [refine (conj _ (conj _ (conj _ _))); assumption|].
  assert (Hs : concat (alter (list_sort (TileComparator indeterminate
                                           (TileManager.tile_order m) center tiles'))
                         (g_tile_list g) queues') ≡ₚ concat queues')
    by (apply concat_alter_same; intros q; apply list_sort_perm).
  refine (conj _ (conj _ (conj _ _))); simpl; try assumption.
  - rewrite Hs. exact Hnd'.
  - intros idx Hin. rewrite Hs in Hin. auto.
Qed.

Lemma gen_rows_inv m sliced iw tw center slice slice_y slice_h tsh tpd T g :
  0 <= tw -> 0 <= tsh -> tsh * tw <= T ->
  gen_inv indeterminate m T 0 g ->
  gen_inv indeterminate m T (tsh * tw)
    (fold_left
       (fun g tile_y =>
          fold_left
            (gen_tile indeterminate m sliced iw tw center slice slice_y slice_h
               tsh tpd tile_y)
            (seqZ 0 tw) g)
       (seqZ 0 tsh) g).
Proof.
  intros Htw Htsh HT Hg.
  apply (fold_left_seqZ_ind (fun y g => gen_inv indeterminate m T (y * tw) g));
    [exact Htsh|exact Hg|].
  intros tile_y g1 Hy Hg1.
  replace ((tile_y + 1) * tw) with (tile_y * tw + tw) by lia.
  apply (fold_left_seqZ_ind
           (fun x g => gen_inv indeterminate m T (tile_y * tw + x) g));
    [exact Htw|rewrite Z.add_0_r; exact Hg1|].
  intros tile_x g2 Hx Hg2. apply gen_tile_inv; [exact Hg2|]. nia.
Qed.

Lemma concat_replicate_nil (n : nat) : concat (replicate n (@nil Z)) = [].
Proof. induction n as [|n IH]; [reflexivity|exact IH]. Qed.

Lemma grid_gen_store m tw num g :
  grid_w (gen_store m tw num g) = grid_w m
  /\ grid_h (gen_store m tw num g) = grid_h m.
Proof. destruct m. split; reflexivity. Qed.

Lemma gen_inv_queues m T k g g' :
  g_tiles g' = g_tiles g -> g_queues g' = g_queues g ->
  gen_inv indeterminate m T k g -> gen_inv indeterminate m T k g'.
Proof. unfold gen_inv. intros -> ->. auto. Qed.

(** The loop over the slices when there is one slice. *)
Lemma gen_slice_single m sliced iw ih tw center num T g :
  1 <= tw -> 1 <= ih -> 1 <= I2.y (TileManager.tile_size m) ->
  T = tw * (if I2.y (TileManager.tile_size m) >=? ih then 1
            else Z.quot (ih + I2.y (TileManager.tile_size m) - 1)
                   (I2.y (TileManager.tile_size m))) ->
  gen_inv indeterminate m T 0 g ->
  gen_inv indeterminate m T T
    (gen_slice indeterminate m sliced iw ih tw center num 1 g 0).
Proof.
  intros Htw Hih Hy HT Hg. unfold gen_slice.
  change (0 =? 1 - 1) with true. cbn match.
  replace (ih - 0 * Z.quot ih 1) with ih by lia.
  set (tsh := if I2.y (TileManager.tile_size m) >=? ih then 1 else _) in *.
  assert (Htsh : 1 <= tsh) by (apply pieces_pos; assumption).
  set (rows := fold_left _ (seqZ 0 tsh) _).
  assert (Hrows : gen_inv indeterminate m T T rows).
  { replace T with (tsh * tw) at 2 by lia.
    apply gen_rows_inv; [lia|lia|lia|].
    eapply gen_inv_queues; [| |exact Hg]; reflexivity. }
  destruct sliced; [|exact Hrows].
  eapply gen_inv_queues; [| |exact Hrows]; reflexivity.
Qed.

Lemma gen_inv_start m T num :
  0 <= T ->
  gen_inv indeterminate m T 0
    (mkGen (tiles_resize indeterminate T) (replicate (Z.to_nat num) [])
       0%nat 0 0).
Proof.
  intros HT. unfold gen_inv. simpl. rewrite concat_replicate_nil.
  refine (conj _ (conj _ (conj _ _))).
  - apply NoDup_nil_2.
  - intros idx Hin. apply elem_of_nil in Hin. contradiction.
  - unfold tiles_resize. rewrite length_fmap, length_seqZ. lia.
  - intros idx Hidx. lia.
Qed.

(** What [gen_store] makes of lists that name every tile at most once. *)
Lemma gen_store_dispatch_inv m num g :
  1 <= I2.x (TileManager.tile_size m) -> 1 <= I2.y (TileManager.tile_size m) ->
  gen_inv indeterminate m (grid_w m * grid_h m) (grid_w m * grid_h m) g ->
  dispatch_inv indeterminate (gen_store m (grid_w m) num g) [] [].
Proof.
  intros Hx Hy (Hnd & Hmem & Hlen & Hstate).
  unfold dispatch_inv, well_sized.
  destruct (grid_gen_store m (grid_w m) num g) as [-> ->].
  unfold gen_store, TileManager.upd_state. destruct m; simpl in *.
  refine (conj (conj _ (conj _ (conj _ _))) (conj _ (conj _ (conj _ (conj _ _)))));
    try assumption; try reflexivity.
  - destruct only_denoise; [rewrite concat_replicate_nil; apply NoDup_nil_2|exact Hnd].
  - destruct only_denoise; [exact Hnd|rewrite concat_replicate_nil; apply NoDup_nil_2].
  - destruct only_denoise.
    + intros i Hi. apply Hmem in Hi. rewrite (Hstate i Hi). unfold initial_state.
      simpl. lia.
    + rewrite concat_replicate_nil. intros i Hi. apply elem_of_nil in Hi. contradiction.
  - intros ->. apply concat_replicate_nil.
  - intros _ ->. apply concat_replicate_nil.
Qed.

(** The lists made for a single slice in a sorted order. *)
Lemma gen_tiles_dispatch_inv m m' n :
  valid_config m -> single_slice m ->
  TileManager.tile_order m <> TILE_HILBERT_SPIRAL ->
  gen_tiles indeterminate (negb (TileManager.background m)) m = Some (m', n) ->
  dispatch_inv indeterminate m' [] [].
Proof.
  intros (Hx & Hy & Hd & _) Hsingle Hord. unfold gen_tiles.
  fold (image_w m) (image_h m). fold (grid_w m) (grid_h m).
  destruct (TileOrder_eqb (TileManager.tile_order m) TILE_HILBERT_SPIRAL) eqn:Eo.
  { exfalso. apply Hord. destruct (TileManager.tile_order m); try discriminate.
    reflexivity. }
  set (num := Z.min (image_h m) _).
  assert (Hsn : (if negb (TileManager.background m) then num else 1) = 1).
  { destruct Hsingle as [-> | Hone]; [reflexivity|].
    destruct (negb _); [exact Hone|reflexivity]. }
  rewrite Hsn. change (seqZ 0 1) with [0]. cbn [fold_left].
  intros [= <- <-].
  pose proof (grid_w_pos m Hx) as Hgw. pose proof (grid_h_pos m Hy) as Hgh.
  apply gen_store_dispatch_inv; [exact Hx|exact Hy|].
  apply gen_slice_single;
    [exact Hgw|apply image_h_pos|exact Hy|reflexivity|].
  apply gen_inv_start. nia.
Qed.

(** ** Tiles are dispatched once from each kind of list *)

Lemma concat_vec_alter_push (dq : list (list Z)) dev a :
  exists e, (e = [a] \/ e = []) /\
            concat (vec_alter (fun q => q ++ [a]) dq dev) ≡ₚ e ++ concat dq.
Proof.
  unfold vec_alter. destruct (dev <? 0); [exists []; split; [auto|reflexivity]|].
  exists (if decide (Z.to_nat dev < length dq)%nat then [a] else []).
  split; [destruct (decide _); auto|].
  apply concat_alter_perm. intros q. apply Permutation_app_comm.
Qed.

Lemma in_grid_index tw th nx ny :
  ((nx <? 0) || (ny <? 0) || (nx >=? tw) || (ny >=? th)) = false ->
  0 <= ny * tw + nx < tw * th.
Proof.
  intros H. repeat (apply orb_false_elim in H as [H ?]).
  rewrite Z.geb_leb in *.
  repeat match goal with
         | H : (_ <? _) = false |- _ => apply Z.ltb_ge in H
         | H : (_ <=? _) = false |- _ => apply Z.leb_gt in H
         end.
  nia.
Qed.

Lemma render_scan_inv ts tw th rq rd D index st n :
  scan_inv indeterminate tw th rq rd D st ->
  scan_inv indeterminate tw th rq rd D
    (render_scan indeterminate ts tw th index st n).
Proof.
  intros Hinv. unfold render_scan.
  destruct (_ || _ || _ || _) eqn:Hgrid; [exact Hinv|].
  match goal with
  | |- context [negb (Tile.eqb ?s Tile.RENDERED)] =>
      destruct (Tile.eqb s Tile.RENDERED) eqn:Hst
  end; [|exact Hinv]. cbn [negb].
  destruct (neighbors_reached _ _ _ _ _ _ _); [|exact Hinv].
  destruct Hinv as (Hstride & Hlen & Hrq & Hrd & Hnd & Hrank).
  apply in_grid_index in Hgrid. subst tw.
  set (nindex := _ * State.tile_stride st + _) in *.
  assert (Hrank1 : Tile.rank (Tile.state (tile_at indeterminate (State.tiles st) nindex)) = 1)
    by (unfold Tile.eqb in Hst; apply Z.eqb_eq in Hst; exact Hst).
  assert (Hfresh : nindex ∉ D ++ concat (State.denoise_tiles st)).
  { intros Hin. specialize (Hrank _ Hin). lia. }
  pose proof (set_tile_state_length (State.tiles st) nindex Tile.DENOISE) as Hlen'.
  pose proof (set_tile_state_at (State.tiles st) nindex Tile.DENOISE ltac:(lia))
    as Hat.
  pose proof (fun i => set_tile_state_rank (State.tiles st) nindex Tile.DENOISE i
                         ltac:(rewrite Hrank1; simpl; lia)) as Hmono.
  set (tiles' := set_tile_state indeterminate (State.tiles st) nindex Tile.DENOISE)
    in *.
  destruct (concat_vec_alter_push (State.denoise_tiles st)
              (Tile.device (tile_at indeterminate tiles' nindex)) nindex)
    as (e & He & Hperm).
  set (dq' := vec_alter _ _ _) in *.
  assert (Hall : D ++ concat dq' ≡ₚ e ++ (D ++ concat (State.denoise_tiles st))).
  { rewrite Hperm. rewrite !app_assoc.
    apply Permutation_app_tail, Permutation_app_comm. }
  unfold scan_inv. simpl. rewrite Hlen'.
  repeat split; try assumption.
  - rewrite Hall. destruct He as [-> | ->]; simpl; [|exact Hnd].
    apply NoDup_cons_2; assumption.
  - intros i Hi. rewrite Hall in Hi.
    destruct (decide (i = nindex)) as [->|Hne].
    + rewrite Hat. simpl. lia.
    + assert (Hi' : i ∈ D ++ concat (State.denoise_tiles st)).
      { destruct He as [-> | ->]; simpl in Hi; [|exact Hi].
        apply elem_of_cons in Hi as [?|?]; [contradiction|assumption]. }
      specialize (Hrank _ Hi'). specialize (Hmono i). lia.
Qed.

Lemma fold_scan_inv {A} (P : A -> Prop) (f : A -> Z -> A) ns a :
  (forall a n, P a -> P (f a n)) -> P a -> P (fold_left f ns a).
Proof.
  intros Hf. revert a. induction ns as [|n ns IH]; intros a Ha; simpl; auto.
Qed.

(** The loop of the [DENOISE] case touches no list; it raises states to
    [DONE] and releases buffers. *)
Lemma denoise_scan_inv ts tw th rq rd D index acc n :
  scan_inv indeterminate tw th rq rd D (fst acc) ->
  scan_inv indeterminate tw th rq rd D
    (fst (denoise_scan indeterminate ts tw th index acc n)).
Proof.
  intros Hinv. unfold denoise_scan.
  destruct (_ || _ || _ || _) eqn:Hgrid; [exact Hinv|].
  match goal with
  | |- context [negb (Tile.eqb ?s Tile.DENOISED)] =>
      destruct (Tile.eqb s Tile.DENOISED) eqn:Hst
  end; [|exact Hinv]. cbn [negb].
  destruct (neighbors_reached _ _ _ _ _ _ _); [|exact Hinv].
  destruct Hinv as (Hstride & Hlen & Hrq & Hrd & Hnd & Hrank).
  apply in_grid_index in Hgrid. subst tw.
  set (nindex := _ * State.tile_stride (fst acc) + _) in *.
  assert (Hrank3 : Tile.rank (Tile.state
                                (tile_at indeterminate (State.tiles (fst acc)) nindex)) = 3)
    by (unfold Tile.eqb in Hst; apply Z.eqb_eq in Hst; exact Hst).
  assert (Hmono : forall i,
             Tile.rank (Tile.state (tile_at indeterminate (State.tiles (fst acc)) i))
             <= Tile.rank
                  (Tile.state
                     (tile_at indeterminate
                        (set_tile_state indeterminate (State.tiles (fst acc)) nindex
                           Tile.DONE) i))).
  { intros i. apply set_tile_state_rank. rewrite Hrank3. simpl. lia. }
  destruct (n =? 8); unfold scan_inv; simpl;
    rewrite ?vec_set_length, set_tile_state_length;
    repeat split; try assumption; intros i Hi; specialize (Hrank _ Hi);
    specialize (Hmono i); [lia|].
  destruct (decide (i = nindex)) as [->|Hne].
  - rewrite tile_at_set_eq by (rewrite set_tile_state_length; lia). simpl. lia.
  - rewrite tile_at_set_ne by congruence. lia.
Qed.

Lemma denoise_scan_queues ts tw th index acc n :
  State.denoise_tiles (fst (denoise_scan indeterminate ts tw th index acc n))
  = State.denoise_tiles (fst acc).
Proof.
  unfold denoise_scan. repeat case_match; reflexivity.
Qed.

Lemma set_state_scan_inv tw th rq rd D st i s :
  scan_inv indeterminate tw th rq rd D st ->
  Tile.rank (Tile.state (tile_at indeterminate (State.tiles st) i))
  <= Tile.rank s ->
  scan_inv indeterminate tw th rq rd D
    (State.set_tiles (set_tile_state indeterminate (State.tiles st) i s) st).
Proof.
  intros (Hstride & Hlen & Hrq & Hrd & Hnd & Hrank) Hle.
  unfold scan_inv. simpl. rewrite set_tile_state_length.
  repeat split; try assumption.
  intros j Hj. specialize (Hrank _ Hj).
  pose proof (set_tile_state_rank (State.tiles st) i s j Hle). lia.
Qed.

Lemma dispatch_scan_inv m R D :
  dispatch_inv indeterminate m R D ->
  scan_inv indeterminate (grid_w m) (grid_h m)
    (State.render_tiles (TileManager.state m))
    (State.resolution_divider (TileManager.state m)) D (TileManager.state m).
Proof.
  intros ((Hs & Hl & _) & _ & Hnd & Hrank & _). repeat split; assumption.
Qed.

Lemma scan_dispatch_inv m R D st' :
  dispatch_inv indeterminate m R D ->
  scan_inv indeterminate (grid_w m) (grid_h m)
    (State.render_tiles (TileManager.state m))
    (State.resolution_divider (TileManager.state m)) D st' ->
  (TileManager.schedule_denoising m = false ->
   State.denoise_tiles st' = State.denoise_tiles (TileManager.state m)) ->
  dispatch_inv indeterminate (TileManager.set_state st' m) R D.
Proof.
  intros ((Hs & Hl & Hx & Hy) & HR & Hnd & Hrank & Hod & Hsd)
         (Hs' & Hl' & Hrq' & Hrd' & Hnd' & Hrank') Hq.
  assert (Hgw : grid_w (TileManager.set_state st' m) = grid_w m).
  { unfold grid_w, image_w. destruct m; simpl in *. rewrite Hrd'. reflexivity. }
  assert (Hgh : grid_h (TileManager.set_state st' m) = grid_h m).
  { unfold grid_h, image_h. destruct m; simpl in *. rewrite Hrd'. reflexivity. }
  unfold dispatch_inv, well_sized. rewrite Hgw, Hgh.
  destruct m; simpl in *. rewrite Hrq'.
  repeat split; try assumption.
  intros Hsf Hof. rewrite (Hq Hsf). auto.
Qed.

(** [return_tile] keeps the invariant: the tiles given so far are the same. *)
Lemma return_tile_inv m index R D b d m' :
  dispatch_inv indeterminate m R D ->
  return_tile indeterminate m index = Some (b, d, m') ->
  dispatch_inv indeterminate m' R D.
Proof.
  intros Hinv Hret. pose proof (dispatch_scan_inv m R D Hinv) as Hscan.
  unfold return_tile in Hret.
  fold (image_w m) (image_h m) in Hret. fold (grid_w m) (grid_h m) in Hret.
  cbv zeta in Hret.
  assert (Hrender :
    scan_inv indeterminate (grid_w m) (grid_h m)
      (State.render_tiles (TileManager.state m))
      (State.resolution_divider (TileManager.state m)) D
      (fold_left
         (render_scan indeterminate (TileManager.tile_size m) (grid_w m)
            (grid_h m) index)
         (seqZ 0 9)
         (State.set_tiles
            (set_tile_state indeterminate (State.tiles (TileManager.state m))
               index Tile.RENDERED) (TileManager.state m)))
    \/ Tile.state (tile_at indeterminate (State.tiles (TileManager.state m)) index)
       <> Tile.RENDER).
  { destruct (decide (Tile.state (tile_at indeterminate
                                   (State.tiles (TileManager.state m)) index)
                      = Tile.RENDER)) as [E|E]; [left|right; exact E].
    apply fold_scan_inv; [intros; apply render_scan_inv; assumption|].
    apply set_state_scan_inv; [exact Hscan|]. rewrite E. simpl. lia. }
  assert (Hdenoise :
    (scan_inv indeterminate (grid_w m) (grid_h m)
       (State.render_tiles (TileManager.state m))
       (State.resolution_divider (TileManager.state m)) D
       (fst (fold_left
               (denoise_scan indeterminate (TileManager.tile_size m) (grid_w m)
                  (grid_h m) index)
               (seqZ 0 9)
               (State.set_tiles
                  (set_tile_state indeterminate
                     (State.tiles (TileManager.state m)) index Tile.DENOISED)
                  (TileManager.state m), false)))
     /\ State.denoise_tiles
          (fst (fold_left
                  (denoise_scan indeterminate (TileManager.tile_size m)
                     (grid_w m) (grid_h m) index)
                  (seqZ 0 9)
                  (State.set_tiles
                     (set_tile_state indeterminate
                        (State.tiles (TileManager.state m)) index Tile.DENOISED)
                     (TileManager.state m), false)))
        = State.denoise_tiles (TileManager.state m))
    \/ Tile.state (tile_at indeterminate (State.tiles (TileManager.state m)) index)
       <> Tile.DENOISE).
  { destruct (decide (Tile.state (tile_at indeterminate
                                   (State.tiles (TileManager.state m)) index)
                      = Tile.DENOISE)) as [E|E]; [left|right; exact E].
    apply (fold_scan_inv
             (fun acc => scan_inv indeterminate (grid_w m) (grid_h m)
                           (State.render_tiles (TileManager.state m))
                           (State.resolution_divider (TileManager.state m)) D
                           (fst acc)
                         /\ State.denoise_tiles (fst acc)
                            = State.denoise_tiles (TileManager.state m))).
    - intros acc n [H1 H2]. split; [apply denoise_scan_inv; exact H1|].
      rewrite denoise_scan_queues. exact H2.
    - split; [|reflexivity]. cbn [fst].
      apply set_state_scan_inv; [exact Hscan|]. rewrite E. simpl. lia. }
  set (Frender := fold_left (render_scan _ _ _ _ _) _ _) in *.
  set (Fdenoise := fold_left (denoise_scan _ _ _ _ _) _ _) in *.
  destruct (Tile.state (tile_at indeterminate (State.tiles (TileManager.state m)) index))
    eqn:Hstate; try discriminate.
  - destruct Hrender as [Hrender|?]; [|congruence].
    destruct (TileManager.only_denoise m) eqn:Hod; [discriminate|].
    destruct (TileManager.schedule_denoising m) eqn:Hsd; cbn [negb] in Hret;
      match type of Hret with
      | Some (_, _, ?x) = _ => assert (m' = x) as -> by congruence
      end.
    + apply (scan_dispatch_inv m R D);
        [exact Hinv|exact Hrender|intros ?; congruence].
    + apply (scan_dispatch_inv m R D); [exact Hinv| |reflexivity].
      apply set_state_scan_inv; [exact Hscan|]. rewrite Hstate. simpl. lia.
  - destruct Hdenoise as [[Hf1 Hf2]|?]; [|congruence].
    destruct (TileManager.only_denoise m) eqn:Hod.
    + match type of Hret with
      | Some (_, _, ?x) = _ => assert (m' = x) as -> by congruence
      end.
      apply (scan_dispatch_inv m R D); [exact Hinv| |reflexivity].
      apply set_state_scan_inv; [exact Hscan|]. rewrite Hstate. simpl. lia.
    + destruct Fdenoise as [st' del].
      match type of Hret with
      | Some (_, _, ?x) = _ => assert (m' = x) as -> by congruence
      end.
      apply (scan_dispatch_inv m R D); [exact Hinv|exact Hf1|intros _; exact Hf2].
Qed.
Lemma queue_at_pop (qs : list (list Z)) z idx rest :
  queue_at qs z = idx :: rest ->
  concat qs ≡ₚ idx :: concat (vec_set qs z rest).
Proof.
  unfold queue_at, vec_get, vec_set. destruct (z <? 0); [discriminate|].
  destruct (qs !! Z.to_nat z) as [q|] eqn:E; simpl; [|discriminate].
  intros ->. apply concat_pop. exact E.
Qed.

Lemma dispatch_inv_frame m R D st' :
  dispatch_inv indeterminate m R D ->
  State.tiles st' = State.tiles (TileManager.state m) ->
  State.tile_stride st' = State.tile_stride (TileManager.state m) ->
  State.resolution_divider st'
  = State.resolution_divider (TileManager.state m) ->
  forall R' D',
    R' ++ concat (State.render_tiles st')
    ≡ₚ R ++ concat (State.render_tiles (TileManager.state m)) ->
    D' ++ concat (State.denoise_tiles st')
    ≡ₚ D ++ concat (State.denoise_tiles (TileManager.state m)) ->
    dispatch_inv indeterminate (TileManager.set_state st' m) R' D'.
Proof.
  intros ((Hs & Hl & Hx & Hy) & HR & Hnd & Hrank & Hod & Hsd) Ht Hst Hrd R' D' HpR HpD.
  assert (Hgw : grid_w (TileManager.set_state st' m) = grid_w m).
  { unfold grid_w, image_w. destruct m; simpl in *. rewrite Hrd. reflexivity. }
  assert (Hgh : grid_h (TileManager.set_state st' m) = grid_h m).
  { unfold grid_h, image_h. destruct m; simpl in *. rewrite Hrd. reflexivity. }
  unfold dispatch_inv, well_sized. rewrite Hgw, Hgh.
  destruct m; simpl in *. rewrite Ht, Hst.
  repeat split; try assumption.
  - rewrite HpR. exact HR.
  - rewrite HpD. exact Hnd.
  - intros i Hi. rewrite HpD in Hi. auto.
  - intros Ho. specialize (Hod Ho). rewrite Hod in HpR.
    apply Permutation_nil_r in HpR. exact HpR.
  - intros Hsf Hof. specialize (Hsd Hsf Hof). rewrite Hsd in HpD.
    apply Permutation_nil_r in HpD. exact HpD.
Qed.

(** [next_tile] keeps the invariant: the tile it gives moves from its list to
    the tiles given. *)
Lemma next_tile_inv m device R D idx m' :
  dispatch_inv indeterminate m R D ->
  next_tile m device = (Some idx, m') ->
  if denoise_pending m device
  then dispatch_inv indeterminate m' R (D ++ [idx])
  else dispatch_inv indeterminate m' (R ++ [idx]) D.
Proof.
  intros Hinv Hnext. unfold next_tile in Hnext. unfold denoise_pending.
  destruct (_ >=? _); [discriminate|].
  destruct (queue_at (State.denoise_tiles (TileManager.state m)) _) as [|i rest] eqn:Hdq.
  - destruct (queue_at (State.render_tiles (TileManager.state m)) _) as [|i rest] eqn:Hrq;
      [discriminate|].
    injection Hnext as <- <-.
    apply (dispatch_inv_frame m R D _ Hinv); [reflexivity|reflexivity|reflexivity| |].
    + cbn [State.render_tiles State.set_render_tiles State.set_num_rendered_tiles].
      rewrite (queue_at_pop _ _ _ _ Hrq), <- app_assoc. reflexivity.
    + reflexivity.
  - injection Hnext as <- <-.
    apply (dispatch_inv_frame m R D _ Hinv);
      [destruct (TileManager.only_denoise m); reflexivity
      |destruct (TileManager.only_denoise m); reflexivity
      |destruct (TileManager.only_denoise m); reflexivity
      |destruct (TileManager.only_denoise m); reflexivity|].
    destruct (TileManager.only_denoise m);
      cbn [State.denoise_tiles State.set_denoise_tiles
             State.set_num_rendered_tiles];
      rewrite (queue_at_pop _ _ _ _ Hdq), <- app_assoc; reflexivity.
Qed.

Lemma next_tile_none m device m' : next_tile m device = (None, m') -> m' = m.
Proof.
  unfold next_tile. repeat case_match; intros [= <-]; reflexivity.
Qed.

Lemma given_from_cons (b b' : bool) idx given :
  given_from b ((b', idx) :: given)
  = if Bool.eqb b' b then idx :: given_from b given else given_from b given.
Proof. destruct b, b'; reflexivity. Qed.

Lemma run_calls_inv calls :
  forall m R D given m',
    dispatch_inv indeterminate m R D ->
    run_calls indeterminate calls m = Some (given, m') ->
    dispatch_inv indeterminate m' (R ++ given_from false given)
      (D ++ given_from true given).
Proof.
  induction calls as [|c calls IH]; intros m R D given m' Hinv Hrun.
  - injection Hrun as <- <-. unfold given_from. simpl. rewrite !app_nil_r. exact Hinv.
  - destruct c as [device|index]; cbn [run_calls] in Hrun.
    + destruct (next_tile m device) as [[idx|] m1] eqn:Hnext.
      * destruct (run_calls indeterminate calls m1) as [[given1 m2]|] eqn:Hrun1;
          [|discriminate].
        injection Hrun as <- <-.
        pose proof (next_tile_inv m device R D idx m1 Hinv Hnext) as Hstep.
        rewrite !given_from_cons.
        destruct (denoise_pending m device); cbn [Bool.eqb].
        -- specialize (IH m1 R (D ++ [idx]) given1 m2 Hstep Hrun1).
           rewrite <- app_assoc in IH. exact IH.
        -- specialize (IH m1 (R ++ [idx]) D given1 m2 Hstep Hrun1).
           rewrite <- app_assoc in IH. exact IH.
      * apply next_tile_none in Hnext. subst m1. eauto.
    + destruct (return_tile indeterminate m index) as [[[b d] m1]|] eqn:Hret;
        [|discriminate].
      eapply IH; [|exact Hrun]. eapply return_tile_inv; eassumption.
Qed.

Lemma given_split (given : list (bool * Z)) :
  given_from false given = [] -> snd <$> given = given_from true given.
Proof.
  induction given as [|[[] idx] given IH]; [reflexivity| |];
    rewrite !given_from_cons; cbn [Bool.eqb]; [|discriminate].
  intros H. rewrite fmap_cons. cbn [snd]. f_equal. auto.
Qed.

Lemma given_split' (given : list (bool * Z)) :
  given_from true given = [] -> snd <$> given = given_from false given.
Proof.
  induction given as [|[[] idx] given IH]; [reflexivity| |];
    rewrite !given_from_cons; cbn [Bool.eqb]; [discriminate|].
  intros H. rewrite fmap_cons. cbn [snd]. f_equal. auto.
Qed.

(** [next_tile] and [return_tile] only write to [state]. *)
Lemma next_tile_config m device :
  snd (next_tile m device)
  = TileManager.set_state (TileManager.state (snd (next_tile m device))) m.
Proof.
  unfold next_tile. repeat case_match; destruct m; reflexivity.
Qed.

Lemma return_tile_config m index b d m' :
  return_tile indeterminate m index = Some (b, d, m') ->
  m' = TileManager.set_state (TileManager.state m') m.
Proof.
  unfold return_tile. cbv zeta.
  set (Frender := fold_left (render_scan _ _ _ _ _) _ _).
  set (Fdenoise := fold_left (denoise_scan _ _ _ _ _) _ _).
  intros Hret.
  assert (Hm : exists st', m' = TileManager.set_state st' m).
  { destruct (Tile.state _); try discriminate;
      destruct (TileManager.only_denoise m); try discriminate;
      try destruct (negb (TileManager.schedule_denoising m));
      try destruct Fdenoise as [st' del];
      match type of Hret with
      | Some (_, _, TileManager.set_state ?x _) = _ => exists x; congruence
      end. }
  destruct Hm as [st' ->]. destruct m; reflexivity.
Qed.

Lemma run_calls_config calls :
  forall m given m',
    run_calls indeterminate calls m = Some (given, m') ->
    m' = TileManager.set_state (TileManager.state m') m.
Proof.
  induction calls as [|c calls IH]; intros m given m' Hrun.
  - injection Hrun as <- <-. destruct m; reflexivity.
  - destruct c as [device|index]; cbn [run_calls] in Hrun.
    + pose proof (next_tile_config m device) as Hc.
      destruct (next_tile m device) as [[idx|] m1]; cbn [snd] in Hc.
      * destruct (run_calls indeterminate calls m1) as [[given1 m2]|] eqn:Hrun1;
          [|discriminate].
        injection Hrun as <- <-. rewrite (IH _ _ _ Hrun1) at 1. rewrite Hc.
        reflexivity.
      * rewrite (IH _ _ _ Hrun) at 1. rewrite Hc. reflexivity.
    + destruct (return_tile indeterminate m index) as [[[b d] m1]|] eqn:Hret;
        [|discriminate].
      rewrite (IH _ _ _ Hrun) at 1.
      rewrite (return_tile_config _ _ _ _ _ Hret). reflexivity.
Qed.

(** From the invariant: between two tile generations no tile is given twice
    from the render lists, none twice from the denoise lists, and none twice
    at all when no denoising is scheduled after rendering. *)
Lemma run_calls_once m calls given m' :
  dispatch_inv indeterminate m [] [] ->
  run_calls indeterminate calls m = Some (given, m') ->
  NoDup (given_from false given)
  /\ NoDup (given_from true given)
  /\ (TileManager.schedule_denoising m = false
      \/ TileManager.only_denoise m = true ->
      NoDup (snd <$> given)).
Proof.
  intros Hinv Hrun.
  pose proof (run_calls_config calls m given m' Hrun) as Hcfg.
  pose proof (run_calls_inv calls m [] [] given m' Hinv Hrun)
    as (_ & HR & HD & _ & Honly & Hsched).
  rewrite Hcfg in Honly, Hsched.
  change (TileManager.only_denoise (TileManager.set_state _ m))
    with (TileManager.only_denoise m) in *.
  change (TileManager.schedule_denoising (TileManager.set_state _ m))
    with (TileManager.schedule_denoising m) in *.
  cbn [app] in HR, HD, Honly, Hsched.
  apply list.NoDup_app in HR as (HR & _). apply list.NoDup_app in HD as (HD & _).
  split; [exact HR|]. split; [exact HD|].
  intros Hcase.
  destruct (TileManager.only_denoise m) eqn:Eo.
  - specialize (Honly eq_refl). apply app_eq_nil in Honly as [Hnil _].
    rewrite (given_split _ Hnil). exact HD.
  - destruct Hcase as [Hs|?]; [|discriminate].
    specialize (Hsched Hs eq_refl). apply app_eq_nil in Hsched as [Hnil _].
    rewrite (given_split' _ Hnil). exact HR.
Qed.

(** * Tiles are dispatched once *)

Lemma set_tiles_dispatch_inv m m1 :
  valid_config m -> single_slice m ->
  TileManager.tile_order m <> TILE_HILBERT_SPIRAL ->
  set_tiles indeterminate m = Some m1 ->
  dispatch_inv indeterminate m1 [] [].
Proof.
  intros Hv Hs Ho. unfold set_tiles.
  destruct (gen_tiles indeterminate (negb (TileManager.background m)) m)
    as [[m0 n]|] eqn:Eg; [|discriminate].
  intros [= <-].
  pose proof (gen_tiles_dispatch_inv m m0 n Hv Hs Ho Eg) as Hinv.
  unfold TileManager.upd_state.
  apply (dispatch_inv_frame m0 [] [] _ Hinv); reflexivity.
Qed.

Lemma set_tiles_config m m1 :
  valid_config m ->
  set_tiles indeterminate m = Some m1 ->
  m1 = TileManager.set_state (TileManager.state m1) m.
Proof.
  intros Hv Hset. destruct (set_tiles_retiled m Hv) as (m' & Hset' & Hc & _).
  rewrite Hset in Hset'. injection Hset' as <-. exact Hc.
Qed.

(** Between two tile generations no tile is handed out twice for rendering
    and none twice for denoising.  After [set_tiles] on an image that is not
    cut into slices, in an order other than the Hilbert spiral, whatever
    calls of [next_tile] and [return_tile] the devices make: the tiles given
    from the render lists are pairwise distinct, so are the tiles given from
    the denoise lists, and when only one kind of list is in use (no
    denoising scheduled, or denoising only) no tile is given twice at all. *)
Theorem tiles_dispatched_once m m1 calls given m2 :
  valid_config m -> single_slice m ->
  TileManager.tile_order m <> TILE_HILBERT_SPIRAL ->
  set_tiles indeterminate m = Some m1 ->
  run_calls indeterminate calls m1 = Some (given, m2) ->
  NoDup (given_from false given)
  /\ NoDup (given_from true given)
  /\ (TileManager.schedule_denoising m = false
      \/ TileManager.only_denoise m = true ->
      NoDup (snd <$> given)).
Proof.
  intros Hv Hs Ho Hset Hrun.
  pose proof (set_tiles_dispatch_inv m m1 Hv Hs Ho Hset) as Hinv.
  pose proof (set_tiles_config m m1 Hv Hset) as Hc.
  destruct (run_calls_once m1 calls given m2 Hinv Hrun) as (HR & HD & Hone).
  split; [exact HR|]. split; [exact HD|].
  intros H. apply Hone. rewrite Hc. exact H.
Qed.

(** * Phases *)

Lemma preview_then_final (k : nat) :
  forall m fuel,
    valid_config m -> TileManager.progressive m = true ->
    TileManager.range_num_samples m = -1 ->
    State.resolution_divider (TileManager.state m) = 2 ^ Z.of_nat (S k) ->
    (S k + Z.to_nat (Z.max 0 (TileManager.num_samples m - 1)) < fuel)%nat ->
    next_phases indeterminate fuel m
    = Some (preview_phases (S k)
            ++ ((fun j => (1, j, 1)) <$> seqZ 1 (TileManager.num_samples m - 1))).
Proof.
  induction k as [|k IH]; intros m fuel Hv Hp Hr Hd Hfuel;
    (destruct fuel as [|fuel]; [lia|]); cbn [next_phases].
  - destruct (next_halve m Hv Hp) as (m1 & -> & Hm1 & Hph1);
      [rewrite Hd; reflexivity|].
    rewrite Hd in Hph1. change (Z.quot (2 ^ Z.of_nat 1) 2) with 1 in Hph1.
    assert (Hc1 : valid_config m1 /\ TileManager.progressive m1 = true
                  /\ TileManager.range_num_samples m1 = -1
                  /\ TileManager.num_samples m1 = TileManager.num_samples m)
      by (rewrite Hm1; auto).
    destruct Hc1 as (Hv1 & Hp1 & Hr1 & Hn1).
    rewrite (final_phases (Z.to_nat (Z.max 0 (TileManager.num_samples m - 1)))
               m1 0 fuel Hv1 Hp1 Hr1 Hph1); [|rewrite Hn1; lia|lia].
    rewrite Hph1. cbn [fmap option_fmap option_map preview_phases app].
    do 2 f_equal.
    destruct (Z_le_gt_dec (TileManager.num_samples m) 1).
    + rewrite !seqZ_nil by lia. reflexivity.
    + rewrite Z2Nat.id by lia.
      replace (Z.max 0 (TileManager.num_samples m - 1))
        with (TileManager.num_samples m - 1) by lia.
      reflexivity.
  - assert (Hpow : 2 ^ Z.of_nat (S (S k)) = 2 * 2 ^ Z.of_nat (S k)).
    { rewrite (Nat2Z.inj_succ (S k)), Z.pow_succ_r by lia. reflexivity. }
    assert (Hpos : 0 < 2 ^ Z.of_nat (S k)) by (apply Z.pow_pos_nonneg; lia).
    destruct (next_halve m Hv Hp) as (m1 & -> & Hm1 & Hph1);
      [rewrite Hd; lia|].
    rewrite Hd, Hpow in Hph1.
    replace (Z.quot (2 * 2 ^ Z.of_nat (S k)) 2) with (2 ^ Z.of_nat (S k))
      in Hph1 by (rewrite Z.mul_comm, Z.quot_mul; lia).
    assert (Hc1 : valid_config m1 /\ TileManager.progressive m1 = true
                  /\ TileManager.range_num_samples m1 = -1
                  /\ TileManager.num_samples m1 = TileManager.num_samples m)
      by (rewrite Hm1; auto).
    destruct Hc1 as (Hv1 & Hp1 & Hr1 & Hn1).
    rewrite (IH m1 fuel Hv1 Hp1 Hr1);
      [|injection Hph1 as -> _ _; reflexivity|rewrite Hn1; lia].
    rewrite Hph1, Hn1. reflexivity.
Qed.

(** Progressive rendering from any preview divider.  When the divider is
    [2^k] with [k >= 1] (as [reset] leaves it), the calls of [next] set one
    phase for each of the dividers [2^(k-1)], ..., 2, 1, with sample 0 and one
    sample, then one phase of one sample at divider 1 for each of the samples
    1 to [num_samples - 1], and the call after the last of them returns
    [false]: no phase is rendered at the divider [2^k] itself, and sample 0 is
    rendered once at every preview level. *)
Theorem progressive_phases_from_divider m (k : nat) fuel :
  valid_config m -> TileManager.progressive m = true ->
  TileManager.range_num_samples m = -1 ->
  (1 <= k)%nat ->
  State.resolution_divider (TileManager.state m) = 2 ^ Z.of_nat k ->
  (k + Z.to_nat (Z.max 0 (TileManager.num_samples m - 1)) < fuel)%nat ->
  next_phases indeterminate fuel m
  = Some (preview_phases k
          ++ ((fun j => (1, j, 1)) <$> seqZ 1 (TileManager.num_samples m - 1))).
Proof.
  intros Hv Hp Hr Hk. destruct k as [|k]; [lia|]. apply preview_then_final; assumption.
Qed.


(** * The comparison of tiles *)

Ltac fold_pos_compare :=
  repeat match goal with
         | |- context [Pos.compare_cont Eq ?a ?b] =>
             change (Pos.compare_cont Eq a b) with (Pos.compare a b)
         end.

Lemma SFltb_irrefl (x : spec_float) : SFltb x x = false.
Proof.
  unfold SFltb. destruct x as [s|s| |s m e]; try destruct s; cbn;
    fold_pos_compare;
    rewrite ?Z.compare_refl, ?Pos.compare_refl; reflexivity.
Qed.

Lemma SFltb_asym (x y : spec_float) : SFltb x y = true -> SFltb y x = false.
Proof.
  unfold SFltb.
  destruct x as [s|s| |s m e], y as [s'|s'| |s' m' e'];
    try destruct s; try destruct s'; cbn; try congruence.
  all: fold_pos_compare;
    rewrite (Z.compare_antisym e e'), (Pos.compare_antisym m m');
    destruct (e ?= e'); cbn; try congruence;
    destruct (m ?= m')%positive; cbn; congruence.
Qed.

Lemma SFltb_trans (x y z : spec_float) :
  SFltb x y = true -> SFltb y z = true -> SFltb x z = true.
Proof.
  unfold SFltb.
  destruct x as [s|s| |s m e], y as [s'|s'| |s' m' e'], z as [s''|s''| |s'' m'' e''];
    try destruct s; try destruct s'; try destruct s''; cbn; try congruence.
  all: fold_pos_compare.
  all: repeat match goal with
         | |- context [Z.compare ?a ?b] =>
             destruct (Z.compare_spec a b); cbn
         | |- context [Pos.compare ?a ?b] =>
             destruct (Pos.compare_spec a b); cbn
         end; intros; try congruence; lia.
Qed.

Ltac cmp_cases :=
  repeat match goal with
         | H : context [Z.gtb ?a ?b] |- _ => rewrite (Z.gtb_ltb a b) in H
         | |- context [Z.gtb ?a ?b] => rewrite (Z.gtb_ltb a b)
         | H : context [Z.eqb ?a ?b] |- _ => destruct (Z.eqb_spec a b)
         | |- context [Z.eqb ?a ?b] => destruct (Z.eqb_spec a b)
         | H : context [Z.ltb ?a ?b] |- _ => destruct (Z.ltb_spec a b)
         | |- context [Z.ltb ?a ?b] => destruct (Z.ltb_spec a b)
         end; try congruence; try lia.

(** [TileComparator] is a comparison [std::list::sort] can work with.  For
    every tile order it puts no tile before itself, never two tiles each
    before the other, and is transitive.  For the four sweeps (and the order
    the Hilbert spiral falls back to) it is moreover a strict weak order whose
    ties are the tiles at the same position: "neither before the other" is
    transitive, and holds only between tiles with the same [x] and [y]. *)
Theorem tile_comparator_strict_order (order : TileOrder) (center : int2)
    (tiles : list Tile.t) :
  let lt := TileComparator indeterminate order center tiles in
  (forall a, lt a a = false)
  /\ (forall a b, lt a b = true -> lt b a = false)
  /\ (forall a b c, lt a b = true -> lt b c = true -> lt a c = true)
  /\ (order <> TILE_CENTER ->
      (forall a b c, lt a b = false -> lt b c = false -> lt a c = false)
      /\ (forall a b, lt a b = false -> lt b a = false ->
            Tile.x (tile_at indeterminate tiles a)
            = Tile.x (tile_at indeterminate tiles b)
            /\ Tile.y (tile_at indeterminate tiles a)
               = Tile.y (tile_at indeterminate tiles b))).
Proof.
  intros lt. unfold lt, TileComparator. cbv zeta.
  split; [|split; [|split]].
  - intros a. destruct order; try (cmp_cases; fail). apply SFltb_irrefl.
  - intros a b. destruct order; try (intros; cmp_cases; fail). apply SFltb_asym.
  - intros a b c. destruct order; try (intros; cmp_cases; fail). apply SFltb_trans.
  - intros Ho. split.
    + intros a b c. destruct order; intros; cmp_cases.
    + intros a b. destruct order; intros; cmp_cases.
Qed.

(** What a sort needs of the comparison, for the sweeps. *)
Lemma sweep_comparator order center tiles :
  order <> TILE_CENTER ->
  (forall a b,
     TileComparator indeterminate order center tiles a b = true ->
     TileComparator indeterminate order center tiles b a = false)
  /\ (forall a b c,
        TileComparator indeterminate order center tiles a b = false ->
        TileComparator indeterminate order center tiles b c = false ->
        TileComparator indeterminate order center tiles a c = false).
Proof.
  intros Ho. unfold TileComparator. cbv zeta. split.
  - intros a b. destruct order; intros; cmp_cases.
  - intros a b c. destruct order; intros; cmp_cases.
Qed.

(** The comparison looks at the two tiles only. *)
Lemma comparator_local order center tiles tiles' a b :
  tile_at indeterminate tiles' a = tile_at indeterminate tiles a ->
  tile_at indeterminate tiles' b = tile_at indeterminate tiles b ->
  TileComparator indeterminate order center tiles' a b
  = TileComparator indeterminate order center tiles a b.
Proof. intros Ea Eb. unfold TileComparator. rewrite Ea, Eb. reflexivity. Qed.

(** * The grid made by [gen_tiles] *)

Lemma pieces_bounds b v :
  1 <= b -> 1 <= v ->
  let n := if b >=? v then 1 else Z.quot (v + b - 1) b in
  (n - 1) * b < v <= n * b.
Proof.
  intros Hb Hv. cbv zeta. destruct (Z.geb_spec b v) as [H|H]; [lia|].
  rewrite Z.quot_div_nonneg by lia.
  pose proof (Z.div_mod (v + b - 1) b ltac:(lia)).
  pose proof (Z.mod_pos_bound (v + b - 1) b ltac:(lia)). nia.
Qed.

Lemma num_lists_pos m : 1 <= TileManager.num_devices m -> 1 <= num_lists m.
Proof.
  intros Hd. unfold num_lists. pose proof (image_h_pos m).
  destruct (TileManager.preserve_tile_device m); lia.
Qed.

Lemma chunk_size_bounds m :
  valid_config m ->
  1 <= chunk_size m /\ grid_w m * grid_h m <= num_lists m * chunk_size m.
Proof.
  intros (Hx & Hy & Hd & _). unfold chunk_size.
  pose proof (num_lists_pos m Hd) as Hn.
  pose proof (grid_w_pos m Hx). pose proof (grid_h_pos m Hy).
  rewrite Z.quot_div_nonneg by nia.
  pose proof (Z.div_mod (grid_w m * grid_h m + num_lists m - 1) (num_lists m)
                ltac:(lia)).
  pose proof (Z.mod_pos_bound (grid_w m * grid_h m + num_lists m - 1)
                (num_lists m) ltac:(lia)).
  nia.
Qed.

Lemma quot_unique k c d r : 0 <= r < c -> 0 <= d -> d * c + r = k -> Z.quot k c = d.
Proof.
  intros Hr Hd <-. rewrite Z.quot_div_nonneg by nia.
  symmetry. apply (Z.div_unique _ _ _ r); lia.
Qed.

Lemma cell_coords tw tx ty :
  0 <= tx < tw -> (ty * tw + tx) mod tw = tx /\ (ty * tw + tx) / tw = ty.
Proof.
  intros Hx. split.
  - rewrite Z.add_comm, Z.mod_add by lia. apply Z.mod_small. lia.
  - rewrite Z.add_comm, Z.div_add by lia. rewrite Z.div_small by lia. lia.
Qed.

Lemma tile_device_range m idx :
  valid_config m -> 0 <= idx < grid_w m * grid_h m ->
  0 <= tile_device m idx < num_lists m.
Proof.
  intros Hv Hidx. destruct (chunk_size_bounds m Hv) as [Hc HT].
  destruct Hv as (_ & _ & Hd & _). pose proof (num_lists_pos m Hd).
  unfold tile_device. destruct (TileManager.background m); [|lia].
  rewrite Z.quot_div_nonneg by lia. split.
  - apply Z.div_pos; lia.
  - apply Z.div_lt_upper_bound; lia.
Qed.

Lemma queue_at_alter (f : list Z -> list Z) (qs : list (list Z)) (i : nat) j :
  queue_at (alter f i qs) j
  = if decide (j = Z.of_nat i /\ (i < length qs)%nat) then f (queue_at qs j)
    else queue_at qs j.
Proof.
  unfold queue_at, vec_get. destruct (Z.ltb_spec j 0) as [Hj|Hj].
  - destruct (decide _) as [[? ?]|_]; [lia|reflexivity].
  - destruct (decide (Z.to_nat j = i)) as [<-|Hne].
    + rewrite list_lookup_alter_eq.
      destruct (decide _) as [[_ Hlt]|Hn].
      * destruct (lookup_lt_is_Some_2 qs (Z.to_nat j) Hlt) as [q ->].
        reflexivity.
      * rewrite lookup_ge_None_2 by lia. reflexivity.
    + rewrite list_lookup_alter_ne by congruence.
      destruct (decide _) as [[? ?]|_]; [lia|reflexivity].
Qed.

Lemma queue_at_replicate_nil (n : nat) j : queue_at (replicate n []) j = [].
Proof.
  unfold queue_at, vec_get. destruct (j <? 0); [reflexivity|].
  destruct (replicate n [] !! Z.to_nat j) as [q|] eqn:E; [|reflexivity].
  apply lookup_replicate in E as [-> _]. reflexivity.
Qed.

Lemma gen_tile_geom m center tile_y tile_x g :
  valid_config m -> single_slice m ->
  0 <= tile_x < grid_w m -> 0 <= tile_y < grid_h m ->
  gen_geom indeterminate m (tile_y * grid_w m + tile_x) g ->
  gen_geom indeterminate m (tile_y * grid_w m + (tile_x + 1))
    (gen_tile indeterminate m (negb (TileManager.background m)) (image_w m)
       (grid_w m) center 0 0 (image_h m) (grid_h m) (chunk_size m)
       tile_y g tile_x).
Proof.
  intros Hv Hsingle Hx Hy ((Hlen & Hql & Htiles & Hmem) & Hcnt).
  destruct (chunk_size_bounds m Hv) as [Hc HT].
  destruct (cell_coords (grid_w m) tile_x tile_y Hx) as [Hcx Hcy].
  set (k := tile_y * grid_w m + tile_x) in *.
  replace (tile_y * grid_w m + (tile_x + 1)) with (k + 1) by lia.
  assert (Hk : 0 <= k < grid_w m * grid_h m) by (unfold k; nia).
  assert (Hdev : tile_device m k = Z.of_nat (g_tile_list g)
                 /\ (g_tile_list g < length (g_queues g))%nat
                 /\ (if negb (TileManager.background m) then 0
                     else g_cur_device g) = tile_device m k).
  { pose proof (tile_device_range m k Hv Hk) as Hr. revert Hr Hcnt.
    unfold tile_device. destruct (TileManager.background m); cbn [negb].
    - intros Hr (Hl & Hct & Hsum).
      assert (E : Z.quot k (chunk_size m) = g_cur_device g)
        by (apply (quot_unique _ _ _ (g_cur_tiles g)); [lia|lia|exact Hsum]).
      rewrite E in *. lia.
    - intros Hr ->. lia. }
  destruct Hdev as (Hdev & Hlt & Hdev').
  unfold gen_tile. fold k.
  set (tiles' := vec_set (g_tiles g) k _).
  set (queues' := alter (fun q => q ++ [k]) (g_tile_list g) (g_queues g)).
  assert (Htile : tile_at indeterminate tiles' k = grid_tile m k).
  { unfold tiles'. rewrite tile_at_set_eq by lia. unfold grid_tile.
    rewrite Hcx, Hcy, Hdev'. rewrite Z.add_0_r. reflexivity. }
  assert (Htiles' : forall idx, 0 <= idx < k + 1 ->
            tile_at indeterminate tiles' idx = grid_tile m idx).
  { intros idx Hidx. destruct (decide (idx = k)) as [->|Hne]; [exact Htile|].
    unfold tiles'. rewrite tile_at_set_ne by congruence. apply Htiles. lia. }
  assert (Hlen' : Z.of_nat (length tiles') = grid_w m * grid_h m)
    by (unfold tiles'; rewrite vec_set_length; exact Hlen).
  assert (Hmem' : forall (f : list Z -> list Z),
            (forall q, f q ≡ₚ q) ->
            forall j idx,
              idx ∈ queue_at (alter f (g_tile_list g) queues') j
              <-> 0 <= idx < k + 1 /\ tile_device m idx = j).
  { intros f Hf j idx. rewrite queue_at_alter.
    assert (Hlq : length queues' = length (g_queues g))
      by apply length_alter.
    rewrite Hlq. unfold queues'. rewrite queue_at_alter.
    destruct (decide (j = Z.of_nat (g_tile_list g)
                      /\ (g_tile_list g < length (g_queues g))%nat))
      as [[-> _]|Hn].
    - rewrite Hf, elem_of_app, list_elem_of_singleton, Hmem.
      split.
      + intros [[? ?]| ->]; [lia|]. split; [lia|exact Hdev].
      + intros [? ?]. destruct (decide (idx = k)); [right; assumption|left; lia].
    - rewrite Hmem. split.
      + intros [? ?]. lia.
      + intros [? Hd]. split; [|exact Hd].
        destruct (decide (idx = k)) as [->|]; [|lia].
        exfalso. apply Hn. split; [congruence|exact Hlt]. }
  assert (Hmem0 : forall j idx,
            idx ∈ queue_at queues' j
            <-> 0 <= idx < k + 1 /\ tile_device m idx = j).
  { intros j idx. specialize (Hmem' id (fun q => reflexivity q) j idx).
    unfold queues' in Hmem' at 1.
    replace (alter id (g_tile_list g) queues') with queues' in Hmem'; [exact Hmem'|].
    symmetry. apply list_alter_id. reflexivity. }
  assert (Hql' : Z.of_nat (length queues') = num_lists m)
    by (unfold queues'; rewrite length_alter; exact Hql).
  revert Hcnt. unfold gen_geom, gen_grid.
  destruct (TileManager.background m); cbn [negb].
  - intros (Hl & Hct & Hsum).
    destruct (Z.eqb_spec (g_cur_tiles g + 1) (chunk_size m)) as [Efull|Enot].
    + destruct (TileOrder_eqb _ _); cbn [g_tiles g_queues g_tile_list
        g_cur_device g_cur_tiles];
        (split; [refine (conj _ (conj _ (conj _ _)))|]);
        rewrite ?length_alter; try assumption;
        try (apply Hmem'; intros q; apply list_sort_perm); lia.
    + cbn [g_tiles g_queues g_tile_list g_cur_device g_cur_tiles].
      split; [refine (conj _ (conj _ (conj _ _)))|]; try assumption; lia.
  - intros Hl. cbn [g_tiles g_queues g_tile_list g_cur_device g_cur_tiles].
    split; [refine (conj _ (conj _ (conj _ _)))|]; assumption.
Qed.

Lemma gen_rows_geom m center g :
  valid_config m -> single_slice m ->
  gen_geom indeterminate m 0 g ->
  gen_geom indeterminate m (grid_w m * grid_h m)
    (fold_left
       (fun g tile_y =>
          fold_left
            (gen_tile indeterminate m (negb (TileManager.background m))
               (image_w m) (grid_w m) center 0 0 (image_h m) (grid_h m)
               (chunk_size m) tile_y)
            (seqZ 0 (grid_w m)) g)
       (seqZ 0 (grid_h m)) g).
Proof.
  intros Hv Hsingle Hg. pose proof Hv as (Hx & Hy & _).
  pose proof (grid_w_pos m Hx) as Hgw. pose proof (grid_h_pos m Hy) as Hgh.
  replace (grid_w m * grid_h m) with (grid_h m * grid_w m) by lia.
  apply (fold_left_seqZ_ind
           (fun y g => gen_geom indeterminate m (y * grid_w m) g));
    [lia|exact Hg|].
  intros tile_y g1 Hty Hg1.
  replace ((tile_y + 1) * grid_w m) with (tile_y * grid_w m + grid_w m) by lia.
  apply (fold_left_seqZ_ind
           (fun x g => gen_geom indeterminate m (tile_y * grid_w m + x) g));
    [lia|rewrite Z.add_0_r; exact Hg1|].
  intros tile_x g2 Htx Hg2. apply gen_tile_geom; assumption.
Qed.

Lemma gen_geom_start m :
  valid_config m ->
  gen_geom indeterminate m 0
    (mkGen (tiles_resize indeterminate (grid_w m * grid_h m))
       (replicate (Z.to_nat (num_lists m)) []) 0%nat 0 0).
Proof.
  intros Hv. destruct (chunk_size_bounds m Hv) as [Hc HT].
  pose proof Hv as (Hx & Hy & Hd & _).
  pose proof (grid_w_pos m Hx). pose proof (grid_h_pos m Hy).
  pose proof (num_lists_pos m Hd).
  split; [refine (conj _ (conj _ (conj _ _)))|]; cbn [g_tiles g_queues
    g_tile_list g_cur_device g_cur_tiles].
  - unfold tiles_resize. rewrite length_fmap, length_seqZ. nia.
  - rewrite length_replicate. lia.
  - intros idx Hidx. lia.
  - intros j idx. rewrite queue_at_replicate_nil. split.
    + intros Hin. apply elem_of_nil in Hin. contradiction.
    + intros [? _]. lia.
  - destruct (TileManager.background m); [lia|reflexivity].
Qed.

Lemma single_slice_num m :
  single_slice m ->
  (if negb (TileManager.background m) then num_lists m else 1) = 1.
Proof.
  intros [-> | Hone]; [reflexivity|].
  destruct (negb _); [exact Hone|reflexivity].
Qed.

Lemma gen_slice_geom m center g :
  valid_config m -> single_slice m ->
  gen_geom indeterminate m 0
    (mkGen (g_tiles g) (g_queues g) (g_tile_list g) 0 0) ->
  let g' :=
    gen_slice indeterminate m (negb (TileManager.background m)) (image_w m)
      (image_h m) (grid_w m) center (num_lists m) 1 g 0 in
  gen_grid indeterminate m (grid_w m * grid_h m) (g_tiles g') (g_queues g').
Proof.
  intros Hv Hsingle Hg. cbv zeta. unfold gen_slice.
  change (0 =? 1 - 1) with true. cbn match.
  replace (image_h m - 0 * Z.quot (image_h m) 1) with (image_h m) by lia.
  replace (Z.quot (image_h m) 1 * 0) with 0 by lia.
  fold (grid_h m). fold (chunk_size m).
  pose proof (gen_rows_geom m center _ Hv Hsingle Hg) as [Hgrid _].
  destruct (negb (TileManager.background m)); exact Hgrid.
Qed.

(** The tiles and the lists that [gen_tiles] leaves. *)
Lemma gen_tiles_grid m m' n :
  valid_config m -> single_slice m ->
  TileManager.tile_order m <> TILE_HILBERT_SPIRAL ->
  gen_tiles indeterminate (negb (TileManager.background m)) m = Some (m', n) ->
  exists g,
    m' = gen_store m (grid_w m) (num_lists m) g
    /\ n = grid_w m * grid_h m
    /\ gen_grid indeterminate m (grid_w m * grid_h m) (g_tiles g) (g_queues g).
Proof.
  intros Hv Hsingle Hord. unfold gen_tiles.
  fold (image_w m) (image_h m). fold (grid_w m) (grid_h m). fold (num_lists m).
  destruct (TileOrder_eqb (TileManager.tile_order m) TILE_HILBERT_SPIRAL) eqn:Eo.
  { exfalso. apply Hord. destruct (TileManager.tile_order m); try discriminate.
    reflexivity. }
  rewrite (single_slice_num m Hsingle). change (seqZ 0 1) with [0].
  cbn [fold_left]. intros [= <- <-].
  eexists. split; [reflexivity|]. split; [reflexivity|].
  apply gen_slice_geom; [exact Hv|exact Hsingle|].
  apply gen_geom_start. exact Hv.
Qed.

Lemma set_tiles_grid m m1 :
  valid_config m -> single_slice m ->
  TileManager.tile_order m <> TILE_HILBERT_SPIRAL ->
  set_tiles indeterminate m = Some m1 ->
  State.num_tiles (TileManager.state m1) = grid_w m * grid_h m
  /\ State.tile_stride (TileManager.state m1) = grid_w m
  /\ gen_grid indeterminate m (grid_w m * grid_h m)
       (State.tiles (TileManager.state m1))
       (if TileManager.only_denoise m
        then State.denoise_tiles (TileManager.state m1)
        else State.render_tiles (TileManager.state m1))
  /\ (if TileManager.only_denoise m
      then State.render_tiles (TileManager.state m1)
      else State.denoise_tiles (TileManager.state m1))
     = replicate (Z.to_nat (num_lists m)) [].
Proof.
  intros Hv Hs Ho. unfold set_tiles.
  destruct (gen_tiles indeterminate (negb (TileManager.background m)) m)
    as [[m0 n]|] eqn:Eg; [|discriminate].
  intros [= <-].
  destruct (gen_tiles_grid m m0 n Hv Hs Ho Eg) as (g & -> & -> & Hgrid).
  unfold gen_store, TileManager.upd_state.
  cbn [TileManager.state TileManager.set_state State.num_tiles
       State.set_buffer State.set_num_tiles State.tile_stride
       State.set_tile_stride State.tiles State.set_tiles State.denoise_tiles
       State.set_denoise_tiles State.render_tiles State.set_render_tiles].
  destruct (TileManager.only_denoise m); auto.
Qed.

Lemma elem_of_concat_queue (qs : list (list Z)) x :
  x ∈ concat qs <-> exists j, x ∈ queue_at qs j.
Proof.
  rewrite list_elem_of_In, in_concat. split.
  - intros (q & Hq & Hx). apply list_elem_of_In, list_elem_of_lookup in Hq.
    destruct Hq as [i Hi]. exists (Z.of_nat i). unfold queue_at, vec_get.
    destruct (Z.ltb_spec (Z.of_nat i) 0); [lia|].
    rewrite Nat2Z.id, Hi. apply list_elem_of_In. exact Hx.
  - intros [j Hin]. unfold queue_at, vec_get in Hin.
    destruct (j <? 0); [apply elem_of_nil in Hin; contradiction|].
    destruct (qs !! Z.to_nat j) as [q|] eqn:E;
      [|apply elem_of_nil in Hin; contradiction].
    exists q. split; [|apply list_elem_of_In; exact Hin].
    apply list_elem_of_In, list_elem_of_lookup. eauto.
Qed.

Lemma grid_tile_bounds m idx :
  valid_config m -> 0 <= idx < grid_w m * grid_h m ->
  let t := grid_tile m idx in
  let ts := TileManager.tile_size m in
  Tile.x t = idx mod grid_w m * I2.x ts
  /\ Tile.y t = idx / grid_w m * I2.y ts
  /\ Tile.w t = Z.min (I2.x ts) (image_w m - Tile.x t)
  /\ Tile.h t = Z.min (I2.y ts) (image_h m - Tile.y t)
  /\ 1 <= Tile.w t /\ 1 <= Tile.h t
  /\ 0 <= Tile.x t /\ 0 <= Tile.y t.
Proof.
  intros (Hx & Hy & _) Hidx. cbv zeta.
  pose proof (grid_w_pos m Hx) as Hgw. pose proof (grid_h_pos m Hy) as Hgh.
  pose proof (pieces_bounds _ _ Hx (image_w_pos m)) as Hbw.
  pose proof (pieces_bounds _ _ Hy (image_h_pos m)) as Hbh.
  cbv zeta in Hbw, Hbh. fold (grid_w m) in Hbw. fold (grid_h m) in Hbh.
  pose proof (Z.mod_pos_bound idx (grid_w m) ltac:(lia)) as Hm.
  assert (Hq : 0 <= idx / grid_w m < grid_h m).
  { split; [apply Z.div_pos; lia|apply Z.div_lt_upper_bound; lia]. }
  unfold grid_tile. cbn [Tile.x Tile.y Tile.w Tile.h].
  set (tx := idx mod grid_w m) in *. set (ty := idx / grid_w m) in *.
  destruct (Z.eqb_spec tx (grid_w m - 1)), (Z.eqb_spec ty (grid_h m - 1));
    repeat split; try reflexivity; nia.
Qed.

(** The tiles that [set_tiles] makes cut the image into rectangles.  On an
    image that is not cut into slices, in an order other than the Hilbert
    spiral: there are [num_tiles] tiles; each one carries its own index,
    starts in the state and with the buffers every tile starts with, is at
    least one pixel and at most [tile_size] wide and high, and lies inside
    the image at the current divider; and every pixel of that image is in the
    rectangle of exactly one tile. *)
Theorem tiles_partition_image m m1 :
  valid_config m -> single_slice m ->
  TileManager.tile_order m <> TILE_HILBERT_SPIRAL ->
  set_tiles indeterminate m = Some m1 ->
  let tiles := State.tiles (TileManager.state m1) in
  let T := State.num_tiles (TileManager.state m1) in
  let ts := TileManager.tile_size m in
  Z.of_nat (length tiles) = T
  /\ (forall idx, 0 <= idx < T ->
        let t := tile_at indeterminate tiles idx in
        Tile.index t = idx
        /\ Tile.state t = initial_state m
        /\ Tile.buffers t = State.global_buffers (TileManager.state m)
        /\ 1 <= Tile.w t <= I2.x ts /\ 1 <= Tile.h t <= I2.y ts
        /\ 0 <= Tile.x t /\ Tile.x t + Tile.w t <= image_w m
        /\ 0 <= Tile.y t /\ Tile.y t + Tile.h t <= image_h m)
  /\ (forall px py, 0 <= px < image_w m -> 0 <= py < image_h m ->
        exists idx,
          0 <= idx < T
          /\ covers (tile_at indeterminate tiles idx) px py
          /\ forall idx', 0 <= idx' < T ->
               covers (tile_at indeterminate tiles idx') px py -> idx' = idx).
Proof.
  intros Hv Hs Ho Hset. cbv zeta.
  destruct (set_tiles_grid m m1 Hv Hs Ho Hset)
    as (-> & _ & (Hlen & _ & Htiles & _) & _).
  pose proof Hv as (Hx & Hy & _).
  pose proof (grid_w_pos m Hx) as Hgw. pose proof (grid_h_pos m Hy) as Hgh.
  pose proof (pieces_bounds _ _ Hx (image_w_pos m)) as Hbw.
  pose proof (pieces_bounds _ _ Hy (image_h_pos m)) as Hbh.
  cbv zeta in Hbw, Hbh. fold (grid_w m) in Hbw. fold (grid_h m) in Hbh.
  split; [exact Hlen|]. split.
  - intros idx Hidx. rewrite (Htiles idx Hidx).
    destruct (grid_tile_bounds m idx Hv Hidx)
      as (Ex & Ey & Ew & Eh & Hw & Hh & Hx0 & Hy0).
    split; [reflexivity|]. split; [reflexivity|]. split; [reflexivity|]. lia.
  - intros px py Hpx Hpy.
    set (tx := px / I2.x (TileManager.tile_size m)).
    set (ty := py / I2.y (TileManager.tile_size m)).
    pose proof (Z.div_mod px (I2.x (TileManager.tile_size m)) ltac:(lia)) as Dx.
    pose proof (Z.mod_pos_bound px (I2.x (TileManager.tile_size m)) ltac:(lia)).
    pose proof (Z.div_mod py (I2.y (TileManager.tile_size m)) ltac:(lia)) as Dy.
    pose proof (Z.mod_pos_bound py (I2.y (TileManager.tile_size m)) ltac:(lia)).
    fold tx in Dx. fold ty in Dy.
    assert (Htx : 0 <= tx < grid_w m) by nia.
    assert (Hty : 0 <= ty < grid_h m) by nia.
    destruct (cell_coords (grid_w m) tx ty Htx) as [Hcx Hcy].
    assert (Hin : 0 <= ty * grid_w m + tx < grid_w m * grid_h m) by nia.
    exists (ty * grid_w m + tx). split; [exact Hin|]. split.
    + rewrite (Htiles _ Hin).
      destruct (grid_tile_bounds m _ Hv Hin) as (Ex & Ey & Ew & Eh & _).
      unfold covers. rewrite Ew, Eh, Ex, Ey, Hcx, Hcy. lia.
    + intros idx' Hidx'. rewrite (Htiles _ Hidx').
      destruct (grid_tile_bounds m _ Hv Hidx') as (Ex & Ey & Ew & Eh & _).
      unfold covers. rewrite Ew, Eh, Ex, Ey. intros [Hcx' Hcy'].
      pose proof (Z.div_mod idx' (grid_w m) ltac:(lia)) as Di.
      pose proof (Z.mod_pos_bound idx' (grid_w m) ltac:(lia)).
      assert (idx' mod grid_w m = tx) by nia.
      assert (idx' / grid_w m = ty) by nia.
      nia.
Qed.

(** The lists that [set_tiles] fills name every tile once.  On an image that
    is not cut into slices, in an order other than the Hilbert spiral: there
    are as many render lists and denoise lists as logical devices (at most
    one per row of pixels); the lists of the kind the manager starts with
    (denoise lists when [only_denoise], render lists otherwise) hold every
    tile index exactly once, the lists of the other kind are empty; a tile is
    in the list of the device it carries; and, the tiles being given to the
    lists in runs of [tiles_per_device], no list holds more than that. *)
Theorem set_tiles_lists m m1 :
  valid_config m -> single_slice m ->
  TileManager.tile_order m <> TILE_HILBERT_SPIRAL ->
  set_tiles indeterminate m = Some m1 ->
  let st := TileManager.state m1 in
  let used :=
    if TileManager.only_denoise m then State.denoise_tiles st
    else State.render_tiles st in
  let other :=
    if TileManager.only_denoise m then State.render_tiles st
    else State.denoise_tiles st in
  Z.of_nat (length used) = num_lists m
  /\ Z.of_nat (length other) = num_lists m
  /\ concat other = []
  /\ concat used ≡ₚ seqZ 0 (State.num_tiles st)
  /\ (forall idx, 0 <= idx < State.num_tiles st ->
        0 <= Tile.device (tile_at indeterminate (State.tiles st) idx)
          < num_lists m
        /\ idx ∈ queue_at used
                   (Tile.device (tile_at indeterminate (State.tiles st) idx)))
  /\ (forall j idx, idx ∈ queue_at used j ->
        Tile.device (tile_at indeterminate (State.tiles st) idx) = j)
  /\ (forall j, Z.of_nat (length (queue_at used j)) <= chunk_size m).
Proof.
  intros Hv Hs Ho Hset. cbv zeta.
  destruct (set_tiles_grid m m1 Hv Hs Ho Hset)
    as (-> & _ & (Hlen & Hql & Htiles & Hmem) & Hother).
  pose proof (set_tiles_dispatch_inv m m1 Hv Hs Ho Hset)
    as (_ & HndR & HndD & _).
  rewrite app_nil_l in HndR, HndD.
  set (used := if TileManager.only_denoise m then _ else _) in *.
  assert (Hnd : NoDup (concat used))
    by (unfold used; destruct (TileManager.only_denoise m); assumption).
  destruct (chunk_size_bounds m Hv) as [Hc HT].
  pose proof Hv as (Hx & Hy & Hd & _).
  pose proof (num_lists_pos m Hd) as Hnl.
  split; [exact Hql|]. split; [|split].
  - rewrite Hother, length_replicate. lia.
  - rewrite Hother. apply concat_replicate_nil.
  - split; [|split; [|split]].
    + apply NoDup_Permutation; [exact Hnd|apply NoDup_seqZ|].
      intros idx. rewrite elem_of_concat_queue, elem_of_seqZ. split.
      * intros [j Hin]. apply Hmem in Hin. lia.
      * intros Hidx. exists (tile_device m idx). apply Hmem. split; [lia|reflexivity].
    + intros idx Hidx. rewrite (Htiles idx Hidx). cbn [grid_tile Tile.device].
      split; [apply tile_device_range; assumption|].
      apply Hmem. split; [exact Hidx|reflexivity].
    + intros j idx Hin. apply Hmem in Hin as [Hidx <-].
      rewrite (Htiles idx Hidx). reflexivity.
    + intros j.
      assert (Hndj : NoDup (queue_at used j)).
      { unfold queue_at, vec_get. destruct (j <? 0); [apply NoDup_nil_2|].
        destruct (used !! Z.to_nat j) as [q|] eqn:E; [|apply NoDup_nil_2].
        cbn. clear -Hnd E. revert used Hnd E.
        generalize (Z.to_nat j) as i. intros i used. revert i.
        induction used as [|q0 used IH]; intros [|i] Hnd E; try discriminate;
          cbn in Hnd; apply list.NoDup_app in Hnd as (H1 & _ & H2).
        - injection E as ->. exact H1.
        - apply (IH i H2 E). }
      assert (Hsub : queue_at used j
                     ⊆+ seqZ (if TileManager.background m
                              then j * chunk_size m else 0) (chunk_size m)).
      { apply NoDup_submseteq; [exact Hndj|]. intros idx Hin.
        apply Hmem in Hin as [Hidx Hdev]. apply elem_of_seqZ.
        revert Hdev. unfold tile_device.
        destruct (TileManager.background m) eqn:Ebg.
        - rewrite Z.quot_div_nonneg by lia. intros <-.
          pose proof (Z.div_mod idx (chunk_size m) ltac:(lia)) as Dm.
          pose proof (Z.mod_pos_bound idx (chunk_size m) ltac:(lia)).
          nia.
        - intros _.
          assert (Hone : num_lists m = 1).
          { destruct Hs as [Hb|Hone]; [congruence|exact Hone]. }
          unfold chunk_size in *. rewrite Hone in *.
          rewrite Z.quot_1_r in *. lia. }
      apply submseteq_length in Hsub. rewrite length_seqZ in Hsub. lia.
Qed.

(** * Neighbours *)

Lemma forallb_false {A} (f : A -> bool) (l : list A) :
  forallb f l = false -> exists x, In x l /\ f x = false.
Proof.
  induction l as [|a l IH]; [discriminate|]. cbn [forallb].
  destruct (f a) eqn:E.
  - intros H. destruct (IH H) as (x & Hin & Hx). exists x. split; [right|]; assumption.
  - intros _. exists a. split; [left; reflexivity|exact E].
Qed.

Lemma In_seqZ_8 nn :
  In nn (seqZ 0 8) <->
  nn = 0 \/ nn = 1 \/ nn = 2 \/ nn = 3 \/ nn = 4 \/ nn = 5 \/ nn = 6 \/ nn = 7.
Proof.
  rewrite <- list_elem_of_In, elem_of_seqZ. lia.
Qed.

Lemma grid_cell_bounds tw th idx :
  1 <= tw -> 0 <= idx < tw * th ->
  0 <= idx mod tw < tw /\ 0 <= idx / tw < th /\ idx = idx / tw * tw + idx mod tw.
Proof.
  intros Htw Hidx.
  pose proof (Z.mod_pos_bound idx tw ltac:(lia)).
  pose proof (Z.div_mod idx tw ltac:(lia)).
  split; [lia|]. split; [|lia].
  split; [apply Z.div_pos; lia|apply Z.div_lt_upper_bound; lia].
Qed.

Lemma grid_state_cell ts tw th st idx :
  grid_state indeterminate ts tw th st -> 0 <= idx < tw * th ->
  Z.quot (Tile.x (tile_at indeterminate (State.tiles st) idx)) (I2.x ts)
  = idx mod tw
  /\ Z.quot (Tile.y (tile_at indeterminate (State.tiles st) idx)) (I2.y ts)
     = idx / tw.
Proof.
  intros (_ & _ & Hx & Hy & Htw & Hg) Hidx.
  destruct (Hg idx Hidx) as (-> & -> & _).
  rewrite !Z.quot_mul by lia. split; reflexivity.
Qed.

Lemma scan_cell_coords tw th cx cy n :
  1 <= tw -> scan_in_grid tw th cx cy n ->
  0 <= scan_cell tw cx cy n < tw * th
  /\ scan_cell tw cx cy n mod tw = cx + dx n
  /\ scan_cell tw cx cy n / tw = cy + dy n.
Proof.
  intros Htw [Hx Hy]. unfold scan_cell.
  destruct (cell_coords tw (cx + dx n) (cy + dy n) Hx) as [-> ->].
  split; [nia|]. split; reflexivity.
Qed.

Lemma scan_in_grid_test tw th cx cy n :
  ((cx + dx n <? 0) || (cy + dy n <? 0) || (cx + dx n >=? tw)
   || (cy + dy n >=? th)) = false
  <-> scan_in_grid tw th cx cy n.
Proof.
  unfold scan_in_grid. rewrite !orb_false_iff, !Z.ltb_ge, !Z.geb_leb, !Z.leb_gt.
  lia.
Qed.

(** The eight offsets are the eight neighbours. *)
Lemma adjacent_offset tw th a nb :
  1 <= tw -> 0 <= a < tw * th -> 0 <= nb < tw * th ->
  adjacent tw a nb ->
  exists nn, In nn (seqZ 0 8)
             /\ scan_in_grid tw th (a mod tw) (a / tw) nn
             /\ scan_cell tw (a mod tw) (a / tw) nn = nb.
Proof.
  clear indeterminate. intros Htw Ha Hnb (Hne & Hdx & Hdy).
  destruct (grid_cell_bounds tw th a Htw Ha) as (Hax & Hay & Ea).
  destruct (grid_cell_bounds tw th nb Htw Hnb) as (Hbx & Hby & Eb).
  unfold scan_in_grid, scan_cell.
  set (ax := a mod tw) in *. set (ay := a / tw) in *.
  set (bx := nb mod tw) in *. set (by_ := nb / tw) in *.
  assert (H1 : bx - ax = -1 \/ bx - ax = 0 \/ bx - ax = 1) by lia.
  assert (H2 : by_ - ay = -1 \/ by_ - ay = 0 \/ by_ - ay = 1) by lia.
  destruct H1 as [E1|[E1|E1]], H2 as [E2|[E2|E2]];
    [exists 0|exists 3|exists 5|exists 1|exfalso; nia|exists 6|exists 2
    |exists 4|exists 7];
    (split; [apply In_seqZ_8; tauto|]);
    change (dx 0) with (-1); change (dy 0) with (-1);
    change (dx 1) with 0; change (dy 1) with (-1);
    change (dx 2) with 1; change (dy 2) with (-1);
    change (dx 3) with (-1); change (dy 3) with 0;
    change (dx 4) with 1; change (dy 4) with 0;
    change (dx 5) with (-1); change (dy 5) with 1;
    change (dx 6) with 0; change (dy 6) with 1;
    change (dx 7) with 1; change (dy 7) with 1; nia.
Qed.

Lemma offset_adjacent tw th a nn :
  1 <= tw -> 0 <= a < tw * th -> In nn (seqZ 0 8) ->
  scan_in_grid tw th (a mod tw) (a / tw) nn ->
  adjacent tw a (scan_cell tw (a mod tw) (a / tw) nn).
Proof.
  clear indeterminate. intros Htw Ha Hnn Hin.
  destruct (scan_cell_coords tw th _ _ nn Htw Hin) as (Hr & Hcx & Hcy).
  destruct (grid_cell_bounds tw th a Htw Ha) as (Hax & Hay & Ea).
  unfold adjacent. rewrite Hcx, Hcy.
  assert (Hd : -1 <= dx nn <= 1 /\ -1 <= dy nn <= 1 /\ (dx nn <> 0 \/ dy nn <> 0)).
  { apply In_seqZ_8 in Hnn.
    destruct Hnn as [->|[->|[->|[->|[->|[->|[->| ->]]]]]]]; vm_compute;
      (split; [split; discriminate|]); (split; [split; discriminate|]);
      try (left; discriminate); right; discriminate. }
  split; [|lia]. intros E.
  assert (a mod tw = scan_cell tw (a mod tw) (a / tw) nn mod tw) by (rewrite <- E; reflexivity).
  assert (a / tw = scan_cell tw (a mod tw) (a / tw) nn / tw) by (rewrite <- E; reflexivity).
  lia.
Qed.

Lemma rank_bounds s : 0 <= Tile.rank s <= 4.
Proof. destruct s; cbn; lia. Qed.

Lemma neighbors_reached_true ts tw th st a bound :
  grid_state indeterminate ts tw th st -> 0 <= a < tw * th ->
  neighbors_reached indeterminate ts tw th st a bound = true ->
  forall nb, 0 <= nb < tw * th -> adjacent tw a nb ->
    Tile.rank bound <= rank_at indeterminate st nb.
Proof.
  intros Hg Ha H nb Hnb Hadj.
  destruct (grid_state_cell ts tw th st a Hg Ha) as [Ex Ey].
  pose proof Hg as (Hstride & _ & _ & _ & Htw & _).
  destruct (adjacent_offset tw th a nb Htw Ha Hnb Hadj) as (nn & Hnn & Hin & Hcell).
  unfold neighbors_reached in H. rewrite forallb_forall in H.
  specialize (H nn Hnn). cbv beta zeta in H. rewrite Ex, Ey, Hstride in H.
  rewrite (proj2 (scan_in_grid_test tw th _ _ nn) Hin) in H.
  unfold scan_cell in Hcell. rewrite Hcell in H.
  apply negb_true_iff in H. unfold Tile.ltb in H. apply Z.ltb_ge in H.
  exact H.
Qed.

Lemma neighbors_reached_false ts tw th st a bound :
  grid_state indeterminate ts tw th st -> 0 <= a < tw * th ->
  neighbors_reached indeterminate ts tw th st a bound = false ->
  exists nb, 0 <= nb < tw * th /\ adjacent tw a nb
             /\ rank_at indeterminate st nb < Tile.rank bound.
Proof.
  intros Hg Ha H.
  destruct (grid_state_cell ts tw th st a Hg Ha) as [Ex Ey].
  pose proof Hg as (Hstride & _ & _ & _ & Htw & _).
  unfold neighbors_reached in H. apply forallb_false in H as (nn & Hnn & H).
  cbv beta zeta in H. rewrite Ex, Ey, Hstride in H.
  destruct (_ || _) eqn:Etest in H; [discriminate|].
  apply scan_in_grid_test in Etest.
  destruct (scan_cell_coords tw th _ _ nn Htw Etest) as (Hr & _).
  exists (scan_cell tw (a mod tw) (a / tw) nn).
  split; [exact Hr|]. split; [apply (offset_adjacent tw th); assumption|].
  apply negb_false_iff in H. unfold Tile.ltb in H. apply Z.ltb_lt in H.
  exact H.
Qed.

(** A write to a tile that keeps its place and its device. *)
Lemma tile_at_touch tiles a (f : Tile.t -> Tile.t) j :
  tile_at indeterminate (vec_set tiles a (f (tile_at indeterminate tiles a))) j
  = if decide (a = j /\ 0 <= a < Z.of_nat (length tiles))
    then f (tile_at indeterminate tiles j)
    else tile_at indeterminate tiles j.
Proof.
  rewrite tile_at_vec_set_state.
  destruct (decide _) as [[-> _]|_]; reflexivity.
Qed.

Lemma promote_tile st a j :
  tile_at indeterminate (State.tiles (promote indeterminate st a)) j
  = if decide (a = j /\ 0 <= a < Z.of_nat (length (State.tiles st)))
    then Tile.set_state Tile.DENOISE (tile_at indeterminate (State.tiles st) j)
    else tile_at indeterminate (State.tiles st) j.
Proof. unfold promote, set_tile_state. cbn. apply tile_at_touch. Qed.

Lemma finish_tile st a release j :
  exists f,
    (forall t, Tile.x (f t) = Tile.x t /\ Tile.y (f t) = Tile.y t
               /\ Tile.device (f t) = Tile.device t
               /\ Tile.state (f t) = Tile.DONE)
    /\ tile_at indeterminate (State.tiles (finish indeterminate st a release)) j
       = if decide (a = j /\ 0 <= a < Z.of_nat (length (State.tiles st)))
         then f (tile_at indeterminate (State.tiles st) j)
         else tile_at indeterminate (State.tiles st) j.
Proof.
  unfold finish, set_tile_state. destruct release; cbn.
  - exists (fun t => Tile.set_buffers None (Tile.set_state Tile.DONE t)).
    split; [intros t; repeat split|].
    rewrite tile_at_vec_set_state, vec_set_length, !tile_at_touch.
    destruct (decide (a = j /\ _)) as [[-> Hin]|Hn].
    + destruct (decide (j = j /\ _)) as [_|Hn']; [reflexivity|].
      exfalso. apply Hn'. split; [reflexivity|exact Hin].
    + reflexivity.
  - exists (Tile.set_state Tile.DONE). split; [intros t; repeat split|].
    apply tile_at_touch.
Qed.

Lemma promote_length st a :
  length (State.tiles (promote indeterminate st a)) = length (State.tiles st).
Proof. unfold promote, set_tile_state. cbn. apply vec_set_length. Qed.

Lemma finish_length st a release :
  length (State.tiles (finish indeterminate st a release))
  = length (State.tiles st).
Proof.
  unfold finish, set_tile_state. destruct release; cbn;
    rewrite ?vec_set_length; reflexivity.
Qed.

Lemma vec_alter_length {A} (f : A -> A) (l : list A) i :
  length (vec_alter f l i) = length l.
Proof. unfold vec_alter. destruct (i <? 0); [reflexivity|apply length_alter]. Qed.

Lemma promote_grid_state ts tw th st a :
  grid_state indeterminate ts tw th st ->
  grid_state indeterminate ts tw th (promote indeterminate st a).
Proof.
  intros (Hs & Hl & Hx & Hy & Htw & Hg).
  refine (conj _ (conj _ (conj Hx (conj Hy (conj Htw _))))).
  - exact Hs.
  - rewrite promote_length. exact Hl.
  - intros idx Hidx. cbv zeta. rewrite promote_tile.
    assert (El : length (State.denoise_tiles (promote indeterminate st a))
                 = length (State.denoise_tiles st))
      by (unfold promote; cbn; apply vec_alter_length).
    rewrite El. destruct (decide _); apply (Hg idx Hidx).
Qed.

Lemma finish_grid_state ts tw th st a release :
  grid_state indeterminate ts tw th st ->
  grid_state indeterminate ts tw th (finish indeterminate st a release).
Proof.
  intros (Hs & Hl & Hx & Hy & Htw & Hg).
  refine (conj _ (conj _ (conj Hx (conj Hy (conj Htw _))))).
  - exact Hs.
  - rewrite finish_length. exact Hl.
  - intros idx Hidx. cbv zeta.
    destruct (finish_tile st a release idx) as (f & Hf & ->).
    change (State.denoise_tiles (finish indeterminate st a release))
      with (State.denoise_tiles st).
    destruct (decide _); [|apply (Hg idx Hidx)].
    destruct (Hf (tile_at indeterminate (State.tiles st) idx)) as (-> & -> & -> & _).
    apply (Hg idx Hidx).
Qed.

Lemma promote_rank ts tw th st a j :
  grid_state indeterminate ts tw th st -> 0 <= a < tw * th ->
  rank_at indeterminate (promote indeterminate st a) j
  = if decide (a = j) then 2 else rank_at indeterminate st j.
Proof.
  intros (_ & Hl & _) Ha. unfold rank_at. rewrite promote_tile.
  destruct (decide (a = j)) as [->|Hne].
  - destruct (decide _) as [_|Hn]; [reflexivity|]. exfalso. apply Hn. lia.
  - destruct (decide _) as [[? _]|_]; [contradiction|reflexivity].
Qed.

Lemma finish_rank ts tw th st a release j :
  grid_state indeterminate ts tw th st -> 0 <= a < tw * th ->
  rank_at indeterminate (finish indeterminate st a release) j
  = if decide (a = j) then 4 else rank_at indeterminate st j.
Proof.
  intros (_ & Hl & _) Ha. unfold rank_at.
  destruct (finish_tile st a release j) as (f & Hf & ->).
  destruct (decide (a = j)) as [->|Hne].
  - destruct (decide _) as [_|Hn]; [|exfalso; apply Hn; lia].
    destruct (Hf (tile_at indeterminate (State.tiles st) j)) as (_ & _ & _ & ->).
    reflexivity.
  - destruct (decide _) as [[? _]|_]; [contradiction|reflexivity].
Qed.

Lemma promote_listed ts tw th st a :
  grid_state indeterminate ts tw th st -> 0 <= a < tw * th ->
  concat (State.denoise_tiles (promote indeterminate st a))
  ≡ₚ a :: concat (State.denoise_tiles st).
Proof.
  intros Hg Ha. pose proof Hg as (_ & Hl & _ & _ & _ & Hgeo).
  unfold promote. cbn [State.denoise_tiles State.set_denoise_tiles].
  fold (promote indeterminate st a).
  change (set_tile_state indeterminate (State.tiles st) a Tile.DENOISE)
    with (State.tiles (promote indeterminate st a)).
  rewrite promote_tile.
  destruct (decide _) as [_|Hn]; [|exfalso; apply Hn; lia].
  change (Tile.device (Tile.set_state Tile.DENOISE ?t)) with (Tile.device t).
  destruct (Hgeo a Ha) as (_ & _ & Hdev). cbv zeta in Hdev.
  unfold vec_alter. destruct (Z.ltb_spec (Tile.device
    (tile_at indeterminate (State.tiles st) a)) 0); [lia|].
  rewrite (concat_alter_perm _ [a]) by (intros q; apply Permutation_app_comm).
  destruct (decide _) as [_|Hn]; [reflexivity|]. exfalso. apply Hn. lia.
Qed.

(** What one turn of the loop of the [RENDER] case does: nothing, or it
    makes ready a tile that is [RENDERED] with all its neighbours rendered. *)
Lemma render_scan_cases ts tw th index st n :
  grid_state indeterminate ts tw th st ->
  let cx := Z.quot (Tile.x (tile_at indeterminate (State.tiles st) index))
              (I2.x ts) in
  let cy := Z.quot (Tile.y (tile_at indeterminate (State.tiles st) index))
              (I2.y ts) in
  let a := scan_cell tw cx cy n in
  (render_scan indeterminate ts tw th index st n = st
   /\ (scan_in_grid tw th cx cy n -> rank_at indeterminate st a = 1 ->
       exists nb, 0 <= nb < tw * th /\ adjacent tw a nb
                  /\ rank_at indeterminate st nb = 0))
  \/ (scan_in_grid tw th cx cy n
      /\ rank_at indeterminate st a = 1
      /\ (forall nb, 0 <= nb < tw * th -> adjacent tw a nb ->
            1 <= rank_at indeterminate st nb)
      /\ render_scan indeterminate ts tw th index st n
         = promote indeterminate st a).
Proof.
  intros Hg cx cy a. pose proof Hg as (Hstride & _ & _ & _ & Htw & _).
  unfold render_scan. fold cx cy. rewrite Hstride.
  destruct (_ || _) eqn:Etest.
  { left. split; [reflexivity|]. intros Hin.
    apply scan_in_grid_test in Hin. congruence. }
  apply scan_in_grid_test in Etest.
  destruct (scan_cell_coords tw th cx cy n Htw Etest) as (Ha & _).
  change ((cy + dy n) * tw + (cx + dx n)) with a. fold a in Ha.
  unfold Tile.eqb. fold (rank_at indeterminate st a).
  change (Tile.rank Tile.RENDERED) with 1.
  destruct (Z.eqb_spec (rank_at indeterminate st a) 1) as [E|E]; cbn [negb].
  2:{ left. split; [reflexivity|]. intros _ ?. contradiction. }
  destruct (neighbors_reached indeterminate ts tw th st a Tile.RENDERED) eqn:En.
  - right. split; [exact Etest|]. split; [exact E|]. split; [|reflexivity].
    intros nb Hnb Hadj.
    apply (neighbors_reached_true ts tw th st a Tile.RENDERED Hg Ha En nb Hnb Hadj).
  - left. split; [reflexivity|]. intros _ _.
    destruct (neighbors_reached_false ts tw th st a Tile.RENDERED Hg Ha En)
      as (nb & Hnb & Hadj & Hlt).
    exists nb. split; [exact Hnb|]. split; [exact Hadj|].
    pose proof (rank_bounds (Tile.state (tile_at indeterminate (State.tiles st) nb))).
    unfold rank_at in *. change (Tile.rank Tile.RENDERED) with 1 in Hlt. lia.
Qed.

(** What one turn of the loop of the [DENOISE] case does: nothing, or it
    finishes a tile that is [DENOISED] with all its neighbours denoised. *)
Lemma denoise_scan_cases ts tw th index acc n :
  grid_state indeterminate ts tw th (fst acc) ->
  let st := fst acc in
  let cx := Z.quot (Tile.x (tile_at indeterminate (State.tiles st) index))
              (I2.x ts) in
  let cy := Z.quot (Tile.y (tile_at indeterminate (State.tiles st) index))
              (I2.y ts) in
  let a := scan_cell tw cx cy n in
  denoise_scan indeterminate ts tw th index acc n = acc
  \/ (scan_in_grid tw th cx cy n
      /\ rank_at indeterminate st a = 3
      /\ (forall nb, 0 <= nb < tw * th -> adjacent tw a nb ->
            3 <= rank_at indeterminate st nb)
      /\ fst (denoise_scan indeterminate ts tw th index acc n)
         = finish indeterminate st a (negb (n =? 8))).
Proof.
  intros Hg st cx cy a. pose proof Hg as (Hstride & _ & _ & _ & Htw & _).
  unfold denoise_scan. cbv zeta. rewrite Hstride. fold st. fold cx cy.
  destruct (_ || _) eqn:Etest; [left; reflexivity|].
  apply scan_in_grid_test in Etest.
  destruct (scan_cell_coords tw th cx cy n Htw Etest) as (Ha & _).
  change ((cy + dy n) * tw + (cx + dx n)) with a. fold a in Ha.
  unfold Tile.eqb. fold (rank_at indeterminate st a).
  change (Tile.rank Tile.DENOISED) with 3.
  destruct (Z.eqb_spec (rank_at indeterminate st a) 3) as [E|E]; cbn [negb];
    [|left; reflexivity].
  destruct (neighbors_reached indeterminate ts tw th st a Tile.DENOISED) eqn:En;
    [|left; reflexivity].
  right. split; [exact Etest|]. split; [exact E|]. split.
  - intros nb Hnb Hadj.
    apply (neighbors_reached_true ts tw th st a Tile.DENOISED Hg Ha En nb Hnb Hadj).
  - destruct (n =? 8); reflexivity.
Qed.

Lemma promote_safe ts tw th D st a :
  scan_safe indeterminate ts tw th D st -> 0 <= a < tw * th ->
  rank_at indeterminate st a = 1 ->
  (forall nb, 0 <= nb < tw * th -> adjacent tw a nb ->
     1 <= rank_at indeterminate st nb) ->
  scan_safe indeterminate ts tw th D (promote indeterminate st a).
Proof.
  intros (Hg & Hsafe & Hlisted & Hingrid) Ha Hr Hnb.
  split; [apply promote_grid_state; exact Hg|]. split; [|split].
  - intros idx nb Hidx Hnbr Hadj.
    rewrite !(promote_rank ts tw th st a) by assumption.
    destruct (Hsafe idx nb Hidx Hnbr Hadj) as [H2 H4].
    destruct (decide (a = idx)) as [Ei|Hne], (decide (a = nb)) as [En|Hne'];
      try (exfalso; destruct Hadj as [Hc _]; congruence);
      subst; split; intros; try lia; auto.
  - intros idx Hidx. rewrite (promote_rank ts tw th st a) by assumption.
    rewrite (promote_listed ts tw th st a Hg Ha).
    destruct (decide (a = idx)) as [->|Hne]; intros H.
    + apply elem_of_app. right. apply elem_of_cons. left. reflexivity.
    + specialize (Hlisted idx Hidx H). apply elem_of_app in Hlisted as [?|?];
        apply elem_of_app; [left|right; apply elem_of_cons; right]; assumption.
  - intros idx. rewrite (promote_listed ts tw th st a Hg Ha).
    rewrite elem_of_app, elem_of_cons. intros [Hd|[->|Hq]]; [|exact Ha|];
      apply Hingrid, elem_of_app; [left|right]; assumption.
Qed.

Lemma finish_safe ts tw th D st a release :
  scan_safe indeterminate ts tw th D st -> 0 <= a < tw * th ->
  rank_at indeterminate st a = 3 ->
  (forall nb, 0 <= nb < tw * th -> adjacent tw a nb ->
     3 <= rank_at indeterminate st nb) ->
  scan_safe indeterminate ts tw th D (finish indeterminate st a release).
Proof.
  intros (Hg & Hsafe & Hlisted & Hingrid) Ha Hr Hnb.
  split; [apply finish_grid_state; exact Hg|]. split; [|split; [|exact Hingrid]].
  - intros idx nb Hidx Hnbr Hadj.
    rewrite !(finish_rank ts tw th st a) by assumption.
    destruct (Hsafe idx nb Hidx Hnbr Hadj) as [H2 H4].
    destruct (decide (a = idx)) as [Ei|Hne], (decide (a = nb)) as [En|Hne'];
      try (exfalso; destruct Hadj as [Hc _]; congruence);
      subst; split; intros; try lia; auto.
  - intros idx Hidx. rewrite (finish_rank ts tw th st a) by assumption.
    change (State.denoise_tiles (finish indeterminate st a release))
      with (State.denoise_tiles st).
    destruct (decide (a = idx)) as [->|Hne]; intros H.
    + apply Hlisted; [exact Hidx|lia].
    + apply Hlisted; assumption.
Qed.

Lemma render_scan_safe ts tw th D index st n :
  scan_safe indeterminate ts tw th D st ->
  scan_safe indeterminate ts tw th D (render_scan indeterminate ts tw th index st n).
Proof.
  intros Hs. pose proof Hs as (Hg & _).
  pose proof Hg as (_ & _ & _ & _ & Htw & _).
  destruct (render_scan_cases ts tw th index st n Hg)
    as [[-> _]|(Hin & Hr & Hnb & ->)]; [exact Hs|].
  destruct (scan_cell_coords tw th _ _ n Htw Hin) as (Ha & _).
  apply promote_safe; assumption.
Qed.

Lemma denoise_scan_safe ts tw th D index acc n :
  scan_safe indeterminate ts tw th D (fst acc) ->
  scan_safe indeterminate ts tw th D (fst (denoise_scan indeterminate ts tw th index acc n)).
Proof.
  intros Hs. pose proof Hs as (Hg & _).
  pose proof Hg as (_ & _ & _ & _ & Htw & _).
  destruct (denoise_scan_cases ts tw th index acc n Hg)
    as [->|(Hin & Hr & Hnb & ->)]; [exact Hs|].
  destruct (scan_cell_coords tw th _ _ n Htw Hin) as (Ha & _).
  apply finish_safe; assumption.
Qed.

(** The four ways [return_tile] returns. *)
Lemma return_tile_cases m index b d m' :
  return_tile indeterminate m index = Some (b, d, m') ->
  let st := TileManager.state m in
  let ts := TileManager.tile_size m in
  (rank_at indeterminate st index = 0
   /\ TileManager.only_denoise m = false
   /\ TileManager.schedule_denoising m = false
   /\ b = true /\ d = true
   /\ m' = TileManager.set_state (mark indeterminate st index Tile.DONE) m)
  \/ (rank_at indeterminate st index = 0
      /\ TileManager.only_denoise m = false
      /\ TileManager.schedule_denoising m = true
      /\ b = false /\ d = false
      /\ m' = TileManager.set_state
                (fold_left
                   (render_scan indeterminate ts (grid_w m) (grid_h m) index)
                   (seqZ 0 9) (mark indeterminate st index Tile.RENDERED)) m)
  \/ (rank_at indeterminate st index = 2
      /\ TileManager.only_denoise m = true
      /\ b = true /\ d = false
      /\ m' = TileManager.set_state (mark indeterminate st index Tile.DONE) m)
  \/ (rank_at indeterminate st index = 2
      /\ TileManager.only_denoise m = false
      /\ b = true
      /\ m' = TileManager.set_state
                (fst (fold_left
                        (denoise_scan indeterminate ts (grid_w m) (grid_h m)
                           index)
                        (seqZ 0 9)
                        (mark indeterminate st index Tile.DENOISED, false))) m
      /\ d = snd (fold_left
                    (denoise_scan indeterminate ts (grid_w m) (grid_h m) index)
                    (seqZ 0 9)
                    (mark indeterminate st index Tile.DENOISED, false))).
Proof.
  intros Hret. cbv zeta. unfold return_tile in Hret.
  fold (image_w m) (image_h m) in Hret. fold (grid_w m) (grid_h m) in Hret.
  cbv zeta in Hret. unfold rank_at.
  fold (mark indeterminate (TileManager.state m) index Tile.DONE) in Hret.
  fold (mark indeterminate (TileManager.state m) index Tile.RENDERED) in Hret.
  fold (mark indeterminate (TileManager.state m) index Tile.DENOISED) in Hret.
  set (Frender := fold_left (render_scan _ _ _ _ _) _ _) in *.
  set (Fdenoise := fold_left (denoise_scan _ _ _ _ _) _ _) in *.
  destruct (Tile.state (tile_at indeterminate (State.tiles (TileManager.state m)) index))
    eqn:Hstate; try discriminate.
  - destruct (TileManager.only_denoise m) eqn:Hod; [discriminate|].
    destruct (TileManager.schedule_denoising m) eqn:Hsd; cbn [negb] in Hret.
    + right. left. repeat split; congruence.
    + left. repeat split; congruence.
  - destruct (TileManager.only_denoise m) eqn:Hod.
    + right. right. left. repeat split; congruence.
    + right. right. right. destruct Fdenoise as [st' del]. cbn [fst snd].
      repeat split; congruence.
Qed.

Lemma mark_tile st index s j :
  tile_at indeterminate (State.tiles (mark indeterminate st index s)) j
  = if decide (index = j /\ 0 <= index < Z.of_nat (length (State.tiles st)))
    then Tile.set_state s (tile_at indeterminate (State.tiles st) j)
    else tile_at indeterminate (State.tiles st) j.
Proof. unfold mark, set_tile_state. cbn. apply tile_at_touch. Qed.

Lemma mark_rank ts tw th st index s j :
  grid_state indeterminate ts tw th st ->
  rank_at indeterminate (mark indeterminate st index s) j
  = if decide (index = j /\ 0 <= index < tw * th) then Tile.rank s
    else rank_at indeterminate st j.
Proof.
  intros (_ & Hl & _). unfold rank_at. rewrite mark_tile, Hl.
  destruct (decide _); reflexivity.
Qed.

Lemma mark_grid_state ts tw th st index s :
  grid_state indeterminate ts tw th st ->
  grid_state indeterminate ts tw th (mark indeterminate st index s).
Proof.
  intros (Hs & Hl & Hx & Hy & Htw & Hg).
  refine (conj Hs (conj _ (conj Hx (conj Hy (conj Htw _))))).
  - unfold mark. cbn. rewrite set_tile_state_length. exact Hl.
  - intros idx Hidx. cbv zeta. rewrite mark_tile.
    change (State.denoise_tiles (mark indeterminate st index s))
      with (State.denoise_tiles st).
    destruct (decide _); apply (Hg idx Hidx).
Qed.

(** Marking the returned tile [RENDERED] or [DENOISED]. *)
Lemma mark_safe ts tw th D st index s :
  scan_safe indeterminate ts tw th D st ->
  (rank_at indeterminate st index = 0 /\ s = Tile.RENDERED)
  \/ (rank_at indeterminate st index = 2 /\ s = Tile.DENOISED) ->
  scan_safe indeterminate ts tw th D (mark indeterminate st index s).
Proof.
  intros (Hg & Hsafe & Hlisted & Hingrid) Hs.
  split; [apply mark_grid_state; exact Hg|]. split; [|split; [|exact Hingrid]].
  - intros idx nb Hidx Hnb Hadj.
    rewrite !(mark_rank ts tw th st index s) by exact Hg.
    destruct (Hsafe idx nb Hidx Hnb Hadj) as [H2 H4].
    destruct (decide (index = idx /\ _)) as [[Ei _]|_],
             (decide (index = nb /\ _)) as [[En _]|_];
      try (exfalso; destruct Hadj as [Hc _]; congruence);
      subst; destruct Hs as [[Hr ->]|[Hr ->]]; cbn [Tile.rank];
      split; intros; try lia; auto.
  - intros idx Hidx. rewrite (mark_rank ts tw th st index s) by exact Hg.
    change (State.denoise_tiles (mark indeterminate st index s))
      with (State.denoise_tiles st).
    destruct (decide _) as [[<- _]|_]; [|apply Hlisted; exact Hidx].
    destruct Hs as [[Hr ->]|[Hr ->]]; cbn [Tile.rank]; intros H; [lia|].
    apply Hlisted; [exact Hidx|lia].
Qed.

Lemma scan_divider_render ts tw th index st n :
  State.resolution_divider (render_scan indeterminate ts tw th index st n)
  = State.resolution_divider st.
Proof.
  unfold render_scan.
  repeat match goal with
         | |- context [if ?c then _ else _] => destruct c
         end; reflexivity.
Qed.

Lemma scan_divider_denoise ts tw th index acc n :
  State.resolution_divider
    (fst (denoise_scan indeterminate ts tw th index acc n))
  = State.resolution_divider (fst acc).
Proof.
  unfold denoise_scan.
  repeat match goal with
         | |- context [if ?c then _ else _] => destruct c
         end; reflexivity.
Qed.

Lemma return_tile_divider m index b d m' :
  return_tile indeterminate m index = Some (b, d, m') ->
  State.resolution_divider (TileManager.state m')
  = State.resolution_divider (TileManager.state m).
Proof.
  intros Hret.
  destruct (return_tile_cases m index b d m' Hret)
    as [(_ & _ & _ & _ & _ & ->)|[(_ & _ & _ & _ & _ & ->)
       |[(_ & _ & _ & _ & ->)|(_ & _ & _ & -> & _)]]];
    cbn [TileManager.state TileManager.set_state]; try reflexivity.
  - apply (fold_scan_inv
             (fun st => State.resolution_divider st
                        = State.resolution_divider (TileManager.state m)));
      [|reflexivity].
    intros st n H. rewrite scan_divider_render. exact H.
  - apply (fold_scan_inv
             (fun acc => State.resolution_divider (fst acc)
                         = State.resolution_divider (TileManager.state m)));
      [|reflexivity].
    intros acc n H. rewrite scan_divider_denoise. exact H.
Qed.

Lemma grid_set_state m st' :
  State.resolution_divider st' = State.resolution_divider (TileManager.state m) ->
  grid_w (TileManager.set_state st' m) = grid_w m
  /\ grid_h (TileManager.set_state st' m) = grid_h m.
Proof.
  intros E. unfold grid_w, grid_h, image_w, image_h. cbn. rewrite E.
  split; reflexivity.
Qed.

Lemma return_tile_safe m index b d m' D :
  TileManager.schedule_denoising m = true ->
  TileManager.only_denoise m = false ->
  scan_safe indeterminate (TileManager.tile_size m) (grid_w m) (grid_h m) D
    (TileManager.state m) ->
  return_tile indeterminate m index = Some (b, d, m') ->
  scan_safe indeterminate (TileManager.tile_size m) (grid_w m) (grid_h m) D
    (TileManager.state m').
Proof.
  intros Hsd Hod Hs Hret.
  destruct (return_tile_cases m index b d m' Hret)
    as [(_ & _ & ? & _)|[(Hr & _ & _ & _ & _ & ->)
       |[(_ & ? & _)|(Hr & _ & _ & -> & _)]]]; try congruence;
    cbn [TileManager.state TileManager.set_state].
  - apply fold_scan_inv; [intros; apply render_scan_safe; assumption|].
    apply mark_safe; [exact Hs|left; split; [exact Hr|reflexivity]].
  - apply (fold_scan_inv
             (fun acc => scan_safe indeterminate (TileManager.tile_size m)
                           (grid_w m) (grid_h m) D (fst acc)));
      [intros; apply denoise_scan_safe; assumption|].
    apply mark_safe; [exact Hs|right; split; [exact Hr|reflexivity]].
Qed.

Lemma adjacent_sym tw a b : adjacent tw a b -> adjacent tw b a.
Proof. clear indeterminate. unfold adjacent. intros (? & ? & ?). repeat split; try lia; congruence. Qed.

Lemma waiting_mono tw th st st' (pending : Z -> Prop) :
  (forall j, 0 <= j < tw * th ->
     (rank_at indeterminate st' j = 1 -> rank_at indeterminate st j = 1)
     /\ (rank_at indeterminate st j = 0 -> rank_at indeterminate st' j = 0)) ->
  rendered_waiting indeterminate tw th st pending ->
  rendered_waiting indeterminate tw th st' pending.
Proof.
  intros Hm Hw idx Hidx Hr. destruct (Hm idx Hidx) as [H1 _].
  destruct (Hw idx Hidx (H1 Hr)) as [Hp|(nb & Hnb & Hadj & Hr0)];
    [left; exact Hp|right].
  exists nb. split; [exact Hnb|]. split; [exact Hadj|].
  apply (Hm nb Hnb). exact Hr0.
Qed.

Lemma promote_waiting ts tw th st a pending :
  grid_state indeterminate ts tw th st -> 0 <= a < tw * th ->
  rank_at indeterminate st a = 1 ->
  rendered_waiting indeterminate tw th st pending ->
  rendered_waiting indeterminate tw th (promote indeterminate st a) pending.
Proof.
  intros Hg Ha Hr. apply waiting_mono. intros j Hj.
  rewrite (promote_rank ts tw th st a j Hg Ha).
  destruct (decide (a = j)) as [->|_]; split; intros; try lia; assumption.
Qed.

Lemma finish_waiting ts tw th st a release pending :
  grid_state indeterminate ts tw th st -> 0 <= a < tw * th ->
  rank_at indeterminate st a = 3 ->
  rendered_waiting indeterminate tw th st pending ->
  rendered_waiting indeterminate tw th (finish indeterminate st a release)
    pending.
Proof.
  intros Hg Ha Hr. apply waiting_mono. intros j Hj.
  rewrite (finish_rank ts tw th st a release j Hg Ha).
  destruct (decide (a = j)) as [->|_]; split; intros; try lia; assumption.
Qed.

(** The returned tile marked [RENDERED]: the tiles that waited for it are
    those the loop is about to look at. *)
Lemma mark_waiting ts tw th st index cx cy :
  grid_state indeterminate ts tw th st ->
  rank_at indeterminate st index = 0 ->
  (0 <= index < tw * th -> cx = index mod tw /\ cy = index / tw) ->
  rendered_waiting indeterminate tw th st (fun _ => False) ->
  rendered_waiting indeterminate tw th
    (mark indeterminate st index Tile.RENDERED) (pending_from tw th cx cy 0).
Proof.
  intros Hg Hr0 Hcell Hw t Ht Hr1.
  pose proof Hg as (_ & _ & _ & _ & Htw & _).
  rewrite (mark_rank ts tw th st index _ t Hg) in Hr1.
  destruct (decide (index = t /\ 0 <= index < tw * th)) as [[<- Hin]|Hn].
  - left. destruct (Hcell Hin) as [-> ->].
    destruct (grid_cell_bounds tw th index Htw Hin) as (Hx & Hy & E).
    exists 8. split; [lia|]. unfold scan_in_grid, scan_cell.
    change (dx 8) with 0. change (dy 8) with 0. split; lia.
  - destruct (Hw t Ht Hr1) as [[]|(nb & Hnb & Hadj & Hrn)].
    destruct (decide (nb = index)) as [->|Hne].
    + left. destruct (Hcell Hnb) as [-> ->].
      destruct (adjacent_offset tw th index t Htw Hnb Ht (adjacent_sym _ _ _ Hadj))
        as (nn & Hnn & Hin & Hc).
      exists nn. apply In_seqZ_8 in Hnn. split; [lia|]. split; [exact Hin|].
      symmetry. exact Hc.
    + right. exists nb. split; [exact Hnb|]. split; [exact Hadj|].
      rewrite (mark_rank ts tw th st index _ nb Hg).
      destruct (decide _) as [[? _]|_]; [congruence|exact Hrn].
Qed.

Lemma promote_cell st a index :
  Tile.x (tile_at indeterminate (State.tiles (promote indeterminate st a)) index)
  = Tile.x (tile_at indeterminate (State.tiles st) index)
  /\ Tile.y (tile_at indeterminate (State.tiles (promote indeterminate st a)) index)
     = Tile.y (tile_at indeterminate (State.tiles st) index).
Proof. rewrite promote_tile. destruct (decide _); split; reflexivity. Qed.

Lemma render_loop_waiting ts tw th D index st0 :
  scan_safe indeterminate ts tw th D st0 ->
  rendered_waiting indeterminate tw th st0
    (pending_from tw th
       (Z.quot (Tile.x (tile_at indeterminate (State.tiles st0) index)) (I2.x ts))
       (Z.quot (Tile.y (tile_at indeterminate (State.tiles st0) index)) (I2.y ts))
       0) ->
  rendered_waiting indeterminate tw th
    (fold_left (render_scan indeterminate ts tw th index) (seqZ 0 9) st0)
    (fun _ => False).
Proof.
  intros Hs Hw.
  set (cx := Z.quot (Tile.x (tile_at indeterminate (State.tiles st0) index)) (I2.x ts)) in *.
  set (cy := Z.quot (Tile.y (tile_at indeterminate (State.tiles st0) index)) (I2.y ts)) in *.
  assert (H9 :
    (fun n st =>
       scan_safe indeterminate ts tw th D st
       /\ rendered_waiting indeterminate tw th st (pending_from tw th cx cy n)
       /\ Z.quot (Tile.x (tile_at indeterminate (State.tiles st) index)) (I2.x ts) = cx
       /\ Z.quot (Tile.y (tile_at indeterminate (State.tiles st) index)) (I2.y ts) = cy)
      9 (fold_left (render_scan indeterminate ts tw th index) (seqZ 0 9) st0)).
  { apply fold_left_seqZ_ind;
      [lia|split; [exact Hs|split; [exact Hw|split; reflexivity]]|].
    intros n st Hn (Hsafe & Hwait & Ecx & Ecy).
    pose proof Hsafe as (Hg & _). pose proof Hg as (_ & _ & _ & _ & Htw & _).
    split; [apply render_scan_safe; exact Hsafe|].
    destruct (render_scan_cases ts tw th index st n Hg)
      as [[-> Hstay]|(Hin & Hr & Hnb & ->)].
    - rewrite Ecx, Ecy in Hstay. split; [|split; assumption].
      intros t Ht Hr1. destruct (Hwait t Ht Hr1) as [(n' & Hn' & Hin' & ->)|Hex];
        [|right; exact Hex].
      destruct (decide (n' = n)) as [->|Hne].
      + right. apply Hstay; assumption.
      + left. exists n'. split; [lia|]. split; [exact Hin'|reflexivity].
    - rewrite Ecx, Ecy in Hin, Hr, Hnb |- *.
      destruct (scan_cell_coords tw th cx cy n Htw Hin) as (Ha & _).
      destruct (promote_cell st (scan_cell tw cx cy n) index) as [-> ->].
      split; [|split; assumption].
      pose proof (promote_waiting ts tw th st _ _ Hg Ha Hr Hwait) as Hw'.
      intros t Ht Hr1. destruct (Hw' t Ht Hr1) as [(n' & Hn' & Hin' & ->)|Hex];
        [|right; exact Hex].
      destruct (decide (n' = n)) as [->|Hne].
      + rewrite (promote_rank ts tw th st _ _ Hg Ha) in Hr1.
        destruct (decide _) as [_|Hc]; [lia|contradiction].
      + left. exists n'. split; [lia|]. split; [exact Hin'|reflexivity]. }
  destruct H9 as (_ & Hw9 & _).
  intros t Ht Hr1. destruct (Hw9 t Ht Hr1) as [(n' & Hn' & _)|Hex];
    [lia|right; exact Hex].
Qed.

Lemma denoise_loop_waiting ts tw th D index acc0 :
  scan_safe indeterminate ts tw th D (fst acc0) ->
  rendered_waiting indeterminate tw th (fst acc0) (fun _ => False) ->
  rendered_waiting indeterminate tw th
    (fst (fold_left (denoise_scan indeterminate ts tw th index) (seqZ 0 9) acc0))
    (fun _ => False).
Proof.
  intros Hs Hw.
  apply (fold_scan_inv
           (fun acc => scan_safe indeterminate ts tw th D (fst acc)
                       /\ rendered_waiting indeterminate tw th (fst acc)
                            (fun _ => False)));
    [|split; assumption].
  intros acc n [Hsafe Hwait]. split; [apply denoise_scan_safe; exact Hsafe|].
  pose proof Hsafe as (Hg & _). pose proof Hg as (_ & _ & _ & _ & Htw & _).
  destruct (denoise_scan_cases ts tw th index acc n Hg)
    as [->|(Hin & Hr & Hnb & ->)]; [exact Hwait|].
  destruct (scan_cell_coords tw th _ _ n Htw Hin) as (Ha & _).
  apply (finish_waiting ts); assumption.
Qed.

Lemma return_tile_waiting m index b d m' D :
  TileManager.schedule_denoising m = true ->
  TileManager.only_denoise m = false ->
  scan_safe indeterminate (TileManager.tile_size m) (grid_w m) (grid_h m) D
    (TileManager.state m) ->
  rendered_waiting indeterminate (grid_w m) (grid_h m) (TileManager.state m)
    (fun _ => False) ->
  return_tile indeterminate m index = Some (b, d, m') ->
  rendered_waiting indeterminate (grid_w m) (grid_h m) (TileManager.state m')
    (fun _ => False).
Proof.
  intros Hsd Hod Hs Hw Hret. pose proof Hs as (Hg & _).
  destruct (return_tile_cases m index b d m' Hret)
    as [(_ & _ & ? & _)|[(Hr & _ & _ & _ & _ & ->)
       |[(_ & ? & _)|(Hr & _ & _ & -> & _)]]]; try congruence;
    cbn [TileManager.state TileManager.set_state].
  - apply (render_loop_waiting _ _ _ D).
    + apply mark_safe; [exact Hs|left; split; [exact Hr|reflexivity]].
    + apply (mark_waiting (TileManager.tile_size m)); [exact Hg|exact Hr| |exact Hw].
      intros Hin. rewrite mark_tile.
      destruct (decide _) as [_|Hn]; [|exfalso; apply Hn; split; [reflexivity|]].
      * change (Tile.x (Tile.set_state ?s ?t)) with (Tile.x t).
        change (Tile.y (Tile.set_state ?s ?t)) with (Tile.y t).
        apply (grid_state_cell _ _ _ _ _ Hg Hin).
      * destruct Hg as (_ & Hl & _). lia.
  - apply (denoise_loop_waiting _ _ _ D).
    + apply mark_safe; [exact Hs|right; split; [exact Hr|reflexivity]].
    + cbn [fst]. revert Hw. apply waiting_mono. intros j Hj.
      rewrite (mark_rank _ _ _ _ _ _ j Hg).
      destruct (decide _) as [[<- _]|_]; cbn [Tile.rank]; split; intros;
        try lia; assumption.
Qed.

Lemma return_tile_denoise_inv m index b d m' D :
  TileManager.schedule_denoising m = true ->
  TileManager.only_denoise m = false ->
  denoise_inv indeterminate m D ->
  return_tile indeterminate m index = Some (b, d, m') ->
  denoise_inv indeterminate m' D.
Proof.
  intros Hsd Hod [Hs Hw] Hret.
  pose proof (return_tile_config m index b d m' Hret) as Hc.
  pose proof (return_tile_divider m index b d m' Hret) as Hd.
  destruct (grid_set_state m _ Hd) as [Egw Egh]. rewrite <- Hc in Egw, Egh.
  unfold denoise_inv. rewrite Egw, Egh.
  replace (TileManager.tile_size m') with (TileManager.tile_size m)
    by (rewrite Hc; reflexivity).
  split.
  - apply (return_tile_safe m index b d m' D); assumption.
  - apply (return_tile_waiting m index b d m' D); assumption.
Qed.

(** A change of the lists that keeps the tiles. *)
Lemma denoise_inv_frame m D st' D' :
  denoise_inv indeterminate m D ->
  State.tiles st' = State.tiles (TileManager.state m) ->
  State.tile_stride st' = State.tile_stride (TileManager.state m) ->
  State.resolution_divider st'
  = State.resolution_divider (TileManager.state m) ->
  length (State.denoise_tiles st')
  = length (State.denoise_tiles (TileManager.state m)) ->
  D' ++ concat (State.denoise_tiles st')
  ≡ₚ D ++ concat (State.denoise_tiles (TileManager.state m)) ->
  denoise_inv indeterminate (TileManager.set_state st' m) D'.
Proof.
  intros [(Hg & Hsafe & Hlisted & Hingrid) Hw] Et Es Ed El Ep.
  destruct (grid_set_state m st' Ed) as [Egw Egh].
  unfold denoise_inv. rewrite Egw, Egh.
  change (TileManager.tile_size (TileManager.set_state st' m))
    with (TileManager.tile_size m).
  change (TileManager.state (TileManager.set_state st' m)) with st'.
  assert (Er : forall j, rank_at indeterminate st' j
                         = rank_at indeterminate (TileManager.state m) j)
    by (intros j; unfold rank_at; rewrite Et; reflexivity).
  split; [split; [|split; [|split]]|].
  - destruct Hg as (H1 & H2 & H3 & H4 & H5 & H6).
    refine (conj _ (conj _ (conj H3 (conj H4 (conj H5 _))))).
    + rewrite Es. exact H1.
    + rewrite Et. exact H2.
    + intros idx Hidx. rewrite Et, El. apply (H6 idx Hidx).
  - intros idx nb Hidx Hnb Hadj. rewrite !Er. apply Hsafe; assumption.
  - intros idx Hidx. rewrite Er, Ep. apply Hlisted. exact Hidx.
  - intros idx. rewrite Ep. apply Hingrid.
  - intros idx Hidx. rewrite Er. intros Hr.
    destruct (Hw idx Hidx Hr) as [[]|(nb & ? & ? & ?)].
    right. exists nb. rewrite Er. auto.
Qed.

Lemma next_tile_denoise_inv m device D idx m' :
  denoise_inv indeterminate m D ->
  next_tile m device = (Some idx, m') ->
  denoise_inv indeterminate m'
    (if denoise_pending m device then D ++ [idx] else D).
Proof.
  intros Hinv Hnext. unfold next_tile in Hnext. unfold denoise_pending.
  destruct (_ >=? _); [discriminate|].
  destruct (queue_at (State.denoise_tiles (TileManager.state m)) _) as [|i rest] eqn:Hdq.
  - destruct (queue_at (State.render_tiles (TileManager.state m)) _) as [|i rest] eqn:Hrq;
      [discriminate|].
    injection Hnext as <- <-.
    apply (denoise_inv_frame m D _ D Hinv); reflexivity.
  - injection Hnext as <- <-.
    apply (denoise_inv_frame m D _ _ Hinv);
      [destruct (TileManager.only_denoise m); reflexivity
      |destruct (TileManager.only_denoise m); reflexivity
      |destruct (TileManager.only_denoise m); reflexivity
      |destruct (TileManager.only_denoise m); cbn; apply vec_set_length|].
    destruct (TileManager.only_denoise m);
      cbn [State.denoise_tiles State.set_denoise_tiles
             State.set_num_rendered_tiles];
      rewrite (queue_at_pop _ _ _ _ Hdq), <- app_assoc; reflexivity.
Qed.

Lemma run_calls_denoise_inv calls :
  forall m D given m',
    TileManager.schedule_denoising m = true ->
    TileManager.only_denoise m = false ->
    denoise_inv indeterminate m D ->
    run_calls indeterminate calls m = Some (given, m') ->
    denoise_inv indeterminate m' (D ++ given_from true given).
Proof.
  induction calls as [|c calls IH]; intros m D given m' Hsd Hod Hinv Hrun.
  - injection Hrun as <- <-. unfold given_from. simpl. rewrite app_nil_r.
    exact Hinv.
  - destruct c as [device|index]; cbn [run_calls] in Hrun.
    + pose proof (next_tile_config m device) as Hc.
      destruct (next_tile m device) as [[idx|] m1] eqn:Hnext.
      * destruct (run_calls indeterminate calls m1) as [[given1 m2]|] eqn:Hrun1;
          [|discriminate].
        injection Hrun as <- <-. cbn [snd] in Hc.
        pose proof (next_tile_denoise_inv m device D idx m1 Hinv Hnext) as Hstep.
        assert (Hsd1 : TileManager.schedule_denoising m1 = true)
          by (rewrite Hc; exact Hsd).
        assert (Hod1 : TileManager.only_denoise m1 = false)
          by (rewrite Hc; exact Hod).
        rewrite given_from_cons.
        destruct (denoise_pending m device); cbn [Bool.eqb].
        -- specialize (IH m1 (D ++ [idx]) given1 m2 Hsd1 Hod1 Hstep Hrun1).
           rewrite <- app_assoc in IH. exact IH.
        -- exact (IH m1 D given1 m2 Hsd1 Hod1 Hstep Hrun1).
      * apply next_tile_none in Hnext. subst m1. eauto.
    + destruct (return_tile indeterminate m index) as [[[b d] m1]|] eqn:Hret;
        [|discriminate].
      pose proof (return_tile_config m index b d m1 Hret) as Hc.
      eapply IH; [| | |exact Hrun].
      * rewrite Hc. exact Hsd.
      * rewrite Hc. exact Hod.
      * eapply return_tile_denoise_inv; eassumption.
Qed.

Lemma set_tiles_grid_size m m1 :
  valid_config m -> set_tiles indeterminate m = Some m1 ->
  grid_w m1 = grid_w m /\ grid_h m1 = grid_h m
  /\ TileManager.tile_size m1 = TileManager.tile_size m.
Proof.
  intros Hv Hset. destruct (set_tiles_retiled m Hv) as (m' & Hset' & Hc & _ & _ & Hd & _).
  rewrite Hset in Hset'. injection Hset' as <-.
  destruct (grid_set_state m _ Hd) as [Egw Egh]. rewrite <- Hc in Egw, Egh.
  split; [exact Egw|]. split; [exact Egh|]. rewrite Hc. reflexivity.
Qed.

Lemma set_tiles_denoise_inv m m1 :
  valid_config m -> single_slice m ->
  TileManager.tile_order m <> TILE_HILBERT_SPIRAL ->
  TileManager.only_denoise m = false ->
  set_tiles indeterminate m = Some m1 ->
  denoise_inv indeterminate m1 []
  /\ forall idx, 0 <= idx < grid_w m * grid_h m ->
       rank_at indeterminate (TileManager.state m1) idx = 0.
Proof.
  intros Hv Hs Ho Hod Hset.
  destruct (set_tiles_grid_size m m1 Hv Hset) as (Egw & Egh & Ets).
  destruct (set_tiles_grid m m1 Hv Hs Ho Hset)
    as (_ & Hstride & (Hlen & Hql & Htiles & Hmem) & Hother).
  rewrite Hod in *.
  pose proof Hv as (Hx & Hy & Hd & _).
  pose proof (grid_w_pos m Hx) as Hgw.
  assert (Hrank : forall idx, 0 <= idx < grid_w m * grid_h m ->
            rank_at indeterminate (TileManager.state m1) idx = 0).
  { intros idx Hidx. unfold rank_at. rewrite (Htiles idx Hidx).
    unfold grid_tile, initial_state. cbn [Tile.state]. rewrite Hod. reflexivity. }
  split; [|exact Hrank].
  unfold denoise_inv. rewrite Egw, Egh, Ets.
  split; [split; [|split; [|split]]|].
  - refine (conj Hstride (conj Hlen (conj Hx (conj Hy (conj Hgw _))))).
    intros idx Hidx. cbv zeta. rewrite (Htiles idx Hidx), Hother.
    rewrite length_replicate.
    destruct (grid_tile_bounds m idx Hv Hidx) as (Ex & Ey & _).
    split; [exact Ex|]. split; [exact Ey|].
    pose proof (tile_device_range m idx Hv Hidx).
    pose proof (num_lists_pos m Hd). cbn [grid_tile Tile.device]. lia.
  - intros idx nb Hidx Hnb _. rewrite (Hrank idx Hidx). split; lia.
  - intros idx Hidx. rewrite (Hrank idx Hidx). lia.
  - intros idx. rewrite Hother, concat_replicate_nil. cbn.
    intros Hin. apply elem_of_nil in Hin. contradiction.
  - intros idx Hidx. rewrite (Hrank idx Hidx). lia.
Qed.

Lemma next_tile_divider m device :
  State.resolution_divider (TileManager.state (snd (next_tile m device)))
  = State.resolution_divider (TileManager.state m).
Proof.
  unfold next_tile.
  repeat match goal with
         | |- context [if ?c then _ else _] => destruct c
         | |- context [match ?c with [] => _ | _ :: _ => _ end] => destruct c
         end; reflexivity.
Qed.

Lemma run_calls_grid calls :
  forall m given m',
    run_calls indeterminate calls m = Some (given, m') ->
    grid_w m' = grid_w m /\ grid_h m' = grid_h m
    /\ TileManager.tile_size m' = TileManager.tile_size m.
Proof.
  intros m given m' Hrun.
  pose proof (run_calls_config calls m given m' Hrun) as Hc.
  assert (Hd : State.resolution_divider (TileManager.state m')
               = State.resolution_divider (TileManager.state m)).
  { clear Hc. revert m given m' Hrun.
    induction calls as [|c calls IH]; intros m given m' Hrun.
    - injection Hrun as <- <-. reflexivity.
    - destruct c as [device|index]; cbn [run_calls] in Hrun.
      + pose proof (next_tile_divider m device) as Hd.
        destruct (next_tile m device) as [[idx|] m1]; cbn [snd] in Hd.
        * destruct (run_calls indeterminate calls m1) as [[given1 m2]|] eqn:Hrun1;
            [|discriminate].
          injection Hrun as <- <-. rewrite (IH m1 given1 m2 Hrun1). exact Hd.
        * rewrite (IH m1 given m' Hrun). exact Hd.
      + destruct (return_tile indeterminate m index) as [[[b d] m1]|] eqn:Hret;
          [|discriminate].
        rewrite (IH m1 given m' Hrun).
        apply (return_tile_divider m index b d m1 Hret). }
  destruct (grid_set_state m _ Hd) as [Egw Egh]. rewrite <- Hc in Egw, Egh.
  split; [exact Egw|]. split; [exact Egh|]. rewrite Hc. reflexivity.
Qed.

(** A tile is handed out for denoising only when all its neighbours are
    rendered, and released only when all its neighbours are denoised.  With
    denoising scheduled, after [set_tiles] on an image that is not cut into
    slices, in an order other than the Hilbert spiral, and whatever calls of
    [next_tile] and [return_tile] the devices make: for two tiles of the grid
    that touch by a side or a corner, if one is or was in a denoise list, or
    is in state [DENOISE] or beyond, the other is [RENDERED] or beyond; and if
    one is [DONE], the other is [DENOISED] or [DONE]. *)
Theorem denoise_waits_for_neighbours m m1 calls given m2 idx nb :
  valid_config m -> single_slice m ->
  TileManager.tile_order m <> TILE_HILBERT_SPIRAL ->
  TileManager.schedule_denoising m = true ->
  TileManager.only_denoise m = false ->
  set_tiles indeterminate m = Some m1 ->
  run_calls indeterminate calls m1 = Some (given, m2) ->
  0 <= idx < grid_w m * grid_h m -> 0 <= nb < grid_w m * grid_h m ->
  adjacent (grid_w m) idx nb ->
  let st := TileManager.state m2 in
  (idx ∈ given_from true given \/ idx ∈ concat (State.denoise_tiles st)
   \/ 2 <= rank_at indeterminate st idx ->
   1 <= rank_at indeterminate st nb)
  /\ (rank_at indeterminate st idx = 4 -> 3 <= rank_at indeterminate st nb).
Proof.
  intros Hv Hs Ho Hsd Hod Hset Hrun Hidx Hnb Hadj. cbv zeta.
  destruct (set_tiles_grid_size m m1 Hv Hset) as (Egw & Egh & Ets).
  pose proof (set_tiles_config m m1 Hv Hset) as Hc.
  destruct (set_tiles_denoise_inv m m1 Hv Hs Ho Hod Hset) as [Hinv _].
  assert (Hsd1 : TileManager.schedule_denoising m1 = true)
    by (rewrite Hc; exact Hsd).
  assert (Hod1 : TileManager.only_denoise m1 = false)
    by (rewrite Hc; exact Hod).
  pose proof (run_calls_denoise_inv calls m1 [] given m2 Hsd1 Hod1 Hinv Hrun)
    as [(Hg & Hsafe & _) _].
  pose proof (set_tiles_dispatch_inv m m1 Hv Hs Ho Hset) as Hdi.
  pose proof (run_calls_inv calls m1 [] [] given m2 Hdi Hrun)
    as (_ & _ & _ & Hrk & _).
  destruct (run_calls_grid calls m1 given m2 Hrun) as (E2w & E2h & _).
  rewrite E2w, E2h, Egw, Egh in Hsafe.
  destruct (Hsafe idx nb Hidx Hnb Hadj) as [H2 H4].
  split; [|exact H4].
  intros [Hin|[Hin|Hin]]; apply H2; try exact Hin;
    apply Hrk; rewrite app_nil_l, elem_of_app; [left|right]; exact Hin.
Qed.

Lemma all_listed m R D :
  dispatch_inv indeterminate m R D ->
  denoise_inv indeterminate m D ->
  (forall idx, 0 <= idx < grid_w m * grid_h m ->
     rank_at indeterminate (TileManager.state m) idx <> 0) ->
  D ++ concat (State.denoise_tiles (TileManager.state m))
  ≡ₚ seqZ 0 (grid_w m * grid_h m)
  /\ forall idx, 0 <= idx < grid_w m * grid_h m ->
       2 <= rank_at indeterminate (TileManager.state m) idx.
Proof.
  intros (_ & _ & Hnd & _) [(Hg & _ & Hlisted & Hingrid) Hw] Hall.
  assert (H2 : forall idx, 0 <= idx < grid_w m * grid_h m ->
                 2 <= rank_at indeterminate (TileManager.state m) idx).
  { intros idx Hidx. pose proof (Hall idx Hidx) as Hi.
    pose proof (rank_bounds (Tile.state (tile_at indeterminate
                  (State.tiles (TileManager.state m)) idx))) as Hb.
    fold (rank_at indeterminate (TileManager.state m) idx) in Hb.
    destruct (decide (rank_at indeterminate (TileManager.state m) idx = 1))
      as [E|E]; [|lia].
    destruct (Hw idx Hidx E) as [[]|(nb & Hnb & _ & Hr0)].
    exfalso. apply (Hall nb Hnb). exact Hr0. }
  split; [|exact H2].
  apply NoDup_Permutation; [exact Hnd|apply NoDup_seqZ|].
  intros idx. rewrite elem_of_seqZ. split.
  - intros Hin. specialize (Hingrid idx Hin). lia.
  - intros Hidx. apply Hlisted; [lia|]. apply H2. lia.
Qed.

(** When every tile has been rendered, every tile has been put in a denoise
    list, once.  With denoising scheduled, after [set_tiles] on an image that
    is not cut into slices, in an order other than the Hilbert spiral, and
    whatever calls of [next_tile] and [return_tile] the devices make, in
    whatever order: if no tile is left in state [RENDER], the tiles given so
    far from the denoise lists and those still in them are the tiles of the
    grid, each once, and every tile is in state [DENOISE] or beyond. *)
Theorem all_rendered_all_listed m m1 calls given m2 :
  valid_config m -> single_slice m ->
  TileManager.tile_order m <> TILE_HILBERT_SPIRAL ->
  TileManager.schedule_denoising m = true ->
  TileManager.only_denoise m = false ->
  set_tiles indeterminate m = Some m1 ->
  run_calls indeterminate calls m1 = Some (given, m2) ->
  (forall idx, 0 <= idx < grid_w m * grid_h m ->
     Tile.state (tile_at indeterminate (State.tiles (TileManager.state m2)) idx)
     <> Tile.RENDER) ->
  given_from true given ++ concat (State.denoise_tiles (TileManager.state m2))
  ≡ₚ seqZ 0 (grid_w m * grid_h m)
  /\ forall idx, 0 <= idx < grid_w m * grid_h m ->
       2 <= rank_at indeterminate (TileManager.state m2) idx.
Proof.
  intros Hv Hs Ho Hsd Hod Hset Hrun Hall.
  destruct (set_tiles_grid_size m m1 Hv Hset) as (Egw & Egh & Ets).
  pose proof (set_tiles_config m m1 Hv Hset) as Hc.
  destruct (set_tiles_denoise_inv m m1 Hv Hs Ho Hod Hset) as [Hinv _].
  assert (Hsd1 : TileManager.schedule_denoising m1 = true)
    by (rewrite Hc; exact Hsd).
  assert (Hod1 : TileManager.only_denoise m1 = false)
    by (rewrite Hc; exact Hod).
  pose proof (run_calls_denoise_inv calls m1 [] given m2 Hsd1 Hod1 Hinv Hrun)
    as Hinv2.
  pose proof (set_tiles_dispatch_inv m m1 Hv Hs Ho Hset) as Hdi.
  pose proof (run_calls_inv calls m1 [] [] given m2 Hdi Hrun) as Hdi2.
  destruct (run_calls_grid calls m1 given m2 Hrun) as (E2w & E2h & _).
  rewrite app_nil_l in Hinv2, Hdi2.
  destruct (all_listed m2 _ _ Hdi2 Hinv2) as [Hp H2].
  - rewrite E2w, E2h, Egw, Egh. intros idx Hidx Hr. apply (Hall idx Hidx).
    unfold rank_at in Hr.
    destruct (Tile.state _); try discriminate. reflexivity.
  - rewrite E2w, E2h, Egw, Egh in Hp, H2. split; assumption.
Qed.

(** ** Returning the rendered tiles in any order *)

Lemma returned_run_calls p :
  forall m m',
    returned indeterminate m p = Some m' ->
    run_calls indeterminate (ReturnTile <$> p) m = Some ([], m').
Proof.
  induction p as [|t p IH]; intros m m' Hret; cbn in Hret |- *.
  - congruence.
  - destruct (return_tile indeterminate m t) as [[[[] []] m1]|]; try discriminate.
    apply IH. exact Hret.
Qed.

Lemma return_tile_render m index :
  TileManager.schedule_denoising m = true ->
  TileManager.only_denoise m = false ->
  rank_at indeterminate (TileManager.state m) index = 0 ->
  return_tile indeterminate m index
  = Some (false, false,
          TileManager.set_state
            (fold_left
               (render_scan indeterminate (TileManager.tile_size m) (grid_w m)
                  (grid_h m) index)
               (seqZ 0 9)
               (mark indeterminate (TileManager.state m) index Tile.RENDERED))
            m).
Proof.
  intros Hsd Hod Hr. unfold return_tile.
  fold (image_w m) (image_h m). fold (grid_w m) (grid_h m). cbv zeta.
  unfold rank_at in Hr.
  destruct (Tile.state (tile_at indeterminate (State.tiles (TileManager.state m)) index));
    try discriminate.
  rewrite Hod, Hsd. reflexivity.
Qed.

(** The loop of the [RENDER] case only moves tiles from [RENDERED] to
    [DENOISE]. *)
Lemma render_loop_ranks ts tw th index ns st0 :
  grid_state indeterminate ts tw th st0 ->
  let st := fold_left (render_scan indeterminate ts tw th index) ns st0 in
  grid_state indeterminate ts tw th st
  /\ forall j,
       rank_at indeterminate st j = rank_at indeterminate st0 j
       \/ (rank_at indeterminate st0 j = 1 /\ rank_at indeterminate st j = 2).
Proof.
  intros Hg0. cbv zeta.
  apply (fold_scan_inv
           (fun st => grid_state indeterminate ts tw th st
                      /\ forall j,
                           rank_at indeterminate st j = rank_at indeterminate st0 j
                           \/ (rank_at indeterminate st0 j = 1
                               /\ rank_at indeterminate st j = 2)));
    [|split; [exact Hg0|left; reflexivity]].
  intros st n [Hg Hr]. pose proof Hg as (_ & _ & _ & _ & Htw & _).
  destruct (render_scan_cases ts tw th index st n Hg)
    as [[-> _]|(Hin & Hr1 & _ & ->)]; [split; assumption|].
  destruct (scan_cell_coords tw th _ _ n Htw Hin) as (Ha & _).
  split; [apply promote_grid_state; exact Hg|].
  intros j. rewrite (promote_rank ts tw th st _ j Hg Ha).
  destruct (decide _) as [<-|_]; [|apply Hr].
  destruct (Hr (scan_cell tw
                  (Z.quot (Tile.x (tile_at indeterminate (State.tiles st) index)) (I2.x ts))
                  (Z.quot (Tile.y (tile_at indeterminate (State.tiles st) index)) (I2.y ts))
                  n)) as [E|[E1 E2]]; [|lia].
  right. split; [|reflexivity]. rewrite <- E. exact Hr1.
Qed.

Lemma returned_all p :
  forall m,
    TileManager.schedule_denoising m = true ->
    TileManager.only_denoise m = false ->
    grid_state indeterminate (TileManager.tile_size m) (grid_w m) (grid_h m)
      (TileManager.state m) ->
    NoDup p ->
    (forall j, j ∈ p -> 0 <= j < grid_w m * grid_h m) ->
    (forall j, 0 <= j < grid_w m * grid_h m ->
       rank_at indeterminate (TileManager.state m) j <= 2
       /\ (j ∈ p -> rank_at indeterminate (TileManager.state m) j = 0)
       /\ (j ∉ p -> 1 <= rank_at indeterminate (TileManager.state m) j)) ->
    exists m',
      returned indeterminate m p = Some m'
      /\ forall j, 0 <= j < grid_w m * grid_h m ->
           1 <= rank_at indeterminate (TileManager.state m') j <= 2.
Proof.
  induction p as [|t p IH]; intros m Hsd Hod Hg Hnd Hin Hr.
  - exists m. split; [reflexivity|]. intros j Hj.
    destruct (Hr j Hj) as (H2 & _ & H1). split; [|exact H2].
    apply H1. apply not_elem_of_nil.
  - apply list.NoDup_cons in Hnd as [Hnt Hnd].
    assert (Ht : 0 <= t < grid_w m * grid_h m)
      by (apply Hin; apply elem_of_cons; left; reflexivity).
    assert (Hrt : rank_at indeterminate (TileManager.state m) t = 0).
    { apply (Hr t Ht). apply elem_of_cons. left. reflexivity. }
    cbn [returned]. rewrite (return_tile_render m t Hsd Hod Hrt).
    set (st1 := fold_left _ (seqZ 0 9) _).
    pose proof (mark_grid_state _ _ _ _ t Tile.RENDERED Hg) as Hgm.
    destruct (render_loop_ranks _ _ _ t (seqZ 0 9) _ Hgm) as [Hg1 Hr1].
    fold st1 in Hg1, Hr1.
    assert (Hd : State.resolution_divider st1
                 = State.resolution_divider (TileManager.state m)).
    { unfold st1.
      apply (fold_scan_inv
               (fun st => State.resolution_divider st
                          = State.resolution_divider (TileManager.state m)));
        [|reflexivity].
      intros st n H. rewrite scan_divider_render. exact H. }
    destruct (grid_set_state m st1 Hd) as [Egw Egh].
    destruct (IH (TileManager.set_state st1 m)) as (m' & Hret & Hfin);
      try assumption; rewrite ?Egw, ?Egh;
      change (TileManager.state (TileManager.set_state st1 m)) with st1;
      try assumption.
    + intros j Hj. apply Hin. apply elem_of_cons. right. exact Hj.
    + intros j Hj. destruct (Hr j Hj) as (H2 & H0 & H1).
      specialize (Hr1 j).
      rewrite (mark_rank _ _ _ _ t Tile.RENDERED j Hg) in Hr1.
      destruct (decide (t = j /\ _)) as [[<- _]|Hn]; cbn [Tile.rank] in Hr1.
      * split; [lia|]. split; [intros; contradiction|intros; lia].
      * assert (Hne : t <> j) by (intros ->; apply Hn; split; [reflexivity|lia]).
        split; [lia|]. split.
        -- intros Hjp. specialize (H0 ltac:(apply elem_of_cons; right; exact Hjp)).
           lia.
        -- intros Hjp.
           assert (j ∉ t :: p)
             by (intros Hc; apply elem_of_cons in Hc as [?|?]; [congruence|contradiction]).
           specialize (H1 ltac:(assumption)). lia.
    + exists m'. split; [exact Hret|]. rewrite Egw, Egh in Hfin. exact Hfin.
Qed.

(** The order in which the rendered tiles come back does not matter.  With
    denoising scheduled, after [set_tiles] on an image that is not cut into
    slices, in an order other than the Hilbert spiral: whatever the order in
    which [return_tile] is called once on every tile of the grid, every call
    returns [false] without asking for the tile to be deleted, and at the end
    every tile is in state [DENOISE] and the denoise lists hold every tile
    exactly once. *)
Theorem return_order_irrelevant m m1 p :
  valid_config m -> single_slice m ->
  TileManager.tile_order m <> TILE_HILBERT_SPIRAL ->
  TileManager.schedule_denoising m = true ->
  TileManager.only_denoise m = false ->
  set_tiles indeterminate m = Some m1 ->
  p ≡ₚ seqZ 0 (grid_w m * grid_h m) ->
  exists m2,
    returned indeterminate m1 p = Some m2
    /\ concat (State.denoise_tiles (TileManager.state m2))
       ≡ₚ seqZ 0 (grid_w m * grid_h m)
    /\ forall idx, 0 <= idx < grid_w m * grid_h m ->
         Tile.state (tile_at indeterminate (State.tiles (TileManager.state m2)) idx)
         = Tile.DENOISE.
Proof.
  intros Hv Hs Ho Hsd Hod Hset Hp.
  destruct (set_tiles_grid_size m m1 Hv Hset) as (Egw & Egh & Ets).
  pose proof (set_tiles_config m m1 Hv Hset) as Hc.
  destruct (set_tiles_denoise_inv m m1 Hv Hs Ho Hod Hset) as [Hinv Hr0].
  assert (Hsd1 : TileManager.schedule_denoising m1 = true)
    by (rewrite Hc; exact Hsd).
  assert (Hod1 : TileManager.only_denoise m1 = false)
    by (rewrite Hc; exact Hod).
  pose proof Hinv as [(Hg & _) _].
  destruct (returned_all p m1 Hsd1 Hod1 Hg) as (m2 & Hret & Hfin).
  - rewrite Hp. apply NoDup_seqZ.
  - intros j Hj. rewrite Hp in Hj. apply elem_of_seqZ in Hj.
    rewrite Egw, Egh. lia.
  - rewrite Egw, Egh. intros j Hj. rewrite (Hr0 j Hj).
    split; [lia|]. split; [reflexivity|].
    intros Hn. exfalso. apply Hn. rewrite Hp. apply elem_of_seqZ. lia.
  - exists m2. split; [exact Hret|].
    pose proof (returned_run_calls p m1 m2 Hret) as Hrun.
    pose proof (run_calls_denoise_inv _ m1 [] [] m2 Hsd1 Hod1 Hinv Hrun)
      as Hinv2.
    pose proof (set_tiles_dispatch_inv m m1 Hv Hs Ho Hset) as Hdi.
    pose proof (run_calls_inv _ m1 [] [] [] m2 Hdi Hrun) as Hdi2.
    destruct (run_calls_grid _ m1 [] m2 Hrun) as (E2w & E2h & _).
    cbn in Hinv2, Hdi2.
    destruct (all_listed m2 _ _ Hdi2 Hinv2) as [Hperm H2].
    + rewrite E2w, E2h. intros idx Hidx. specialize (Hfin idx Hidx). lia.
    + rewrite E2w, E2h, Egw, Egh in Hperm, H2. rewrite Egw, Egh in Hfin.
      split; [exact Hperm|].
      intros idx Hidx. specialize (Hfin idx Hidx). specialize (H2 idx Hidx).
      unfold rank_at in *.
      destruct (Tile.state _); cbn in *; try lia. reflexivity.
Qed.

(** * What [return_tile] may change *)

Lemma tile_advanced_refl t : tile_advanced t t.
Proof. unfold tile_advanced. repeat split; try reflexivity. left. reflexivity. Qed.

Lemma tile_advanced_trans t1 t2 t3 :
  tile_advanced t1 t2 -> tile_advanced t2 t3 -> tile_advanced t1 t3.
Proof.
  clear indeterminate.
  intros (A1 & A2 & A3 & A4 & A5 & A6 & A7 & A8)
         (B1 & B2 & B3 & B4 & B5 & B6 & B7 & B8).
  unfold tile_advanced.
  repeat split; try congruence; try lia.
  destruct B8 as [B8|B8]; [|right; exact B8].
  destruct A8 as [A8|[A8 A9]]; [left; congruence|].
  right. split; [congruence|].
  rewrite A9 in B7. destruct (Tile.state t3); cbn in B7; try lia. reflexivity.
Qed.

Lemma state_advanced_refl st : state_advanced indeterminate st st.
Proof.
  unfold state_advanced. split; [reflexivity|].
  split; [intros; apply tile_advanced_refl|]. split; [reflexivity|].
  destruct st; reflexivity.
Qed.

Lemma state_advanced_trans st1 st2 st3 :
  state_advanced indeterminate st1 st2 -> state_advanced indeterminate st2 st3 ->
  state_advanced indeterminate st1 st3.
Proof.
  intros (A1 & A2 & A3 & A4) (B1 & B2 & B3 & B4).
  split; [congruence|].
  split; [intros j; eapply tile_advanced_trans; [apply A2|apply B2]|].
  split; [congruence|].
  rewrite B4 at 1. rewrite A4. destruct st1; reflexivity.
Qed.

(** A tile written in place. *)
Lemma touch_advanced st a (f : Tile.t -> Tile.t) :
  (tile_advanced (tile_at indeterminate (State.tiles st) a)
     (f (tile_at indeterminate (State.tiles st) a))) ->
  state_advanced indeterminate st
    (State.set_tiles
       (vec_set (State.tiles st) a (f (tile_at indeterminate (State.tiles st) a)))
       st).
Proof.
  intros Hf. split; [cbn; apply vec_set_length|].
  split; [|split; [reflexivity|destruct st; reflexivity]].
  intros j. cbn [State.tiles State.set_tiles]. rewrite tile_at_touch.
  destruct (decide _) as [[<- _]|_]; [exact Hf|apply tile_advanced_refl].
Qed.

Lemma mark_advanced st index s :
  Tile.rank (Tile.state (tile_at indeterminate (State.tiles st) index))
  <= Tile.rank s ->
  state_advanced indeterminate st (mark indeterminate st index s).
Proof.
  intros Hr. unfold mark, set_tile_state.
  apply (touch_advanced st index (Tile.set_state s)).
  unfold tile_advanced. cbn. repeat split; try reflexivity; [exact Hr|].
  left. reflexivity.
Qed.

Lemma promote_advanced st a :
  rank_at indeterminate st a = 1 ->
  state_advanced indeterminate st (promote indeterminate st a).
Proof.
  intros Hr.
  pose proof (mark_advanced st a Tile.DENOISE) as (M1 & M2 & M3 & M4).
  { unfold rank_at in Hr. rewrite Hr. cbn. lia. }
  split; [exact M1|]. split; [exact M2|].
  split; [unfold promote; cbn; apply vec_alter_length|].
  unfold promote. destruct st; reflexivity.
Qed.

Lemma finish_advanced st a release :
  state_advanced indeterminate st (finish indeterminate st a release).
Proof.
  assert (Hm : state_advanced indeterminate st
                 (mark indeterminate st a Tile.DONE)).
  { apply mark_advanced.
    pose proof (rank_bounds (Tile.state (tile_at indeterminate (State.tiles st) a))).
    cbn. lia. }
  destruct release; [|exact Hm].
  eapply state_advanced_trans; [exact Hm|].
  unfold finish.
  change (set_tile_state indeterminate (State.tiles st) a Tile.DONE)
    with (State.tiles (mark indeterminate st a Tile.DONE)).
  replace (State.set_tiles
             (vec_set (State.tiles (mark indeterminate st a Tile.DONE)) a
                (Tile.set_buffers None
                   (tile_at indeterminate
                      (State.tiles (mark indeterminate st a Tile.DONE)) a)))
             st)
    with (State.set_tiles
            (vec_set (State.tiles (mark indeterminate st a Tile.DONE)) a
               (Tile.set_buffers None
                  (tile_at indeterminate
                     (State.tiles (mark indeterminate st a Tile.DONE)) a)))
            (mark indeterminate st a Tile.DONE))
    by (destruct st; reflexivity).
  destruct (decide (0 <= a < Z.of_nat (length (State.tiles st)))) as [Hin|Hout].
  - assert (Hst : Tile.state (tile_at indeterminate
                    (State.tiles (mark indeterminate st a Tile.DONE)) a)
                  = Tile.DONE).
    { rewrite mark_tile. destruct (decide _) as [_|Hn]; [reflexivity|].
      exfalso. apply Hn. split; [reflexivity|exact Hin]. }
    apply (touch_advanced _ a (Tile.set_buffers None)).
    unfold tile_advanced.
    cbn [Tile.set_buffers Tile.index Tile.x Tile.y Tile.w Tile.h Tile.device
         Tile.state Tile.buffers].
    repeat split; try reflexivity; try lia.
    right. split; [reflexivity|exact Hst].
  - split; [cbn; apply vec_set_length|].
    split; [|split; [reflexivity|destruct st; reflexivity]].
    intros j. cbn [State.tiles State.set_tiles].
    rewrite tile_at_set_out; [apply tile_advanced_refl|].
    unfold mark. cbn. rewrite set_tile_state_length. exact Hout.
Qed.

Lemma render_scan_weak ts tw th index st n :
  render_scan indeterminate ts tw th index st n = st
  \/ exists a, rank_at indeterminate st a = 1
               /\ render_scan indeterminate ts tw th index st n
                  = promote indeterminate st a.
Proof.
  unfold render_scan. destruct (_ || _); [left; reflexivity|].
  unfold Tile.eqb. change (Tile.rank Tile.RENDERED) with 1.
  destruct (Z.eqb_spec (Tile.rank (Tile.state (tile_at indeterminate (State.tiles st)
              ((Z.quot (Tile.y (tile_at indeterminate (State.tiles st) index)) (I2.y ts) + dy n)
               * State.tile_stride st
               + (Z.quot (Tile.x (tile_at indeterminate (State.tiles st) index)) (I2.x ts)
                  + dx n))))) 1) as [E|E];
    cbn [negb]; [|left; reflexivity].
  destruct (neighbors_reached _ _ _ _ _ _ _); [|left; reflexivity].
  right. eexists. split; [exact E|reflexivity].
Qed.

Lemma denoise_scan_weak ts tw th index acc n :
  denoise_scan indeterminate ts tw th index acc n = acc
  \/ exists a release,
       fst (denoise_scan indeterminate ts tw th index acc n)
       = finish indeterminate (fst acc) a release.
Proof.
  unfold denoise_scan. cbv zeta. destruct (_ || _); [left; reflexivity|].
  destruct (negb _); [left; reflexivity|].
  destruct (neighbors_reached _ _ _ _ _ _ _); [|left; reflexivity].
  right.
  destruct (n =? 8);
    match goal with
    | |- context [set_tile_state _ _ ?a Tile.DONE] =>
        first [exists a, false; reflexivity|exists a, true; reflexivity]
    end.
Qed.

Lemma render_loop_advanced ts tw th index ns st0 :
  state_advanced indeterminate st0
    (fold_left (render_scan indeterminate ts tw th index) ns st0).
Proof.
  apply (fold_scan_inv (state_advanced indeterminate st0));
    [|apply state_advanced_refl].
  intros st n H. eapply state_advanced_trans; [exact H|].
  destruct (render_scan_weak ts tw th index st n) as [->|(a & Hr & ->)];
    [apply state_advanced_refl|apply promote_advanced; exact Hr].
Qed.

Lemma denoise_loop_advanced ts tw th index ns acc0 :
  state_advanced indeterminate (fst acc0)
    (fst (fold_left (denoise_scan indeterminate ts tw th index) ns acc0)).
Proof.
  apply (fold_scan_inv (fun acc => state_advanced indeterminate (fst acc0) (fst acc)));
    [|apply state_advanced_refl].
  intros acc n H. eapply state_advanced_trans; [exact H|].
  destruct (denoise_scan_weak ts tw th index acc n) as [->|(a & r & ->)];
    [apply state_advanced_refl|apply finish_advanced].
Qed.

Lemma return_tile_state_advanced m index b d m' :
  return_tile indeterminate m index = Some (b, d, m') ->
  state_advanced indeterminate (TileManager.state m) (TileManager.state m').
Proof.
  intros Hret.
  destruct (return_tile_cases m index b d m' Hret)
    as [(Hr & _ & _ & _ & _ & ->)|[(Hr & _ & _ & _ & _ & ->)
       |[(Hr & _ & _ & _ & ->)|(Hr & _ & _ & -> & _)]]];
    cbn [TileManager.state TileManager.set_state]; unfold rank_at in Hr.
  - apply mark_advanced. rewrite Hr. cbn. lia.
  - eapply state_advanced_trans; [|apply render_loop_advanced].
    apply mark_advanced. rewrite Hr. cbn. lia.
  - apply mark_advanced. rewrite Hr. cbn. lia.
  - eapply state_advanced_trans;
      [|apply (denoise_loop_advanced _ _ _ _ _ (_, false))].
    apply mark_advanced. rewrite Hr. cbn. lia.
Qed.

(** [return_tile] only moves tiles forward.  When it returns, the manager
    is the one it was but for the tiles and the denoise lists: the render
    lists, the counters, the samples, the divider and the configuration are
    untouched.  Every tile is the same rectangle on the same device, no state
    has gone back, buffers change only by being released on a tile that is
    [DONE], and the state of the returned tile has gone forward. *)
Theorem return_tile_advances m index b d m' :
  return_tile indeterminate m index = Some (b, d, m') ->
  m' = TileManager.set_state (TileManager.state m') m
  /\ state_advanced indeterminate (TileManager.state m) (TileManager.state m')
  /\ (0 <= index < Z.of_nat (length (State.tiles (TileManager.state m))) ->
      rank_at indeterminate (TileManager.state m) index
      < rank_at indeterminate (TileManager.state m') index).
Proof.
  intros Hret. split; [apply (return_tile_config m index b d m' Hret)|].
  split; [apply (return_tile_state_advanced m index b d m' Hret)|].
  intros Hin.
  assert (Hmark : forall s st',
            state_advanced indeterminate
              (mark indeterminate (TileManager.state m) index s) st' ->
            Tile.rank s <= rank_at indeterminate st' index).
  { intros s st' (_ & Ht & _). specialize (Ht index).
    destruct Ht as (_ & _ & _ & _ & _ & _ & Hrk & _).
    rewrite mark_tile in Hrk.
    destruct (decide _) as [_|Hn]; [exact Hrk|].
    exfalso. apply Hn. split; [reflexivity|exact Hin]. }
  destruct (return_tile_cases m index b d m' Hret)
    as [(Hr & _ & _ & _ & _ & ->)|[(Hr & _ & _ & _ & _ & ->)
       |[(Hr & _ & _ & _ & ->)|(Hr & _ & _ & -> & _)]]];
    cbn [TileManager.state TileManager.set_state]; rewrite Hr.
  - specialize (Hmark Tile.DONE _ (state_advanced_refl _)). cbn in Hmark. lia.
  - specialize (Hmark Tile.RENDERED _
                  (render_loop_advanced (TileManager.tile_size m) (grid_w m)
                     (grid_h m) index (seqZ 0 9) _)).
    cbn in Hmark. lia.
  - specialize (Hmark Tile.DONE _ (state_advanced_refl _)). cbn in Hmark. lia.
  - specialize (Hmark Tile.DENOISED _
                  (denoise_loop_advanced (TileManager.tile_size m) (grid_w m)
                     (grid_h m) index (seqZ 0 9) (_, false))).
    cbn in Hmark. lia.
Qed.

(** * Tiles stay with their device *)

Lemma queue_at_vec_set (qs : list (list Z)) z rest j :
  queue_at (vec_set qs z rest) j
  = if decide (j = z /\ 0 <= z < Z.of_nat (length qs)) then rest
    else queue_at qs j.
Proof.
  unfold queue_at, vec_set, vec_get. destruct (decide _) as [[-> Hin]|Hn].
  - destruct (Z.ltb_spec z 0); [lia|].
    rewrite list_lookup_insert_eq by lia. reflexivity.
  - destruct (Z.ltb_spec z 0); [reflexivity|].
    destruct (Z.ltb_spec j 0); [reflexivity|].
    destruct (decide (z = j)) as [->|Hne].
    + rewrite list_insert_ge by lia. reflexivity.
    + rewrite list_lookup_insert_ne by lia. reflexivity.
Qed.

Lemma queue_at_vec_alter (f : list Z -> list Z) (qs : list (list Z)) z j :
  queue_at (vec_alter f qs z) j
  = if decide (j = z /\ 0 <= z < Z.of_nat (length qs)) then f (queue_at qs j)
    else queue_at qs j.
Proof.
  unfold vec_alter. destruct (Z.ltb_spec z 0).
  - destruct (decide _) as [[_ ?]|_]; [lia|reflexivity].
  - rewrite queue_at_alter.
    destruct (decide (j = Z.of_nat (Z.to_nat z) /\ _)) as [[? ?]|Hn],
             (decide (j = z /\ _)) as [[? ?]|Hn'];
      try reflexivity; exfalso; [apply Hn'|apply Hn]; lia.
Qed.

Lemma device_inv_advanced st st' :
  device_inv indeterminate st -> state_advanced indeterminate st st' ->
  State.denoise_tiles st' = State.denoise_tiles st ->
  device_inv indeterminate st'.
Proof.
  intros Hd (_ & Ht & _ & Hst) Eq j idx.
  assert (Er : State.render_tiles st' = State.render_tiles st)
    by (rewrite Hst; reflexivity).
  rewrite Er, Eq. intros Hin.
  destruct (Ht idx) as (_ & _ & _ & _ & _ & -> & _). apply Hd. exact Hin.
Qed.

Lemma promote_device_inv st a :
  rank_at indeterminate st a = 1 ->
  device_inv indeterminate st -> device_inv indeterminate (promote indeterminate st a).
Proof.
  intros Hr Hd j idx.
  pose proof (promote_advanced st a Hr) as (_ & Ht & _ & _).
  destruct (Ht idx) as (_ & _ & _ & _ & _ & -> & _).
  unfold promote at 1 2.
  cbn [State.render_tiles State.denoise_tiles State.set_denoise_tiles
       State.set_tiles].
  rewrite queue_at_vec_alter.
  change (set_tile_state indeterminate (State.tiles st) a Tile.DENOISE)
    with (State.tiles (promote indeterminate st a)).
  destruct (Ht a) as (_ & _ & _ & _ & _ & Eda & _). rewrite Eda.
  destruct (decide _) as [[-> _]|_]; [|apply Hd].
  intros [Hin|Hin]; [apply Hd; left; exact Hin|].
  apply elem_of_app in Hin as [Hin|Hin]; [apply Hd; right; exact Hin|].
  apply list_elem_of_singleton in Hin. subst idx. reflexivity.
Qed.

Lemma return_tile_device_inv m index b d m' :
  device_inv indeterminate (TileManager.state m) ->
  return_tile indeterminate m index = Some (b, d, m') ->
  device_inv indeterminate (TileManager.state m').
Proof.
  intros Hd Hret.
  assert (Hmark : forall s,
            Tile.rank (Tile.state (tile_at indeterminate
                         (State.tiles (TileManager.state m)) index))
            <= Tile.rank s ->
            device_inv indeterminate (mark indeterminate (TileManager.state m) index s)).
  { intros s Hs. apply (device_inv_advanced (TileManager.state m));
      [exact Hd|apply mark_advanced; exact Hs|reflexivity]. }
  destruct (return_tile_cases m index b d m' Hret)
    as [(Hr & _ & _ & _ & _ & ->)|[(Hr & _ & _ & _ & _ & ->)
       |[(Hr & _ & _ & _ & ->)|(Hr & _ & _ & -> & _)]]];
    cbn [TileManager.state TileManager.set_state]; unfold rank_at in Hr.
  - apply Hmark. rewrite Hr. cbn. lia.
  - apply fold_scan_inv; [|apply Hmark; rewrite Hr; cbn; lia].
    intros st n H.
    destruct (render_scan_weak (TileManager.tile_size m) (grid_w m) (grid_h m)
                index st n) as [->|(a & Ha & ->)];
      [exact H|apply promote_device_inv; assumption].
  - apply Hmark. rewrite Hr. cbn. lia.
  - apply (fold_scan_inv (fun acc => device_inv indeterminate (fst acc)));
      [|apply Hmark; rewrite Hr; cbn; lia].
    intros acc n H.
    destruct (denoise_scan_weak (TileManager.tile_size m) (grid_w m) (grid_h m)
                index acc n) as [->|(a & r & ->)]; [exact H|].
    apply (device_inv_advanced (fst acc));
      [exact H|apply finish_advanced|reflexivity].
Qed.

Lemma next_tile_device_inv m device :
  device_inv indeterminate (TileManager.state m) ->
  device_inv indeterminate (TileManager.state (snd (next_tile m device))).
Proof.
  intros Hd. unfold next_tile. destruct (_ >=? _); [exact Hd|].
  destruct (queue_at (State.denoise_tiles (TileManager.state m)) _)
    as [|i rest] eqn:Hdq.
  - destruct (queue_at (State.render_tiles (TileManager.state m)) _)
      as [|i rest] eqn:Hrq; [exact Hd|].
    cbn [snd TileManager.state TileManager.set_state]. intros j idx.
    cbn [State.render_tiles State.denoise_tiles State.tiles
         State.set_render_tiles State.set_num_rendered_tiles].
    rewrite queue_at_vec_set. intros Hin. apply Hd.
    destruct (decide _) as [[-> _]|_]; [|exact Hin].
    destruct Hin as [Hin|Hin]; [left|right; exact Hin].
    rewrite Hrq. apply elem_of_cons. right. exact Hin.
  - cbn [snd]. intros j idx.
    destruct (TileManager.only_denoise m);
      cbn [TileManager.state TileManager.set_state State.render_tiles
           State.denoise_tiles State.tiles State.set_denoise_tiles
           State.set_num_rendered_tiles];
      rewrite queue_at_vec_set; intros Hin; apply Hd;
      (destruct (decide _) as [[-> _]|_]; [|exact Hin]);
      (destruct Hin as [Hin|Hin]; [left; exact Hin|right]);
      rewrite Hdq; apply elem_of_cons; right; exact Hin.
Qed.

Lemma run_calls_device_inv calls :
  forall m given m',
    device_inv indeterminate (TileManager.state m) ->
    run_calls indeterminate calls m = Some (given, m') ->
    device_inv indeterminate (TileManager.state m').
Proof.
  induction calls as [|c calls IH]; intros m given m' Hd Hrun.
  - injection Hrun as <- <-. exact Hd.
  - destruct c as [device|index]; cbn [run_calls] in Hrun.
    + pose proof (next_tile_device_inv m device Hd) as Hd1.
      destruct (next_tile m device) as [[idx|] m1]; cbn [snd] in Hd1.
      * destruct (run_calls indeterminate calls m1) as [[given1 m2]|] eqn:Hrun1;
          [|discriminate].
        injection Hrun as <- <-. exact (IH m1 given1 m2 Hd1 Hrun1).
      * exact (IH m1 given m' Hd1 Hrun).
    + destruct (return_tile indeterminate m index) as [[[b d] m1]|] eqn:Hret;
        [|discriminate].
      apply (IH m1 given m'); [|exact Hrun].
      apply (return_tile_device_inv m index b d m1 Hd Hret).
Qed.

Lemma set_tiles_device_inv m m1 :
  valid_config m -> single_slice m ->
  TileManager.tile_order m <> TILE_HILBERT_SPIRAL ->
  set_tiles indeterminate m = Some m1 ->
  device_inv indeterminate (TileManager.state m1).
Proof.
  intros Hv Hs Ho Hset.
  destruct (set_tiles_grid m m1 Hv Hs Ho Hset)
    as (_ & _ & (_ & _ & Htiles & Hmem) & Hother).
  intros j idx.
  assert (Hempty : forall q, q = replicate (Z.to_nat (num_lists m)) [] ->
                     idx ∈ queue_at q j -> False).
  { intros q -> Hin. rewrite queue_at_replicate_nil in Hin.
    apply elem_of_nil in Hin. exact Hin. }
  assert (Hused : forall q,
            (forall j idx, idx ∈ queue_at q j <->
               0 <= idx < grid_w m * grid_h m /\ tile_device m idx = j) ->
            idx ∈ queue_at q j ->
            Tile.device (tile_at indeterminate (State.tiles (TileManager.state m1)) idx) = j).
  { intros q Hq Hin. apply Hq in Hin as [Hidx <-].
    rewrite (Htiles idx Hidx). reflexivity. }
  destruct (TileManager.only_denoise m); intros [Hin|Hin];
    first [exfalso; apply (Hempty _ Hother Hin)|apply (Hused _ Hmem Hin)].
Qed.

(** A device is given its own tiles.  After [set_tiles] on an image that is
    not cut into slices, in an order other than the Hilbert spiral, and
    whatever calls of [next_tile] and [return_tile] have been made: the tile
    that [next_tile] gives to a device, from a denoise list or from a render
    list, carries the logical device it is asked for (the device itself with
    [preserve_tile_device], device 0 without). *)
Theorem next_tile_own_device m m1 calls given m2 device idx m3 :
  valid_config m -> single_slice m ->
  TileManager.tile_order m <> TILE_HILBERT_SPIRAL ->
  set_tiles indeterminate m = Some m1 ->
  run_calls indeterminate calls m1 = Some (given, m2) ->
  next_tile m2 device = (Some idx, m3) ->
  Tile.device (tile_at indeterminate (State.tiles (TileManager.state m2)) idx)
  = size_t (if TileManager.preserve_tile_device m then device else 0).
Proof.
  intros Hv Hs Ho Hset Hrun Hnext.
  pose proof (set_tiles_device_inv m m1 Hv Hs Ho Hset) as Hd1.
  pose proof (run_calls_device_inv calls m1 given m2 Hd1 Hrun) as Hd2.
  pose proof (set_tiles_config m m1 Hv Hset) as Hc1.
  pose proof (run_calls_config calls m1 given m2 Hrun) as Hc2.
  replace (TileManager.preserve_tile_device m)
    with (TileManager.preserve_tile_device m2)
    by (rewrite Hc2, Hc1; reflexivity).
  unfold next_tile in Hnext. destruct (_ >=? _); [discriminate|].
  destruct (queue_at (State.denoise_tiles (TileManager.state m2)) _)
    as [|i rest] eqn:Hdq.
  - destruct (queue_at (State.render_tiles (TileManager.state m2)) _)
      as [|i rest] eqn:Hrq; [discriminate|].
    injection Hnext as <- _. apply Hd2. left. rewrite Hrq.
    apply elem_of_cons. left. reflexivity.
  - injection Hnext as <- _. apply Hd2. right. rewrite Hdq.
    apply elem_of_cons. left. reflexivity.
Qed.

(** * No tile is lost *)

Lemma set_tiles_used_perm m m1 :
  valid_config m -> single_slice m ->
  TileManager.tile_order m <> TILE_HILBERT_SPIRAL ->
  set_tiles indeterminate m = Some m1 ->
  concat (if TileManager.only_denoise m
          then State.denoise_tiles (TileManager.state m1)
          else State.render_tiles (TileManager.state m1))
  ≡ₚ seqZ 0 (grid_w m * grid_h m)
  /\ (TileManager.only_denoise m = true ->
      forall j, queue_at (State.render_tiles (TileManager.state m1)) j = [])
  /\ State.num_rendered_tiles (TileManager.state m1)
     = State.num_rendered_tiles (TileManager.state m).
Proof.
  intros Hv Hs Ho Hset.
  destruct (set_tiles_grid m m1 Hv Hs Ho Hset)
    as (_ & _ & (_ & _ & _ & Hmem) & Hother).
  pose proof (set_tiles_dispatch_inv m m1 Hv Hs Ho Hset)
    as (_ & HndR & HndD & _).
  rewrite app_nil_l in HndR, HndD.
  split; [|split].
  - apply NoDup_Permutation;
      [destruct (TileManager.only_denoise m); assumption|apply NoDup_seqZ|].
    intros idx. rewrite elem_of_concat_queue, elem_of_seqZ. split.
    + intros [j Hin]. apply Hmem in Hin. lia.
    + intros Hidx. exists (tile_device m idx). apply Hmem.
      split; [lia|reflexivity].
  - intros Hod j. rewrite Hod in Hother. rewrite Hother.
    apply queue_at_replicate_nil.
  - revert Hset. unfold set_tiles.
    destruct (gen_tiles indeterminate (negb (TileManager.background m)) m)
      as [[m0 n]|] eqn:Eg; [|discriminate].
    intros [= <-].
    destruct (gen_tiles_grid m m0 n Hv Hs Ho Eg) as (g & -> & _).
    reflexivity.
Qed.

Lemma return_tile_lists m index b d m' :
  return_tile indeterminate m index = Some (b, d, m') ->
  State.render_tiles (TileManager.state m')
  = State.render_tiles (TileManager.state m)
  /\ State.num_rendered_tiles (TileManager.state m')
     = State.num_rendered_tiles (TileManager.state m)
  /\ (TileManager.only_denoise m = true ->
      State.denoise_tiles (TileManager.state m')
      = State.denoise_tiles (TileManager.state m)).
Proof.
  intros Hret.
  pose proof (return_tile_state_advanced m index b d m' Hret) as (_ & _ & _ & E).
  split; [rewrite E; reflexivity|]. split; [rewrite E; reflexivity|].
  intros Hod.
  destruct (return_tile_cases m index b d m' Hret)
    as [(_ & ? & _)|[(_ & ? & _)|[(_ & _ & _ & _ & ->)|(_ & ? & _)]]];
    try congruence.
  reflexivity.
Qed.

(** The lists of the kind the manager hands tiles out from: the denoise
    lists when [only_denoise], the render lists otherwise. *)
Lemma run_calls_conserved calls :
  forall m G given m',
    (TileManager.only_denoise m = true ->
     forall j, queue_at (State.render_tiles (TileManager.state m)) j = []) ->
    run_calls indeterminate calls m = Some (given, m') ->
    (G ++ given_from (TileManager.only_denoise m) given)
    ++ concat (if TileManager.only_denoise m
               then State.denoise_tiles (TileManager.state m')
               else State.render_tiles (TileManager.state m'))
    ≡ₚ G ++ concat (if TileManager.only_denoise m
                    then State.denoise_tiles (TileManager.state m)
                    else State.render_tiles (TileManager.state m))
    /\ State.num_rendered_tiles (TileManager.state m')
       = State.num_rendered_tiles (TileManager.state m)
         + Z.of_nat (length (given_from (TileManager.only_denoise m) given))
    /\ (TileManager.only_denoise m = true -> given_from false given = []).
Proof.
  induction calls as [|c calls IH]; intros m G given m' Hre Hrun.
  - injection Hrun as <- <-. unfold given_from. cbn. rewrite app_nil_r.
    split; [reflexivity|]. split; [lia|reflexivity].
  - destruct c as [device|index]; cbn [run_calls] in Hrun.
    + pose proof (next_tile_config m device) as Hc.
      unfold denoise_pending in Hrun. unfold next_tile in Hrun, Hc.
      destruct (_ >=? _); [eauto|].
      destruct (queue_at (State.denoise_tiles (TileManager.state m)) _)
        as [|i rest] eqn:Hdq.
      * destruct (queue_at (State.render_tiles (TileManager.state m)) _)
          as [|i rest] eqn:Hrq; [eauto|].
        destruct (TileManager.only_denoise m) eqn:Hod;
          [rewrite (Hre eq_refl) in Hrq; discriminate|].
        cbn [snd] in Hc.
        set (m1 := TileManager.set_state _ m) in *.
        destruct (run_calls indeterminate calls m1) as [[given1 m2]|] eqn:Hrun1;
          [|discriminate].
        injection Hrun as <- <-.
        assert (Hod1 : TileManager.only_denoise m1 = false) by exact Hod.
        destruct (IH m1 (G ++ [i]) given1 m2) as (Hp & Hn & _);
          [rewrite Hod1; discriminate|exact Hrun1|].
        rewrite Hod1 in Hp, Hn. rewrite given_from_cons. cbn [Bool.eqb].
        split; [|split; [|discriminate]].
        -- replace (G ++ i :: given_from false given1)
             with ((G ++ [i]) ++ given_from false given1)
             by (rewrite <- app_assoc; reflexivity).
           rewrite Hp. unfold m1.
           cbn [TileManager.state TileManager.set_state State.render_tiles
                State.set_render_tiles State.set_num_rendered_tiles].
           rewrite (queue_at_pop _ _ _ _ Hrq), <- app_assoc. reflexivity.
        -- rewrite Hn. unfold m1. cbn [length].
           cbn [TileManager.state TileManager.set_state
                State.num_rendered_tiles State.set_render_tiles
                State.set_num_rendered_tiles].
           lia.
      * cbn [snd] in Hc.
        set (m1 := TileManager.set_state _ m) in *.
        destruct (run_calls indeterminate calls m1) as [[given1 m2]|] eqn:Hrun1;
          [|discriminate].
        injection Hrun as <- <-.
        assert (Hod1 : TileManager.only_denoise m1 = TileManager.only_denoise m)
          by reflexivity.
        rewrite given_from_cons.
        destruct (TileManager.only_denoise m) eqn:Hod; cbn [Bool.eqb].
        -- destruct (IH m1 (G ++ [i]) given1 m2) as (Hp & Hn & He);
             [intros _ j; apply (Hre eq_refl j)|exact Hrun1|].
           rewrite Hod1 in Hp, Hn. specialize (He Hod1).
           split; [|split; [|intros _; exact He]].
           ++ replace (G ++ i :: given_from true given1)
                with ((G ++ [i]) ++ given_from true given1)
                by (rewrite <- app_assoc; reflexivity).
              rewrite Hp. unfold m1.
              cbn [TileManager.state TileManager.set_state State.denoise_tiles
                   State.set_denoise_tiles State.set_num_rendered_tiles].
              rewrite (queue_at_pop _ _ _ _ Hdq), <- app_assoc. reflexivity.
           ++ rewrite Hn. unfold m1. cbn [length].
              cbn [TileManager.state TileManager.set_state
                   State.num_rendered_tiles State.set_denoise_tiles
                   State.set_num_rendered_tiles].
              lia.
        -- destruct (IH m1 G given1 m2) as (Hp & Hn & _);
             [rewrite Hod1; discriminate|exact Hrun1|].
           rewrite Hod1 in Hp, Hn.
           split; [exact Hp|]. split; [exact Hn|discriminate].
    + destruct (return_tile indeterminate m index) as [[[b d] m1]|] eqn:Hret;
        [|discriminate].
      pose proof (return_tile_config m index b d m1 Hret) as Hc.
      destruct (return_tile_lists m index b d m1 Hret) as (Er & En & Ed).
      assert (Hod1 : TileManager.only_denoise m1 = TileManager.only_denoise m)
        by (rewrite Hc; reflexivity).
      destruct (IH m1 G given m') as (Hp & Hn & He);
        [rewrite Er, Hod1; exact Hre|exact Hrun|].
      rewrite Hod1, Er, En in *.
      split; [|split; assumption].
      destruct (TileManager.only_denoise m) eqn:Hod; [|exact Hp].
      rewrite (Ed eq_refl) in Hp. exact Hp.
Qed.

(** Every tile is handed out, once.  After [set_tiles] on an image that is
    not cut into slices, in an order other than the Hilbert spiral, and
    whatever calls of [next_tile] and [return_tile] the devices make: the
    tiles handed out so far from the lists the manager starts with (the
    denoise lists when [only_denoise], the render lists otherwise) and the
    tiles still in these lists are the tiles of the grid, each once; and
    [num_rendered_tiles] has grown by the number of tiles handed out from
    them. *)
Theorem tiles_conserved m m1 calls given m2 :
  valid_config m -> single_slice m ->
  TileManager.tile_order m <> TILE_HILBERT_SPIRAL ->
  set_tiles indeterminate m = Some m1 ->
  run_calls indeterminate calls m1 = Some (given, m2) ->
  given_from (TileManager.only_denoise m) given
  ++ concat (if TileManager.only_denoise m
             then State.denoise_tiles (TileManager.state m2)
             else State.render_tiles (TileManager.state m2))
  ≡ₚ seqZ 0 (grid_w m * grid_h m)
  /\ State.num_rendered_tiles (TileManager.state m2)
     = State.num_rendered_tiles (TileManager.state m)
       + Z.of_nat (length (given_from (TileManager.only_denoise m) given)).
Proof.
  intros Hv Hs Ho Hset Hrun.
  destruct (set_tiles_used_perm m m1 Hv Hs Ho Hset) as (Hp1 & He1 & Hn1).
  pose proof (set_tiles_config m m1 Hv Hset) as Hc.
  assert (Hod1 : TileManager.only_denoise m1 = TileManager.only_denoise m)
    by (rewrite Hc; reflexivity).
  destruct (run_calls_conserved calls m1 [] given m2) as (Hp & Hn & _);
    [rewrite Hod1; exact He1|exact Hrun|].
  rewrite Hod1 in Hp, Hn. rewrite !app_nil_l in Hp.
  split; [rewrite Hp; exact Hp1|]. rewrite Hn, Hn1. reflexivity.
Qed.

(** * The number of tiles and the tiles made *)

Lemma tiles_resize_length n :
  0 <= n -> Z.of_nat (length (tiles_resize indeterminate n)) = n.
Proof.
  intros Hn. unfold tiles_resize. rewrite length_fmap, length_seqZ. lia.
Qed.

Lemma gen_tile_length m sliced iw tw center slice sy sh tsh tpd ty g tx :
  length (g_tiles (gen_tile indeterminate m sliced iw tw center slice sy sh
                     tsh tpd ty g tx))
  = length (g_tiles g).
Proof.
  unfold gen_tile. cbv zeta.
  repeat match goal with
         | |- context [if ?c then _ else _] => destruct c
         end; cbn [g_tiles]; apply vec_set_length.
Qed.

Lemma gen_slice_length m sliced iw ih tw center num sn g slice :
  length (g_tiles (gen_slice indeterminate m sliced iw ih tw center num sn g
                     slice))
  = length (g_tiles g).
Proof.
  unfold gen_slice. cbv zeta.
  match goal with
  | |- context [fold_left ?f ?l ?a] =>
      assert (Hrows : length (g_tiles (fold_left f l a)) = length (g_tiles g))
  end.
  { apply (fold_scan_inv (fun g' => length (g_tiles g') = length (g_tiles g)));
      [|reflexivity].
    intros g1 ty H1.
    apply (fold_scan_inv (fun g' => length (g_tiles g') = length (g_tiles g)));
      [|exact H1].
    intros g2 tx H2. rewrite gen_tile_length. exact H2. }
  destruct sliced; cbn [g_tiles]; exact Hrows.
Qed.

Lemma gen_hilbert_tile_length m iw ih tw hs bs off tpd s g d :
  length (g_tiles (gen_hilbert_tile m iw ih tw hs bs off tpd s
                     g d))
  = length (g_tiles g).
Proof.
  unfold gen_hilbert_tile. cbv zeta.
  repeat match goal with
         | |- context [if ?c then _ else _] => destruct c
         end; cbn [g_tiles]; try apply vec_set_length; reflexivity.
Qed.

Lemma gen_spiral_length m iw ih tw hs bs off tpd n fuel :
  forall s g g',
    gen_spiral fuel m iw ih tw hs bs off tpd n s g = Some g' ->
    length (g_tiles g') = length (g_tiles g).
Proof.
  induction fuel as [|fuel IH]; intros s g g' Hg; [discriminate|].
  cbn [gen_spiral] in Hg.
  match type of Hg with
  | context [fold_left ?f ?l g] =>
      assert (Hblock : length (g_tiles (fold_left f l g)) = length (g_tiles g))
  end.
  { apply (fold_scan_inv (fun g1 => length (g_tiles g1) = length (g_tiles g)));
      [|reflexivity].
    intros g1 d H1. rewrite gen_hilbert_tile_length. exact H1. }
  destruct (_ && _).
  - injection Hg as <-. exact Hblock.
  - rewrite (IH _ _ _ Hg). exact Hblock.
Qed.

(** [gen_tiles] returns the number of cells of the grid, and the vector of
    tiles has that many tiles, in every mode. *)
Lemma gen_tiles_count sliced m m0 n :
  valid_config m ->
  gen_tiles indeterminate sliced m = Some (m0, n) ->
  n = grid_w m * grid_h m
  /\ Z.of_nat (length (State.tiles (TileManager.state m0))) = n.
Proof.
  intros (Hx & Hy & _) Hgen.
  pose proof (grid_w_pos m Hx). pose proof (grid_h_pos m Hy).
  assert (Hn : 0 <= grid_w m * grid_h m) by nia.
  unfold gen_tiles in Hgen.
  fold (image_w m) (image_h m) in Hgen. fold (grid_w m) (grid_h m) in Hgen.
  cbv zeta in Hgen.
  destruct (TileOrder_eqb _ _).
  - destruct sliced; [discriminate|].
    destruct (gen_spiral _ _ _ _ _ _ _ _ _ _ _ _) as [g|] eqn:Hg;
      [|discriminate].
    injection Hgen as <- <-. split; [reflexivity|].
    apply gen_spiral_length in Hg. cbn [g_tiles] in Hg.
    unfold gen_store. cbn. rewrite Hg. apply tiles_resize_length. exact Hn.
  - injection Hgen as <- <-. split; [reflexivity|].
    unfold gen_store. cbn.
    match goal with
    | |- context [fold_left ?f ?l ?a] =>
        assert (Hl : length (g_tiles (fold_left f l a)) = length (g_tiles a))
    end.
    { match goal with
      | |- length (g_tiles (fold_left ?f ?l ?a)) = _ =>
          apply (fold_scan_inv
                   (fun g' => length (g_tiles g') = length (g_tiles a)));
            [|reflexivity]
      end.
      intros g1 slice H1. rewrite gen_slice_length. exact H1. }
    rewrite Hl. cbn [g_tiles]. apply tiles_resize_length. exact Hn.
Qed.


(** * The lists that are full are sorted *)

Lemma sorted_chunks_tiles order center tiles tiles' queues d :
  (forall j x, 0 <= j < d -> x ∈ queue_at queues j ->
     tile_at indeterminate tiles' x = tile_at indeterminate tiles x) ->
  sorted_chunks indeterminate order center tiles queues d ->
  sorted_chunks indeterminate order center tiles' queues d.
Proof.
  intros Hsame Hs j Hj. eapply strongly_sorted_ext; [|exact (Hs j Hj)].
  intros x y Hx Hy. cbv beta.
  rewrite (comparator_local order center tiles tiles' y x
             (Hsame j y Hj Hy) (Hsame j x Hj Hx)).
  auto.
Qed.

Lemma gen_tile_sorted m tile_y tile_x g :
  valid_config m -> TileManager.background m = true ->
  TileManager.tile_order m <> TILE_CENTER ->
  TileManager.tile_order m <> TILE_BOTTOM_TO_TOP ->
  0 <= tile_x < grid_w m -> 0 <= tile_y < grid_h m ->
  gen_geom indeterminate m (tile_y * grid_w m + tile_x) g ->
  sorted_chunks indeterminate (TileManager.tile_order m) (image_center m)
    (g_tiles g) (g_queues g) (g_cur_device g) ->
  let g' :=
    gen_tile indeterminate m (negb (TileManager.background m)) (image_w m)
      (grid_w m) (image_center m) 0 0 (image_h m) (grid_h m) (chunk_size m)
      tile_y g tile_x in
  sorted_chunks indeterminate (TileManager.tile_order m) (image_center m)
    (g_tiles g') (g_queues g') (g_cur_device g').
Proof.
  intros Hv Hbg Hoc Hob Hx Hy ((Hlen & Hql & Htiles & Hmem) & Hcnt) Hsorted.
  cbv zeta. destruct (chunk_size_bounds m Hv) as [Hc HT].
  set (k := tile_y * grid_w m + tile_x) in *.
  assert (Hk : 0 <= k < grid_w m * grid_h m) by (unfold k; nia).
  rewrite Hbg in Hcnt. destruct Hcnt as (Hl & Hct & Hsum).
  assert (Hlt : (g_tile_list g < length (g_queues g))%nat) by nia.
  unfold gen_tile. fold k. rewrite Hbg. cbn [negb].
  set (tiles' := vec_set (g_tiles g) k _).
  set (queues' := alter (fun q => q ++ [k]) (g_tile_list g) (g_queues g)).
  assert (Hold : forall j x, 0 <= j < g_cur_device g ->
            x ∈ queue_at (g_queues g) j ->
            tile_at indeterminate tiles' x = tile_at indeterminate (g_tiles g) x).
  { intros j x Hj Hin. apply Hmem in Hin as [Hxk _].
    unfold tiles'. apply tile_at_set_ne. lia. }
  assert (Hq' : forall j, 0 <= j < g_cur_device g ->
            queue_at queues' j = queue_at (g_queues g) j).
  { intros j Hj. unfold queues'. rewrite queue_at_alter.
    destruct (decide _) as [[? _]|_]; [lia|reflexivity]. }
  assert (Hkeep : sorted_chunks indeterminate (TileManager.tile_order m)
                    (image_center m) tiles' queues' (g_cur_device g)).
  { intros j Hj. rewrite (Hq' j Hj).
    apply (sorted_chunks_tiles _ _ (g_tiles g) tiles' (g_queues g)
             (g_cur_device g) Hold Hsorted j Hj). }
  destruct (Z.eqb_spec (g_cur_tiles g + 1) (chunk_size m)) as [Efull|Enot];
    [|exact Hkeep].
  destruct (TileOrder_eqb (TileManager.tile_order m) TILE_BOTTOM_TO_TOP) eqn:Eo.
  { exfalso. apply Hob. destruct (TileManager.tile_order m); try discriminate.
    reflexivity. }
  cbn [g_tiles g_queues g_cur_device]. intros j Hj.
  rewrite queue_at_alter.
  assert (Hlq : length queues' = length (g_queues g)) by apply length_alter.
  rewrite Hlq.
  destruct (decide _) as [[-> _]|Hn].
  - destruct (sweep_comparator (TileManager.tile_order m) (image_center m)
                tiles' Hoc) as [Hasym Hneg].
    apply list_sort_sorted; assumption.
  - apply Hkeep. split; [lia|].
    destruct (decide (j = g_cur_device g)) as [->|]; [|lia].
    exfalso. apply Hn. split; [lia|exact Hlt].
Qed.

Lemma gen_rows_sorted m g :
  valid_config m -> TileManager.background m = true ->
  TileManager.tile_order m <> TILE_CENTER ->
  TileManager.tile_order m <> TILE_BOTTOM_TO_TOP ->
  gen_geom indeterminate m 0 g ->
  g_cur_device g = 0 ->
  let g' :=
    fold_left
      (fun g tile_y =>
         fold_left
           (gen_tile indeterminate m (negb (TileManager.background m))
              (image_w m) (grid_w m) (image_center m) 0 0 (image_h m)
              (grid_h m) (chunk_size m) tile_y)
           (seqZ 0 (grid_w m)) g)
      (seqZ 0 (grid_h m)) g in
  gen_geom indeterminate m (grid_w m * grid_h m) g'
  /\ sorted_chunks indeterminate (TileManager.tile_order m) (image_center m)
       (g_tiles g') (g_queues g') (g_cur_device g').
Proof.
  intros Hv Hbg Hoc Hob Hg Hd0. cbv zeta. pose proof Hv as (Hx & Hy & _).
  pose proof (grid_w_pos m Hx) as Hgw. pose proof (grid_h_pos m Hy) as Hgh.
  assert (Hs : single_slice m) by (left; exact Hbg).
  replace (grid_w m * grid_h m) with (grid_h m * grid_w m) by lia.
  apply (fold_left_seqZ_ind
           (fun y g =>
              gen_geom indeterminate m (y * grid_w m) g
              /\ sorted_chunks indeterminate (TileManager.tile_order m)
                   (image_center m) (g_tiles g) (g_queues g) (g_cur_device g)));
    [lia|split; [exact Hg|rewrite Hd0; intros j Hj; lia]|].
  intros tile_y g1 Hty Hg1.
  replace ((tile_y + 1) * grid_w m) with (tile_y * grid_w m + grid_w m) by lia.
  apply (fold_left_seqZ_ind
           (fun x g =>
              gen_geom indeterminate m (tile_y * grid_w m + x) g
              /\ sorted_chunks indeterminate (TileManager.tile_order m)
                   (image_center m) (g_tiles g) (g_queues g) (g_cur_device g)));
    [lia|rewrite Z.add_0_r; exact Hg1|].
  intros tile_x g2 Htx [Hg2 Hs2]. split.
  - apply gen_tile_geom; assumption.
  - apply gen_tile_sorted; assumption.
Qed.

Lemma set_tiles_sorted m m1 :
  valid_config m -> TileManager.background m = true ->
  TileManager.tile_order m <> TILE_CENTER ->
  TileManager.tile_order m <> TILE_BOTTOM_TO_TOP ->
  TileManager.tile_order m <> TILE_HILBERT_SPIRAL ->
  set_tiles indeterminate m = Some m1 ->
  forall j, 0 <= j -> (j + 1) * chunk_size m <= grid_w m * grid_h m ->
    StronglySorted
      (fun x y =>
         TileComparator indeterminate (TileManager.tile_order m)
           (image_center m) (State.tiles (TileManager.state m1)) y x = false)
      (queue_at (if TileManager.only_denoise m
                 then State.denoise_tiles (TileManager.state m1)
                 else State.render_tiles (TileManager.state m1)) j).
Proof.
  intros Hv Hbg Hoc Hob Hoh. unfold set_tiles, gen_tiles.
  fold (image_w m) (image_h m). fold (grid_w m) (grid_h m). fold (num_lists m).
  fold (image_center m).
  destruct (TileOrder_eqb (TileManager.tile_order m) TILE_HILBERT_SPIRAL) eqn:Eo.
  { exfalso. apply Hoh. destruct (TileManager.tile_order m); try discriminate.
    reflexivity. }
  rewrite Hbg. cbn [negb]. change (seqZ 0 1) with [0]. cbn [fold_left].
  unfold gen_slice. change (0 =? 1 - 1) with true. cbn match.
  replace (image_h m - 0 * Z.quot (image_h m) 1) with (image_h m) by lia.
  replace (Z.quot (image_h m) 1 * 0) with 0 by lia.
  fold (grid_h m). fold (chunk_size m).
  cbn [g_tiles g_queues g_tile_list].
  intros [= <-] j Hj0 Hj.
  pose proof (gen_rows_sorted m _ Hv Hbg Hoc Hob (gen_geom_start m Hv) eq_refl)
    as [(_ & Hcnt) Hsorted].
  rewrite Hbg in Hsorted, Hcnt. cbn [negb] in Hsorted, Hcnt.
  cbv zeta in Hsorted.
  set (g := fold_left _ (seqZ 0 (grid_h m)) _) in *.
  destruct Hcnt as (_ & Hct & Hsum).
  destruct (chunk_size_bounds m Hv) as [Hc HT].
  assert (Hjd : 0 <= j < g_cur_device g) by nia.
  specialize (Hsorted j Hjd).
  unfold gen_store, TileManager.upd_state.
  cbn [TileManager.state TileManager.set_state State.tiles State.set_tiles
       State.denoise_tiles State.set_denoise_tiles State.render_tiles
       State.set_render_tiles State.set_tile_stride State.set_buffer
       State.set_num_tiles].
  destruct (TileManager.only_denoise m); exact Hsorted.
Qed.

(** In background mode every list that got its full share of tiles is
    sorted.  After [set_tiles] in one of the orders right-to-left,
    left-to-right and top-to-bottom: a list that was given
    [tiles_per_device] tiles (the list [j] when [(j+1) * tiles_per_device]
    does not exceed the number of tiles) is sorted by [TileComparator]: no
    tile stands before one that the comparison puts in front of it. *)
Theorem full_chunks_sorted m m1 j :
  valid_config m -> TileManager.background m = true ->
  TileManager.tile_order m = TILE_RIGHT_TO_LEFT
  \/ TileManager.tile_order m = TILE_LEFT_TO_RIGHT
  \/ TileManager.tile_order m = TILE_TOP_TO_BOTTOM ->
  set_tiles indeterminate m = Some m1 ->
  0 <= j -> (j + 1) * chunk_size m <= grid_w m * grid_h m ->
  sorted_by
    (TileComparator indeterminate (TileManager.tile_order m) (image_center m)
       (State.tiles (TileManager.state m1)))
    (queue_at (if TileManager.only_denoise m
               then State.denoise_tiles (TileManager.state m1)
               else State.render_tiles (TileManager.state m1)) j).
Proof.
  intros Hv Hbg Ho Hset Hj0 Hj.
  apply strongly_sorted_by.
  apply (set_tiles_sorted m m1 Hv Hbg); try assumption;
    destruct Ho as [->|[->| ->]]; discriminate.
Qed.

(** * [set_tiles] and [next] *)

(** [set_tiles] returns on images and tiles of at most 32768 pixels a side,
    where no [int] sum or product of [gen_tiles] leaves the [int] range and
    no division is by zero: for tile sizes and a device count of at least 1
    and a divider of at least 1, the [assert] of [gen_tiles] holds and the
    Hilbert spiral reaches its centre.  It renews the tiles, the lists, the
    stride, the number of tiles and the size of the buffer, and leaves the
    rest of the manager as it was: there is at least one tile, one for every
    cell of the grid, the stride is the width of the grid, and the buffer
    has the size of the image at the current divider. *)
Theorem set_tiles_returns m :
  valid_config m ->
  1 <= State.resolution_divider (TileManager.state m) ->
  I2.x (TileManager.tile_size m) <= 32768 ->
  I2.y (TileManager.tile_size m) <= 32768 ->
  0 <= BufferParams.width (TileManager.params m) <= 32768 ->
  0 <= BufferParams.height (TileManager.params m) <= 32768 ->
  exists m',
    set_tiles indeterminate m = Some m'
    /\ retiled m m'
    /\ 1 <= State.num_tiles (TileManager.state m')
    /\ State.num_tiles (TileManager.state m') <= 32768 * 32768
    /\ Z.of_nat (length (State.tiles (TileManager.state m')))
       = State.num_tiles (TileManager.state m')
    /\ State.tile_stride (TileManager.state m') = grid_w m
    /\ BufferParams.width (State.buffer (TileManager.state m')) = image_w m
    /\ BufferParams.height (State.buffer (TileManager.state m')) = image_h m.
Proof.
  intros Hv Hdiv Htx Hty Hw Hh.
  destruct (set_tiles_retiled m Hv) as (m' & Hset & Hret).
  exists m'. split; [exact Hset|]. split; [exact Hret|].
  pose proof Hv as (Hx & Hy & _).
  pose proof (grid_w_pos m Hx) as Hgw. pose proof (grid_h_pos m Hy) as Hgh.
  assert (Hiw : image_w m <= 32768).
  { unfold image_w. rewrite Z.quot_div_nonneg by lia.
    assert (BufferParams.width (TileManager.params m)
            / State.resolution_divider (TileManager.state m)
            <= BufferParams.width (TileManager.params m))
      by (apply Z.div_le_upper_bound; nia).
    lia. }
  assert (Hih : image_h m <= 32768).
  { unfold image_h. rewrite Z.quot_div_nonneg by lia.
    assert (BufferParams.height (TileManager.params m)
            / State.resolution_divider (TileManager.state m)
            <= BufferParams.height (TileManager.params m))
      by (apply Z.div_le_upper_bound; nia).
    lia. }
  assert (Hgw' : grid_w m <= 32768).
  { pose proof (image_w_pos m). unfold grid_w.
    destruct (_ >=? _); [lia|]. rewrite Z.quot_div_nonneg by lia.
    apply Z.div_le_upper_bound; nia. }
  assert (Hgh' : grid_h m <= 32768).
  { pose proof (image_h_pos m). unfold grid_h.
    destruct (_ >=? _); [lia|]. rewrite Z.quot_div_nonneg by lia.
    apply Z.div_le_upper_bound; nia. }
  destruct Hret as (_ & _ & _ & _ & Hn). rewrite Hn.
  split; [nia|]. split; [nia|].
  revert Hset. unfold set_tiles.
  destruct (gen_tiles indeterminate (negb (TileManager.background m)) m)
    as [[m0 n]|] eqn:Hg; [|discriminate].
  destruct (gen_tiles_count _ m m0 n Hv Hg) as [-> Hlen].
  destruct (gen_tiles_some (negb (TileManager.background m)) m Hv eq_refl)
    as (g & Hg'). rewrite Hg in Hg'. injection Hg' as ->.
  intros [= <-]. split; [exact Hlen|]. repeat split.
Qed.

Lemma next_set_tiles m m' :
  next indeterminate m = Some (true, m') ->
  exists mu,
    set_tiles indeterminate mu = Some m'
    /\ mu = TileManager.set_state (TileManager.state mu) m
    /\ State.num_rendered_tiles (TileManager.state mu)
       = State.num_rendered_tiles (TileManager.state m).
Proof.
  unfold next. destruct (done m); [discriminate|].
  destruct (_ && _);
    (set (mu := TileManager.upd_state _ m);
     destruct (set_tiles indeterminate mu) as [m1|] eqn:Hset; [|discriminate];
     intros [= <-]; exists mu; split; [exact Hset|split; reflexivity]).
Qed.


(** * The pixel samples [set_samples] announces *)

Lemma set_tiles_buffer m m' :
  valid_config m ->
  set_tiles indeterminate m = Some m' ->
  BufferParams.width (State.buffer (TileManager.state m')) = image_w m
  /\ BufferParams.height (State.buffer (TileManager.state m')) = image_h m.
Proof.
  intros Hv. unfold set_tiles.
  destruct (gen_tiles_some (negb (TileManager.background m)) m Hv eq_refl)
    as (g & ->).
  intros [= <-]. split; reflexivity.
Qed.

Lemma next_phase_pixels m m' :
  valid_config m ->
  next indeterminate m = Some (true, m') ->
  phase_pixel_samples m'
  = Z.max 1 (Z.quot (BufferParams.width (TileManager.params m))
               (State.resolution_divider (TileManager.state m')))
    * Z.max 1 (Z.quot (BufferParams.height (TileManager.params m))
                 (State.resolution_divider (TileManager.state m')))
    * State.num_samples (TileManager.state m').
Proof.
  intros Hv Hnext.
  destruct (next_set_tiles m m' Hnext) as (mu & Hset & Hc & _).
  assert (Hvu : valid_config mu) by (rewrite Hc; exact Hv).
  destruct (set_tiles_buffer mu m' Hvu Hset) as [Hw Hh].
  destruct (set_tiles_retiled mu Hvu) as (m'' & Hset' & _ & _ & _ & Hd & _).
  rewrite Hset in Hset'. injection Hset' as <-.
  unfold phase_pixel_samples. rewrite Hw, Hh. unfold image_w, image_h.
  rewrite Hd. replace (TileManager.params mu) with (TileManager.params m)
    by (rewrite Hc; reflexivity).
  reflexivity.
Qed.

Section PixelSamples.

Variables (w h n : Z).
Hypothesis Hw : 1 <= w.
Hypothesis Hh : 1 <= h.
Hypothesis Hn : 1 <= n.

Lemma configured_next m m' :
  configured w h n m -> m' = TileManager.set_state (TileManager.state m') m ->
  configured w h n m'.
Proof. intros Hc ->. exact Hc. Qed.

Lemma full_size_pixels : Z.max 1 (Z.quot w 1) * Z.max 1 (Z.quot h 1) = w * h.
Proof using Hw Hh.
  clear indeterminate. rewrite !Z.quot_1_r, !Z.max_r by lia. reflexivity.
Qed.

(** At the final resolution, every further sample is one phase on the whole
    image. *)
Lemma final_pixel_samples (k : nat) :
  forall m j fuel,
    configured w h n m -> TileManager.progressive m = true ->
    phase m = (1, j, 1) ->
    Z.of_nat k = Z.max 0 (n - (j + 1)) ->
    (k < fuel)%nat ->
    next_pixel_samples indeterminate fuel m = Some (Z.of_nat k * (w * h)).
Proof using Hw Hh.
  induction k as [|k IH]; intros m j fuel Hc Hp Hph Hk Hfuel;
    (destruct fuel as [|fuel]; [lia|]); injection Hph as Hd Hs Hns;
    pose proof Hc as (Hv & Hr & Hnm & Hpw & Hph); cbn [next_pixel_samples].
  - rewrite next_done; [reflexivity|exact Hr|exact Hd|lia].
  - destruct (next_sample m Hv Hp Hr Hd) as (m' & Hnext & Hm' & Hph'); [lia|].
    rewrite Hnext. rewrite Hs in Hph'.
    rewrite (next_phase_pixels m m' Hv Hnext).
    injection Hph' as Hd' Hs' Hns'. rewrite Hd', Hns', Hpw, Hph.
    rewrite full_size_pixels.
    rewrite (IH m' (j + 1) fuel); [| | | | |lia].
    + cbn [fmap option_fmap option_map]. f_equal. lia.
    + exact (configured_next m m' Hc Hm').
    + rewrite Hm'. exact Hp.
    + unfold phase. rewrite Hd', Hs', Hns'. reflexivity.
    + lia.
Qed.

(** The preview phases below the divider [2^(j+1)], then the samples: what
    [next] renders, and what the loop of [set_samples] counts for the
    previews. *)
Lemma preview_pixel_samples_rendered (j : nat) :
  forall m fuel,
    configured w h n m -> TileManager.progressive m = true ->
    State.resolution_divider (TileManager.state m) = 2 ^ Z.of_nat (S j) ->
    (S j + Z.to_nat (n - 1) < fuel)%nat ->
    exists P,
      next_pixel_samples indeterminate fuel m = Some (P + n * (w * h))
      /\ 0 <= P <= Z.of_nat j * (w * h)
      /\ forall acc fuel',
           (j <= fuel')%nat -> 0 <= acc ->
           acc + Z.of_nat j * (w * h) < 2 ^ 64 ->
           preview_pixel_samples fuel' (TileManager.params m)
             (2 ^ Z.of_nat j) acc = acc + P.
Proof using Hw Hh Hn.
  induction j as [|j IH]; intros m fuel Hc Hp Hd Hfuel;
    (destruct fuel as [|fuel]; [lia|]);
    pose proof Hc as (Hv & Hr & Hnm & Hpw & Hph); cbn [next_pixel_samples].
  - destruct (next_halve m Hv Hp) as (m1 & Hnext & Hm1 & Hph1);
      [rewrite Hd; reflexivity|].
    rewrite Hd in Hph1. change (Z.quot (2 ^ Z.of_nat 1) 2) with 1 in Hph1.
    rewrite Hnext, (next_phase_pixels m m1 Hv Hnext).
    pose proof Hph1 as Hph1'. injection Hph1' as Hd1 Hs1 Hn1.
    rewrite Hd1, Hn1, Hpw, Hph, full_size_pixels.
    rewrite (final_pixel_samples (Z.to_nat (n - 1)) m1 0 fuel);
      [|exact (configured_next m m1 Hc Hm1)|rewrite Hm1; exact Hp|exact Hph1
       |lia|lia].
    exists 0.
    split; [cbn [fmap option_fmap option_map]; f_equal;
            rewrite Z2Nat.id by lia; ring|].
    split; [lia|]. intros acc fuel' _ _ _. change (2 ^ Z.of_nat 0) with 1.
    destruct fuel'; cbn [preview_pixel_samples];
      [|change (1 >? 1) with false; cbv iota]; lia.
  - assert (Hpow : 2 ^ Z.of_nat (S (S j)) = 2 * 2 ^ Z.of_nat (S j)).
    { rewrite (Nat2Z.inj_succ (S j)), Z.pow_succ_r by lia. reflexivity. }
    assert (Hpos : 0 < 2 ^ Z.of_nat j) by (apply Z.pow_pos_nonneg; lia).
    assert (Hpow1 : 2 ^ Z.of_nat (S j) = 2 * 2 ^ Z.of_nat j).
    { rewrite (Nat2Z.inj_succ j), Z.pow_succ_r by lia. reflexivity. }
    destruct (next_halve m Hv Hp) as (m1 & Hnext & Hm1 & Hph1);
      [rewrite Hd; lia|].
    rewrite Hd, Hpow in Hph1.
    replace (Z.quot (2 * 2 ^ Z.of_nat (S j)) 2) with (2 ^ Z.of_nat (S j))
      in Hph1 by (rewrite Z.mul_comm, Z.quot_mul; lia).
    rewrite Hnext, (next_phase_pixels m m1 Hv Hnext).
    injection Hph1 as Hd1 Hs1 Hn1.
    rewrite Hd1, Hn1, Hpw, Hph.
    set (iw := Z.max 1 (Z.quot w (2 ^ Z.of_nat (S j)))).
    set (ih := Z.max 1 (Z.quot h (2 ^ Z.of_nat (S j)))).
    assert (Hiw : 1 <= iw <= w).
    { unfold iw. rewrite Z.quot_div_nonneg by lia.
      pose proof (Z.div_le_upper_bound w (2 ^ Z.of_nat (S j)) w). nia. }
    assert (Hih : 1 <= ih <= h).
    { unfold ih. rewrite Z.quot_div_nonneg by lia.
      pose proof (Z.div_le_upper_bound h (2 ^ Z.of_nat (S j)) h). nia. }
    assert (Hc1 : configured w h n m1) by exact (configured_next m m1 Hc Hm1).
    destruct (IH m1 fuel Hc1) as (P & HP & HPb & Hloop);
      [rewrite Hm1; exact Hp|exact Hd1|lia|].
    rewrite HP. exists (iw * ih + P).
    split; [cbn [fmap option_fmap option_map]; f_equal; lia|].
    split; [nia|].
    intros acc fuel' Hf Hacc Hbound. destruct fuel' as [|fuel']; [lia|].
    cbn [preview_pixel_samples].
    assert ((2 ^ Z.of_nat (S j) >? 1) = true) as ->
      by (rewrite Z.gtb_ltb; apply Z.ltb_lt; lia).
    rewrite Hpw, Hph. fold iw ih.
    replace (Z.shiftr (2 ^ Z.of_nat (S j)) 1) with (2 ^ Z.of_nat j).
    2:{ rewrite Z.shiftr_div_pow2 by lia. change (2 ^ 1) with 2.
        rewrite Hpow1, Z.mul_comm, Z.div_mul; lia. }
    assert (Hwh : iw * ih <= w * h) by nia.
    assert (Hjwh : 0 <= Z.of_nat j * (w * h)) by nia.
    unfold uint64_t. rewrite (Z.mod_small (iw * ih)) by nia.
    rewrite (Z.mod_small (acc + iw * ih)) by nia.
    replace (TileManager.params m) with (TileManager.params m1)
      by (rewrite Hm1; reflexivity).
    rewrite Hloop; [lia|lia|nia|nia].
Qed.

End PixelSamples.

Lemma reset_total m0 params n m :
  TileManager.only_denoise m0 = false -> n <> INT_MAX ->
  TileManager.range_num_samples m0 = -1 ->
  reset m0 params n = Some m ->
  let w := BufferParams.width params in
  let h := BufferParams.height params in
  exists d,
    get_divider w h (TileManager.start_resolution m0) = Some d
    /\ m = TileManager.set_state (TileManager.state m)
             (TileManager.set_num_samples n (TileManager.set_params params m0))
    /\ State.resolution_divider (TileManager.state m) = d
    /\ State.sample (TileManager.state m)
       = TileManager.range_start_sample m0 - 1
    /\ State.num_samples (TileManager.state m) = 0
    /\ State.total_pixel_samples (TileManager.state m)
       = let t :=
           uint64_t (preview_pixel_samples (Z.to_nat (Z.quot d 2)) params
                       (Z.quot d 2) 0
                     + uint64_t (n * w * h)) in
         if TileManager.schedule_denoising m0
         then uint64_t (t + uint64_t (w * h)) else t.
Proof.
  clear indeterminate.
  intros Hod Hne Hr. unfold reset, set_samples.
  cbn [TileManager.params TileManager.set_params TileManager.set_num_samples
       TileManager.num_samples TileManager.only_denoise
       TileManager.start_resolution].
  apply Z.eqb_neq in Hne. rewrite Hne, Hod.
  destruct (get_divider _ _ _) as [d|] eqn:Ed; [|discriminate].
  cbn [TileManager.upd_state TileManager.params TileManager.set_state
       TileManager.start_resolution].
  change (get_divider _ _ _)
    with (get_divider (BufferParams.width params) (BufferParams.height params)
            (TileManager.start_resolution m0)).
  rewrite Ed.
  intros [= <-]. exists d. split; [reflexivity|].
  unfold get_num_effective_samples.
  cbn. rewrite Hod, Hr. cbn.
  repeat (split; [reflexivity|]). reflexivity.
Qed.

(** The total that [set_samples] announces is what [next] renders.  After
    [reset] on an image with pixels, for [n >= 1] samples, the whole range to
    render, in [int] range: the pixels of the buffers of all the phases that
    [next] sets until it returns [false], each counted once for every sample
    of its phase, add up to [state.total_pixel_samples], less the pixels of
    the image once when denoising is scheduled.  This holds for progressive
    rendering from any preview divider, and for a batch render when [reset]
    leaves the divider 1. *)
Theorem total_pixel_samples_rendered m0 params n (k : nat) m fuel :
  let w := BufferParams.width params in
  let h := BufferParams.height params in
  valid_config m0 ->
  TileManager.only_denoise m0 = false ->
  TileManager.range_num_samples m0 = -1 ->
  TileManager.range_start_sample m0 = 0 ->
  1 <= w -> 1 <= h -> 1 <= n -> n * w * h < INT_MAX ->
  reset m0 params n = Some m ->
  State.resolution_divider (TileManager.state m) = 2 ^ Z.of_nat k ->
  (TileManager.progressive m0 = false -> k = 0%nat) ->
  (k + Z.to_nat n < fuel)%nat ->
  exists rendered,
    next_pixel_samples indeterminate fuel m = Some rendered
    /\ State.total_pixel_samples (TileManager.state m)
       = rendered + (if TileManager.schedule_denoising m0 then w * h else 0).
Proof.
  intros w h Hv Hod Hr Hstart Hw Hh Hn Hint Hreset Hd Hbatch Hfuel.
  assert (Hne : n <> INT_MAX) by (unfold INT_MAX in *; nia).
  destruct (reset_total m0 params n m Hod Hne Hr Hreset)
    as (d & Ed & Hm & Hd' & Hs & Hns & Htot).
  fold w h in Ed, Htot. rewrite Hd in Hd'. subst d.
  assert (Hc : configured w h n m) by (rewrite Hm; repeat split; try apply Hv; assumption).
  assert (Hpm : TileManager.progressive m = TileManager.progressive m0)
    by (rewrite Hm; reflexivity).
  assert (Hwh : 1 <= w * h <= n * w * h) by nia.
  assert (Hk : k = 0%nat \/ 2 ^ Z.of_nat k <= Z.max w h).
  { assert (Hwh' : w * h <= INT_MAX) by nia.
    destruct (get_divider_bound w h _ _ Hw Hh Hwh' Ed) as (k' & E & Hb).
    apply Z.pow_inj_r in E; [|lia|lia|lia].
    apply Nat2Z.inj in E. subst k'. exact Hb. }
  pose proof Hc as (Hvm & Hrm & Hnm & Hpw & Hph).
  destruct k as [|k].
  - (* no preview *)
    change (2 ^ Z.of_nat 0) with 1 in *. change (Z.quot 1 2) with 0 in Htot.
    cbn [Z.to_nat preview_pixel_samples] in Htot.
    assert (Hrendered :
      next_pixel_samples indeterminate fuel m = Some (n * (w * h))).
    { destruct fuel as [|fuel]; [lia|]. cbn [next_pixel_samples].
      destruct (TileManager.progressive m) eqn:Hp.
      - destruct (next_sample m Hvm Hp Hrm Hd) as (m1 & Hnext & Hm1 & Hph1);
          [lia|].
        rewrite Hnext, (next_phase_pixels m m1 Hvm Hnext).
        pose proof Hph1 as Hph1'. injection Hph1' as Hd1 Hs1 Hn1.
        rewrite Hd1, Hn1, Hpw, Hph, (full_size_pixels w h Hw Hh).
        rewrite Hs, Hstart in Hph1. change (0 - 1 + 1) with 0 in Hph1.
        rewrite (final_pixel_samples w h n Hw Hh (Z.to_nat (n - 1)) m1 0 fuel);
          [|exact (configured_next w h n m m1 Hc Hm1)|rewrite Hm1; exact Hp
           |exact Hph1|lia|lia].
        cbn [fmap option_fmap option_map]. f_equal.
        rewrite Z2Nat.id by lia. ring.
      - assert (Hnd : done m = false).
        { unfold done. rewrite Hrm, Hs, Hns, Hnm, Hstart. cbn.
          apply andb_false_intro2. rewrite Z.geb_leb. apply Z.leb_gt. lia. }
        destruct (next indeterminate m) as [[b m1]|] eqn:Hnext.
        2:{ revert Hnext. unfold next. rewrite Hnd, Hp. cbn [andb].
            match goal with
            | |- context [set_tiles _ ?mu] =>
                destruct (set_tiles_retiled mu Hvm) as (m2 & -> & _)
            end. discriminate. }
        assert (Hb : b = true).
        { revert Hnext. unfold next. rewrite Hnd, Hp. cbn [andb].
          destruct (set_tiles _ _); [|discriminate]. intros [= <- _].
          reflexivity. }
        subst b. rewrite (next_phase_pixels m m1 Hvm Hnext).
        destruct (next_set_tiles m m1 Hnext) as (mu & Hset & Hcu & _).
        assert (Hst : State.resolution_divider (TileManager.state m1) = 1
                      /\ State.sample (TileManager.state m1) = 0
                      /\ State.num_samples (TileManager.state m1) = n
                      /\ m1 = TileManager.set_state (TileManager.state m1) m).
        { revert Hnext. unfold next. rewrite Hnd, Hp. cbn [andb].
          match goal with
          | |- context [set_tiles _ ?mu'] =>
              destruct (set_tiles_retiled mu' Hvm)
                as (m2 & -> & Hc2 & Hs2 & Hn2 & Hd2 & _)
          end.
          intros [= <-]. rewrite Hs2, Hn2, Hd2. cbn.
          rewrite Hrm, Hnm, Hs, Hstart. cbn.
          repeat split. rewrite Hc2 at 1. destruct m; reflexivity. }
        destruct Hst as (Hd1 & Hs1 & Hn1 & Hm1).
        rewrite Hd1, Hn1, Hpw, Hph, (full_size_pixels w h Hw Hh).
        destruct fuel as [|fuel]; [lia|]. cbn [next_pixel_samples].
        rewrite next_done;
          [|rewrite Hm1; exact Hrm|exact Hd1|rewrite Hm1 at 1; cbn; lia].
        cbn [fmap option_fmap option_map]. f_equal. ring. }
    exists (n * (w * h)). split; [exact Hrendered|].
    rewrite Htot. unfold uint64_t, INT_MAX in *.
    rewrite (Z.mod_small (n * w * h)) by lia.
    rewrite (Z.mod_small (0 + n * w * h)) by lia.
    destruct (TileManager.schedule_denoising m0); [|ring].
    rewrite (Z.mod_small (w * h)) by lia.
    rewrite Z.mod_small by lia. ring.
  - (* previews *)
    destruct Hk as [Hk|Hk]; [discriminate|].
    assert (Hp : TileManager.progressive m = true).
    { rewrite Hpm. destruct (TileManager.progressive m0); [reflexivity|].
      specialize (Hbatch eq_refl). discriminate. }
    assert (Hk30 : Z.of_nat (S k) < 31).
    { apply (Z.pow_lt_mono_r_iff 2); [lia|lia|].
      unfold INT_MAX in Hint. nia. }
    destruct (preview_pixel_samples_rendered w h n Hw Hh Hn k m fuel Hc Hp Hd)
      as (P & HP & HPb & Hloop); [lia|].
    exists (P + n * (w * h)). split; [exact HP|].
    assert (Hq : Z.quot (2 ^ Z.of_nat (S k)) 2 = 2 ^ Z.of_nat k).
    { rewrite Nat2Z.inj_succ, Z.pow_succ_r by lia.
      rewrite Z.mul_comm, Z.quot_mul; lia. }
    rewrite Hq in Htot.
    assert (Hparams : TileManager.params m = params) by (rewrite Hm; reflexivity).
    assert (HL : preview_pixel_samples (Z.to_nat (2 ^ Z.of_nat k)) params
                   (2 ^ Z.of_nat k) 0 = 0 + P).
    { rewrite <- Hparams. apply Hloop.
      - pose proof (Z.pow_gt_lin_r 2 (Z.of_nat k)).
        assert (0 < 2 ^ Z.of_nat k) by (apply Z.pow_pos_nonneg; lia). lia.
      - lia.
      - unfold INT_MAX in Hint. nia. }
    rewrite HL in Htot. rewrite Htot. unfold uint64_t, INT_MAX in *.
    assert (HPs : 0 <= P < 30 * 2 ^ 31) by nia.
    rewrite (Z.mod_small (n * w * h)) by lia.
    rewrite (Z.mod_small (0 + P + n * w * h)) by lia.
    destruct (TileManager.schedule_denoising m0); [|ring].
    rewrite (Z.mod_small (w * h)) by lia.
    rewrite Z.mod_small by lia. ring.
Qed.

(** * Every denoised tile is released in the end *)

(** One turn of the loop of the [DENOISE] case: when it leaves a [DENOISED]
    tile as it is, a neighbour of that tile is still to be denoised. *)
Lemma denoise_scan_wait ts tw th index acc n :
  grid_state indeterminate ts tw th (fst acc) ->
  let st := fst acc in
  let cx := Z.quot (Tile.x (tile_at indeterminate (State.tiles st) index))
              (I2.x ts) in
  let cy := Z.quot (Tile.y (tile_at indeterminate (State.tiles st) index))
              (I2.y ts) in
  let a := scan_cell tw cx cy n in
  (denoise_scan indeterminate ts tw th index acc n = acc
   /\ (scan_in_grid tw th cx cy n -> rank_at indeterminate st a = 3 ->
       exists nb, 0 <= nb < tw * th /\ adjacent tw a nb
                  /\ rank_at indeterminate st nb < 3))
  \/ (scan_in_grid tw th cx cy n
      /\ rank_at indeterminate st a = 3
      /\ fst (denoise_scan indeterminate ts tw th index acc n)
         = finish indeterminate st a (negb (n =? 8))).
Proof.
  intros Hg st cx cy a. pose proof Hg as (Hstride & _ & _ & _ & Htw & _).
  unfold denoise_scan. cbv zeta. rewrite Hstride. fold st. fold cx cy.
  destruct (_ || _) eqn:Etest.
  { left. split; [reflexivity|]. intros Hin.
    apply scan_in_grid_test in Hin. congruence. }
  apply scan_in_grid_test in Etest.
  destruct (scan_cell_coords tw th cx cy n Htw Etest) as (Ha & _).
  change ((cy + dy n) * tw + (cx + dx n)) with a. fold a in Ha.
  unfold Tile.eqb. fold (rank_at indeterminate st a).
  change (Tile.rank Tile.DENOISED) with 3.
  destruct (Z.eqb_spec (rank_at indeterminate st a) 3) as [E|E]; cbn [negb].
  2:{ left. split; [reflexivity|]. intros _ ?. contradiction. }
  destruct (neighbors_reached indeterminate ts tw th st a Tile.DENOISED) eqn:En.
  - right. split; [exact Etest|]. split; [exact E|].
    destruct (n =? 8); reflexivity.
  - left. split; [reflexivity|]. intros _ _.
    destruct (neighbors_reached_false ts tw th st a Tile.DENOISED Hg Ha En)
      as (nb & Hnb & Hadj & Hlt).
    exists nb. split; [exact Hnb|]. split; [exact Hadj|exact Hlt].
Qed.

Lemma freed_mono tw th st st' (pending : Z -> Prop) :
  (forall j, 0 <= j < tw * th ->
     (rank_at indeterminate st' j = 3 -> rank_at indeterminate st j = 3)
     /\ (rank_at indeterminate st j < 3 -> rank_at indeterminate st' j < 3)) ->
  denoised_waiting indeterminate tw th st pending ->
  denoised_waiting indeterminate tw th st' pending.
Proof.
  intros Hm Hw idx Hidx Hr. destruct (Hm idx Hidx) as [H1 _].
  destruct (Hw idx Hidx (H1 Hr)) as [Hp|(nb & Hnb & Hadj & Hr0)];
    [left; exact Hp|right].
  exists nb. split; [exact Hnb|]. split; [exact Hadj|].
  apply (Hm nb Hnb). exact Hr0.
Qed.

Lemma promote_freed ts tw th st a pending :
  grid_state indeterminate ts tw th st -> 0 <= a < tw * th ->
  rank_at indeterminate st a = 1 ->
  denoised_waiting indeterminate tw th st pending ->
  denoised_waiting indeterminate tw th (promote indeterminate st a) pending.
Proof.
  intros Hg Ha Hr. apply freed_mono. intros j Hj.
  rewrite (promote_rank ts tw th st a j Hg Ha).
  destruct (decide (a = j)) as [->|_]; split; intros; try lia; assumption.
Qed.

Lemma finish_freed ts tw th st a release pending :
  grid_state indeterminate ts tw th st -> 0 <= a < tw * th ->
  rank_at indeterminate st a = 3 ->
  denoised_waiting indeterminate tw th st pending ->
  denoised_waiting indeterminate tw th (finish indeterminate st a release)
    pending.
Proof.
  intros Hg Ha Hr. apply freed_mono. intros j Hj.
  rewrite (finish_rank ts tw th st a release j Hg Ha).
  destruct (decide (a = j)) as [->|_]; split; intros; try lia; assumption.
Qed.

(** The returned tile marked [DENOISED]: it and the tiles that waited for it
    are those the loop is about to look at. *)
Lemma mark_freed ts tw th st index cx cy :
  grid_state indeterminate ts tw th st ->
  rank_at indeterminate st index = 2 ->
  (0 <= index < tw * th -> cx = index mod tw /\ cy = index / tw) ->
  denoised_waiting indeterminate tw th st (fun _ => False) ->
  denoised_waiting indeterminate tw th
    (mark indeterminate st index Tile.DENOISED) (pending_from tw th cx cy 0).
Proof.
  intros Hg Hr2 Hcell Hw t Ht Hr3.
  pose proof Hg as (_ & _ & _ & _ & Htw & _).
  rewrite (mark_rank ts tw th st index _ t Hg) in Hr3.
  destruct (decide (index = t /\ 0 <= index < tw * th)) as [[<- Hin]|Hn].
  - left. destruct (Hcell Hin) as [-> ->].
    destruct (grid_cell_bounds tw th index Htw Hin) as (Hx & Hy & E).
    exists 8. split; [lia|]. unfold scan_in_grid, scan_cell.
    change (dx 8) with 0. change (dy 8) with 0. split; lia.
  - destruct (Hw t Ht Hr3) as [[]|(nb & Hnb & Hadj & Hrn)].
    destruct (decide (nb = index)) as [->|Hne].
    + left. destruct (Hcell Hnb) as [-> ->].
      destruct (adjacent_offset tw th index t Htw Hnb Ht (adjacent_sym _ _ _ Hadj))
        as (nn & Hnn & Hin & Hc).
      exists nn. apply In_seqZ_8 in Hnn. split; [lia|]. split; [exact Hin|].
      symmetry. exact Hc.
    + right. exists nb. split; [exact Hnb|]. split; [exact Hadj|].
      rewrite (mark_rank ts tw th st index _ nb Hg).
      destruct (decide _) as [[? _]|_]; [congruence|exact Hrn].
Qed.

Lemma finish_cell st a release index :
  Tile.x (tile_at indeterminate
            (State.tiles (finish indeterminate st a release)) index)
  = Tile.x (tile_at indeterminate (State.tiles st) index)
  /\ Tile.y (tile_at indeterminate
               (State.tiles (finish indeterminate st a release)) index)
     = Tile.y (tile_at indeterminate (State.tiles st) index).
Proof.
  destruct (finish_tile st a release index) as (f & Hf & ->).
  destruct (decide _); [|split; reflexivity].
  destruct (Hf (tile_at indeterminate (State.tiles st) index)) as (-> & -> & _).
  split; reflexivity.
Qed.

Lemma render_loop_freed ts tw th D index st0 :
  scan_safe indeterminate ts tw th D st0 ->
  denoised_waiting indeterminate tw th st0 (fun _ => False) ->
  denoised_waiting indeterminate tw th
    (fold_left (render_scan indeterminate ts tw th index) (seqZ 0 9) st0)
    (fun _ => False).
Proof.
  intros Hs Hw.
  apply (fold_scan_inv
           (fun st => scan_safe indeterminate ts tw th D st
                      /\ denoised_waiting indeterminate tw th st
                           (fun _ => False)));
    [|split; assumption].
  intros st n [Hsafe Hwait]. split; [apply render_scan_safe; exact Hsafe|].
  pose proof Hsafe as (Hg & _). pose proof Hg as (_ & _ & _ & _ & Htw & _).
  destruct (render_scan_cases ts tw th index st n Hg)
    as [[-> _]|(Hin & Hr & Hnb & ->)]; [exact Hwait|].
  destruct (scan_cell_coords tw th _ _ n Htw Hin) as (Ha & _).
  apply (promote_freed ts); assumption.
Qed.

Lemma denoise_loop_freed ts tw th D index acc0 :
  scan_safe indeterminate ts tw th D (fst acc0) ->
  denoised_waiting indeterminate tw th (fst acc0)
    (pending_from tw th
       (Z.quot (Tile.x (tile_at indeterminate (State.tiles (fst acc0)) index))
          (I2.x ts))
       (Z.quot (Tile.y (tile_at indeterminate (State.tiles (fst acc0)) index))
          (I2.y ts))
       0) ->
  denoised_waiting indeterminate tw th
    (fst (fold_left (denoise_scan indeterminate ts tw th index) (seqZ 0 9) acc0))
    (fun _ => False).
Proof.
  intros Hs Hw.
  set (cx := Z.quot (Tile.x (tile_at indeterminate (State.tiles (fst acc0)) index))
               (I2.x ts)) in *.
  set (cy := Z.quot (Tile.y (tile_at indeterminate (State.tiles (fst acc0)) index))
               (I2.y ts)) in *.
  assert (H9 :
    (fun n acc =>
       scan_safe indeterminate ts tw th D (fst acc)
       /\ denoised_waiting indeterminate tw th (fst acc)
            (pending_from tw th cx cy n)
       /\ Z.quot (Tile.x (tile_at indeterminate (State.tiles (fst acc)) index))
            (I2.x ts) = cx
       /\ Z.quot (Tile.y (tile_at indeterminate (State.tiles (fst acc)) index))
            (I2.y ts) = cy)
      9 (fold_left (denoise_scan indeterminate ts tw th index) (seqZ 0 9) acc0)).
  { apply fold_left_seqZ_ind;
      [lia|split; [exact Hs|split; [exact Hw|split; reflexivity]]|].
    intros n acc Hn (Hsafe & Hwait & Ecx & Ecy).
    pose proof Hsafe as (Hg & _). pose proof Hg as (_ & _ & _ & _ & Htw & _).
    split; [apply denoise_scan_safe; exact Hsafe|].
    destruct (denoise_scan_wait ts tw th index acc n Hg)
      as [[-> Hstay]|(Hin & Hr & ->)].
    - rewrite Ecx, Ecy in Hstay. split; [|split; assumption].
      intros t Ht Hr3. destruct (Hwait t Ht Hr3) as [(n' & Hn' & Hin' & ->)|Hex];
        [|right; exact Hex].
      destruct (decide (n' = n)) as [->|Hne].
      + right. apply Hstay; assumption.
      + left. exists n'. split; [lia|]. split; [exact Hin'|reflexivity].
    - rewrite Ecx, Ecy in Hin, Hr |- *.
      destruct (scan_cell_coords tw th cx cy n Htw Hin) as (Ha & _).
      destruct (finish_cell (fst acc) (scan_cell tw cx cy n) (negb (n =? 8)) index)
        as [-> ->].
      split; [|split; assumption].
      pose proof (finish_freed ts tw th (fst acc) _ (negb (n =? 8)) _ Hg Ha Hr Hwait)
        as Hw'.
      intros t Ht Hr3. destruct (Hw' t Ht Hr3) as [(n' & Hn' & Hin' & ->)|Hex];
        [|right; exact Hex].
      destruct (decide (n' = n)) as [->|Hne].
      + rewrite (finish_rank ts tw th (fst acc) _ _ _ Hg Ha) in Hr3.
        destruct (decide _) as [_|Hc]; [lia|contradiction].
      + left. exists n'. split; [lia|]. split; [exact Hin'|reflexivity]. }
  destruct H9 as (_ & Hw9 & _).
  intros t Ht Hr3. destruct (Hw9 t Ht Hr3) as [(n' & Hn' & _)|Hex];
    [lia|right; exact Hex].
Qed.

Lemma return_tile_freed m index b d m' D :
  TileManager.schedule_denoising m = true ->
  TileManager.only_denoise m = false ->
  scan_safe indeterminate (TileManager.tile_size m) (grid_w m) (grid_h m) D
    (TileManager.state m) ->
  denoised_waiting indeterminate (grid_w m) (grid_h m) (TileManager.state m)
    (fun _ => False) ->
  return_tile indeterminate m index = Some (b, d, m') ->
  denoised_waiting indeterminate (grid_w m) (grid_h m) (TileManager.state m')
    (fun _ => False).
Proof.
  intros Hsd Hod Hs Hw Hret. pose proof Hs as (Hg & _).
  destruct (return_tile_cases m index b d m' Hret)
    as [(_ & _ & ? & _)|[(Hr & _ & _ & _ & _ & ->)
       |[(_ & ? & _)|(Hr & _ & _ & -> & _)]]]; try congruence;
    cbn [TileManager.state TileManager.set_state].
  - apply (render_loop_freed _ _ _ D).
    + apply mark_safe; [exact Hs|left; split; [exact Hr|reflexivity]].
    + revert Hw. apply freed_mono. intros j Hj.
      rewrite (mark_rank _ _ _ _ _ _ j Hg).
      destruct (decide _) as [[<- _]|_]; cbn [Tile.rank]; split; intros;
        try lia; assumption.
  - apply (denoise_loop_freed _ _ _ D).
    + apply mark_safe; [exact Hs|right; split; [exact Hr|reflexivity]].
    + cbn [fst].
      apply (mark_freed (TileManager.tile_size m)); [exact Hg|exact Hr| |exact Hw].
      intros Hin. rewrite mark_tile.
      destruct (decide _) as [_|Hn]; [|exfalso; apply Hn; split; [reflexivity|]].
      * change (Tile.x (Tile.set_state ?s ?t)) with (Tile.x t).
        change (Tile.y (Tile.set_state ?s ?t)) with (Tile.y t).
        apply (grid_state_cell _ _ _ _ _ Hg Hin).
      * destruct Hg as (_ & Hl & _). lia.
Qed.

Lemma next_tile_tiles m device :
  State.tiles (TileManager.state (snd (next_tile m device)))
  = State.tiles (TileManager.state m).
Proof.
  unfold next_tile.
  repeat match goal with
         | |- context [if ?c then _ else _] => destruct c
         | |- context [match ?c with [] => _ | _ :: _ => _ end] => destruct c
         end; reflexivity.
Qed.

Lemma run_calls_freed calls :
  forall m D given m',
    TileManager.schedule_denoising m = true ->
    TileManager.only_denoise m = false ->
    denoise_inv indeterminate m D ->
    denoised_waiting indeterminate (grid_w m) (grid_h m) (TileManager.state m)
      (fun _ => False) ->
    run_calls indeterminate calls m = Some (given, m') ->
    denoised_waiting indeterminate (grid_w m') (grid_h m')
      (TileManager.state m') (fun _ => False).
Proof.
  induction calls as [|c calls IH]; intros m D given m' Hsd Hod Hinv Hw Hrun.
  - injection Hrun as <- <-. exact Hw.
  - destruct c as [device|index]; cbn [run_calls] in Hrun.
    + pose proof (next_tile_config m device) as Hc.
      pose proof (next_tile_tiles m device) as Ht.
      pose proof (next_tile_divider m device) as Hd.
      destruct (next_tile m device) as [[idx|] m1] eqn:Hnext; cbn [snd] in *.
      * destruct (run_calls indeterminate calls m1) as [[given1 m2]|] eqn:Hrun1;
          [|discriminate].
        injection Hrun as <- <-.
        pose proof (next_tile_denoise_inv m device D idx m1 Hinv Hnext) as Hstep.
        destruct (grid_set_state m _ Hd) as [Egw Egh]. rewrite <- Hc in Egw, Egh.
        apply (IH m1 (if denoise_pending m device then D ++ [idx] else D)
                 given1 m2);
          [rewrite Hc; exact Hsd|rewrite Hc; exact Hod|exact Hstep|
          |exact Hrun1].
        rewrite Egw, Egh. intros t Htr. unfold rank_at. rewrite Ht.
        intros Hr3. destruct (Hw t Htr Hr3) as [[]|(nb & Hnb & Hadj & Hlt)].
        right. exists nb. auto.
      * apply next_tile_none in Hnext. subst m1. eauto.
    + destruct (return_tile indeterminate m index) as [[[b d] m1]|] eqn:Hret;
        [|discriminate].
      pose proof (return_tile_config m index b d m1 Hret) as Hc.
      pose proof (return_tile_divider m index b d m1 Hret) as Hd.
      destruct (grid_set_state m _ Hd) as [Egw Egh]. rewrite <- Hc in Egw, Egh.
      apply (IH m1 D given m'); [rewrite Hc; exact Hsd|rewrite Hc; exact Hod
                                |eapply return_tile_denoise_inv; eassumption
                                | |exact Hrun].
      rewrite Egw, Egh. destruct Hinv as [Hs _].
      apply (return_tile_freed m index b d m1 D); assumption.
Qed.

(** When every tile has been denoised, every tile is released.  With
    denoising scheduled, after [set_tiles] on an image that is not cut into
    slices, in an order other than the Hilbert spiral, and whatever calls of
    [next_tile] and [return_tile] the devices make, in whatever order: a
    tile that is [DENOISED] but not [DONE] has a neighbour that is still to
    be denoised; so once no tile is below [DENOISED], every tile is
    [DONE]. *)
Theorem all_denoised_all_done m m1 calls given m2 :
  valid_config m -> single_slice m ->
  TileManager.tile_order m <> TILE_HILBERT_SPIRAL ->
  TileManager.schedule_denoising m = true ->
  TileManager.only_denoise m = false ->
  set_tiles indeterminate m = Some m1 ->
  run_calls indeterminate calls m1 = Some (given, m2) ->
  let st := TileManager.state m2 in
  (forall idx, 0 <= idx < grid_w m * grid_h m ->
     Tile.state (tile_at indeterminate (State.tiles st) idx) = Tile.DENOISED ->
     exists nb, 0 <= nb < grid_w m * grid_h m /\ adjacent (grid_w m) idx nb
                /\ rank_at indeterminate st nb < 3)
  /\ ((forall idx, 0 <= idx < grid_w m * grid_h m ->
         3 <= rank_at indeterminate st idx) ->
      forall idx, 0 <= idx < grid_w m * grid_h m ->
        Tile.state (tile_at indeterminate (State.tiles st) idx) = Tile.DONE).
Proof.
  intros Hv Hs Ho Hsd Hod Hset Hrun. cbv zeta.
  destruct (set_tiles_grid_size m m1 Hv Hset) as (Egw & Egh & Ets).
  pose proof (set_tiles_config m m1 Hv Hset) as Hc.
  destruct (set_tiles_denoise_inv m m1 Hv Hs Ho Hod Hset) as [Hinv Hrank].
  assert (Hsd1 : TileManager.schedule_denoising m1 = true)
    by (rewrite Hc; exact Hsd).
  assert (Hod1 : TileManager.only_denoise m1 = false)
    by (rewrite Hc; exact Hod).
  assert (Hw1 : denoised_waiting indeterminate (grid_w m1) (grid_h m1)
                  (TileManager.state m1) (fun _ => False)).
  { rewrite Egw, Egh. intros idx Hidx Hr3. rewrite (Hrank idx Hidx) in Hr3.
    discriminate. }
  pose proof (run_calls_freed calls m1 [] given m2 Hsd1 Hod1 Hinv Hw1 Hrun)
    as Hw2.
  destruct (run_calls_grid calls m1 given m2 Hrun) as (E2w & E2h & _).
  rewrite E2w, E2h, Egw, Egh in Hw2.
  assert (Hwait : forall idx, 0 <= idx < grid_w m * grid_h m ->
            rank_at indeterminate (TileManager.state m2) idx = 3 ->
            exists nb, 0 <= nb < grid_w m * grid_h m
                       /\ adjacent (grid_w m) idx nb
                       /\ rank_at indeterminate (TileManager.state m2) nb < 3).
  { intros idx Hidx Hr3. destruct (Hw2 idx Hidx Hr3) as [[]|Hex]. exact Hex. }
  split.
  - intros idx Hidx Est. apply (Hwait idx Hidx). unfold rank_at.
    rewrite Est. reflexivity.
  - intros Hall idx Hidx. pose proof (Hall idx Hidx) as H3.
    destruct (decide (rank_at indeterminate (TileManager.state m2) idx = 3))
      as [E|E].
    + destruct (Hwait idx Hidx E) as (nb & Hnb & _ & Hlt).
      specialize (Hall nb Hnb). lia.
    + unfold rank_at in *.
      destruct (Tile.state (tile_at indeterminate
                  (State.tiles (TileManager.state m2)) idx));
        cbn [Tile.rank] in *; try lia; reflexivity.
Qed.

End Properties.

(** * Instances *)

Lemma TileManager_new_fresh progressive_ num_samples_ tile_size_
    start_resolution_ preserve_tile_device_ background_ tile_order_
    num_devices_ only_denoise_ :
  start_resolution_ = INT_MAX
  \/ start_resolution_ * start_resolution_ <= INT_MAX ->
  TileManager_new 0 progressive_ num_samples_ tile_size_ start_resolution_
    preserve_tile_device_ background_ tile_order_ num_devices_ only_denoise_
  = Some (fresh_manager progressive_ tile_size_ start_resolution_
            preserve_tile_device_ background_ tile_order_ num_devices_
            only_denoise_ false).
Proof.
  intros Hs. pose proof (get_divider_empty start_resolution_ Hs) as Hd.
  unfold TileManager_new, reset, set_samples, fresh_manager. simpl.
  destruct only_denoise_; simpl; rewrite ?Hd; simpl; rewrite ?Hd; reflexivity.
Qed.

(** C6, as the specification words it, fails on a 1x100 image with
    [start_resolution = 1]: [reset] sets the divider to 64, while
    [(1 >> 1) * (100 >> 1) = 0 <= 1] already holds for [k = 1]. *)
Lemma reset_divider_unclamped_counterexample :
  exists m',
    reset (fresh_manager true (make_int2 64 64) 1 false false TILE_CENTER 1
             false false)
      (BufferParams.mk 1 100 0 0 1 100) 1 = Some m'
    /\ State.resolution_divider (TileManager.state m') = 64
    /\ ~ smallest_unclamped_divider 1 100 1
           (State.resolution_divider (TileManager.state m')).
Proof.
  eexists. split; [vm_compute; reflexivity|]. split; [reflexivity|].
  intros (k & E & _ & Hmin). change (64 = 2 ^ Z.of_nat k) in E.
  assert (k = 6%nat) as ->.
  { destruct (le_lt_dec k 6) as [Hk|Hk].
    - destruct k as [|[|[|[|[|[|[|k]]]]]]]; try lia;
        exfalso; vm_compute in E; discriminate E.
    - assert (128 <= 2 ^ Z.of_nat k)
        by (change 128 with (2 ^ 7); apply Z.pow_le_mono_r; lia).
      lia. }
  specialize (Hmin 1%nat ltac:(lia)). vm_compute in Hmin. discriminate Hmin.
Qed.

Lemma reset_resolution_divider_witness :
  (exists m',
     reset (fresh_manager true (make_int2 64 64) INT_MAX false false
              TILE_CENTER 1 false false)
       (BufferParams.mk 512 512 0 0 512 512) 4 = Some m'
     /\ State.resolution_divider (TileManager.state m') = 1)
  /\ (exists m' (k : nat),
        reset (fresh_manager true (make_int2 64 64) 64 false false
                 TILE_CENTER 1 false false)
          (BufferParams.mk 512 512 0 0 512 512) 4 = Some m'
        /\ State.resolution_divider (TileManager.state m') = 2 ^ Z.of_nat k
        /\ halved 512 k * halved 512 k <= 64 * 64
        /\ forall i, (i < k)%nat -> halved 512 i * halved 512 i > 64 * 64).
Proof.
  split.
  - apply (proj1 (reset_resolution_divider
                    (fresh_manager true (make_int2 64 64) INT_MAX false false
                       TILE_CENTER 1 false false)
                    (BufferParams.mk 512 512 0 0 512 512) 4)).
    reflexivity.
  - apply (proj2 (reset_resolution_divider
                    (fresh_manager true (make_int2 64 64) 64 false false
                       TILE_CENTER 1 false false)
                    (BufferParams.mk 512 512 0 0 512 512) 4));
      cbn; unfold INT_MAX; [discriminate|lia|lia|lia|lia|lia].
Defined.

Lemma construct_transform_rank_bounds_witness :
  2 <= 10
  /\ 2 <= snd (kernel_filter_construct_transform 10
                 (fun _ _ _ _ _ => replicate 10 float_one)
                 (fun _ _ _ _ _ => replicate 10 float_one)
                 (fun v => v)
                 (fun matrix _ _ _ => matrix)
                 (fun matrix transform _ _ => (matrix, transform))
                 0 [] 1 1 (0, 0, 4, 4) 1 (replicate 100 float_zero) 1
                 float_zero) <= 10.
Proof.
  split; [lia|].
  apply (construct_transform_rank_bounds 10
           (fun _ _ _ _ _ => replicate 10 float_one)
           (fun _ _ _ _ _ => replicate 10 float_one)
           (fun v => v)
           (fun matrix _ _ _ => matrix)
           (fun matrix transform _ _ => (matrix, transform))
           0 [] 1 1 (0, 0, 4, 4) 1 (replicate 100 float_zero) 1 float_zero).
  lia.
Defined.

Lemma next_tile_no_queue_witness :
  next_tile (fresh_manager false (make_int2 64 64) INT_MAX true true
               TILE_CENTER 2 false false) 1
  = (None,
     fresh_manager false (make_int2 64 64) INT_MAX true true TILE_CENTER 2
       false false).
Proof.
  apply (next_tile_no_queue
           (fresh_manager false (make_int2 64 64) INT_MAX true true
              TILE_CENTER 2 false false) 1); cbn; lia.
Defined.



(** C7, as the specification words it, fails: after [reset] has set the
    divider to 8, no phase is rendered at divider 8, and with
    [num_samples = 4] three phases, not four, follow the previews. *)
Lemma progressive_phases_counterexample :
  exists m0 phases,
    reset (fresh_manager true (make_int2 64 64) 64 false false TILE_CENTER 1
             false false)
      (BufferParams.mk 512 512 0 0 512 512) 4 = Some m0
    /\ State.resolution_divider (TileManager.state m0) = 8
    /\ next_phases blank_tile 8 m0 = Some phases
    /\ phases = [(4, 0, 1); (2, 0, 1); (1, 0, 1); (1, 1, 1); (1, 2, 1); (1, 3, 1)]
    /\ forall p, p ∈ phases -> fst (fst p) <> 8.
Proof.
  do 2 eexists. split; [vm_compute; reflexivity|]. split; [vm_compute; reflexivity|].
  split; [vm_compute; reflexivity|]. split; [vm_compute; reflexivity|].
  intros p Hp. repeat (apply elem_of_cons in Hp as [->|Hp]; [cbn; lia|]).
  apply elem_of_nil in Hp. contradiction.
Qed.

Lemma progressive_phases_witness :
  exists m0,
    reset (fresh_manager true (make_int2 64 64) 64 false false TILE_CENTER 1
             false false)
      (BufferParams.mk 512 512 0 0 512 512) 4 = Some m0
    /\ State.resolution_divider (TileManager.state m0) = 8
    /\ forall fuel,
         (Z.to_nat (Z.max 1 4) + 3 <= fuel)%nat ->
         next_phases blank_tile fuel m0
         = Some ([(4, 0, 1); (2, 0, 1); (1, 0, 1)]
                 ++ ((fun j => (1, j, 1)) <$> seqZ 1 (4 - 1))).
Proof.
  apply (progressive_phases blank_tile
           (fresh_manager true (make_int2 64 64) 64 false false TILE_CENTER 1
              false false) 4 0 0 512 512).
  - repeat split; cbn; try lia. discriminate.
  - reflexivity.
  - reflexivity.
  - reflexivity.
Defined.

(** C1: the code at the input of the claim.  Both slices write their tiles at
    the indices 0 to 3, so the tiles of slice 0 are lost: the list of device 0
    and the list of device 1 name the same four tiles, which lie in slice 1
    ([y = 20], [device = 1]).  The first tile [next_tile] gives device 0 has
    [y = 20]. *)
Theorem viewport_slices_overwritten (indeterminate : Z -> Tile.t) :
  exists m0 m1 m2 m3,
    reset (fresh_manager false (make_int2 32 32) INT_MAX true false
             TILE_BOTTOM_TO_TOP 2 false false)
      (BufferParams.mk 100 40 0 0 100 40) 1 = Some m0
    /\ State.resolution_divider (TileManager.state m0) = 1
    /\ next indeterminate m0 = Some (true, m1)
    /\ State.render_tiles (TileManager.state m1) = [[0; 1; 2; 3]; [0; 1; 2; 3]]
    /\ next_tile m1 0 = (Some 0, m2)
    /\ Tile.y (tile_at indeterminate (State.tiles (TileManager.state m2)) 0) = 20
    /\ Tile.device (tile_at indeterminate (State.tiles (TileManager.state m2)) 0)
       = 1
    /\ next_tile m2 1 = (Some 0, m3).
Proof.
  do 4 eexists. split; [vm_compute; reflexivity|]. split; [vm_compute; reflexivity|].
  split; [vm_compute; reflexivity|]. split; [vm_compute; reflexivity|]. split; [vm_compute; reflexivity|].
  split; [vm_compute; reflexivity|]. split; vm_compute; reflexivity.
Qed.

(** C4: the code on a 192x192 image with 64x64 tiles and two devices, in
    background mode.  The nine tiles go by chunks of five: the list of device
    1 holds the last four, and since the chunk is not full it is never
    sorted.  It stays in generation order [5; 6; 7; 8], which none of the
    four sorting orders accepts. *)
Theorem partial_chunk_unsorted (indeterminate : Z -> Tile.t) :
  Forall
    (fun order =>
       exists m0 m1,
         reset (fresh_manager false (make_int2 64 64) INT_MAX true true order
                  2 false false)
           (BufferParams.mk 192 192 0 0 192 192) 1 = Some m0
         /\ next indeterminate m0 = Some (true, m1)
         /\ queue_at (State.render_tiles (TileManager.state m1)) 1
            = [5; 6; 7; 8]
         /\ ~ sorted_by
                (TileComparator indeterminate order (make_int2 96 96)
                   (State.tiles (TileManager.state m1)))
                (queue_at (State.render_tiles (TileManager.state m1)) 1))
    [TILE_CENTER; TILE_RIGHT_TO_LEFT; TILE_LEFT_TO_RIGHT; TILE_TOP_TO_BOTTOM].
Proof.
  repeat apply Forall_cons_2; [| | | |apply Forall_nil_2];
    (do 2 eexists; split; [vm_compute; reflexivity|]; split; [vm_compute; reflexivity|];
     split; [vm_compute; reflexivity|]; intros Hs).
  - specialize (Hs 1%nat 2%nat 6 7 eq_refl eq_refl ltac:(lia)).
    vm_compute in Hs. discriminate Hs.
  - specialize (Hs 1%nat 2%nat 6 7 eq_refl eq_refl ltac:(lia)).
    vm_compute in Hs. discriminate Hs.
  - specialize (Hs 0%nat 1%nat 5 6 eq_refl eq_refl ltac:(lia)).
    vm_compute in Hs. discriminate Hs.
  - specialize (Hs 0%nat 1%nat 5 6 eq_refl eq_refl ltac:(lia)).
    vm_compute in Hs. discriminate Hs.
Qed.

Lemma valid_example_manager order od sd : valid_config (example_manager order od sd).
Proof. repeat split; cbn; try lia. Qed.

Lemma tiles_dispatched_once_witness :
  exists m1 given m2,
    set_tiles blank_tile (example_manager TILE_CENTER false true) = Some m1
    /\ run_calls blank_tile
         [NextTile 0; NextTile 0; ReturnTile 0; ReturnTile 1; NextTile 0;
          NextTile 1; NextTile 0]
         m1 = Some (given, m2)
    /\ NoDup (given_from false given)
    /\ NoDup (given_from true given)
    /\ (TileManager.schedule_denoising (example_manager TILE_CENTER false true)
        = false
        \/ TileManager.only_denoise (example_manager TILE_CENTER false true)
           = true ->
        NoDup (snd <$> given)).
Proof.
  do 3 eexists. split; [vm_compute; reflexivity|].
  split; [vm_compute; reflexivity|].
  eapply (tiles_dispatched_once blank_tile
            (example_manager TILE_CENTER false true) _
            [NextTile 0; NextTile 0; ReturnTile 0; ReturnTile 1; NextTile 0;
             NextTile 1; NextTile 0]).
  - apply valid_example_manager.
  - left. reflexivity.
  - discriminate.
  - vm_compute. reflexivity.
  - vm_compute. reflexivity.
Defined.

Lemma progressive_phases_from_divider_witness :
  next_phases blank_tile 10 (example_preview 8 4)
  = Some (preview_phases 3
          ++ ((fun j => (1, j, 1))
              <$> seqZ 1 (TileManager.num_samples (example_preview 8 4) - 1))).
Proof.
  apply (progressive_phases_from_divider blank_tile (example_preview 8 4) 3 10).
  - repeat split; cbn; try lia. discriminate.
  - reflexivity.
  - reflexivity.
  - lia.
  - reflexivity.
  - vm_compute. lia.
Defined.


Lemma get_divider_zero_resolution_diverges_witness :
  (forall fuel d, get_divider_loop fuel 4 4 0 d = None)
  /\ get_divider 4 4 0 = None
  /\ reset (fresh_manager false (make_int2 64 64) 0 false true TILE_CENTER 1
              false false)
       (BufferParams.mk 4 4 0 0 4 4) 1 = None.
Proof.
  apply (get_divider_zero_resolution_diverges
           (fresh_manager false (make_int2 64 64) 0 false true TILE_CENTER 1
              false false)
           (BufferParams.mk 4 4 0 0 4 4) 1).
  - cbn. unfold INT_MAX. lia.
  - reflexivity.
Defined.

Lemma constructor_state_witness :
  exists m,
    TileManager_new 7 true 16 (make_int2 64 64) 64 false false TILE_CENTER 1
      false = Some m
    /\ TileManager.num_samples m = 0
    /\ TileManager.range_start_sample m = 0
    /\ TileManager.range_num_samples m = -1
    /\ TileManager.schedule_denoising m = false
    /\ State.sample (TileManager.state m) = -1
    /\ State.num_samples (TileManager.state m) = 0
    /\ State.resolution_divider (TileManager.state m) = 1
    /\ State.total_pixel_samples (TileManager.state m) = 0
    /\ State.tiles (TileManager.state m) = []
    /\ State.render_tiles (TileManager.state m) = []
    /\ State.denoise_tiles (TileManager.state m) = []
    /\ done m = false.
Proof.
  apply (constructor_state 7 true 16 (make_int2 64 64) 64 false false
           TILE_CENTER 1 false).
  right. unfold INT_MAX. lia.
Defined.

Lemma hilbert_block_tiles_distinct_witness :
  in_square (2 ^ Z.of_nat 3)
    (hilbert_rotate (2 ^ Z.of_nat 3)
       (mkSpiral (make_int2 0 0) DIRECTION_UP DIRECTION_DOWN 0)
       (hilbert_index_to_pos (2 ^ Z.of_nat 3) 5))
  /\ (hilbert_rotate (2 ^ Z.of_nat 3)
        (mkSpiral (make_int2 0 0) DIRECTION_UP DIRECTION_DOWN 0)
        (hilbert_index_to_pos (2 ^ Z.of_nat 3) 5)
      = hilbert_rotate (2 ^ Z.of_nat 3)
          (mkSpiral (make_int2 0 0) DIRECTION_UP DIRECTION_DOWN 0)
          (hilbert_index_to_pos (2 ^ Z.of_nat 3) 9) -> 5 = 9).
Proof.
  apply (hilbert_block_tiles_distinct 3
           (mkSpiral (make_int2 0 0) DIRECTION_UP DIRECTION_DOWN 0) 5 9);
    vm_compute; (split; [discriminate|reflexivity]).
Defined.

Lemma tiles_partition_image_witness :
  exists m1,
    set_tiles blank_tile (example_manager TILE_CENTER false true) = Some m1
    /\ Z.of_nat (length (State.tiles (TileManager.state m1)))
       = State.num_tiles (TileManager.state m1)
    /\ (forall idx, 0 <= idx < State.num_tiles (TileManager.state m1) ->
          let t := tile_at blank_tile (State.tiles (TileManager.state m1)) idx in
          Tile.index t = idx
          /\ Tile.state t = initial_state (example_manager TILE_CENTER false true)
          /\ Tile.buffers t
             = State.global_buffers
                 (TileManager.state (example_manager TILE_CENTER false true))
          /\ 1 <= Tile.w t <= 64 /\ 1 <= Tile.h t <= 64
          /\ 0 <= Tile.x t /\ Tile.x t + Tile.w t <= 200
          /\ 0 <= Tile.y t /\ Tile.y t + Tile.h t <= 100)
    /\ (forall px py, 0 <= px < 200 -> 0 <= py < 100 ->
          exists idx,
            0 <= idx < State.num_tiles (TileManager.state m1)
            /\ covers (tile_at blank_tile (State.tiles (TileManager.state m1)) idx)
                 px py
            /\ forall idx', 0 <= idx' < State.num_tiles (TileManager.state m1) ->
                 covers
                   (tile_at blank_tile (State.tiles (TileManager.state m1)) idx')
                   px py -> idx' = idx).
Proof.
  eexists. split; [vm_compute; reflexivity|].
  eapply (tiles_partition_image blank_tile
            (example_manager TILE_CENTER false true)).
  - apply valid_example_manager.
  - left. reflexivity.
  - discriminate.
  - vm_compute. reflexivity.
Defined.

Lemma set_tiles_lists_witness :
  exists m1,
    set_tiles blank_tile (example_manager TILE_LEFT_TO_RIGHT false true)
    = Some m1
    /\ Z.of_nat (length (State.render_tiles (TileManager.state m1))) = 2
    /\ Z.of_nat (length (State.denoise_tiles (TileManager.state m1))) = 2
    /\ concat (State.denoise_tiles (TileManager.state m1)) = []
    /\ concat (State.render_tiles (TileManager.state m1))
       ≡ₚ seqZ 0 (State.num_tiles (TileManager.state m1))
    /\ (forall idx, 0 <= idx < State.num_tiles (TileManager.state m1) ->
          0 <= Tile.device
                 (tile_at blank_tile (State.tiles (TileManager.state m1)) idx)
            < 2
          /\ idx ∈ queue_at (State.render_tiles (TileManager.state m1))
                     (Tile.device
                        (tile_at blank_tile
                           (State.tiles (TileManager.state m1)) idx)))
    /\ (forall j idx,
          idx ∈ queue_at (State.render_tiles (TileManager.state m1)) j ->
          Tile.device
            (tile_at blank_tile (State.tiles (TileManager.state m1)) idx) = j)
    /\ (forall j,
          Z.of_nat
            (length (queue_at (State.render_tiles (TileManager.state m1)) j))
          <= 4).
Proof.
  eexists. split; [vm_compute; reflexivity|].
  eapply (set_tiles_lists blank_tile
            (example_manager TILE_LEFT_TO_RIGHT false true)).
  - apply valid_example_manager.
  - left. reflexivity.
  - discriminate.
  - vm_compute. reflexivity.
Defined.

Lemma denoise_waits_for_neighbours_witness :
  exists m1 given m2,
    set_tiles blank_tile (example_manager TILE_CENTER false true) = Some m1
    /\ run_calls blank_tile
         [NextTile 0; ReturnTile 0; ReturnTile 1; ReturnTile 4; ReturnTile 5;
          NextTile 0]
         m1 = Some (given, m2)
    /\ (0 ∈ given_from true given
        \/ 0 ∈ concat (State.denoise_tiles (TileManager.state m2))
        \/ 2 <= rank_at blank_tile (TileManager.state m2) 0 ->
        1 <= rank_at blank_tile (TileManager.state m2) 5)
    /\ (rank_at blank_tile (TileManager.state m2) 0 = 4 ->
        3 <= rank_at blank_tile (TileManager.state m2) 5).
Proof.
  do 3 eexists. split; [vm_compute; reflexivity|].
  split; [vm_compute; reflexivity|].
  eapply (denoise_waits_for_neighbours blank_tile
            (example_manager TILE_CENTER false true) _
            [NextTile 0; ReturnTile 0; ReturnTile 1; ReturnTile 4; ReturnTile 5;
             NextTile 0]).
  - apply valid_example_manager.
  - left. reflexivity.
  - discriminate.
  - reflexivity.
  - reflexivity.
  - vm_compute. reflexivity.
  - vm_compute. reflexivity.
  - vm_compute. split; [discriminate|reflexivity].
  - vm_compute. split; [discriminate|reflexivity].
  - vm_compute. split; [discriminate|]. split; split; discriminate.
Defined.

Lemma all_rendered_all_listed_witness :
  exists m1 given m2,
    set_tiles blank_tile (example_manager TILE_CENTER false true) = Some m1
    /\ run_calls blank_tile
         [ReturnTile 5; ReturnTile 0; ReturnTile 7; NextTile 0; ReturnTile 2;
          ReturnTile 1; ReturnTile 3; ReturnTile 6; ReturnTile 4; NextTile 0;
          NextTile 1]
         m1 = Some (given, m2)
    /\ given_from true given
       ++ concat (State.denoise_tiles (TileManager.state m2))
       ≡ₚ seqZ 0 (grid_w (example_manager TILE_CENTER false true)
                  * grid_h (example_manager TILE_CENTER false true))
    /\ forall idx,
         0 <= idx < grid_w (example_manager TILE_CENTER false true)
                    * grid_h (example_manager TILE_CENTER false true) ->
         2 <= rank_at blank_tile (TileManager.state m2) idx.
Proof.
  do 3 eexists. split; [vm_compute; reflexivity|].
  split; [vm_compute; reflexivity|].
  eapply (all_rendered_all_listed blank_tile
            (example_manager TILE_CENTER false true) _
            [ReturnTile 5; ReturnTile 0; ReturnTile 7; NextTile 0; ReturnTile 2;
             ReturnTile 1; ReturnTile 3; ReturnTile 6; ReturnTile 4; NextTile 0;
             NextTile 1]).
  - apply valid_example_manager.
  - left. reflexivity.
  - discriminate.
  - reflexivity.
  - reflexivity.
  - vm_compute. reflexivity.
  - vm_compute. reflexivity.
  - change (grid_w (example_manager TILE_CENTER false true)
            * grid_h (example_manager TILE_CENTER false true)) with 8.
    intros idx Hidx.
    assert (H : idx = 0 \/ idx = 1 \/ idx = 2 \/ idx = 3 \/ idx = 4
                \/ idx = 5 \/ idx = 6 \/ idx = 7) by lia.
    destruct H as [->|[->|[->|[->|[->|[->|[->| ->]]]]]]]; vm_compute;
      discriminate.
Defined.

Lemma return_order_irrelevant_witness :
  exists m1 m2,
    set_tiles blank_tile (example_manager TILE_CENTER false true) = Some m1
    /\ returned blank_tile m1 [5; 0; 7; 2; 1; 3; 6; 4] = Some m2
    /\ concat (State.denoise_tiles (TileManager.state m2))
       ≡ₚ seqZ 0 (grid_w (example_manager TILE_CENTER false true)
                  * grid_h (example_manager TILE_CENTER false true))
    /\ forall idx,
         0 <= idx < grid_w (example_manager TILE_CENTER false true)
                    * grid_h (example_manager TILE_CENTER false true) ->
         Tile.state (tile_at blank_tile (State.tiles (TileManager.state m2)) idx)
         = Tile.DENOISE.
Proof.
  eexists. 
  assert (Hset : set_tiles blank_tile (example_manager TILE_CENTER false true)
                 = Some ?[m1]) by (vm_compute; reflexivity).
  destruct (return_order_irrelevant blank_tile
              (example_manager TILE_CENTER false true) _
              [5; 0; 7; 2; 1; 3; 6; 4]
              (valid_example_manager _ _ _) (or_introl eq_refl)
              ltac:(discriminate) eq_refl eq_refl Hset)
    as (m2 & H1 & H2 & H3).
  - apply (bool_decide_unpack _). vm_compute. reflexivity.
  - exists m2. split; [exact Hset|]. split; [exact H1|]. split; assumption.
Defined.

Lemma return_tile_advances_witness :
  exists m1 b d m',
    set_tiles blank_tile (example_manager TILE_CENTER false true) = Some m1
    /\ return_tile blank_tile m1 5 = Some (b, d, m')
    /\ m' = TileManager.set_state (TileManager.state m') m1
    /\ state_advanced blank_tile (TileManager.state m1) (TileManager.state m')
    /\ (0 <= 5 < Z.of_nat (length (State.tiles (TileManager.state m1))) ->
        rank_at blank_tile (TileManager.state m1) 5
        < rank_at blank_tile (TileManager.state m') 5).
Proof.
  do 4 eexists. split; [vm_compute; reflexivity|].
  split; [vm_compute; reflexivity|].
  eapply (return_tile_advances blank_tile _ 5). vm_compute. reflexivity.
Defined.

Lemma next_tile_own_device_witness :
  exists m1 given m2 idx m3,
    set_tiles blank_tile (example_manager TILE_CENTER false true) = Some m1
    /\ run_calls blank_tile
         [NextTile 1; ReturnTile 4; ReturnTile 5; ReturnTile 6; ReturnTile 7;
          ReturnTile 0; ReturnTile 1; ReturnTile 2; ReturnTile 3]
         m1 = Some (given, m2)
    /\ next_tile m2 1 = (Some idx, m3)
    /\ Tile.device (tile_at blank_tile (State.tiles (TileManager.state m2)) idx)
       = size_t
           (if TileManager.preserve_tile_device
                 (example_manager TILE_CENTER false true)
            then 1 else 0).
Proof.
  do 5 eexists. split; [vm_compute; reflexivity|].
  split; [vm_compute; reflexivity|].
  split; [vm_compute; reflexivity|].
  eapply (next_tile_own_device blank_tile
            (example_manager TILE_CENTER false true) _
            [NextTile 1; ReturnTile 4; ReturnTile 5; ReturnTile 6; ReturnTile 7;
             ReturnTile 0; ReturnTile 1; ReturnTile 2; ReturnTile 3]).
  - apply valid_example_manager.
  - left. reflexivity.
  - discriminate.
  - vm_compute. reflexivity.
  - vm_compute. reflexivity.
  - vm_compute. reflexivity.
Defined.

Lemma tiles_conserved_witness :
  exists m1 given m2,
    set_tiles blank_tile (example_manager TILE_TOP_TO_BOTTOM false false)
    = Some m1
    /\ run_calls blank_tile
         [NextTile 0; NextTile 1; ReturnTile 0; NextTile 0; NextTile 0;
          NextTile 0; NextTile 0]
         m1 = Some (given, m2)
    /\ given_from
         (TileManager.only_denoise
            (example_manager TILE_TOP_TO_BOTTOM false false)) given
       ++ concat
            (if TileManager.only_denoise
                  (example_manager TILE_TOP_TO_BOTTOM false false)
             then State.denoise_tiles (TileManager.state m2)
             else State.render_tiles (TileManager.state m2))
       ≡ₚ seqZ 0 (grid_w (example_manager TILE_TOP_TO_BOTTOM false false)
                  * grid_h (example_manager TILE_TOP_TO_BOTTOM false false))
    /\ State.num_rendered_tiles (TileManager.state m2)
       = State.num_rendered_tiles
           (TileManager.state (example_manager TILE_TOP_TO_BOTTOM false false))
         + Z.of_nat
             (length
                (given_from
                   (TileManager.only_denoise
                      (example_manager TILE_TOP_TO_BOTTOM false false))
                   given)).
Proof.
  do 3 eexists. split; [vm_compute; reflexivity|].
  split; [vm_compute; reflexivity|].
  eapply (tiles_conserved blank_tile
            (example_manager TILE_TOP_TO_BOTTOM false false) _
            [NextTile 0; NextTile 1; ReturnTile 0; NextTile 0; NextTile 0;
             NextTile 0; NextTile 0]).
  - apply valid_example_manager.
  - left. reflexivity.
  - discriminate.
  - vm_compute. reflexivity.
  - vm_compute. reflexivity.
Defined.
Lemma spiral_walk_witness :
  block (spiral_at 5 24) = make_int2 2 2
  /\ in_square 5 (block (spiral_at 5 7))
  /\ ((7 < 24)%nat -> block (spiral_at 5 7) <> make_int2 2 2)
  /\ (block (spiral_at 5 3) = block (spiral_at 5 7) -> 3%nat = 7%nat).
Proof.
  apply (spiral_walk 2 3 7).
  - lia.
  - vm_compute. lia.
  - vm_compute. lia.
Defined.

Lemma full_chunks_sorted_witness :
  exists m1,
    set_tiles blank_tile (example_manager TILE_LEFT_TO_RIGHT false true)
    = Some m1
    /\ sorted_by
         (TileComparator blank_tile TILE_LEFT_TO_RIGHT
            (image_center (example_manager TILE_LEFT_TO_RIGHT false true))
            (State.tiles (TileManager.state m1)))
         (queue_at (State.render_tiles (TileManager.state m1)) 1).
Proof.
  eexists. split; [vm_compute; reflexivity|].
  eapply (full_chunks_sorted blank_tile
            (example_manager TILE_LEFT_TO_RIGHT false true) _ 1).
  - apply valid_example_manager.
  - reflexivity.
  - right. left. reflexivity.
  - vm_compute. reflexivity.
  - lia.
  - vm_compute. discriminate.
Defined.

Lemma set_tiles_returns_witness :
  exists m',
    set_tiles blank_tile (example_manager TILE_HILBERT_SPIRAL false true)
    = Some m'
    /\ retiled (example_manager TILE_HILBERT_SPIRAL false true) m'
    /\ 1 <= State.num_tiles (TileManager.state m')
    /\ State.num_tiles (TileManager.state m') <= 32768 * 32768
    /\ Z.of_nat (length (State.tiles (TileManager.state m')))
       = State.num_tiles (TileManager.state m')
    /\ State.tile_stride (TileManager.state m')
       = grid_w (example_manager TILE_HILBERT_SPIRAL false true)
    /\ BufferParams.width (State.buffer (TileManager.state m'))
       = image_w (example_manager TILE_HILBERT_SPIRAL false true)
    /\ BufferParams.height (State.buffer (TileManager.state m'))
       = image_h (example_manager TILE_HILBERT_SPIRAL false true).
Proof.
  apply (set_tiles_returns blank_tile
           (example_manager TILE_HILBERT_SPIRAL false true)).
  - apply valid_example_manager.
  - cbn. lia.
  - cbn. lia.
  - cbn. lia.
  - cbn. lia.
  - cbn. lia.
Defined.

Lemma total_pixel_samples_rendered_witness :
  exists m,
    reset (fresh_manager true (make_int2 64 64) 64 false false TILE_CENTER 1
             false true)
      (BufferParams.mk 512 512 0 0 512 512) 4 = Some m
    /\ exists rendered,
         next_pixel_samples blank_tile 10 m = Some rendered
         /\ State.total_pixel_samples (TileManager.state m)
            = rendered + 512 * 512.
Proof.
  eexists. split; [vm_compute; reflexivity|].
  eapply (total_pixel_samples_rendered blank_tile
            (fresh_manager true (make_int2 64 64) 64 false false TILE_CENTER 1
               false true)
            (BufferParams.mk 512 512 0 0 512 512) 4 3 _ 10).
  - repeat split; cbn; try lia. discriminate.
  - reflexivity.
  - reflexivity.
  - reflexivity.
  - cbn. lia.
  - cbn. lia.
  - lia.
  - vm_compute. reflexivity.
  - vm_compute. reflexivity.
  - reflexivity.
  - discriminate.
  - vm_compute. lia.
Defined.
Lemma all_denoised_all_done_witness :
  exists m1 given m2,
    set_tiles blank_tile (example_manager TILE_CENTER false true) = Some m1
    /\ run_calls blank_tile
         [ReturnTile 5; ReturnTile 0; ReturnTile 7; ReturnTile 2; ReturnTile 1;
          ReturnTile 3; ReturnTile 6; ReturnTile 4; NextTile 0; NextTile 1;
          ReturnTile 0; ReturnTile 1; ReturnTile 4; ReturnTile 5]
         m1 = Some (given, m2)
    /\ (forall idx,
          0 <= idx < grid_w (example_manager TILE_CENTER false true)
                     * grid_h (example_manager TILE_CENTER false true) ->
          Tile.state (tile_at blank_tile (State.tiles (TileManager.state m2)) idx)
          = Tile.DENOISED ->
          exists nb,
            0 <= nb < grid_w (example_manager TILE_CENTER false true)
                      * grid_h (example_manager TILE_CENTER false true)
            /\ adjacent (grid_w (example_manager TILE_CENTER false true)) idx nb
            /\ rank_at blank_tile (TileManager.state m2) nb < 3)
    /\ ((forall idx,
           0 <= idx < grid_w (example_manager TILE_CENTER false true)
                      * grid_h (example_manager TILE_CENTER false true) ->
           3 <= rank_at blank_tile (TileManager.state m2) idx) ->
        forall idx,
          0 <= idx < grid_w (example_manager TILE_CENTER false true)
                     * grid_h (example_manager TILE_CENTER false true) ->
          Tile.state (tile_at blank_tile (State.tiles (TileManager.state m2)) idx)
          = Tile.DONE).
Proof.
  do 3 eexists. split; [vm_compute; reflexivity|].
  split; [vm_compute; reflexivity|].
  eapply (all_denoised_all_done blank_tile
            (example_manager TILE_CENTER false true) _
            [ReturnTile 5; ReturnTile 0; ReturnTile 7; ReturnTile 2;
             ReturnTile 1; ReturnTile 3; ReturnTile 6; ReturnTile 4;
             NextTile 0; NextTile 1; ReturnTile 0; ReturnTile 1; ReturnTile 4;
             ReturnTile 5]).
  - apply valid_example_manager.
  - left. reflexivity.
  - discriminate.
  - reflexivity.
  - reflexivity.
  - vm_compute. reflexivity.
  - vm_compute. reflexivity.
Defined.

Lemma construct_transform_zero_threshold_full_rank_witness :
  snd (kernel_filter_construct_transform 10
         (fun _ _ _ _ _ => replicate 10 float_one)
         (fun _ _ _ _ _ => replicate 10 float_one)
         (fun v => v)
         (fun matrix _ _ _ => matrix)
         (fun matrix transform _ _ => (matrix, transform))
         0 [] 1 1 (0, 0, 4, 4) 1 (replicate 100 float_zero) 1
         (S754_zero true)) = 10.
Proof.
  apply (construct_transform_zero_threshold_full_rank 10
           (fun _ _ _ _ _ => replicate 10 float_one)
           (fun _ _ _ _ _ => replicate 10 float_one)
           (fun v => v)
           (fun matrix _ _ _ => matrix)
           (fun matrix transform _ _ => (matrix, transform))
           0 [] 1 1 (0, 0, 4, 4) 1 (replicate 100 float_zero) 1
           (S754_zero true)).
  - lia.
  - left. exists true. reflexivity.
Defined.
